(** * rene.py: the native rename engine, embedded and verified

    A shallow embedding of [src/rene/rene.py] (David McCracken's extended
    file rename utility): the increment primitive [nextName], the extension
    splitter [greedyext], the rule parser [scanint]/[prepRule], collision
    avoidance [avoid], the native filter compiler and replacement walker
    [native], the batch driver [procDir] and the recursive driver [procTree].

    Conventions of the embedding.
    - Python [str] is [string], one [ascii] per character: names are taken
      over the ASCII alphabet, on which the character classes ([isdigit],
      [isalpha], [islower], case folding) are Python's.
    - Python [int] is [Z].  A rule's working list holds ints and strings, so
      its elements are [pyval].
    - A Python exception is a value of [exn]; functions that can raise return
      [res].  A function that can fall off its end returns [option] inside
      [res] ([None] is Python's [None]).
    - The module-level globals of rene.py (caStart, rules, lrep, ...) are
      fields of configuration records or explicit state.
    - The file system is consulted through oracles ([exists], [samefile],
      a directory listing); [print] calls are not modelled.
    - Filter extension clauses (the part of a filter after [/]) are outside
      this development: [filArgx] is empty throughout. *)

From Stdlib Require Import ZArith NArith Arith Bool List String Ascii Lia.
From Stdlib Require Import DecimalString Sorted.
From Stdlib Require DecimalFacts DecimalPos.
From Stdlib Require Import Permutation FinFun.
Import ListNotations.

#[local] Open Scope string_scope.
#[local] Open Scope Z_scope.

(** ** Python runtime fragments *)

Module Py.

Inductive exn : Type :=
| IndexError | ValueError | TypeError | NameError | AttributeError | KeyError.

Inductive res (A : Type) : Type :=
| Ok (a : A)
| Exc (e : exn).
Arguments Ok {A} a.
Arguments Exc {A} e.

Definition bind {A B : Type} (m : res A) (k : A -> res B) : res B :=
  match m with
  | Ok a => k a
  | Exc e => Exc e
  end.

Inductive pyval : Type :=
| VInt (z : Z)
| VStr (s : string).

Definition as_int (v : pyval) : res Z :=
  match v with VInt z => Ok z | VStr _ => Exc TypeError end.

Definition pyval_eqb (a b : pyval) : bool :=
  match a, b with
  | VInt x, VInt y => x =? y
  | VStr x, VStr y => String.eqb x y
  | _, _ => false
  end.

(** Characters. *)

Definition ord (c : ascii) : Z := Z.of_N (N_of_ascii c).
Definition chr (z : Z) : ascii := ascii_of_N (Z.to_N z).

Definition newline : ascii := "010"%char.

Definition isdigit (c : ascii) : bool := (48 <=? ord c) && (ord c <=? 57).
Definition isupper (c : ascii) : bool := (65 <=? ord c) && (ord c <=? 90).
Definition islower (c : ascii) : bool := (97 <=? ord c) && (ord c <=? 122).
Definition isalpha (c : ascii) : bool := isupper c || islower c.

(** The blanks [int()] strips from both ends of its argument, on the
    ASCII range: TAB LF VT FF CR and the space. *)
Definition isspace (c : ascii) : bool :=
  ((9 <=? ord c) && (ord c <=? 13)) || (ord c =? 32).

Definition upper (c : ascii) : ascii := if islower c then chr (ord c - 32) else c.
Definition lower (c : ascii) : ascii := if isupper c then chr (ord c + 32) else c.

(** Strings. *)

Definition len (s : string) : Z := Z.of_nat (String.length s).

Fixpoint last_char (s : string) : option ascii :=
  match s with
  | EmptyString => None
  | String c EmptyString => Some c
  | String _ s' => last_char s'
  end.


(** [s[i]] for a non-negative index. *)
Definition char_at (s : string) (i : nat) : res ascii :=
  match String.get i s with
  | Some c => Ok c
  | None => Exc IndexError
  end.

(** Slice bounds as Python clamps them. *)
Definition norm_idx (n i : Z) : Z :=
  if i <? 0 then Z.max 0 (i + n) else Z.min i n.

(** [s[lo:hi]], either bound possibly omitted. *)
Definition slice (s : string) (lo hi : option Z) : string :=
  let n := len s in
  let a := match lo with None => 0 | Some i => norm_idx n i end in
  let b := match hi with None => n | Some j => norm_idx n j end in
  String.substring (Z.to_nat a) (Z.to_nat (b - a)) s.

(** [s.startswith(p)] *)
Fixpoint starts_with (p s : string) : bool :=
  match p with
  | EmptyString => true
  | String a p' =>
      match s with
      | String b s' => Ascii.eqb a b && starts_with p' s'
      | EmptyString => false
      end
  end.

(** [sub in s] for strings: substring containment. *)
Fixpoint str_in (sub s : string) : bool :=
  if String.prefix sub s then true
  else match s with
       | EmptyString => false
       | String _ s' => str_in sub s'
       end.

(** [x in l] for a list of strings. *)
Definition in_list (x : string) (l : list string) : bool :=
  existsb (String.eqb x) l.

Fixpoint repeat_chr (c : ascii) (n : nat) : string :=
  match n with
  | O => EmptyString
  | S n' => String c (repeat_chr c n')
  end.

Fixpoint join (l : list string) : string :=
  match l with
  | [] => EmptyString
  | s :: l' => s ++ join l'
  end.

(** [s.split(sep)] for a one-character separator. *)
Fixpoint split_on (sep : ascii) (s : string) : list string :=
  match s with
  | EmptyString => [EmptyString]
  | String c s' =>
      if Ascii.eqb c sep then EmptyString :: split_on sep s'
      else match split_on sep s' with
           | [] => [String c EmptyString]
           | w :: ws => String c w :: ws
           end
  end.

(** Integers and text. *)

(** ['%d' % z] *)
Definition str_of_Z (z : Z) : string := NilZero.string_of_int (Z.to_int z).

Definition digit_val (c : ascii) : Z := ord c - 48.

(** [int(s)] for a run of ASCII digits. *)
Definition int_of_digits (s : string) : Z :=
  fold_left (fun acc c => acc * 10 + digit_val c) (list_ascii_of_string s) 0.

(** ['%0*d' % (w, v)]: zero padding to width [w], the sign counted in the
    width; a negative width left-justifies with spaces. *)
Definition fmt_0d (w v : Z) : string :=
  let body := str_of_Z (Z.abs v) in
  let sign := if v <? 0 then "-" else "" in
  let used := len sign + len body in
  if 0 <=? w
  then sign ++ repeat_chr "0" (Z.to_nat (w - used)) ++ body
  else sign ++ body ++ repeat_chr " " (Z.to_nat (- w - used)).

(** Value of a digit in a base up to 16, if it is one. *)
Definition digit_in (base : Z) (c : ascii) : option Z :=
  let v := if isdigit c then ord c - 48
           else if (97 <=? ord c) && (ord c <=? 102) then ord c - 87
           else if (65 <=? ord c) && (ord c <=? 70) then ord c - 55
           else 16 in
  if v <? base then Some v else None.

(** Digits with single underscores between them; [prev_us] tells that the
    previous character was an underscore, [any] that a digit was read. *)
Fixpoint int_digits (base : Z) (s : string) (acc : Z) (prev_us any : bool)
  : option Z :=
  match s with
  | EmptyString => if any && negb prev_us then Some acc else None
  | String c s' =>
      if Ascii.eqb c "_"
      then if prev_us || negb any then None
           else int_digits base s' acc true any
      else match digit_in base c with
           | Some d => int_digits base s' (acc * base + d) false true
           | None => None
           end
  end.

Fixpoint lstrip (s : string) : string :=
  match s with
  | String c s' => if isspace c then lstrip s' else s
  | EmptyString => EmptyString
  end.

Fixpoint rstrip (s : string) : string :=
  match s with
  | EmptyString => EmptyString
  | String c s' =>
      match rstrip s' with
      | EmptyString => if isspace c then EmptyString else String c EmptyString
      | r => String c r
      end
  end.

(** The base prefix [0x]/[0b] of [int(s, base)], with the one underscore
    allowed right after it. *)
Definition skip_base_prefix (base : Z) (s : string) : string :=
  match s with
  | String "0" (String p r) =>
      if ((base =? 16) && (Ascii.eqb (upper p) "X"))
         || ((base =? 2) && (Ascii.eqb (upper p) "B"))
      then match r with
           | String "_" r' => r'
           | _ => r
           end
      else s
  | _ => s
  end.

(** [int(s, base)] for base 2, 10 or 16; [ValueError] on a malformed
    literal. *)
Definition py_int (base : Z) (s : string) : res Z :=
  let s1 := rstrip (lstrip s) in
  let '(neg, s2) :=
    match s1 with
    | String "-" r => (true, r)
    | String "+" r => (false, r)
    | _ => (false, s1)
    end in
  match int_digits base (skip_base_prefix base s2) 0 false false with
  | Some n => Ok (if neg then - n else n)
  | None => Exc ValueError
  end.

End Py.

Export Py.

Notation "x <- m ;; k" := (bind m (fun x => k))
  (at level 61, m at next level, right associativity).

(** ** The program *)

Module Rene.

(** *** Constants of rene.py *)

Definition rvAdd : string := ":".
Definition rvRule : string := "?".
Definition rvSkip : string := "/".
Definition rvCopy : string := "*".
Definition rvars : string := rvAdd ++ rvRule ++ rvSkip ++ rvCopy.
Definition consumers : string := rvRule ++ rvSkip ++ rvCopy.

Definition bumpRule : string := "B".
Definition sliceRule : string := "S".
Definition incRule : string := "I".

Definition I_START : nat := 1.
Definition I_STEP : nat := 2.
Definition I_WIDTH : nat := 3.
Definition I_MODE : nat := 4.
Definition I_RELOAD : nat := 5.
Definition I_E : Z := 1.
Definition I_R : Z := 2.

(** A rule's working list, as [prepRule] builds it: the rule letter, then
    its parameters. *)
Definition rule : Type := list pyval.

(** [repRules[key]]: the default working list of each rule, its head
    replaced by the replacement variable the rule serves. *)
Definition repRules (key : string) : res rule :=
  if String.eqb key sliceRule then Ok [VStr rvRule; VInt 2; VInt 2; VInt 0]
  else if String.eqb key bumpRule then Ok [VStr rvRule; VInt 1; VInt 0]
  else if String.eqb key incRule
       then Ok [VStr rvAdd; VInt 0; VInt 1; VInt 1; VInt 0; VInt 0]
  else Exc KeyError.

(** *** scanint *)

(** [[
def scanint(str) :
    if str == "" : return 0
    v = str if str[0] != '-' else str[1:]
    if v[0] != '0' :
        v = int(v)
    elif len(v) > 1 and v[1].upper() == 'X' :
        v = int(v, 16)
    else :
        v = int(v, 2)
    return v if str[0] != '-' else -v
]] *)
Definition scanint (str : string) : res Z :=
  match str with
  | EmptyString => Ok 0
  | String c0 rest =>
      let minus := Ascii.eqb c0 "-" in
      let v := if minus then rest else str in
      match v with
      | EmptyString => Exc IndexError
      | String v0 v' =>
          n <- (if negb (Ascii.eqb v0 "0") then py_int 10 v
                else match v' with
                     | String v1 _ =>
                         if Ascii.eqb (upper v1) "X" then py_int 16 v
                         else py_int 2 v
                     | EmptyString => py_int 2 v
                     end) ;;
          Ok (if minus then - n else n)
      end
  end.

(** *** bitmapChars *)

(** [[
def bitmapChars(str, pat) :
    bm = 0
    for idx, chr in enumerate(pat) :
        if str.find(chr) >= 0 :
            bm |= 1 << idx
    return bm
]]
    [str] is a rule parameter: an int has no [find]. *)
Fixpoint bitmapChars_from (idx : Z) (str : string) (pat : string) (bm : Z) : Z :=
  match pat with
  | EmptyString => bm
  | String c pat' =>
      bitmapChars_from (idx + 1) str pat'
        (if str_in (String c EmptyString) str
         then Z.lor bm (Z.shiftl 1 idx) else bm)
  end.

Definition bitmapChars (str : pyval) (pat : string) : res Z :=
  match str with
  | VStr s => Ok (bitmapChars_from 0 s pat 0)
  | VInt _ => Exc AttributeError
  end.

(** *** greedyext *)

(** Longest prefix of characters satisfying [p], and the rest. *)
Fixpoint span (p : ascii -> bool) (s : string) : string * string :=
  match s with
  | EmptyString => (EmptyString, EmptyString)
  | String c s' =>
      if p c then let '(a, b) := span p s' in (String c a, b)
      else (EmptyString, s)
  end.

Definition is_dot (c : ascii) : bool := Ascii.eqb c ".".
Definition not_dot (c : ascii) : bool := negb (is_dot c).
Definition not_nl (c : ascii) : bool := negb (Ascii.eqb c newline).

(** [[
extpat = re.compile(r'(\.*[^.]+)(\..+)*')
def greedyext(str) :
    pm = re.match(extpat, str)
    if not pm : return ["", ""]
    rootx = list(pm.groups())
    if rootx[1] is None : rootx[1] = ""
    return rootx
]]
    [re.match] anchors at the start only.  Group 1 is the leading dots and
    the longest run of non-dot characters after them, which must not be
    empty (giving dots back cannot help: the next character stays a dot).
    Group 2 repeats [\..+]; its first round takes a dot and, greedily,
    every following character up to a newline, at least one, and no
    second round can start there, so the group is that text or unset. *)
Definition greedyext (str : string) : string * string :=
  let '(dots, r1) := span is_dot str in
  let '(run, r2) := span not_dot r1 in
  match run with
  | EmptyString => (EmptyString, EmptyString)
  | _ =>
      let root := dots ++ run in
      match r2 with
      | String d r3 =>
          let '(body, _) := span not_nl r3 in
          match body with
          | EmptyString => (root, EmptyString)
          | _ => (root, String d body)
          end
      | EmptyString => (root, EmptyString)
      end
  end.

(** *** nextName *)

(** [[ [0-9]+$ ]] at the start of [s]: the longest digit run, then the end
    of the string or the newline that ends it. *)
Definition number_at_end (s : string) : option string :=
  let '(ds, r) := span isdigit s in
  match ds with
  | EmptyString => None
  | _ => if String.eqb r "" || String.eqb r (String newline "")
         then Some ds else None
  end.

(** [[ (.*?)([0-9]+$) ]] matched at the start of [s]: the lazy group grows
    one character at a time, never over a newline. *)
Fixpoint lazy_number (s : string) : option (string * string) :=
  match number_at_end s with
  | Some ds => Some (EmptyString, ds)
  | None =>
      match s with
      | EmptyString => None
      | String c s' =>
          if not_nl c
          then match lazy_number s' with
               | Some (g, ds) => Some (String c g, ds)
               | None => None
               end
          else None
      end
  end.

(** [[ re.search(r'(.*?)([0-9]+$)', s) ]]: the leftmost start that
    matches; the result is the pair of groups. *)
Fixpoint search_number (s : string) : option (string * string) :=
  match lazy_number s with
  | Some r => Some r
  | None =>
      match s with
      | EmptyString => None
      | String _ s' => search_number s'
      end
  end.

(** [[
def nextName(str, step = 1, offset = 0) :
    if str[-1].isdigit() :
        ng = re.search(r'(.*?)([0-9]+$)',str[offset:])
        if ng :
            sn = ng.groups()[1]
            v = int(sn) + step
            return str[0:offset] + ng.groups()[0] + '%0*d' % (len(sn), v)
    elif str[-1].isalpha() :
        if str[-1].islower() :
            firstChr = 'a'
            lastChr = 'z'
        else :
            firstChr = 'A'
            lastChr = 'Z'
        end = ord(lastChr)
        nextord = ord(str[-1]) + step % 26
        if step < 0 : # e.g. B - 1 = A, A - 1 = ZZ
            return str[0:-1] + (
            chr(nextord - 26) if nextord > end else lastChr + chr(nextord))
        else : # e.g. Y + 1 = Z, Z + 1 = AA
            return str[0:-1] + (
            firstChr + chr(nextord - 26) if nextord > end else chr(nextord))
    else : # Punctuation
        return str + '%d' % step # Append step to increment.
]]
    The result is [None] when the digit branch finds no number. *)
Definition nextName (str : string) (step : Z) (offset : Z)
  : res (option string) :=
  match last_char str with
  | None => Exc IndexError
  | Some c =>
      if isdigit c then
        match search_number (slice str (Some offset) None) with
        | Some (g0, sn) =>
            let v := int_of_digits sn + step in
            Ok (Some (slice str (Some 0) (Some offset) ++ g0
                      ++ fmt_0d (len sn) v))
        | None => Ok None
        end
      else if isalpha c then
        let firstChr := if islower c then "a"%char else "A"%char in
        let lastChr := if islower c then "z"%char else "Z"%char in
        let end_ := ord lastChr in
        let nextord := ord c + step mod 26 in
        if step <? 0
        then Ok (Some (slice str (Some 0) (Some (-1)) ++
                       (if nextord >? end_
                        then String (chr (nextord - 26)) ""
                        else String lastChr (String (chr nextord) ""))))
        else Ok (Some (slice str (Some 0) (Some (-1)) ++
                       (if nextord >? end_
                        then String firstChr (String (chr (nextord - 26)) "")
                        else String (chr nextord) "")))
      else Ok (Some (str ++ str_of_Z step))
  end.

(** *** prepRule *)

Definition nth_res {A : Type} (l : list A) (i : nat) : res A :=
  match nth_error l i with
  | Some a => Ok a
  | None => Exc IndexError
  end.

(** [l[i] = a] *)
Fixpoint set_nth {A : Type} (l : list A) (i : nat) (a : A) : res (list A) :=
  match l, i with
  | [], _ => Exc IndexError
  | _ :: l', O => Ok (a :: l')
  | x :: l', S i' => l'' <- set_nth l' i' a ;; Ok (x :: l'')
  end.

(** One pass of the parameter loop at position [i]: [w] is [wlist[i]], a
    string of the split argument, and [d] is [defRule[i]].
[[
        elif wlist[i] == "" : # Blank placeholder, e.g. B//0x44
            wlist[i] = defRule[i]
        else :
            v = wlist[i]
            if v[0].isdigit() or v[0] == '-' and v[1].isdigit() :
                wlist[i] = (scanint(v))
]] *)
Definition prepParam (w : string) (d : pyval) : res pyval :=
  match w with
  | EmptyString => Ok d
  | String v0 v' =>
      if isdigit v0 then n <- scanint w ;; Ok (VInt n)
      else if Ascii.eqb v0 "-" then
        v1 <- char_at w 1 ;;
        if isdigit v1 then n <- scanint w ;; Ok (VInt n) else Ok (VStr w)
      else Ok (VStr w)
  end.

(** The loop [for i in range(1, len(defRule))], position by position:
    [ws] is [wlist[i:]] and [ds] is [defRule[i:]].  Where [wlist] has run
    out the default is appended; parameters beyond the defaults stay as
    they are. *)
Fixpoint prepParams (ws : list string) (ds : list pyval) : res (list pyval) :=
  match ds with
  | [] => Ok (map VStr ws)
  | d :: ds' =>
      match ws with
      | [] => r <- prepParams [] ds' ;; Ok (d :: r)
      | w :: ws' =>
          x <- prepParam w d ;;
          r <- prepParams ws' ds' ;;
          Ok (x :: r)
      end
  end.

(** [[
def prepRule(arg, defRule, rvType) :
    wlist = arg.split('/')
    if len(wlist[0]) > 1 :
        raise ValueError
    if defRule[0] != rvType :
        raise ValueError
    for i in range(1, len(defRule)) :
        ...
    if arg[0] == 'I' and wlist[I_MODE] != 0 :
        wlist[I_MODE] = bitmapChars(wlist[I_MODE], 'ER')
        wlist[I_RELOAD] = wlist[I_START]
    return wlist
]] *)
Definition prepRule (arg : string) (defRule : rule) (rvType : string)
  : res rule :=
  match split_on "/" arg with
  | [] => Exc IndexError
  | w0 :: ws =>
      if 1 <? len w0 then Exc ValueError
      else
        d0 <- nth_res defRule 0 ;;
        if negb (pyval_eqb d0 (VStr rvType)) then Exc ValueError
        else
          ps <- prepParams ws (tl defRule) ;;
          let wlist := VStr w0 :: ps in
          a0 <- char_at arg 0 ;;
          if Ascii.eqb a0 "I" then
            mode <- nth_res wlist I_MODE ;;
            if negb (pyval_eqb mode (VInt 0)) then
              bm <- bitmapChars mode "ER" ;;
              wlist1 <- set_nth wlist I_MODE (VInt bm) ;;
              start <- nth_res wlist1 I_START ;;
              set_nth wlist1 I_RELOAD start
            else Ok wlist
          else Ok wlist
  end.

(** The rule arguments of the command line, in order ([sys.argv[3:]]
    without the options):
[[
    rvIdx = 0 # rule variable index.
    ...
                    if len(rulevars) <= rvIdx :
                        exit(1)
                    rules.append(prepRule(arg, repRules[arg[0]], rulevars[rvIdx]))
                    if rules[rvIdx][0] == 'I' :
                        irules.append(rvIdx) # In case of recursion with reload.
                    rvIdx += 1
                except KeyError :
                    exit(1)
                except ValueError :
                    exit(1)
]]
    [Ok None] is [exit(1)]; other exceptions are not caught. *)
Fixpoint prepRules (args : list string) (rulevars : list string)
  (rvIdx : nat) (rules : list rule) (irules : list nat)
  : res (option (list rule * list nat)) :=
  match args with
  | [] => Ok (Some (rules, irules))
  | arg :: args' =>
      match nth_error rulevars rvIdx with
      | None => Ok None
      | Some rv =>
          a0 <- char_at arg 0 ;;
          match repRules (String a0 "") with
          | Exc _ => Ok None
          | Ok defRule =>
              match prepRule arg defRule rv with
              | Exc ValueError => Ok None
              | Exc KeyError => Ok None
              | Exc e => Exc e
              | Ok r =>
                  let rules' := (rules ++ [r])%list in
                  r' <- nth_res rules' rvIdx ;;
                  h <- nth_res r' 0 ;;
                  prepRules args' rulevars (S rvIdx) rules'
                    (if pyval_eqb h (VStr "I") then (irules ++ [rvIdx])%list
                     else irules)
              end
          end
      end
  end.

(** *** avoid *)

(** The -X option's settings. *)
Record CA : Type := mkCA {
  caStop : bool;
  caContinue : bool;
  caPun : string;
  caPunPos : Z;
  caMerge : bool;
  caStart : string
}.

(** The defaults of rene.py: number appended, starting at 0. *)
Definition defaultCA : CA := mkCA false false "" 1 false "0".

Section Avoid.

Variable os_path_exists : string -> bool.
Variable ca : CA.
Variable newList : list string.

(** [[ not tname in newList and not os.path.exists(tname) ]] *)
Definition free (tname : string) : bool :=
  negb (in_list tname newList) && negb (os_path_exists tname).

(** The loop [for i in range(100)] of [avoid], over the remaining values
    [idxs] of [i].  [root] is [rootExt[0]], [ext] is [rootExt[1]]; [rootLen]
    is unbound until the first pass of the appending scheme.  The first
    component of the result lists the names tested, in order.
[[
    for i in range(100) :
        if caPunLen != 0 :
            rootExt[0] += caPun
        tname = rootExt[0] + rootExt[1]
        if not tname in newList and not os.path.exists(tname) :
            break;
        if i > 9 :
            return ""
        if caPunLen != 0 :
            rootExt[0] = rootExt[0][:-caPunLen]
        if caMerge :
            rootExt[0] = nextName(rootExt[0])
        else :
            if i == 0 :
                rootLen = len(rootExt[0])
                rootExt[0] += caStart
            else :
                rootExt[0] = nextName(rootExt[0], 1, rootLen)
        caNames += '>' + rootExt[0] + (caPun if caPunLen != 0 else "")
    return rootExt[0] + rootExt[1]
]]
    A [None] from [nextName] makes the next concatenation raise. *)
Fixpoint avoid_loop (idxs : list Z) (caPunLen : Z) (ext : string)
  (root : string) (rootLen : option Z) (tested : list string)
  : list string * res string :=
  match idxs with
  | [] => (tested, Ok (root ++ ext))
  | i :: idxs' =>
      let root1 := if negb (caPunLen =? 0) then root ++ caPun ca else root in
      let tname := root1 ++ ext in
      let tested' := (tested ++ [tname])%list in
      if free tname then (tested', Ok (root1 ++ ext))
      else if 9 <? i then (tested', Ok "")
      else
        let root2 := if negb (caPunLen =? 0)
                     then slice root1 None (Some (- caPunLen)) else root1 in
        if caMerge ca then
          match nextName root2 1 0 with
          | Ok (Some r) => avoid_loop idxs' caPunLen ext r rootLen tested'
          | Ok None => (tested', Exc TypeError)
          | Exc e => (tested', Exc e)
          end
        else if i =? 0 then
          avoid_loop idxs' caPunLen ext (root2 ++ caStart ca)
            (Some (len root2)) tested'
        else
          match rootLen with
          | None => (tested', Exc NameError)
          | Some rl =>
              match nextName root2 1 rl with
              | Ok (Some r) => avoid_loop idxs' caPunLen ext r rootLen tested'
              | Ok None => (tested', Exc TypeError)
              | Exc e => (tested', Exc e)
              end
          end
  end.

Definition range (n : nat) : list Z := map Z.of_nat (seq 0 n).

(** [[
def avoid(name) :
    rootExt = greedyext(name)
    caPunLen = 0
    if caPun != "" :
        if caPunPos == 0 :
            rootExt[0] = caPun + rootExt[0]
        elif caPunPos == 1 :
            rootExt[0] += caPun
        elif caPunPos == 2 :
            caPunLen = len(caPun) # Used only to peel off the CA str.
    for i in range(100) :
        ...
]] *)
Definition avoid_run (name : string) : list string * res string :=
  let '(root, ext) := greedyext name in
  let decorated := negb (String.eqb (caPun ca) "") in
  let root0 :=
    if decorated && (caPunPos ca =? 0) then caPun ca ++ root
    else if decorated && (caPunPos ca =? 1) then root ++ caPun ca
    else root in
  let caPunLen :=
    if decorated && negb (caPunPos ca =? 0) && negb (caPunPos ca =? 1)
       && (caPunPos ca =? 2)
    then len (caPun ca) else 0 in
  avoid_loop (range 100) caPunLen ext root0 None [].

Definition avoid (name : string) : res string := snd (avoid_run name).

(** The names [avoid] tests against [newList] and the directory. *)
Definition avoid_tested (name : string) : list string := fst (avoid_run name).

End Avoid.

(** *** The filter: from the argument to the compiled pattern *)

(** What the filter argument compiles to.  [filRe] is the regular
    expression text handed to [re.compile]. *)
Record Filter : Type := mkFilter {
  filRe : string;
  maxFloat : Z;
  noDotName : bool
}.

(** The loop [for c in filArg] with no filter extension ([filArgx] empty,
    so every [?] takes the default branch):
[[
    for c in filArg :
        if c == '.' :
            filRe += r'\.'
        elif c == '*' :
            maxFloat += 1
            filRe += '(.*?)'
        elif c == '?' :
            maxFloat += 1
            if filxIdx >= len(filArgx) :
                filRe += '(.)' # Default ? means any one character.
            ...
        else :
            filRe += c
]] *)
Fixpoint filter_loop (filArg : string) (filRe : string) (maxFloat : Z)
  : string * Z :=
  match filArg with
  | EmptyString => (filRe, maxFloat)
  | String c rest =>
      if Ascii.eqb c "." then filter_loop rest (filRe ++ "\.") maxFloat
      else if Ascii.eqb c "*"
      then filter_loop rest (filRe ++ "(.*?)") (maxFloat + 1)
      else if Ascii.eqb c "?"
      then filter_loop rest (filRe ++ "(.)") (maxFloat + 1)
      else filter_loop rest (filRe ++ String c "") maxFloat
  end.

(** [[
    noDotName = True if filArg[:2] == '*.' else False
    fadd = "" # Filter addition is empty unless the argument ends with '*.'
    maxFloat = -1
    if filArg[-2:] == '*.' :
        filArg = filArg[:-2]
        fadd = nodot_group # This is added after RE conversion but before compile.
        maxFloat = 0
    elif filArg[-1] == '.' :
        filArg = filArg[:-1]
    filRe = ""
    ...
    filRe += fadd + '$'
]]
    [nodot_group] stands for the source's literal, a capture group of any
    number of characters other than the dot.  An empty [filArg] raises at
    [filArg[-1]]. *)
Definition nodot_group : string := "([^.]*)".

Definition compileFilter (filArg : string) : res Filter :=
  let ndn := String.eqb (slice filArg None (Some 2)) "*." in
  if String.eqb (slice filArg (Some (-2)) None) "*." then
    let '(re, mf) := filter_loop (slice filArg None (Some (-2))) "" 0 in
    Ok (mkFilter (re ++ nodot_group ++ "$") mf ndn)
  else
    match last_char filArg with
    | None => Exc IndexError
    | Some c =>
        let filArg' := if Ascii.eqb c "." then slice filArg None (Some (-1))
                       else filArg in
        let '(re, mf) := filter_loop filArg' "" (-1) in
        Ok (mkFilter (re ++ "" ++ "$") mf ndn)
    end.

(** *** The regular expressions the compiler emits

    [re.compile] is modelled on the expressions [compileFilter] produces
    from a filter whose literal characters are not special to [re]:
    literal characters, the escaped dot, the three capture groups and the
    final [$]. *)

Inductive atom : Type :=
| Chr (c : ascii)     (* a literal character, the escaped dot included *)
| Any1                (* the group "(.)" *)
| LazyAny             (* the group "(.*?)" *)
| NoDotStar.          (* the group [nodot_group] *)

(** The characters that are special in a Python regular expression. *)
Definition re_special (c : ascii) : bool :=
  str_in (String c "") ".^$*+?{}[]\|()".

Fixpoint drop (n : nat) (s : string) : string :=
  match n, s with
  | O, _ => s
  | S n', String _ s' => drop n' s'
  | S _, EmptyString => EmptyString
  end.

(** Reads the expression left to right; [None] when it leaves the
    fragment above. *)
Fixpoint re_parse (fuel : nat) (re : string) : option (list atom) :=
  match fuel with
  | O => None
  | S fuel' =>
      if String.eqb re "$" then Some []
      else if starts_with "(.*?)" re
      then option_map (cons LazyAny) (re_parse fuel' (drop 5 re))
      else if starts_with "(.)" re
      then option_map (cons Any1) (re_parse fuel' (drop 3 re))
      else if starts_with nodot_group re
      then option_map (cons NoDotStar) (re_parse fuel' (drop 7 re))
      else if starts_with "\." re
      then option_map (cons (Chr ".")) (re_parse fuel' (drop 2 re))
      else match re with
           | EmptyString => None
           | String c re' =>
               if re_special c then None
               else option_map (cons (Chr c)) (re_parse fuel' re')
           end
  end.

(** A compiled pattern: its atoms, always closed by [$], and whether
    [re.IGNORECASE] is set. *)
Record pattern : Type := mkPattern {
  atoms : list atom;
  ignorecase : bool
}.

Definition re_compile (re : string) (ignorecase : bool) : option pattern :=
  option_map (fun a => mkPattern a ignorecase)
             (re_parse (S (String.length re)) re).

(** Literal comparison, case folded under [re.IGNORECASE]. *)
Definition chr_eq (ic : bool) (c d : ascii) : bool :=
  if ic then Ascii.eqb (lower c) (lower d) else Ascii.eqb c d.

(** [$]: the end of the string, or just before a newline that ends it. *)
Definition at_end (s : string) : bool :=
  String.eqb s "" || String.eqb s (String newline "").

Definition push_char (d : ascii) (r : option (list string))
  : option (list string) :=
  match r with
  | Some (g :: gs) => Some (String d g :: gs)
  | _ => None
  end.

Definition open_group (r : option (list string)) : option (list string) :=
  option_map (cons EmptyString) r.

(** The group "(.*?)" followed by the rest of the pattern [k]: first
    without a further character, then with one more, never a newline. *)
Fixpoint lazy_group (k : string -> option (list string)) (s : string)
  : option (list string) :=
  match k s with
  | Some gs => Some (EmptyString :: gs)
  | None =>
      match s with
      | String d s' => if not_nl d then push_char d (lazy_group k s') else None
      | EmptyString => None
      end
  end.

(** The group [nodot_group] followed by the rest of the pattern [k]:
    first with one more character, then without. *)
Fixpoint greedy_nodot (k : string -> option (list string)) (s : string)
  : option (list string) :=
  match s with
  | String d s' =>
      if not_dot d
      then match push_char d (greedy_nodot k s') with
           | Some gs => Some gs
           | None => open_group (k s)
           end
      else open_group (k s)
  | EmptyString => open_group (k s)
  end.

(** Backtracking match of the atoms at the start of the string, in the
    order [re] tries the alternatives: a lazy group first tries to stop, a
    greedy one first tries to go on.  The result is [groups()]. *)
Fixpoint match_atoms (ic : bool) (p : list atom)
  : string -> option (list string) :=
  match p with
  | [] => fun s => if at_end s then Some [] else None
  | Chr c :: p' =>
      fun s =>
        match s with
        | String d s' => if chr_eq ic c d then match_atoms ic p' s' else None
        | EmptyString => None
        end
  | Any1 :: p' =>
      fun s =>
        match s with
        | String d s' =>
            if not_nl d
            then option_map (cons (String d "")) (match_atoms ic p' s')
            else None
        | EmptyString => None
        end
  | LazyAny :: p' => lazy_group (match_atoms ic p')
  | NoDotStar :: p' => greedy_nodot (match_atoms ic p')
  end.

(** [pattern.match(s)]: [None], or the groups of the match. *)
Definition re_match (p : pattern) (s : string) : option (list string) :=
  match_atoms (ignorecase p) (atoms p) s.

(** *** The replacement: from the argument to the token list *)

(** [[
    lrep = [v for v in re.split(r'([' + rvars + r'])', aRep) if v != ""]
]]
    [lit] is the literal run read so far. *)
Fixpoint split_rep (aRep : string) (lit : string) : list string :=
  match aRep with
  | EmptyString => if String.eqb lit "" then [] else [lit]
  | String c rest =>
      if str_in (String c "") rvars
      then (if String.eqb lit "" then [] else [lit])
             ++ String c "" :: split_rep rest ""
      else split_rep rest (lit ++ String c "")
  end%list.

(** [[
    for i,v in enumerate(lrep) :
        if v in consumers :
            maxConsumer = i
]]
    [maxConsumer] stays unbound when no token consumes. *)
Fixpoint last_consumer (lrep : list string) (i : nat) (cur : option nat)
  : option nat :=
  match lrep with
  | [] => cur
  | v :: rest =>
      last_consumer rest (S i) (if str_in v consumers then Some i else cur)
  end.

(** [[
    rulevars = tuple(rep for rep in lrep if rep == rvRule or rep == rvAdd)
]] *)
Definition rulevars_of (lrep : list string) : list string :=
  filter (fun rep => String.eqb rep rvRule || String.eqb rep rvAdd) lrep.

(** *** native *)

(** The globals [native] reads: the compiled filter and the prepared
    replacement. *)
Record Native : Type := mkNative {
  filter_ : pattern;
  nNoDotName : bool;
  nMaxFloat : Z;
  lrep : list string;
  maxConsumer : option nat;
  oOpt : list Z
}.

(** The locals of [native]'s token loop, and the global [rules] it
    updates.  [src] is unbound until a consumer sets it.  [dispatched]
    records, for each token that reached the rule dispatch, its index in
    [lrep] and the value of [ridx] it was dispatched with. *)
Record NState : Type := mkNState {
  newName : string;
  floatIdx : Z;
  ridx : nat;
  src : option string;
  rules : list rule;
  dispatched : list (nat * nat)
}.

(** [l[i]] with Python's negative indices. *)
Definition py_nth {A : Type} (l : list A) (i : Z) : res A :=
  let n := Z.of_nat (List.length l) in
  let j := if i <? 0 then i + n else i in
  if (j <? 0) || (n <=? j) then Exc IndexError
  else nth_res l (Z.to_nat j).

Fixpoint map_res {A B : Type} (f : A -> res B) (l : list A) : res (list B) :=
  match l with
  | [] => Ok []
  | a :: l' => b <- f a ;; r <- map_res f l' ;; Ok (b :: r)
  end.

(** The slice rule.
[[
            if rules[ridx][3] == 0 : # begin-end slice
                newName += src[:rules[ridx][1]] + src[-rules[ridx][2]:]
            else : # Pythonic slice
                newName += src[rules[ridx][1]:rules[ridx][2]]
]]
    The comparisons that only guard a warning are evaluated for their
    type errors. *)
Definition apply_slice (r : rule) (src : string) : res string :=
  mode <- nth_res r 3 ;;
  if pyval_eqb mode (VInt 0) then
    p1 <- nth_res r 1 ;; a <- as_int p1 ;;
    p2 <- nth_res r 2 ;; b <- as_int p2 ;;
    Ok (slice src None (Some a) ++ slice src (Some (- b)) None)
  else
    p1 <- nth_res r 1 ;; a <- as_int p1 ;;
    p2 <- nth_res r 2 ;; b <- as_int p2 ;;
    Ok (slice src (Some a) (Some b)).

(** [nextName] where its result is used as a string: a [None] raises in
    the concatenation that follows.  Both callers pass offset 0, with
    which the digit branch always finds its number. *)
Definition nextName_str (str : string) (step offset : Z) : res string :=
  r <- nextName str step offset ;;
  match r with
  | Some s => Ok s
  | None => Exc TypeError
  end.

(** The bump rule.
[[
            rootExt = greedyext(src)
            mode = rules[ridx][2]
            if rootExt[0][-1].isalpha() : bsel = 1
            elif rootExt[0][-1].isdigit() : bsel = 2
            else : bsel = 4
            if (mode & bsel) != 0 :
                if (mode & (bsel << 4)) == 0 :
                    newName += src # Copy unchanged into the new name.
                elif rootExt[1] != "" :
                    newName += rootExt[1] # Discard root but not any extension.
            else :
                newName += nextName(rootExt[0], rules[ridx][1]) + rootExt[1]
]] *)
Definition apply_bump (r : rule) (src : string) : res string :=
  let '(root, ext) := greedyext src in
  pm <- nth_res r 2 ;;
  match last_char root with
  | None => Exc IndexError
  | Some c =>
      let bsel := if isalpha c then 1 else if isdigit c then 2 else 4 in
      mode <- as_int pm ;;
      if negb (Z.land mode bsel =? 0) then
        if Z.land mode (Z.shiftl bsel 4) =? 0 then Ok src
        else if negb (String.eqb ext "") then Ok ext
        else Ok ""
      else
        ps <- nth_res r 1 ;;
        step <- as_int ps ;;
        n <- nextName_str root step 0 ;;
        Ok (n ++ ext)
  end.

(** The insert-increment rule: the text to insert and the rule with its
    start parameter advanced.
[[
            if type(rules[ridx][I_START]) is int :
                incName = '%0*d' % (rules[ridx][I_WIDTH], rules[ridx][I_START])
                rules[ridx][I_START] += rules[ridx][I_STEP]
            else : # alpha
                incName = rules[ridx][I_START]
                rules[ridx][I_START] = nextName(rules[ridx][I_START],
                                                rules[ridx][I_STEP])
]] *)
Definition apply_inc (r : rule) : res (string * rule) :=
  start <- nth_res r I_START ;;
  match start with
  | VInt n =>
      pw <- nth_res r I_WIDTH ;; w <- as_int pw ;;
      ps <- nth_res r I_STEP ;; step <- as_int ps ;;
      r' <- set_nth r I_START (VInt (n + step)) ;;
      Ok (fmt_0d w n, r')
  | VStr a =>
      ps <- nth_res r I_STEP ;; step <- as_int ps ;;
      a' <- nextName_str a step 0 ;;
      r' <- set_nth r I_START (VStr a') ;;
      Ok (a, r')
  end.

(** The rule dispatch at the end of the loop body, for the token at index
    [idx]; it ends with [ridx += 1].
[[
        if rules[ridx][0] == sliceRule :
            ...
        elif rules[ridx][0] == bumpRule :
            ...
        elif rules[ridx][0] == incRule :
            ...
            if rules[ridx][I_MODE] & I_E : # Exactly as specified
                newName += incName
            else : # Always apply to root (default mode)
                rootExt = greedyext(newName)
                newName = rootExt[0] + incName + rootExt[1]
        ridx += 1
]] *)
Definition dispatch (idx : nat) (st : NState) : res NState :=
  r <- nth_res (rules st) (ridx st) ;;
  h <- nth_res r 0 ;;
  let log := (dispatched st ++ [(idx, ridx st)])%list in
  if pyval_eqb h (VStr sliceRule) then
    match src st with
    | None => Exc NameError
    | Some s =>
        t <- apply_slice r s ;;
        Ok (mkNState (newName st ++ t) (floatIdx st) (S (ridx st)) (src st)
              (rules st) log)
    end
  else if pyval_eqb h (VStr bumpRule) then
    match src st with
    | None => Exc NameError
    | Some s =>
        t <- apply_bump r s ;;
        Ok (mkNState (newName st ++ t) (floatIdx st) (S (ridx st)) (src st)
              (rules st) log)
    end
  else if pyval_eqb h (VStr incRule) then
    ir <- apply_inc r ;;
    let '(incName, r') := ir in
    rules' <- set_nth (rules st) (ridx st) r' ;;
    pm <- nth_res r' I_MODE ;;
    mode <- as_int pm ;;
    let newName' :=
      if negb (Z.land mode I_E =? 0) then newName st ++ incName
      else let '(root, ext) := greedyext (newName st) in
           root ++ incName ++ ext in
    Ok (mkNState newName' (floatIdx st) (S (ridx st)) (src st) rules' log)
  else
    Ok (mkNState (newName st) (floatIdx st) (S (ridx st)) (src st)
          (rules st) log).

(** One pass of the loop [for idx,rep in enumerate(lrep)].
[[
        if rep not in rvars :
            newName += rep # Literal replacement
            continue
        if rep in consumers :
            if floatIdx > maxFloat :
                continue # There are no floaters left to consume.
            if idx == maxConsumer and floatIdx < maxFloat :
                src = "".join(v for v in floaters[floatIdx:])
            else :
                src = floaters[floatIdx]
            floatIdx += 1
            if rep == rvCopy :
                newName += src
                continue
            if rep == rvSkip or src == "" :
                continue
        (the rule dispatch)
]] *)
Definition native_step (cfg : Native) (floaters : list string)
  (idx : nat) (rep : string) (st : NState) : res NState :=
  if negb (str_in rep rvars) then
    Ok (mkNState (newName st ++ rep) (floatIdx st) (ridx st) (src st)
          (rules st) (dispatched st))
  else if str_in rep consumers then
    if nMaxFloat cfg <? floatIdx st then Ok st
    else
      mc <- match maxConsumer cfg with
            | Some m => Ok m
            | None => Exc NameError
            end ;;
      s <- (if Nat.eqb idx mc && (floatIdx st <? nMaxFloat cfg)
            then Ok (join (skipn (Z.to_nat (floatIdx st)) floaters))
            else py_nth floaters (floatIdx st)) ;;
      let st1 := mkNState (newName st) (floatIdx st + 1) (ridx st) (Some s)
                   (rules st) (dispatched st) in
      if String.eqb rep rvCopy then
        Ok (mkNState (newName st ++ s) (floatIdx st1) (ridx st1) (src st1)
              (rules st1) (dispatched st1))
      else if String.eqb rep rvSkip || String.eqb s "" then Ok st1
      else dispatch idx st1
  else dispatch idx st.

Fixpoint native_loop (cfg : Native) (floaters : list string)
  (idx : nat) (reps : list string) (st : NState) : res NState :=
  match reps with
  | [] => Ok st
  | rep :: reps' =>
      st' <- native_step cfg floaters idx rep st ;;
      native_loop cfg floaters (S idx) reps' st'
  end.

(** [[
def native(old) :
    filterMatch = filter.match(old)
    if filterMatch == None or noDotName and old[0] == '.' :
        return ""
    for rule in filArgx :
        ...
    if len(oOpt) == 0 :
        floaters = filterMatch.groups()
    else :
        floaters = [filterMatch.groups()[idx] for idx in oOpt]
    newName = ""
    floatIdx = 0 # floaters index
    ridx = 0 # rules index in case nRules > 0
    for idx,rep in enumerate(lrep) :
        ...
    return newName
]]
    The result is the final state of the loop; [native] projects the name
    and the rules out of it. *)
Definition native_run (cfg : Native) (rules0 : list rule) (old : string)
  : res NState :=
  let rejected := Ok (mkNState "" 0 0 None rules0 []) in
  match re_match (filter_ cfg) old with
  | None => rejected
  | Some groups =>
      dot <- (if nNoDotName cfg
              then c <- char_at old 0 ;; Ok (Ascii.eqb c ".")
              else Ok false) ;;
      if (dot : bool) then rejected
      else
        floaters <- (match oOpt cfg with
                     | [] => Ok groups
                     | _ => map_res (py_nth groups) (oOpt cfg)
                     end) ;;
        native_loop cfg floaters 0 (lrep cfg)
          (mkNState "" 0 0 None rules0 [])
  end.

(** [native(old)]: the new name and the rules as the call leaves them. *)
Definition native (cfg : Native) (rules0 : list rule) (old : string)
  : res (string * list rule) :=
  st <- native_run cfg rules0 old ;;
  Ok (newName st, rules st).


(** The native part of the command line: filter and replacement
    arguments to the globals of [native].  [None] when the filter's
    expression is outside the modelled fragment of [re]. *)
Definition prepNative (filArg aRep : string) (ignorecase : bool)
  (oOpt : list Z) : res (option Native) :=
  f <- compileFilter filArg ;;
  match re_compile (filRe f) ignorecase with
  | None => Ok None
  | Some p =>
      let lrep := split_rep aRep "" in
      Ok (Some (mkNative p (noDotName f) (maxFloat f) lrep
                  (last_consumer lrep 0 None) oOpt))
  end.

(** *** procDir *)

(** What [os.stat(old).st_mode] tells [procDir]. *)
Inductive kind : Type := Regular | Directory | Other.

(** The current directory as [procDir] sees it: [getdir()] with the kind
    of each entry, [os.path.exists] and [os.path.samefile]. *)
Record DirFS : Type := mkDirFS {
  listing : list (string * kind);
  os_exists : string -> bool;
  os_samefile : string -> string -> bool
}.

(** The globals of a native-mode batch ([sOpt] empty, [eOpt] false). *)
Record Batch : Type := mkBatch {
  opdirs : Z;
  fOpt : list string;
  bCA : CA;
  bNative : Native
}.

(** [[ renePat = re.compile(r'rene(.py|t.py|Act)') ]] matched at the
    start of the name; the dots are unescaped. *)
Definition renePat_match (s : string) : bool :=
  String.prefix "rene" s &&
  (let r := drop 4 s in
   match r with
   | String c r' =>
       (not_nl c && String.prefix "py" r')
       || (Ascii.eqb c "t"
           && match r' with
              | String c' r'' => not_nl c' && String.prefix "py" r''
              | EmptyString => false
              end)
       || String.prefix "Act" r
   | EmptyString => false
   end).

(** The lists [procDir] builds and the rules [native] advances. *)
Record PState : Type := mkPState {
  oldList : list string;
  pNewList : list string;
  pRules : list rule
}.

(** How one pass of the loop over the directory ends: with the next
    entry, or with [return(1)]. *)
Inductive pass : Type :=
| Next (st : PState)
| Return1 (st : PState).

Section ProcDir.

(** [fnmatch.fnmatch(name, pat)] *)
Variable fnmatch : string -> string -> bool.
Variable b : Batch.
Variable fs : DirFS.

(** The collision part of the loop body, for a new name that differs
    from the old one.
[[
        if os.path.exists(newName) and not os.path.samefile(old, newName) :
            if caStop or caContinue :
                print(newName, 'already exists. Unable to rename', old)
                if caStop : return(1)
                continue
            newName = avoid(newName)
        elif newName in newList :
            newName = avoid(newName)
        if newName == "" :
            print('Unresolvable collision trying to rename', old)
            if caStop : return(1)
            continue

        renFiles += 1
        oldList.append(old)
        newList.append(newName)
]] *)
Definition collide (old newName : string) (st : PState) : res pass :=
  let ca := bCA b in
  let finish (n : string) : res pass :=
    if String.eqb n "" then
      Ok (if caStop ca then Return1 st else Next st)
    else Ok (Next (mkPState (oldList st ++ [old]) (pNewList st ++ [n])
                     (pRules st)))%list in
  if os_exists fs newName && negb (os_samefile fs old newName) then
    if caStop ca || caContinue ca then
      Ok (if caStop ca then Return1 st else Next st)
    else
      n <- avoid (os_exists fs) ca (pNewList st) newName ;;
      finish n
  else if in_list newName (pNewList st) then
    n <- avoid (os_exists fs) ca (pNewList st) newName ;;
    finish n
  else finish newName.

(** One pass of [for old in dirlist] in native mode.
[[
        oldstat = os.stat(old).st_mode
        if stat.S_ISREG(oldstat) : # regular file.
            if opdirs > 1 : continue # Only dirs.
            if renePat.match(old) : continue # Don't rename our own files.
        elif stat.S_ISDIR(oldstat) : # directory
            if opdirs == 0 : continue # Only files.
        else : continue # Not file or directory.
        try :
            if len(fOpt) != 0 :
                for pat in fOpt :
                    if fnmatch.fnmatch(old, pat) :
                        raise SkipFileException(old)
            ...
            else : # Native
                newName = native(old)
                if newName == "" :
                    raise SkipFileException(old)
        except SkipFileException as f :
            continue
        if newName == old :
            continue # Skip renaming
        (collision avoidance)
]] *)
Definition procDir_pass (old : string) (k : kind) (st : PState) : res pass :=
  let wanted :=
    match k with
    | Regular => negb (1 <? opdirs b) && negb (renePat_match old)
    | Directory => negb (opdirs b =? 0)
    | Other => false
    end in
  if negb wanted then Ok (Next st)
  else if existsb (fnmatch old) (fOpt b) then Ok (Next st)
  else
    nr <- native (bNative b) (pRules st) old ;;
    let '(newName, rules') := nr in
    let st' := mkPState (oldList st) (pNewList st) rules' in
    if String.eqb newName "" then Ok (Next st')
    else if String.eqb newName old then Ok (Next st')
    else collide old newName st'.

Fixpoint procDir_loop (dirlist : list (string * kind)) (st : PState)
  : res (Z * PState) :=
  match dirlist with
  | [] => Ok (0, st)
  | (old, k) :: rest =>
      p <- procDir_pass old k st ;;
      match p with
      | Next st' => procDir_loop rest st'
      | Return1 st' => Ok (1, st')
      end
  end.

(** [procDir()] up to the end of its loop over the directory: the return
    value (1 when the loop returned, 0 for every path after it), the
    rename pairs collected and the rules as the loop leaves them.  Asking
    the user, writing reneAct and the renaming itself follow the loop and
    are not part of the model. *)
Definition procDir (rules0 : list rule) : res (Z * PState) :=
  procDir_loop (listing fs) (mkPState [] [] rules0).

End ProcDir.

(** *** procTree *)

(** A directory tree as the traversal meets it: the working directory,
    what [procDir] sees in it, and the directories the second [getdir()]
    lists, each with its own tree. *)
#[warnings="-register-all"]
Inductive tree : Type :=
| Node (cwd : string) (fs : DirFS) (subdirs : list (string * tree)).

(** The -R option's settings and the list of I rules. *)
Record Recurse : Type := mkRecurse {
  rDepth : Z;
  rInc : bool;
  rDirs : list string;
  irules : list nat
}.

(** The globals [procTree] updates.  [boundaries] records, for each
    directory entered, the rules before and after the reload loop. *)
Record TState : Type := mkTState {
  tRules : list rule;
  curDepth : Z;
  rVisit : list string;
  boundaries : list (list rule * list rule)
}.

(** [[
    for idx in irules :
        if rules[idx][I_MODE] & I_R :
            rules[idx][I_START] = rules[idx][I_RELOAD]
]] *)
Fixpoint reload (irules : list nat) (rules : list rule) : res (list rule) :=
  match irules with
  | [] => Ok rules
  | idx :: rest =>
      r <- nth_res rules idx ;;
      pm <- nth_res r I_MODE ;;
      mode <- as_int pm ;;
      if negb (Z.land mode I_R =? 0) then
        v <- nth_res r I_RELOAD ;;
        r' <- set_nth r I_START v ;;
        rules' <- set_nth rules idx r' ;;
        reload rest rules'
      else reload rest rules
  end.

Section ProcTree.

Variable fnmatch : string -> string -> bool.
Variable b : Batch.
Variable rc : Recurse.

(** [[
            if len(rDirs) == 0 :
                doit = True # All dirs are included if no list.
            else :
                for pat in rDirs :
                    if fnmatch.fnmatch(fn, pat) :
                        doit = rInc # This dir is in include list.
                        break
                else :
                    doit = not rInc # This dir is not in exclude list.
]] *)
Definition doit (fn : string) : bool :=
  match rDirs rc with
  | [] => true
  | _ => if existsb (fnmatch fn) (rDirs rc) then rInc rc else negb (rInc rc)
  end.

(** The loop over the directories of the current one; [rec] is the
    recursive call, made after [os.chdir(fn)].
[[
    for fn in dirlist :
        if stat.S_ISDIR(os.stat(fn).st_mode) :
            ...
            if doit :
                os.chdir(fn)
                ret = procTree()
                os.chdir('..')
                if ret != 0 :
                    break
]] *)
Fixpoint descend (rec : tree -> TState -> res Z * TState)
  (subs : list (string * tree)) (ret : Z) (st : TState) : res Z * TState :=
  match subs with
  | [] => (Ok ret, st)
  | (fn, sub) :: subs' =>
      if doit fn then
        match rec sub st with
        | (Exc e, st') => (Exc e, st')
        | (Ok ret', st') =>
            if negb (ret' =? 0) then (Ok ret', st')
            else descend rec subs' ret' st'
        end
      else descend rec subs' ret st
  end.

(** [[
def procTree() :
    global curDepth
    ret = 0
    rDir = os.getcwd()
    rVisit.append(rDir)
    for idx in irules :
        ...
    if procDir() != 0 :
        return 1
    if curDepth >= rDepth :
        return 0
    curDepth += 1
    dirlist = getdir()
    for fn in dirlist :
        ...
    curDepth -= 1
    return ret
]]
    The state is returned also when an exception ends the run. *)
Fixpoint procTree (t : tree) (st : TState) : res Z * TState :=
  match t with
  | Node cwd fs subdirs =>
      let visit := (rVisit st ++ [cwd])%list in
      match reload (irules rc) (tRules st) with
      | Exc e => (Exc e, mkTState (tRules st) (curDepth st) visit
                           (boundaries st))
      | Ok rs =>
          let log := (boundaries st ++ [(tRules st, rs)])%list in
          match procDir fnmatch b fs rs with
          | Exc e => (Exc e, mkTState rs (curDepth st) visit log)
          | Ok (ret, ps) =>
              let st1 := mkTState (pRules ps) (curDepth st) visit log in
              if negb (ret =? 0) then (Ok 1, st1)
              else if rDepth rc <=? curDepth st1 then (Ok 0, st1)
              else
                match descend procTree subdirs 0
                        (mkTState (tRules st1) (curDepth st1 + 1)
                           (rVisit st1) (boundaries st1)) with
                | (Exc e, st2) => (Exc e, st2)
                | (Ok ret2, st2) =>
                    (Ok ret2, mkTState (tRules st2) (curDepth st2 - 1)
                                (rVisit st2) (boundaries st2))
                end
          end
      end
  end.

End ProcTree.

(** *** reRange *)

(** [[
def reRange(str) :
    r = str.split('-')
    return '{' + r[0] + ',' + r[-1] + '}'
]] *)
Definition reRange (str : string) : res string :=
  let r := split_on "-" str in
  r0 <- py_nth r 0 ;;
  rl <- py_nth r (-1) ;;
  Ok ("{" ++ r0 ++ "," ++ rl ++ "}").

(** *** parmList *)

(** [[
def parmList(parm, emptyok = False) :
    return [p for p in parm.split('/') if emptyok or p != ""]
]] *)
Definition parmList (parm : string) (emptyok : bool) : list string :=
  filter (fun p => emptyok || negb (String.eqb p "")) (split_on "/" parm).

(** *** agnosticDir *)

Definition backslash : ascii := "092"%char.

(** [s.replace(a, b)] for one-character [a] and [b]. *)
Fixpoint replace_chr (a b : ascii) (s : string) : string :=
  match s with
  | EmptyString => EmptyString
  | String c s' => String (if Ascii.eqb c a then b else c) (replace_chr a b s')
  end.

(** [[
chopDir = len(os.path.dirname(os.getcwd())) + 1 # For recurse dir display.
def agnosticDir(dir) :
   return dir[chopDir:].replace('\\', '>').replace('/', '>')
]] *)
Definition agnosticDir (chopDir : Z) (dir : string) : string :=
  replace_chr "/" ">" (replace_chr backslash ">" (slice dir (Some chopDir) None)).

(** *** The order option *)

(** The loop that completes [oOpt], over the remaining values [idxs] of
    [idx].
[[
        for idx in range(0, maxFloat + 1) :
            if missing < 0 :
                break
            if idx in oOpt :
                continue
            oOpt.append(idx)
            missing -= 1
]] *)
Fixpoint order_fill (idxs : list Z) (missing : Z) (oOpt : list Z) : list Z :=
  match idxs with
  | [] => oOpt
  | idx :: rest =>
      if missing <? 0 then oOpt
      else if existsb (Z.eqb idx) oOpt then order_fill rest missing oOpt
      else order_fill rest (missing - 1) (oOpt ++ [idx])%list
  end.

(** [[
    if len(oOpt) > 0 :
        for idx in oOpt :
            if idx > maxFloat :
                exit(1)
        missing = maxFloat + 1 - len(oOpt)
        for idx in range(0, maxFloat + 1) :
            ...
]]
    [None] is [exit(1)]. *)
Definition prepOrder (oOpt : list Z) (maxFloat : Z) : option (list Z) :=
  match oOpt with
  | [] => Some []
  | _ =>
      if existsb (fun idx => maxFloat <? idx) oOpt then None
      else Some (order_fill (range (Z.to_nat (maxFloat + 1)))
                   (maxFloat + 1 - Z.of_nat (List.length oOpt)) oOpt)
  end.

(** *** The directory on disk

    What [procDir] does after its loop, and [undo], act on the current
    directory.  The directory is a list of entries, each a name, the file
    or directory it names (told apart by a number) and, for a file, its
    text.  Names are compared exactly, as on a case-sensitive file
    system; a name is a name in this directory, without path separator;
    entries that are neither files nor directories are left out
    ([procDir] skips them).  What [os.rename] does when the target exists
    depends on the platform and on the two entries, and is left open. *)

Record entry : Type := mkEntry {
  ino : nat;
  ename : string;
  isdir : bool;
  body : string
}.

(** A directory: its entries, in the order of the listing. *)
Definition Disk : Type := list entry.

(** The exceptions of the [os] calls that the code tells apart. *)
Inductive oserr : Type :=
| FileNotFoundError | FileExistsError | PermissionError
| IsADirectoryError | OSError.

(** How a run on the disk ends: with the disk as it leaves it, or with an
    uncaught exception. *)
Inductive failure : Type :=
| PyErr (e : exn)
| OsErr (e : oserr).

(** The outcome of a run that leaves a value of type [A]. *)
Inductive run (A : Type) : Type :=
| Done (a : A)
| Fail (e : failure).
Arguments Done {A} a.
Arguments Fail {A} e.

(** The entry has the name [n]. *)
Definition named (n : string) (e : entry) : bool := String.eqb (ename e) n.

(** [os.path.exists(n)] *)
Definition disk_exists (d : Disk) (n : string) : bool := existsb (named n) d.

(** The entry named [n], if there is one. *)
Definition disk_find (d : Disk) (n : string) : option entry := find (named n) d.

(** The entry under the name [n]. *)
Definition set_name (n : string) (e : entry) : entry :=
  mkEntry (ino e) n (isdir e) (body e).

(** The entry with the text [s]. *)
Definition set_body (s : string) (e : entry) : entry :=
  mkEntry (ino e) (ename e) (isdir e) s.

(** The entry named [a] gets the name [b]. *)
Definition move (a b : string) (d : Disk) : Disk :=
  map (fun e => if named a e then set_name b e else e) d.

(** [f.write(s)] on the file [h]. *)
Definition disk_write (d : Disk) (h : nat) (s : string) : Disk :=
  map (fun e => if Nat.eqb (ino e) h then set_body (body e ++ s) e else e) d.

(** A number that tells a new file from every entry of the directory. *)
Definition fresh (d : Disk) : nat := S (list_max (map ino d)).

(** [open(n, 'wt')]: the file is emptied, or created; the result is the
    disk and the file opened. *)
Definition disk_open_w (d : Disk) (n : string) : run (Disk * nat) :=
  match disk_find d n with
  | Some e =>
      if isdir e then Fail (OsErr IsADirectoryError)
      else Done (map (fun e' => if named n e' then set_body "" e' else e') d,
                 ino e)
  | None => Done ((d ++ [mkEntry (fresh d) n false ""])%list, fresh d)
  end.

Section OnDisk.

(** [os.rename(src, dst)] when [dst] exists and is not [src]. *)
Variable clobber : Disk -> string -> string -> oserr + Disk.

(** [os.rename(src, dst)] *)
Definition os_rename (d : Disk) (src dst : string) : oserr + Disk :=
  if negb (disk_exists d src) then inl FileNotFoundError
  else if String.eqb dst "" then inl FileNotFoundError
  else if String.eqb src dst then inr d
  else if disk_exists d dst then clobber d src dst
  else inr (move src dst d).

(** [[
        for act in zip(oldList, newList) :
            actFile.write(act[0] + '>' + act[1] + '\n')
            try :
                os.rename(act[0], act[1])
            except FileExistsError :
                print('Unable to overwrite', act[1])
            except PermissionError :
                print('Denied access to', act[0])
]] *)
Definition act_line (act : string * string) : string :=
  fst act ++ ">" ++ snd act ++ String newline "".

(** The loop over the plan; [h] is the log file, open for writing. *)
Fixpoint commit_loop (d : Disk) (h : nat) (acts : list (string * string))
  : run Disk :=
  match acts with
  | [] => Done d
  | act :: rest =>
      let d1 := disk_write d h (act_line act) in
      match os_rename d1 (fst act) (snd act) with
      | inr d2 => commit_loop d2 h rest
      | inl FileExistsError => commit_loop d1 h rest
      | inl PermissionError => commit_loop d1 h rest
      | inl e => Fail (OsErr e)
      end
  end.

(** The values of the action option, [aOpt]. *)
Definition A_ASK : Z := 0.
Definition A_REN : Z := 1.
Definition A_SHOW : Z := 2.

(** [procDir()] after its loop; [answer] is what the user types when
    asked.
[[
    if renFiles == 0 :
        return(0)
    if aOpt == A_SHOW :
        return(0)
    if aOpt == A_ASK :
        ...
            if useInput :
                inp = input()
                if inp[0].upper() != 'Y' :
                    return(0)
        ...
    # A_REN or A_ASK+Y
    with open('reneAct', 'wt') as actFile :
        for act in zip(oldList, newList) :
            ...
    return(0)
]] *)
Definition procDir_act (aOpt : Z) (answer : string) (d : Disk) (ps : PState)
  : run Disk :=
  if Nat.eqb (List.length (oldList ps)) 0 then Done d
  else if aOpt =? A_SHOW then Done d
  else
    let commit :=
      match disk_open_w d "reneAct" with
      | Fail e => Fail e
      | Done (d0, h) =>
          commit_loop d0 h (combine (oldList ps) (pNewList ps))
      end in
    if aOpt =? A_ASK then
      match char_at answer 0 with
      | Exc e => Fail (PyErr e)
      | Ok c => if negb (Ascii.eqb (upper c) "Y") then Done d else commit
      end
    else commit.

(** *** undo *)

(** [str.isspace] on the ASCII range. *)
Definition py_isspace (c : ascii) : bool :=
  ((9 <=? ord c) && (ord c <=? 13)) || ((28 <=? ord c) && (ord c <=? 32)).

(** [s.rstrip()] *)
Fixpoint str_rstrip (s : string) : string :=
  match s with
  | EmptyString => EmptyString
  | String c s' =>
      match str_rstrip s' with
      | EmptyString => if py_isspace c then EmptyString else String c EmptyString
      | r => String c r
      end
  end.

(** The other line end of text files. *)
Definition carriage_return : ascii := "013"%char.

(** The lines of a text file as iteration over the file gives them, each
    with its end; a carriage return, alone or before a newline, ends a
    line as a newline does.  [cur] is the line read so far. *)
Fixpoint readlines (s : string) (cur : string) : list string :=
  match s with
  | EmptyString => if String.eqb cur "" then [] else [cur]
  | String c r =>
      if Ascii.eqb c newline
      then (cur ++ String newline "") :: readlines r ""
      else if Ascii.eqb c carriage_return
      then match r with
           | String c' r' =>
               if Ascii.eqb c' newline
               then (cur ++ String newline "") :: readlines r' ""
               else (cur ++ String newline "") :: readlines r ""
           | EmptyString => [cur ++ String newline ""]
           end
      else readlines r (cur ++ String c "")
  end.

(** [[
            for line in actFile :
                act = line.rstrip().split('>')
                print('rename', act[1], 'back to', act[0])
                if not os.path.exists(act[1]) :
                    print(act[1], 'does not exist')
                elif os.path.exists(act[0]) :
                    print(act[0], 'already exists')
                else :
                    os.rename(act[1], act[0])
]] *)
Fixpoint undo_loop (d : Disk) (lines : list string) : run Disk :=
  match lines with
  | [] => Done d
  | line :: rest =>
      let act := split_on ">" (str_rstrip line) in
      match nth_error act 1, nth_error act 0 with
      | Some a1, Some a0 =>
          if negb (disk_exists d a1) then undo_loop d rest
          else if disk_exists d a0 then undo_loop d rest
          else match os_rename d a1 a0 with
               | inr d' => undo_loop d' rest
               | inl e => Fail (OsErr e)
               end
      | _, _ => Fail (PyErr IndexError)
      end
  end.

(** [[
def undo() :
    if not os.path.exists('reneAct') :
        print('Missing reneAct file')
    else :
        with open('reneAct', 'rt') as actFile :
            for line in actFile :
                ...
    return(0)
]] *)
Definition undo (d : Disk) : run Disk :=
  match disk_find d "reneAct" with
  | None => Done d
  | Some e =>
      if isdir e then Fail (OsErr IsADirectoryError)
      else undo_loop d (readlines (body e) "")
  end.

End OnDisk.

(** What [procDir] sees of the disk. *)
Definition dirfs_of (d : Disk) : DirFS :=
  mkDirFS (map (fun e => (ename e, if isdir e then Directory else Regular)) d)
          (disk_exists d)
          (fun a b => match disk_find d a, disk_find d b with
                      | Some x, Some y => Nat.eqb (ino x) (ino y)
                      | _, _ => false
                      end).

(** *** The substitute option *)

(** [s.upper()] and [s.lower()], character by character. *)
Fixpoint str_map (f : ascii -> ascii) (s : string) : string :=
  match s with
  | EmptyString => EmptyString
  | String c s' => String (f c) (str_map f s')
  end.

(** [s.replace(a, t)] for a one-character [a]. *)
Fixpoint replace_by (a : ascii) (t : string) (s : string) : string :=
  match s with
  | EmptyString => EmptyString
  | String c s' =>
      (if Ascii.eqb c a then t else String c EmptyString) ++ replace_by a t s'
  end.

(** One pass of the loop over the parameters of the substitute option.
[[
                for sop in sOpt :
                    if sop.upper() == 'U' :
                        newName = newName.upper()
                    elif sop.upper() == 'L' :
                        newName = newName.lower()
                    elif len(sop) == 2 :
                        newName = newName.replace(sop[0],
                        sop[1] if sop[0] != sop[1] else "")
]] *)
Definition subst_step (newName sop : string) : string :=
  if String.eqb (str_map upper sop) "U" then str_map upper newName
  else if String.eqb (str_map upper sop) "L" then str_map lower newName
  else match sop with
       | String a (String b EmptyString) =>
           replace_by a (if negb (Ascii.eqb a b) then String b EmptyString
                         else EmptyString) newName
       | _ => newName
       end.

(** The new name of [old] under the substitute option.
[[
            if len(sOpt) != 0 :
                newName = old
                for sop in sOpt :
                    ...
]] *)
Definition substitute (sOpt : list string) (old : string) : string :=
  fold_left subst_step sOpt old.

(** *** The collision option *)

(** The loop over the characters of the collision option; [s] is
    [arg[i:]].  Each pass moves [i] forward, so a pass for every character
    of the argument is enough: [None] is the loop cut short.  NOSLASH
    and DIGITS stand for the two expressions of the source: one group of
    any number of characters other than the slash, and one group of one
    or more of the digits 0 to 9.
[[
                i = 2
                while i < len(arg) :
                    if arg[i] == '/' : # String field
                        i += 1
                        caStart = re.search(NOSLASH, arg[i:]).groups()[0]
                        i += len(caStart)
                    elif arg[i] == 'S' : caStop = True
                    elif arg[i] == 'C' : caContinue = True
                    elif arg[i] == 'M' : caMerge = True
                    elif arg[i].isdigit() :
                        caStart = re.search(DIGITS, arg[i:]).groups()[0]
                        i += len(caStart)
                        continue
                    elif arg[i].isalpha() : # Single letter
                       caStart = arg[i]
                    i += 1
]] *)
Fixpoint xopt_loop (fuel : nat) (s : string) (ca : CA) : option CA :=
  match s with
  | EmptyString => Some ca
  | String c r =>
      match fuel with
      | O => None
      | S fuel' =>
          if Ascii.eqb c "/" then
            let '(start, rest) := span (fun x => negb (Ascii.eqb x "/")) r in
            xopt_loop fuel' (drop 1 rest)
              (mkCA (caStop ca) (caContinue ca) (caPun ca) (caPunPos ca)
                 (caMerge ca) start)
          else if Ascii.eqb c "S" then
            xopt_loop fuel' r
              (mkCA true (caContinue ca) (caPun ca) (caPunPos ca)
                 (caMerge ca) (caStart ca))
          else if Ascii.eqb c "C" then
            xopt_loop fuel' r
              (mkCA (caStop ca) true (caPun ca) (caPunPos ca)
                 (caMerge ca) (caStart ca))
          else if Ascii.eqb c "M" then
            xopt_loop fuel' r
              (mkCA (caStop ca) (caContinue ca) (caPun ca) (caPunPos ca)
                 true (caStart ca))
          else if isdigit c then
            let '(start, rest) := span isdigit s in
            xopt_loop fuel' rest
              (mkCA (caStop ca) (caContinue ca) (caPun ca) (caPunPos ca)
                 (caMerge ca) start)
          else if isalpha c then
            xopt_loop fuel' r
              (mkCA (caStop ca) (caContinue ca) (caPun ca) (caPunPos ca)
                 (caMerge ca) (String c EmptyString))
          else xopt_loop fuel' r ca
      end
  end.

(** The characters of the class of the punctuation search. *)
Definition is_pun (c : ascii) : bool :=
  str_in (String c EmptyString) "`~!@#$%^&()_+[}{]-".

(** [[ re.search(PUNCT, s) ]]: the groups of the first match, tried from
    each position in turn.  PUNCT stands for the expression of the
    source: a group of any number of commas, then a group of one or more
    characters of the class above. *)
Fixpoint pun_search (s : string) : option (string * string) :=
  let '(commas, r) := span (fun x => Ascii.eqb x ",") s in
  let '(pun, _) := span is_pun r in
  if negb (String.eqb pun "") then Some (commas, pun)
  else match s with
       | EmptyString => None
       | String _ s' => pun_search s'
       end.

(** The collision option [arg], read into the settings [ca].
[[
            elif arg[1] == 'X' : # collision avoidance control
                i = 2
                while i < len(arg) :
                    ...
                pm = re.search(PUNCT, arg[2:])
                if pm :
                    if pm.groups()[0] == ',' :
                        caPunPos = 0
                    elif pm.groups()[0] == ',,' :
                        caPunPos = 2
                    caPun = pm.groups()[1]
]] *)
Definition xopt (arg : string) (ca : CA) : option CA :=
  match xopt_loop (String.length arg) (slice arg (Some 2) None) ca with
  | None => None
  | Some ca1 =>
      match pun_search (slice arg (Some 2) None) with
      | None => Some ca1
      | Some (g0, g1) =>
          Some (mkCA (caStop ca1) (caContinue ca1) g1
                  (if String.eqb g0 "," then 0
                   else if String.eqb g0 ",," then 2
                   else caPunPos ca1)
                  (caMerge ca1) (caStart ca1))
      end
  end.

End Rene.

Import Rene.

(** * Vocabulary of the statements *)

(** The condition under which no pass of the loop of [avoid] can raise:
    the merge scheme works on a non-empty root, and the appending scheme
    has given the root a non-empty tail after its first pass. *)
Definition ca_inv (ca : CA) (i : nat) (root : string) (rootLen : option Z)
  : Prop :=
  if caMerge ca then root <> ""
  else caStart ca <> "" /\
       (i = 0%nat \/
        exists p x, root = p ++ x /\ x <> "" /\ rootLen = Some (len p)).

(** A name that is queued in the batch or exists in the directory. *)
Definition collides (os_path_exists : string -> bool)
  (newList : list string) (t : string) : Prop :=
  free os_path_exists newList t = false.

(** The name 08493357-00N.tif for a digit character [n]. *)
Definition patent (n : ascii) : string :=
  "08493357-00" ++ String n ".tif".

(** The names the default scheme can test for his-01.png, in order. *)
Definition his_candidates : list string :=
  [ "his-01.png"; "his-010.png"; "his-011.png"; "his-012.png";
    "his-013.png"; "his-014.png"; "his-015.png"; "his-016.png";
    "his-017.png"; "his-018.png"; "his-019.png" ].

(** The proposed name as [avoid] first tests it: split by [greedyext],
    with the decoration string, if there is one, put before the root
    (position 0) or after it (positions 1 and 2). *)
Definition decorated (ca : CA) (name : string) : string :=
  let '(root, ext) := greedyext name in
  (if String.eqb (caPun ca) "" then root
   else if caPunPos ca =? 0 then caPun ca ++ root
   else if (caPunPos ca =? 1) || (caPunPos ca =? 2) then root ++ caPun ca
   else root) ++ ext.






(** What may change in a rule while it is in use: the start parameter of
    an insert-increment rule, nothing else. *)
Definition same_frame (r0 r : rule) : Prop :=
  List.length r = List.length r0 /\
  (forall i, i <> I_START -> nth_error r i = nth_error r0 i) /\
  (nth_error r0 0 <> Some (VStr incRule) -> r = r0).

Definition is_var (c : ascii) : bool := str_in (String c "") rvars.

(** A token is a single variable character or a literal. *)
Definition token (t : string) : Prop :=
  str_in t rvars = true -> exists c, t = String c "" /\ is_var c = true.

(** The record of dispatches of a run: the rule cursor counts them, the
    [k]-th entry carries rule index [k], the token indices increase and
    each is below [idx] and names a [?] or [:] of the replacement. *)
Definition paired (lrep : list string) (rules0 : list rule) (idx : nat)
  (st : NState) : Prop :=
  ridx st = List.length (dispatched st) /\
  map snd (dispatched st) = seq 0 (List.length (dispatched st)) /\
  StronglySorted lt (map fst (dispatched st)) /\
  Forall (fun e => (fst e < idx)%nat /\
                   (nth_error lrep (fst e) = Some rvRule
                    \/ nth_error lrep (fst e) = Some rvAdd))
         (dispatched st) /\
  (List.length (dispatched st) <= List.length rules0)%nat /\
  Forall2 same_frame rules0 (rules st).

(** The positions of the rule tokens [?] and [:] in a replacement, in
    order of occurrence; [rulevars_of] lists the tokens themselves. *)
Fixpoint positions_from (i : nat) (lrep : list string) : list nat :=
  match lrep with
  | [] => []
  | rep :: rest =>
      if String.eqb rep rvRule || String.eqb rep rvAdd
      then i :: positions_from (S i) rest
      else positions_from (S i) rest
  end.

Definition rule_positions (lrep : list string) : list nat :=
  positions_from 0 lrep.

(** The rules of the recursive insert-increment test: an alphabetic
    counter that reloads and a numeric one that does not. *)
Definition two_inserters : list rule :=
  [ [VStr "I"; VStr "A"; VInt 1; VInt 1; VInt 2; VStr "A"];
    [VStr "I"; VInt 5; VInt 10; VInt 2; VInt 0; VInt 0] ].

Definition pass_state (p : pass) : PState :=
  match p with Next st => st | Return1 st => st end.

(** What [reload] reads in a rule: whether the R bit of its mode is set. *)
Definition reloads (r : rule) : bool :=
  match nth_error r I_MODE with
  | Some (VInt m) => negb (Z.land m I_R =? 0)
  | _ => false
  end.

(** An insert-increment rule as [prepRule] leaves it: the mode is a
    bitmap, and when its R bit is set the reload value is a copy of the
    start value. *)
Definition inc_ready (r : rule) : Prop :=
  exists m, nth_error r I_MODE = Some (VInt m) /\
    (Z.land m I_R <> 0 ->
     exists start, nth_error r I_START = Some start
                   /\ nth_error r I_RELOAD = Some start).

(** The rules and the list of I rules as the command line leaves them. *)
Definition rules_ready (rules0 : list rule) (irs : list nat) : Prop :=
  (forall idx, In idx irs -> (idx < List.length rules0)%nat) /\
  forall idx r, nth_error rules0 idx = Some r ->
    (nth_error r 0 = Some (VStr incRule) <-> In idx irs) /\
    (nth_error r 0 = Some (VStr incRule) -> inc_ready r).

(** A directory boundary that treats the rules as documented: both
    states are the supplied rules up to advanced start values, a rule
    flagged R leaves the boundary with its initial start value, and every
    other rule leaves it as it came. *)
Definition boundary_ok (rules0 : list rule) (p : list rule * list rule)
  : Prop :=
  Forall2 same_frame rules0 (fst p) /\
  Forall2 same_frame rules0 (snd p) /\
  forall idx r0, nth_error rules0 idx = Some r0 ->
    exists rb ra,
      nth_error (fst p) idx = Some rb /\ nth_error (snd p) idx = Some ra /\
      (nth_error r0 0 = Some (VStr incRule) -> reloads r0 = true ->
       nth_error ra I_START = nth_error r0 I_START) /\
      (~ (nth_error r0 0 = Some (VStr incRule) /\ reloads r0 = true) ->
       ra = rb).

Definition tree_inv (rules0 : list rule) (st : TState) : Prop :=
  Forall2 same_frame rules0 (tRules st) /\
  Forall (boundary_ok rules0) (boundaries st) /\
  List.length (boundaries st) = List.length (rVisit st).

(** The levels left below the current directory. *)
Definition levels_left (rc : Recurse) (st : TState) : nat :=
  Z.to_nat (rDepth rc - curDepth st).

(** The directories of a recursive run that nothing stops, each with what
    [procDir] sees in it, with [n] levels left to go down: the directory
    itself, then, in the order of the listing, the directories that pass
    the recursion option's list, each followed by what is below it. *)
Fixpoint walk_dirs (fnmatch : string -> string -> bool) (rc : Recurse)
  (n : nat) (t : tree) : list (string * DirFS) :=
  match t with
  | Node cwd fs subs =>
      (cwd, fs) ::
      match n with
      | O => []
      | S m => flat_map (fun p => if doit fnmatch rc (fst p)
                                  then walk_dirs fnmatch rc m (snd p) else [])
                        subs
      end
  end.

(** The rules through a sequence of directories, from the rules with
    which the first directory is reached to the rules the last one
    leaves, and the value returned.  In each directory the rules pass the
    boundary, [procDir] is run with the rules that leave the boundary, and
    the rules [procDir] leaves are those with which the next directory is
    reached.  A directory in which [procDir] does not return 0 is the
    last. *)
Inductive counted (fnmatch : string -> string -> bool) (b : Batch)
  (rules0 : list rule)
  : list (string * DirFS) -> list rule -> list rule -> Z -> Prop :=
| counted_end (rs : list rule) : counted fnmatch b rules0 [] rs rs 0
| counted_stop (cwd : string) (fs : DirFS) (arrive enter : list rule)
    (r1 : Z) (ps : PState) :
    boundary_ok rules0 (arrive, enter) ->
    procDir fnmatch b fs enter = Ok (r1, ps) ->
    r1 <> 0 ->
    counted fnmatch b rules0 [(cwd, fs)] arrive (pRules ps) 1
| counted_go (cwd : string) (fs : DirFS) (dirs : list (string * DirFS))
    (arrive enter : list rule) (ps : PState) (leave : list rule) (r : Z) :
    boundary_ok rules0 (arrive, enter) ->
    procDir fnmatch b fs enter = Ok (0, ps) ->
    counted fnmatch b rules0 dirs (pRules ps) leave r ->
    counted fnmatch b rules0 ((cwd, fs) :: dirs) arrive leave r.

(** What a run of [procTree] that returns [ret] in state [st'], from the
    state [st], has done with the directories [w] before it. *)
Definition run_through (fnmatch : string -> string -> bool) (b : Batch)
  (rules0 : list rule) (w : list (string * DirFS)) (st : TState) (ret : Z)
  (st' : TState) : Prop :=
  exists dirs rest,
    w = (dirs ++ rest)%list
    /\ rVisit st' = (rVisit st ++ map fst dirs)%list
    /\ counted fnmatch b rules0 dirs (tRules st) (tRules st') ret
    /\ (ret = 0 -> rest = [])
    /\ curDepth st' = curDepth st.

(** The recursive test of the suite in small: a directory with two files
    and two subdirectories holding the same two files, renamed by
    [my* my*:: I/A///R I/5/10/2 -R]. *)
Definition pets : list (string * kind) :=
  [("my_Cat.png", Regular); ("my_Dog.png", Regular)].

Definition pets_dir (subdirs : list string) : DirFS :=
  mkDirFS (pets ++ map (fun d => (d, Directory)) subdirs)
    (fun s => in_list s (map fst pets ++ subdirs)) String.eqb.

Definition pets_tree : tree :=
  Node "recurse" (pets_dir ["X_New"; "X_Old"])
    [ ("X_New", Node "recurse/X_New" (pets_dir []) []);
      ("X_Old", Node "recurse/X_Old" (pets_dir []) []) ].

Definition pets_batch : Batch :=
  mkBatch 0 [] defaultCA
    (mkNative (mkPattern [Chr "m"; Chr "y"; LazyAny] true) false 0
       ["my"; "*"; ":"; ":"] (Some 1%nat) []).

(** The batch with the stop and continue flags replaced. *)
Definition with_policy (s c : bool) (b : Batch) : Batch :=
  mkBatch (opdirs b) (fOpt b)
    (mkCA s c (caPun (bCA b)) (caPunPos (bCA b)) (caMerge (bCA b))
       (caStart (bCA b)))
    (bNative b).

(** What follows the search in [procDir]: the empty name is the failure
    signal, on which the stop flag [s] is read; any other name is queued. *)
Definition after_search (s : bool) (old : string) (st : PState)
  (r : res string) : res pass :=
  match r with
  | Exc e => Exc e
  | Ok n =>
      if String.eqb n ""
      then Ok (if s then Return1 st else Next st)
      else Ok (Next (mkPState (oldList st ++ [old]) (pNewList st ++ [n])
                       (pRules st)))
  end.

(** A batch in which every file is renamed to x: filter f*, replacement
    x, twelve files, none of the candidate names on disk. *)
Definition twelve : list (string * kind) :=
  map (fun n => (n, Regular))
    [ "f01"; "f02"; "f03"; "f04"; "f05"; "f06";
      "f07"; "f08"; "f09"; "f10"; "f11"; "f12" ].

Definition twelve_dir : DirFS :=
  mkDirFS twelve (fun s => in_list s (map fst twelve)) String.eqb.

Definition to_x (s c : bool) : Batch :=
  mkBatch 0 [] (mkCA s c "" 1 false "0")
    (mkNative (mkPattern [Chr "f"; LazyAny] true) false 0 ["x"] None []).

(** The names queued when the twelfth file comes up. *)
Definition eleven_x : list string :=
  ["x"; "x0"; "x1"; "x2"; "x3"; "x4"; "x5"; "x6"; "x7"; "x8"; "x9"].

(** The pattern of a filter as the specification reads it: literals, [*]
    for any characters, [?] for one character, and, for the amended
    reading only, the tail of a filter that ends in [*.]: any characters
    but the dot. *)
Inductive ftok : Type :=
| FLit (c : ascii)
| FStar
| FQuest
| FRootTail.

Definition tok_of (c : ascii) : ftok :=
  if Ascii.eqb c "*" then FStar
  else if Ascii.eqb c "?" then FQuest
  else FLit c.

(** The pattern as the specification states it: every character of the
    filter read by [tok_of]. *)
Fixpoint stated_tokens (f : string) : list ftok :=
  match f with
  | EmptyString => []
  | String c r => tok_of c :: stated_tokens r
  end.

(** The pattern as the code builds it: a final [*.] is the root tail, a
    final bare dot is dropped. *)
Fixpoint amended_tokens (f : string) : list ftok :=
  match f with
  | EmptyString => []
  | String c r =>
      match r with
      | EmptyString => if Ascii.eqb c "." then [] else [tok_of c]
      | String d EmptyString =>
          if Ascii.eqb c "*" && Ascii.eqb d "." then [FRootTail]
          else tok_of c :: amended_tokens r
      | _ => tok_of c :: amended_tokens r
      end
  end.


Fixpoint all_chars (p : ascii -> bool) (s : string) : bool :=
  match s with
  | EmptyString => true
  | String c r => p c && all_chars p r
  end.

(** A name without a newline. *)
Definition no_nl (s : string) : Prop := all_chars not_nl s = true.

(** A filter whose literal characters are not special to [re]. *)
Definition plain_chr (c : ascii) : bool :=
  Ascii.eqb c "." || Ascii.eqb c "*" || Ascii.eqb c "?" || negb (re_special c).

Definition plain_filter (f : string) : bool := all_chars plain_chr f.

Definition atom_of_tok (t : ftok) : atom :=
  match t with
  | FLit c => Chr c
  | FStar => LazyAny
  | FQuest => Any1
  | FRootTail => NoDotStar
  end.


(** The text of a token in a regular expression. *)
Definition render_tok (t : ftok) : string :=
  match t with
  | FLit c => if is_dot c then "\." else String c ""
  | FStar => "(.*?)"
  | FQuest => "(.)"
  | FRootTail => nodot_group
  end.

Fixpoint render_toks (toks : list ftok) : string :=
  match toks with
  | [] => ""
  | t :: r => render_tok t ++ render_toks r
  end.

Definition plain_tok (t : ftok) : bool :=
  match t with
  | FLit c => is_dot c || negb (re_special c)
  | _ => true
  end.


(** ** Vocabulary of the further properties *)

(** The number a text of decimal digits writes, read after the digits
    that gave [acc]. *)
Definition digits_val (s : string) (acc : Z) : Z :=
  fold_left (fun a c => a * 10 + digit_val c) (list_ascii_of_string s) acc.

(** A binary digit. *)
Definition is_bit (c : ascii) : bool := Ascii.eqb c "0" || Ascii.eqb c "1".

(** The number a text of binary digits writes, read after the digits
    that gave [acc]. *)
Definition bits_val (s : string) (acc : Z) : Z :=
  fold_left (fun a c => a * 2 + digit_val c) (list_ascii_of_string s) acc.

(** A prefix that does not end in a digit. *)
Definition no_digit_end (p : string) : Prop :=
  match last_char p with
  | Some c => isdigit c = false
  | None => True
  end.


(** [sep.join(l)] *)
Fixpoint join_with (sep : ascii) (l : list string) : string :=
  match l with
  | [] => ""
  | [x] => x
  | x :: r => x ++ String sep (join_with sep r)
  end.

(** A text without the character [sep]. *)
Definition free_of (sep : ascii) (s : string) : bool :=
  all_chars (fun c => negb (Ascii.eqb c sep)) s.

(** A path separator, of either platform. *)
Definition is_sep (c : ascii) : bool := Ascii.eqb c "/" || Ascii.eqb c backslash.

(** An index the order option does not list. *)
Definition unlisted (o : list Z) (i : Z) : bool := negb (existsb (Z.eqb i) o).

(** A token of a filter that stands for text of the name: [*], [?] and
    the tail of a filter that ends in [*.]. *)
Definition is_floater (t : ftok) : bool :=
  match t with FLit _ => false | _ => true end.

(** The number of [*] and [?] of a pattern. *)
Definition count_floaters (toks : list ftok) : nat :=
  List.length (filter is_floater toks).

(** An atom of a compiled filter that is a group. *)
Definition is_group (a : atom) : bool :=
  match a with Chr _ => false | _ => true end.

(** A character other than the two rule variables. *)
Definition no_rule_chr (c : ascii) : bool :=
  negb (Ascii.eqb c "?") && negb (Ascii.eqb c ":").

(** A token that takes no rule: a literal, [*] or [/]. *)
Definition plain_token (t : string) : Prop :=
  str_in t rvars = false \/ t = rvCopy \/ t = rvSkip.

(** A character a filter takes literally. *)
Definition lit_chr (c : ascii) : bool := is_dot c || negb (re_special c).

(** A text as the literal tokens of a filter. *)
Fixpoint lits (s : string) : list ftok :=
  match s with
  | EmptyString => []
  | String c r => FLit c :: lits r
  end.

(** Two texts of the same length whose characters agree, up to case
    under [re.IGNORECASE]. *)
Fixpoint lits_eq (ic : bool) (p s : string) : bool :=
  match p, s with
  | EmptyString, EmptyString => true
  | String c p', String d s' => chr_eq ic c d && lits_eq ic p' s'
  | _, _ => false
  end.

(** [a] is [b] with some of its elements left out. *)
Inductive subseq {A : Type} : list A -> list A -> Prop :=
| subseq_nil : subseq [] []
| subseq_skip x a b : subseq a b -> subseq a (x :: b)
| subseq_take x a b : subseq a b -> subseq (x :: a) (x :: b).

(** What [procDir] may queue for the file [old]: a name that is not
    empty and that either does not exist, or is the file itself under
    another spelling. *)
Definition safe_target (fs : DirFS) (old new : string) : Prop :=
  new <> "" /\
  (os_exists fs new = false
   \/ (os_samefile fs old new = true /\ new <> old)).

(** The rename pairs of a batch: as many new names as old ones, the new
    names distinct and safe, the old names taken from [seen] in its
    order. *)
Definition plan_ok (fs : DirFS) (seen : list string) (st : PState) : Prop :=
  NoDup (pNewList st)
  /\ Forall2 (safe_target fs) (oldList st) (pNewList st)
  /\ subseq (oldList st) seen.

(** One more pair, or none: what a pass of the loop does to the plan. *)
Definition plan_step (fs : DirFS) (old : string) (st st' : PState) : Prop :=
  (oldList st' = oldList st /\ pNewList st' = pNewList st)
  \/ exists n, oldList st' = (oldList st ++ [old])%list
               /\ pNewList st' = (pNewList st ++ [n])%list
               /\ ~ In n (pNewList st)
               /\ safe_target fs old n.

(** An entry [procDir] may rename: a file or, with the directory option, a
    directory; not one of the program's own files, and not one that an
    exclusion pattern of the filter option matches. *)
Definition eligible (fnmatch : string -> string -> bool) (b : Batch)
  (old : string) (k : kind) : bool :=
  match k with
  | Regular => negb (1 <? opdirs b) && negb (renePat_match old)
  | Directory => negb (opdirs b =? 0)
  | Other => false
  end && negb (existsb (fnmatch old) (fOpt b)).

(** The names of a directory. *)
Definition names (d : Disk) : list string := map ename d.

(** The disk after the renames of a plan, made in order. *)
Definition renamed (acts : list (string * string)) (d : Disk) : Disk :=
  fold_left (fun x a => move (fst a) (snd a) x) acts d.

(** What is written to reneAct for a plan. *)
Definition act_log (acts : list (string * string)) : string :=
  join (map act_line acts).

(** A plan that fits a directory: the old names are entries, each once;
    the new names are different from one another, not empty, and no
    entry has one of them. *)
Definition plan_fits (d : Disk) (acts : list (string * string)) : Prop :=
  NoDup (map fst acts)
  /\ Forall (fun o => In o (names d)) (map fst acts)
  /\ NoDup (map snd acts)
  /\ Forall (fun n => n <> "" /\ ~ In n (names d)) (map snd acts).

(** A character that neither ends a line nor separates the two names of
    a line of reneAct. *)
Definition line_chr (c : ascii) : bool :=
  negb (Ascii.eqb c ">") && negb (Ascii.eqb c newline)
  && negb (Ascii.eqb c carriage_return).

(** A name that a line of reneAct gives back: it holds no [>] and no line
    end; a new name, the last on its line, does not end in a blank. *)
Definition old_in_line (o : string) : Prop :=
  o <> "" /\ all_chars line_chr o = true.

(** A new name that a line of reneAct gives back. *)
Definition new_in_line (n : string) : Prop :=
  all_chars line_chr n = true
  /\ exists c, last_char n = Some c /\ py_isspace c = false.

(** The directory with the text [t] in reneAct and every other entry as
    it is. *)
Definition with_act (d : Disk) (t : string) : Disk :=
  match disk_find d "reneAct" with
  | Some _ => map (fun e => if named "reneAct" e then set_body t e else e) d
  | None => (d ++ [mkEntry (fresh d) "reneAct" false t])%list
  end.

(** reneAct, if the directory has it, is a file. *)
Definition act_is_file (d : Disk) : Prop :=
  match disk_find d "reneAct" with
  | Some e => isdir e = false
  | None => True
  end.

(** The files and directories of a directory, whatever their names: for
    each entry what it is and, for a file, its text. *)
Definition contents (d : Disk) : list (nat * bool * string) :=
  map (fun e => (ino e, isdir e, body e)) d.

(** The directories a traversal visits when nothing stops it, with [n]
    levels left to go down: the directory itself, then, level by level
    and in the order of the listing, the directories that pass the
    recursion option's list, each followed by what is below it. *)
Fixpoint walk (fnmatch : string -> string -> bool) (rc : Recurse) (n : nat)
  (t : tree) : list string :=
  match t with
  | Node cwd _ subs =>
      cwd ::
      match n with
      | O => []
      | S m => flat_map (fun p => if doit fnmatch rc (fst p)
                                  then walk fnmatch rc m (snd p) else [])
                        subs
      end
  end.

(** What a traversal that started in state [st] and ended with [r] in
    state [st'] has visited, against the list [w] of the directories to
    visit. *)
Definition visited (w : list string) (st : TState) (r : res Z)
  (st' : TState) : Prop :=
  exists l,
    rVisit st' = (rVisit st ++ l)%list
    /\ (exists l2, w = (l ++ l2)%list)
    /\ (forall ret, r = Ok ret ->
          curDepth st' = curDepth st
          /\ (ret = 0 \/ ret = 1)
          /\ (ret = 0 -> l = w)).

(** What the collision option is made of: the three flags, a start
    string between slashes, a start number, a start letter, and any other
    character (punctuation and commas among them). *)
Inductive xitem : Type :=
| XStop
| XContinue
| XMerge
| XString (t : string)
| XNumber (ds : string)
| XLetter (c : ascii)
| XOther (c : ascii).

(** A field as it is typed. *)
Definition render_item (x : xitem) : string :=
  match x with
  | XStop => "S"
  | XContinue => "C"
  | XMerge => "M"
  | XString t => "/" ++ t ++ "/"
  | XNumber ds => ds
  | XLetter c => String c ""
  | XOther c => String c ""
  end.

(** The fields typed one after the other. *)
Definition render_items (xs : list xitem) : string :=
  join (map render_item xs).

(** A field that is what it says: a string without slash, a number of
    one or more digits, a letter that is no flag, another character of
    the ASCII alphabet that is neither slash, digit nor letter. *)
Definition item_ok (x : xitem) : bool :=
  match x with
  | XString t => free_of "/" t
  | XNumber ds => negb (String.eqb ds "") && all_chars isdigit ds
  | XLetter c => isalpha c && negb (Ascii.eqb c "S")
                 && negb (Ascii.eqb c "C") && negb (Ascii.eqb c "M")
  | XOther c => (ord c <? 128) && negb (Ascii.eqb c "/")
                && negb (isdigit c) && negb (isalpha c)
  | _ => true
  end.

(** Fields that can be told apart when typed one after the other: no
    number directly after a number. *)
Fixpoint items_ok (xs : list xitem) : bool :=
  match xs with
  | [] => true
  | x :: xs' =>
      item_ok x && items_ok xs'
      && match x, xs' with
         | XNumber _, XNumber _ :: _ => false
         | _, _ => true
         end
  end.

(** What a field asks for. *)
Definition item_effect (ca : CA) (x : xitem) : CA :=
  match x with
  | XStop => mkCA true (caContinue ca) (caPun ca) (caPunPos ca)
               (caMerge ca) (caStart ca)
  | XContinue => mkCA (caStop ca) true (caPun ca) (caPunPos ca)
                   (caMerge ca) (caStart ca)
  | XMerge => mkCA (caStop ca) (caContinue ca) (caPun ca) (caPunPos ca)
                true (caStart ca)
  | XString t => mkCA (caStop ca) (caContinue ca) (caPun ca) (caPunPos ca)
                   (caMerge ca) t
  | XNumber ds => mkCA (caStop ca) (caContinue ca) (caPun ca) (caPunPos ca)
                    (caMerge ca) ds
  | XLetter c => mkCA (caStop ca) (caContinue ca) (caPun ca) (caPunPos ca)
                   (caMerge ca) (String c "")
  | XOther _ => ca
  end.

(** * Properties *)

(** ** Strings and slices *)

Lemma bind_Ok_r {A : Type} (m : res A) : bind m Ok = m.
Proof. destruct m; reflexivity. Qed.

Lemma str_length_app (s t : string) :
  String.length (s ++ t) = (String.length s + String.length t)%nat.
Proof. induction s as [|c s IH]; simpl; [reflexivity | now rewrite IH]. Qed.

Lemma app_empty_r (s : string) : s ++ "" = s.
Proof. induction s as [|c s IH]; simpl; [reflexivity | now rewrite IH]. Qed.

Lemma app_assoc_str (s t u : string) : (s ++ t) ++ u = s ++ t ++ u.
Proof. induction s as [|c s IH]; simpl; [reflexivity | now rewrite IH]. Qed.

Lemma last_char_snoc (s : string) (c : ascii) :
  last_char (s ++ String c "") = Some c.
Proof.
  induction s as [|d s IH]; simpl; [reflexivity|].
  rewrite IH. destruct s; reflexivity.
Qed.

Lemma last_char_app (s t : string) :
  t <> "" -> last_char (s ++ t) = last_char t.
Proof.
  intros Ht. induction s as [|d s IH]; simpl; [reflexivity|].
  rewrite IH. destruct (s ++ t) eqn:E; [|reflexivity].
  destruct s; simpl in E; [contradiction | discriminate].
Qed.

Lemma last_char_inv (s : string) (c : ascii) :
  last_char s = Some c -> exists p, s = p ++ String c "".
Proof.
  induction s as [|d s IH]; simpl; [discriminate|].
  destruct s as [|e s'].
  - intros [= ->]. now exists "".
  - intros H. destruct (IH H) as [p Hp]. exists (String d p).
    simpl. now rewrite <- Hp.
Qed.

Lemma last_char_none (s : string) : last_char s = None -> s = "".
Proof.
  induction s as [|d s IH]; simpl; [reflexivity|].
  destruct s; [discriminate|]. intros H. now specialize (IH H).
Qed.

Lemma substring_0_app (s t : string) :
  substring 0 (String.length s) (s ++ t) = s.
Proof.
  induction s as [|c s IH]; simpl.
  - destruct t; reflexivity.
  - now rewrite IH.
Qed.

Lemma substring_app_tail (s t : string) :
  substring (String.length s) (String.length t) (s ++ t) = t.
Proof.
  induction s as [|c s IH]; simpl; [|exact IH].
  induction t as [|d t IHt]; simpl; [reflexivity | now rewrite IHt].
Qed.

(** [ (s + t)[:len(s)] == s ] *)
Lemma slice_prefix (s t : string) :
  slice (s ++ t) (Some 0) (Some (len s)) = s.
Proof.
  unfold slice, norm_idx, len. rewrite str_length_app.
  replace (0 <? 0) with false by reflexivity.
  destruct (Z.ltb_spec (Z.of_nat (String.length s)) 0); [lia|].
  rewrite Z.min_l by lia. rewrite Z.min_l by lia.
  rewrite Z.sub_0_r, Nat2Z.id. apply substring_0_app.
Qed.

(** [ (s + t)[len(s):] == t ] *)
Lemma slice_suffix (s t : string) :
  slice (s ++ t) (Some (len s)) None = t.
Proof.
  unfold slice, norm_idx, len. rewrite str_length_app.
  destruct (Z.ltb_spec (Z.of_nat (String.length s)) 0); [lia|].
  rewrite Z.min_l by lia. rewrite Nat2Z.id.
  match goal with
  | |- substring _ ?n _ = _ => replace n with (String.length t) by lia
  end.
  apply substring_app_tail.
Qed.

(** [ (s + c)[0:-1] == s ] *)
Lemma slice_drop_last (s : string) (c : ascii) :
  slice (s ++ String c "") (Some 0) (Some (-1)) = s.
Proof.
  unfold slice, norm_idx, len. rewrite str_length_app. simpl String.length.
  replace (0 <? 0) with false by reflexivity.
  replace (-1 <? 0) with true by reflexivity.
  rewrite Z.min_l by lia. rewrite Z.max_r by lia.
  change (Z.to_nat 0) with 0%nat.
  match goal with
  | |- substring 0 ?n _ = _ => replace n with (String.length s) by lia
  end.
  apply substring_0_app.
Qed.

(** [ (s + t)[:-len(t)] == s ] for a non-empty [t]. *)
Lemma slice_peel (s t : string) :
  t <> "" -> slice (s ++ t) None (Some (- len t)) = s.
Proof.
  intros Ht. unfold slice, norm_idx, len. rewrite str_length_app.
  assert (0 < String.length t)%nat by (destruct t; [contradiction | simpl; lia]).
  destruct (Z.ltb_spec (- Z.of_nat (String.length t)) 0); [|lia].
  rewrite Z.max_r by lia.
  change (Z.to_nat 0) with 0%nat.
  match goal with
  | |- substring 0 ?n _ = _ => replace n with (String.length s) by lia
  end.
  apply substring_0_app.
Qed.

(** ** The increment primitive *)

Lemma nextName_alpha (s : string) (c : ascii) (step offset : Z) :
  isalpha c = true ->
  nextName (s ++ String c "") step offset =
  Ok (Some (s ++
    (let firstChr := if islower c then "a"%char else "A"%char in
     let lastChr := if islower c then "z"%char else "Z"%char in
     let nextord := ord c + step mod 26 in
     if step <? 0
     then if nextord >? ord lastChr
          then String (chr (nextord - 26)) ""
          else String lastChr (String (chr nextord) "")
     else if nextord >? ord lastChr
          then String firstChr (String (chr (nextord - 26)) "")
          else String (chr nextord) ""))).
Proof.
  intros Ha. unfold nextName. rewrite last_char_snoc.
  assert (Hd : isdigit c = false).
  { unfold isalpha, isupper, islower, isdigit in *.
    destruct (48 <=? ord c) eqn:E1, (ord c <=? 57) eqn:E2; try reflexivity.
    apply Z.leb_le in E2. exfalso.
    apply orb_true_iff in Ha as [Ha|Ha]; apply andb_true_iff in Ha as [Ha _];
      apply Z.leb_le in Ha; lia. }
  rewrite Hd, Ha, slice_drop_last. cbv zeta.
  destruct (step <? 0); destruct (_ >? _); reflexivity.
Qed.

(** C2. The increment primitive on the documented examples, and its
    alphabetic case in general: whatever the step, a name ending in a
    letter keeps every character before that letter, and the letter is
    replaced by one character, or by two when the increment carries or
    borrows (one character appended). *)
Theorem nextName_examples_and_alpha_carry :
  nextName "Y" 1 0 = Ok (Some "Z") /\
  nextName "Z" 1 0 = Ok (Some "AA") /\
  nextName "z" 1 0 = Ok (Some "aa") /\
  nextName "A" (-1) 0 = Ok (Some "ZZ") /\
  nextName "a" (-1) 0 = Ok (Some "zz") /\
  nextName "007" 1 0 = Ok (Some "008") /\
  nextName "099" 1 0 = Ok (Some "100") /\
  forall (s : string) (c : ascii) (step offset : Z),
    isalpha c = true ->
    exists t : string,
      nextName (s ++ String c "") step offset = Ok (Some (s ++ t)) /\
      (String.length t = 1 \/ String.length t = 2)%nat /\
      (String.length t = 2%nat <->
       (0 <= step /\ ord c + step mod 26 > ord (if islower c then "z" else "Z")%char)
       \/ (step < 0 /\ ord c + step mod 26 <= ord (if islower c then "z" else "Z")%char)).
Proof.
  repeat (split; [reflexivity|]).
  intros s c step offset Ha.
  rewrite (nextName_alpha s c step offset Ha). cbv zeta.
  destruct (Z.ltb_spec step 0) as [Hs|Hs];
    destruct (Z.gtb_spec (ord c + step mod 26)
                (ord (if islower c then "z" else "Z")%char)) as [Hn|Hn];
    eexists; (split; [reflexivity|]); simpl String.length;
    (split; [auto|]); split; intros H; try discriminate; try reflexivity;
    try lia; destruct H as [[? ?]|[? ?]]; lia.
Qed.

Lemma nextName_alpha_carry_witness :
  exists t : string,
    nextName ("his-0" ++ String "Z"%char "") 1 0 = Ok (Some ("his-0" ++ t)) /\
    String.length t = 2%nat.
Proof.
  destruct nextName_examples_and_alpha_carry
    as (_ & _ & _ & _ & _ & _ & _ & H).
  destruct (H "his-0" "Z"%char 1 0 eq_refl) as (t & Ht & _ & Hlen).
  exists t. split; [exact Ht|].
  apply Hlen. left. vm_compute. split; [discriminate | reflexivity].
Defined.

(** C8 (amended). For every string that has a last character, that
    character being neither a digit nor a letter, [nextName] returns the
    string with the decimal rendering of the step appended. *)
Theorem nextName_punctuation (str : string) (c : ascii) (step offset : Z) :
  last_char str = Some c ->
  isdigit c = false ->
  isalpha c = false ->
  nextName str step offset = Ok (Some (str ++ str_of_Z step)).
Proof.
  intros Hl Hd Ha. unfold nextName. now rewrite Hl, Hd, Ha.
Qed.

Lemma nextName_punctuation_witness :
  nextName "my2ABC{}" 1 0 = Ok (Some "my2ABC{}1").
Proof.
  exact (nextName_punctuation "my2ABC{}" "}"%char 1 0 eq_refl eq_refl eq_refl).
Defined.

(** C8 as stated fails on the empty string: [str[-1]] raises before any
    case is chosen, so nothing is returned. *)
Lemma nextName_empty_raises :
  nextName "" 1 0 = Exc IndexError /\
  nextName "" 1 0 <> Ok (Some ("" ++ str_of_Z 1)).
Proof. split; [reflexivity | discriminate]. Qed.

(** ** Rule parameters *)

Lemma upper_is_X (c : ascii) :
  Ascii.eqb (upper c) "X" = Ascii.eqb c "x" || Ascii.eqb c "X".
Proof.
  destruct c as [[] [] [] [] [] [] [] []]; vm_compute; reflexivity.
Qed.

(** C10. Numeric rule parameters are read by radix: a parameter that
    begins with 0 and has a second character is read by [int(v, 16)] when
    that character is x or X and by [int(v, 2)] otherwise.  So 010 is 2,
    0 is 0, and 08 raises ValueError, which reaches the command parser
    through [prepRule] and makes it exit. *)
Theorem scanint_radix :
  (forall (c : ascii) (r : string),
     scanint (String "0" (String c r)) =
     if Ascii.eqb c "x" || Ascii.eqb c "X"
     then py_int 16 (String "0" (String c r))
     else py_int 2 (String "0" (String c r))) /\
  scanint "010" = Ok 2 /\
  scanint "0" = Ok 0 /\
  scanint "08" = Exc ValueError /\
  scanint "0x1F" = Ok 31 /\
  scanint "0X10" = Ok 16 /\
  scanint "10" = Ok 10 /\
  (d <- repRules "B" ;; prepRule "B/010" d "?") = Ok [VStr "B"; VInt 2; VInt 0] /\
  (d <- repRules "B" ;; prepRule "B/08" d "?") = Exc ValueError /\
  prepRules ["B/08"] ["?"] 0 [] [] = Ok None.
Proof.
  split; [|repeat split; reflexivity].
  intros c r. unfold scanint.
  change (Ascii.eqb "0" "-") with false. cbv iota.
  change (negb (Ascii.eqb "0" "0")) with false. cbv iota.
  rewrite upper_is_X.
  destruct (Ascii.eqb c "x" || Ascii.eqb c "X");
    match goal with |- bind ?m _ = _ => destruct m; reflexivity end.
Qed.

(** ** The native pipeline, end to end *)

(** C1. With filter 08*-0* and replacement /hap*, each of the names
    08493357-001.tif to 08493357-005.tif matches with the floaters 493357
    and 0N.tif, and [native] returns hap0N.tif: the first floater is
    discarded by the / token, hap is copied, and the * token copies the
    last floater.  No rule is touched. *)
Theorem native_patents_end_to_end :
  forall ic : bool,
  exists cfg : Native,
    prepNative "08*-0*" "/hap*" ic [] = Ok (Some cfg) /\
    lrep cfg = ["/"; "hap"; "*"] /\
    forall (rules0 : list rule) (n : ascii),
      In n ["1"; "2"; "3"; "4"; "5"]%char ->
      re_match (filter_ cfg) (patent n) = Some ["493357"; "0" ++ String n ".tif"] /\
      native cfg rules0 (patent n) = Ok ("hap0" ++ String n ".tif", rules0).
Proof.
  intros ic. eexists. split; [reflexivity|]. split; [reflexivity|].
  intros rules0 n Hn. simpl in Hn.
  destruct ic;
    repeat (destruct Hn as [<-|Hn]; [split; reflexivity|]); contradiction.
Qed.

Lemma native_patents_witness :
  exists cfg : Native,
    prepNative "08*-0*" "/hap*" true [] = Ok (Some cfg) /\
    native cfg [] "08493357-003.tif" = Ok ("hap03.tif", []).
Proof.
  destruct (native_patents_end_to_end true) as (cfg & Hc & _ & H).
  exists cfg. split; [exact Hc|].
  apply (H [] "3"%char). simpl. auto.
Defined.

(** ** Collision avoidance *)

(** One pass of the loop when no decoration has to be peeled off. *)
Lemma avoid_loop_cons (os_path_exists : string -> bool) (ca : CA)
  (newList : list string) (i : Z) (idxs : list Z) (ext root : string)
  (rootLen : option Z) (tested : list string) :
  avoid_loop os_path_exists ca newList (i :: idxs) 0 ext root rootLen tested =
  let tested' := (tested ++ [(root ++ ext)%string])%list in
  if free os_path_exists newList (root ++ ext)
  then (tested', Ok (root ++ ext))
  else if 9 <? i then (tested', Ok "")
  else if caMerge ca then
    match nextName root 1 0 with
    | Ok (Some r) =>
        avoid_loop os_path_exists ca newList idxs 0 ext r rootLen tested'
    | Ok None => (tested', Exc TypeError)
    | Exc e => (tested', Exc e)
    end
  else if i =? 0 then
    avoid_loop os_path_exists ca newList idxs 0 ext (root ++ caStart ca)
      (Some (len root)) tested'
  else
    match rootLen with
    | None => (tested', Exc NameError)
    | Some rl =>
        match nextName root 1 rl with
        | Ok (Some r) =>
            avoid_loop os_path_exists ca newList idxs 0 ext r rootLen tested'
        | Ok None => (tested', Exc TypeError)
        | Exc e => (tested', Exc e)
        end
    end.
Proof. reflexivity. Qed.

(** One pass of the appending scheme on concrete names: the test of the
    candidate becomes a case split, the pass after it is evaluated. *)
Ltac ca_step Hm Hs :=
  rewrite avoid_loop_cons; cbv zeta;
  match goal with
  | |- context [free ?e ?l (?r ++ ?x)] =>
      let s := eval vm_compute in (r ++ x) in
      change (r ++ x) with s
  end;
  match goal with
  | |- context [if free ?e ?l ?s then _ else _] =>
      let F := fresh "F" in
      destruct (free e l s) eqn:F
  end;
  [ | match goal with
      | |- context [9 <? ?i] =>
          let b := eval vm_compute in (9 <? i) in
          change (9 <? i) with b; cbv iota
      end;
      try (rewrite Hm; cbv iota;
           match goal with
           | |- context [?i =? 0] =>
               let b := eval vm_compute in (i =? 0) in
               change (i =? 0) with b; cbv iota
           end;
           try rewrite Hs;
           repeat match goal with
           | |- context [len ?r] =>
               let v := eval vm_compute in (len r) in
               change (len r) with v
           | |- context [nextName ?r 1 ?o] =>
               let v := eval vm_compute in (nextName r 1 o) in
               change (nextName r 1 o) with v; cbv iota
           | |- context [?r ++ "0"] =>
               let v := eval vm_compute in (r ++ "0") in
               change (r ++ "0") with v
           end) ].

Ltac ca_done n :=
  simpl fst; simpl snd; unfold his_candidates;
  split; [ exists n; split; [lia|]; split; [reflexivity|];
           split; [ intros k Hk;
                    do 11 (destruct k as [|k]; [cbn [nth]; first [assumption | lia]|]); lia
                  | cbn [nth];
                    first [ left; split; [reflexivity | assumption]
                          | right; split; [reflexivity|];
                            split; [reflexivity | assumption] ] ]
         | split; [ intros; congruence | intros; congruence ] ].

(** C6. The default numeric scheme (no merge, start token 0, no
    decoration) on the colliding name his-01.png: the names tested are an
    initial segment of his-01.png, his-010.png, his-011.png, ...,
    his-019.png, so the first alternative is his-010.png, the next
    his-011.png, and every candidate keeps the root his-01 and the
    extension and changes only the appended number; the result is the
    first free candidate. *)
Theorem avoid_default_numeric_scheme
  (os_path_exists : string -> bool) (ca : CA) (newList : list string) :
  caMerge ca = false ->
  caStart ca = "0" ->
  caPun ca = "" ->
  free os_path_exists newList "his-01.png" = false ->
  (exists n : nat,
     (1 <= n <= 10)%nat /\
     avoid_tested os_path_exists ca newList "his-01.png"
       = firstn (S n) his_candidates /\
     (forall k, (k < n)%nat ->
        free os_path_exists newList (nth k his_candidates "") = false) /\
     (avoid os_path_exists ca newList "his-01.png"
        = Ok (nth n his_candidates "")
      /\ free os_path_exists newList (nth n his_candidates "") = true
      \/
      avoid os_path_exists ca newList "his-01.png" = Ok ""
      /\ n = 10%nat
      /\ free os_path_exists newList (nth n his_candidates "") = false)) /\
  (free os_path_exists newList "his-010.png" = true ->
   avoid os_path_exists ca newList "his-01.png" = Ok "his-010.png") /\
  (free os_path_exists newList "his-010.png" = false ->
   free os_path_exists newList "his-011.png" = true ->
   avoid os_path_exists ca newList "his-01.png" = Ok "his-011.png").
Proof.
  intros Hm Hs Hp H0.
  unfold avoid, avoid_tested, avoid_run.
  change (greedyext "his-01.png") with ("his-01", ".png").
  rewrite Hp. cbv iota beta. change (negb ("" =? "")%string) with false.
  cbv iota beta. change (false && _) with false. cbv iota.
  change (range 100) with
    (0 :: 1 :: 2 :: 3 :: 4 :: 5 :: 6 :: 7 :: 8 :: 9 :: 10 :: map Z.of_nat (seq 11 89)).
  ca_step Hm Hs; [congruence|].
  ca_step Hm Hs; [ca_done 1%nat|].
  ca_step Hm Hs; [ca_done 2%nat|].
  ca_step Hm Hs; [ca_done 3%nat|].
  ca_step Hm Hs; [ca_done 4%nat|].
  ca_step Hm Hs; [ca_done 5%nat|].
  ca_step Hm Hs; [ca_done 6%nat|].
  ca_step Hm Hs; [ca_done 7%nat|].
  ca_step Hm Hs; [ca_done 8%nat|].
  ca_step Hm Hs; [ca_done 9%nat|].
  ca_step Hm Hs; [ca_done 10%nat|].
  ca_done 10%nat.
Qed.

Lemma avoid_default_numeric_scheme_witness :
  avoid (fun s => String.eqb s "his-01.png" || String.eqb s "his-010.png")
    defaultCA [] "his-01.png" = Ok "his-011.png".
Proof.
  apply (avoid_default_numeric_scheme
           (fun s => String.eqb s "his-01.png" || String.eqb s "his-010.png")
           defaultCA []); reflexivity.
Defined.

(** *** The ceiling of the search *)

Lemma app_eq_empty (s t : string) : s ++ t = "" -> s = "" /\ t = "".
Proof. destruct s; simpl; [auto | discriminate]. Qed.

Lemma str_of_Z_nonempty (z : Z) : str_of_Z z <> "".
Proof.
  unfold str_of_Z, NilZero.string_of_int.
  destruct (Z.to_int z) as [d|d]; [|discriminate].
  destruct d; discriminate.
Qed.

Lemma fmt_0d_nonempty (w v : Z) : fmt_0d w v <> "".
Proof.
  unfold fmt_0d. cbv zeta. intros H.
  destruct (0 <=? w).
  - apply app_eq_empty in H as [_ H]. apply app_eq_empty in H as [_ H].
    now apply str_of_Z_nonempty in H.
  - apply app_eq_empty in H as [_ H]. apply app_eq_empty in H as [H _].
    now apply str_of_Z_nonempty in H.
Qed.

(** A string that ends in a digit has a number at its end. *)
Lemma search_number_some (x : string) (c : ascii) :
  last_char x = Some c -> isdigit c = true ->
  exists g sn, search_number x = Some (g, sn).
Proof.
  induction x as [|d x IH]; [discriminate|].
  intros Hl Hd. cbn [search_number].
  destruct (lazy_number (String d x)) as [[g sn]|] eqn:E; [eauto|].
  destruct x as [|e x'].
  - exfalso. simpl in Hl. injection Hl as ->.
    cbn in E. unfold number_at_end in E. cbn in E. rewrite Hd in E.
    cbn in E. discriminate.
  - apply IH; [exact Hl | exact Hd].
Qed.

(** [nextName] with the offset at the end of [p] leaves [p] alone and
    returns a longer name than [p], whenever something follows [p]. *)
Lemma nextName_keeps_prefix (p x : string) (step : Z) :
  x <> "" ->
  exists x', nextName (p ++ x) step (len p) = Ok (Some (p ++ x')) /\ x' <> "".
Proof.
  intros Hx. unfold nextName.
  rewrite (last_char_app p x Hx).
  destruct (last_char x) as [c|] eqn:Hl;
    [|apply last_char_none in Hl; contradiction].
  destruct (isdigit c) eqn:Hd.
  - rewrite slice_suffix, slice_prefix.
    destruct (search_number_some x c Hl Hd) as (g & sn & ->).
    eexists. split; [reflexivity|].
    intros H. apply app_eq_empty in H as [_ H].
    now apply fmt_0d_nonempty in H.
  - destruct (last_char_inv x c Hl) as [x0 ->].
    rewrite <- app_assoc_str, slice_drop_last.
    destruct (isalpha c).
    + destruct (step <? 0); destruct (_ >? _); rewrite app_assoc_str;
        (eexists; split; [reflexivity|]);
        intros H; apply app_eq_empty in H as [_ H]; discriminate.
    + rewrite !app_assoc_str.
      eexists; split; [reflexivity|].
      intros H; apply app_eq_empty in H as [_ H]; discriminate.
Qed.

Lemma nextName_nonempty (s : string) (step : Z) :
  s <> "" -> exists s', nextName s step 0 = Ok (Some s') /\ s' <> "".
Proof.
  intros Hs. exact (nextName_keeps_prefix "" s step Hs).
Qed.

Section Ceiling.

Variable os_path_exists : string -> bool.
Variable ca : CA.
Variable newList : list string.

Variable pl : Z.
Hypothesis pl_ok : pl = 0 \/ (pl = len (caPun ca) /\ caPun ca <> "").

Lemma peel_decoration (root : string) :
  (if negb (pl =? 0)
   then slice (if negb (pl =? 0) then root ++ caPun ca else root)
          None (Some (- pl))
   else (if negb (pl =? 0) then root ++ caPun ca else root)) = root.
Proof.
  destruct pl_ok as [->|[Hpl Hne]]; [reflexivity|].
  destruct (pl =? 0); [reflexivity|]. cbn [negb].
  rewrite Hpl. now apply slice_peel.
Qed.

Lemma avoid_loop_bounded (ext : string) :
  forall (k i : nat) (root : string) (rootLen : option Z)
         (tested : list string),
    (i <= 10)%nat -> (10 < i + k)%nat ->
    exists (pre : list string) (t : string) (r : res string),
      avoid_loop os_path_exists ca newList (map Z.of_nat (seq i k)) pl ext
        root rootLen tested = ((tested ++ pre ++ [t])%list, r) /\
      hd t pre = (if negb (pl =? 0) then root ++ caPun ca else root) ++ ext /\
      (List.length pre + i <= 10)%nat /\
      Forall (collides os_path_exists newList) pre /\
      (free os_path_exists newList t = true /\ r = Ok t
       \/ collides os_path_exists newList t /\ (List.length pre + i = 10)%nat /\ r = Ok ""
       \/ collides os_path_exists newList t /\ exists e, r = Exc e) /\
      (ca_inv ca i root rootLen -> forall e, r <> Exc e).
Proof.
  induction k as [|k IH]; intros i root rootLen tested Hi Hk; [lia|].
  cbn [seq map avoid_loop]. rewrite peel_decoration.
  set (tname := (if negb (pl =? 0) then root ++ caPun ca else root) ++ ext).
  destruct (free os_path_exists newList tname) eqn:F.
  { exists [], tname, (Ok tname). cbn.
    repeat split; auto; try lia; discriminate. }
  destruct (Z.ltb_spec 9 (Z.of_nat i)) as [H9|H9].
  { exists [], tname, (Ok ""). cbn.
    repeat split; auto; try lia; try discriminate.
    right; left. repeat split; [exact F | lia]. }
  assert (Hstep : forall root' rootLen',
            (ca_inv ca i root rootLen -> ca_inv ca (S i) root' rootLen') ->
            exists pre t r,
              avoid_loop os_path_exists ca newList
                (map Z.of_nat (seq (S i) k)) pl ext root' rootLen'
                (tested ++ [tname])%list = ((tested ++ pre ++ [t])%list, r) /\
              hd t pre = tname /\
              (List.length pre + i <= 10)%nat /\
              Forall (collides os_path_exists newList) pre /\
              (free os_path_exists newList t = true /\ r = Ok t
               \/ collides os_path_exists newList t /\ (List.length pre + i = 10)%nat /\ r = Ok ""
               \/ collides os_path_exists newList t /\ exists e, r = Exc e) /\
              (ca_inv ca i root rootLen -> forall e, r <> Exc e)).
  { intros root' rootLen' Hinv.
    destruct (IH (S i) root' rootLen' (tested ++ [tname])%list)
      as (pre & t & r & E & _ & Hlen & Hall & Hres & Hno); [lia | lia |].
    exists (tname :: pre), t, r. rewrite E, <- app_assoc. cbn.
    repeat split; auto; try lia.
    destruct Hres as [H|[(H1 & H2 & H3)|H]]; auto.
    right; left. repeat split; auto; lia. }
  assert (Hfail : forall e : exn,
            (ca_inv ca i root rootLen -> False) ->
            exists pre t r,
              ((tested ++ [tname])%list, @Exc string e)
                = ((tested ++ pre ++ [t])%list, r) /\
              hd t pre = tname /\
              (List.length pre + i <= 10)%nat /\
              Forall (collides os_path_exists newList) pre /\
              (free os_path_exists newList t = true /\ r = Ok t
               \/ collides os_path_exists newList t /\ (List.length pre + i = 10)%nat /\ r = Ok ""
               \/ collides os_path_exists newList t /\ exists e, r = Exc e) /\
              (ca_inv ca i root rootLen -> forall e, r <> Exc e)).
  { intros e Hno. exists [], tname, (Exc e). cbn.
    repeat split; auto; try lia;
      try (intros Hinv; now apply Hno in Hinv).
    right; right. split; [exact F | eauto]. }
  unfold ca_inv in *.
  destruct (caMerge ca) eqn:Hm.
  - destruct (nextName root 1 0) as [[r'|]|e] eqn:En.
    + apply Hstep. intros Hr.
      destruct (nextName_nonempty root 1 Hr) as (s' & Es & Hs').
      congruence.
    + apply Hfail. intros Hr.
      destruct (nextName_nonempty root 1 Hr) as (s' & Es & _). congruence.
    + apply Hfail. intros Hr.
      destruct (nextName_nonempty root 1 Hr) as (s' & Es & _). congruence.
  - destruct (Z.eqb_spec (Z.of_nat i) 0) as [H0|H0].
    + apply Hstep. intros [Hs _]. split; [exact Hs|].
      right. exists root, (caStart ca). auto.
    + assert (Hroot : caStart ca <> "" /\
                (i = 0%nat \/
                 exists p x, root = p ++ x /\ x <> "" /\ rootLen = Some (len p))
                -> exists p x, caStart ca <> "" /\ root = p ++ x /\ x <> ""
                               /\ rootLen = Some (len p)).
      { intros [Hs [Hz|(p & x & H)]]; [lia|]. exists p, x. tauto. }
      destruct rootLen as [rl|].
      * destruct (nextName root 1 rl) as [[r'|]|e] eqn:En.
        -- apply Hstep. intros Hinv.
           destruct (Hroot Hinv) as (p & x & Hs & -> & Hx & [= ->]).
           destruct (nextName_keeps_prefix p x 1 Hx) as (x' & Ex & Hx').
           split; [exact Hs|]. right. exists p, x'.
           split; [congruence | auto].
        -- apply Hfail. intros Hinv.
           destruct (Hroot Hinv) as (p & x & Hs & -> & Hx & [= ->]).
           destruct (nextName_keeps_prefix p x 1 Hx) as (x' & Ex & _).
           congruence.
        -- apply Hfail. intros Hinv.
           destruct (Hroot Hinv) as (p & x & Hs & -> & Hx & [= ->]).
           destruct (nextName_keeps_prefix p x 1 Hx) as (x' & Ex & _).
           congruence.
      * apply Hfail. intros Hinv.
        destruct (Hroot Hinv) as (p & x & _ & _ & _ & H). discriminate.
Qed.

End Ceiling.



Lemma app_nonempty_r (s t : string) : t <> "" -> s ++ t <> "".
Proof. intros H E. now apply app_eq_empty in E as [_ E]. Qed.

Section Search.

Variable os_path_exists : string -> bool.
Variable ca : CA.
Variable newList : list string.
Variable pl : Z.
Hypothesis pl_ok : pl = 0 \/ (pl = len (caPun ca) /\ caPun ca <> "").
Variable ext : string.
Variable root0 : string.


End Search.




(** ** Rules, tokens and the rule cursor *)

Lemma pyval_eqb_eq (a b : pyval) : pyval_eqb a b = true -> a = b.
Proof.
  destruct a, b; simpl; try discriminate.
  - intros H. apply Z.eqb_eq in H. now subst.
  - intros H. apply String.eqb_eq in H. now subst.
Qed.

Lemma nth_res_Ok {A : Type} (l : list A) (i : nat) (a : A) :
  nth_res l i = Ok a <-> nth_error l i = Some a.
Proof.
  unfold nth_res. destruct (nth_error l i); split; intros H;
    try discriminate; now injection H as ->.
Qed.

Lemma bind_Ok_inv {A B : Type} (m : res A) (k : A -> res B) (b : B) :
  bind m k = Ok b -> exists a, m = Ok a /\ k a = Ok b.
Proof. destruct m; simpl; [eauto | discriminate]. Qed.

Lemma set_nth_length {A : Type} (l l' : list A) (i : nat) (a : A) :
  set_nth l i a = Ok l' -> List.length l' = List.length l.
Proof.
  revert l' i. induction l as [|x l IH]; intros l' i; [discriminate|].
  destruct i as [|i]; simpl.
  - now intros [= <-].
  - intros H. apply bind_Ok_inv in H as (l'' & H1 & [= <-]).
    simpl. f_equal. eauto.
Qed.

Lemma set_nth_same {A : Type} (l l' : list A) (i : nat) (a : A) :
  set_nth l i a = Ok l' -> nth_error l' i = Some a.
Proof.
  revert l' i. induction l as [|x l IH]; intros l' i; [discriminate|].
  destruct i as [|i]; simpl.
  - now intros [= <-].
  - intros H. apply bind_Ok_inv in H as (l'' & H1 & [= <-]).
    simpl. eauto.
Qed.

Lemma set_nth_other {A : Type} (l l' : list A) (i j : nat) (a : A) :
  set_nth l i a = Ok l' -> j <> i -> nth_error l' j = nth_error l j.
Proof.
  revert l' i j. induction l as [|x l IH]; intros l' i j; [discriminate|].
  destruct i as [|i]; simpl.
  - intros [= <-] Hj. destruct j; [contradiction | reflexivity].
  - intros H Hj. apply bind_Ok_inv in H as (l'' & H1 & [= <-]).
    destruct j as [|j]; [reflexivity|]. simpl. eapply IH; eauto.
Qed.

Lemma set_nth_defined {A : Type} (l : list A) (i : nat) (a : A) :
  (i < List.length l)%nat -> exists l', set_nth l i a = Ok l'.
Proof.
  revert i. induction l as [|x l IH]; intros i Hi; simpl in Hi; [lia|].
  destruct i as [|i]; simpl; [eauto|].
  destruct (IH i) as [l' ->]; [lia|]. simpl. eauto.
Qed.

Lemma same_frame_refl (r : rule) : same_frame r r.
Proof. repeat split; auto. Qed.

Lemma same_frame_trans (a b c : rule) :
  same_frame a b -> same_frame b c -> same_frame a c.
Proof.
  intros (L1 & N1 & E1) (L2 & N2 & E2). repeat split.
  - congruence.
  - intros i Hi. rewrite N2, N1; auto.
  - intros H. rewrite E2, E1; auto.
    rewrite N1; [exact H | discriminate].
Qed.

Lemma same_frame_start (r r' : rule) (v : pyval) :
  nth_error r 0 = Some (VStr incRule) ->
  set_nth r I_START v = Ok r' -> same_frame r r'.
Proof.
  intros Hh Hs. repeat split.
  - eapply set_nth_length; eauto.
  - intros i Hi. eapply set_nth_other; eauto.
  - intros H. contradiction.
Qed.

Lemma Forall2_refl_frame (rs : list rule) : Forall2 same_frame rs rs.
Proof. induction rs; constructor; auto using same_frame_refl. Qed.

Lemma Forall2_nth_error {A B : Type} (R : A -> B -> Prop) (l : list A)
  (l' : list B) (i : nat) (b : B) :
  Forall2 R l l' -> nth_error l' i = Some b ->
  exists a, nth_error l i = Some a /\ R a b.
Proof.
  intros H. revert i. induction H as [|x y l l' Hxy H IH]; intros i.
  - destruct i; discriminate.
  - destruct i as [|i]; simpl; [intros [= <-]; eauto | apply IH].
Qed.

Lemma Forall2_nth_error_l {A B : Type} (R : A -> B -> Prop) (l : list A)
  (l' : list B) (i : nat) (a : A) :
  Forall2 R l l' -> nth_error l i = Some a ->
  exists b, nth_error l' i = Some b /\ R a b.
Proof.
  intros H. revert i. induction H as [|x y l l' Hxy H IH]; intros i.
  - destruct i; discriminate.
  - destruct i as [|i]; simpl; [intros [= <-]; eauto | apply IH].
Qed.

Lemma Forall2_set_nth {A B : Type} (R : A -> B -> Prop) (l : list A)
  (l' l'' : list B) (i : nat) (a : A) (b : B) :
  Forall2 R l l' -> nth_error l i = Some a -> R a b ->
  set_nth l' i b = Ok l'' -> Forall2 R l l''.
Proof.
  intros H. revert i l''.
  induction H as [|x y l l' Hxy H IH]; intros i l''.
  - destruct i; discriminate.
  - destruct i as [|i]; simpl.
    + intros [= <-] Hab [= <-]. now constructor.
    + intros Hn Hab Hs. apply bind_Ok_inv in Hs as (m & Hm & [= <-]).
      constructor; eauto.
Qed.

(** The rules after [apply_inc]: the same frame. *)
Lemma apply_inc_frame (r r' : rule) (t : string) :
  nth_error r 0 = Some (VStr incRule) ->
  apply_inc r = Ok (t, r') -> same_frame r r'.
Proof.
  intros Hh. unfold apply_inc. intros H.
  apply bind_Ok_inv in H as (start & _ & H).
  destruct start as [n|a].
  - apply bind_Ok_inv in H as (pw & _ & H).
    apply bind_Ok_inv in H as (w & _ & H).
    apply bind_Ok_inv in H as (ps & _ & H).
    apply bind_Ok_inv in H as (step & _ & H).
    apply bind_Ok_inv in H as (r1 & Hs & [= _ <-]).
    eapply same_frame_start; eauto.
  - apply bind_Ok_inv in H as (ps & _ & H).
    apply bind_Ok_inv in H as (step & _ & H).
    apply bind_Ok_inv in H as (a' & _ & H).
    apply bind_Ok_inv in H as (r1 & Hs & [= _ <-]).
    eapply same_frame_start; eauto.
Qed.

(** What [dispatch] does to the cursor, the record and the rules. *)
Lemma dispatch_spec (rules0 : list rule) (idx : nat) (st st' : NState) :
  Forall2 same_frame rules0 (rules st) ->
  dispatch idx st = Ok st' ->
  ridx st' = S (ridx st) /\
  dispatched st' = (dispatched st ++ [(idx, ridx st)])%list /\
  (ridx st < List.length rules0)%nat /\
  Forall2 same_frame rules0 (rules st').
Proof.
  intros HF. unfold dispatch. intros H.
  apply bind_Ok_inv in H as (r & Hr & H).
  apply bind_Ok_inv in H as (h & Hh & H).
  apply nth_res_Ok in Hr, Hh.
  assert (Hlt : (ridx st < List.length rules0)%nat).
  { rewrite (Forall2_length HF). apply nth_error_Some. congruence. }
  destruct (pyval_eqb h (VStr sliceRule)).
  { destruct (src st) as [s|]; [|discriminate].
    apply bind_Ok_inv in H as (t & _ & [= <-]). cbn. auto. }
  destruct (pyval_eqb h (VStr bumpRule)).
  { destruct (src st) as [s|]; [|discriminate].
    apply bind_Ok_inv in H as (t & _ & [= <-]). cbn. auto. }
  destruct (pyval_eqb h (VStr incRule)) eqn:Eh.
  - apply pyval_eqb_eq in Eh. subst h.
    apply bind_Ok_inv in H as ([incName r'] & Hi & H).
    apply bind_Ok_inv in H as (rules' & Hs & H).
    apply bind_Ok_inv in H as (pm & _ & H).
    apply bind_Ok_inv in H as (mode & _ & [= <-]). cbn.
    repeat split; auto.
    destruct (Forall2_nth_error _ _ _ _ _ HF Hr) as (r0 & Hr0 & Hfr).
    apply (Forall2_set_nth same_frame rules0 (rules st) rules' (ridx st)
             r0 r' HF Hr0); [|exact Hs].
    eapply same_frame_trans; [exact Hfr|].
    eapply apply_inc_frame; eauto.
  - injection H as <-. cbn. auto.
Qed.

(** *** Tokens of a replacement *)

Lemma is_var_cases (c : ascii) :
  is_var c = true ->
  c = ":"%char \/ c = "?"%char \/ c = "/"%char \/ c = "*"%char.
Proof.
  destruct c as [[] [] [] [] [] [] [] []]; vm_compute; intros H;
    try discriminate; auto.
Qed.

Lemma literal_not_var (c : ascii) (l : string) :
  is_var c = false -> str_in (String c l) rvars = false.
Proof.
  destruct c as [[] [] [] [] [] [] [] []]; vm_compute; intros H;
    try discriminate; reflexivity.
Qed.

Lemma split_rep_tokens (aRep lit : string) :
  match lit with
  | EmptyString => True
  | String d _ => is_var d = false
  end ->
  Forall token (split_rep aRep lit).
Proof.
  revert lit. induction aRep as [|c rest IH]; intros lit Hlit.
  - cbn [split_rep]. destruct lit as [|d l]; cbn; constructor; [|constructor].
    intros H. now rewrite (literal_not_var d l Hlit) in H.
  - cbn [split_rep]. fold (is_var c). destruct (is_var c) eqn:Hc.
    + assert (Hv : Forall token (String c "" :: split_rep rest "")).
      { constructor; [|now apply IH]. intros _. eauto. }
      destruct lit as [|d l]; cbn; [exact Hv|].
      constructor; [|exact Hv].
      intros H. now rewrite (literal_not_var d l Hlit) in H.
    + apply IH. destruct lit as [|d l]; cbn; [exact Hc | exact Hlit].
Qed.

(** One pass of the token loop either leaves the rule cursor, the record
    and the rules alone, or is a rule dispatch of a [?] or [:] token. *)
Lemma native_step_spec (cfg : Native) (floaters : list string)
  (rules0 : list rule) (idx : nat) (rep : string) (st st' : NState) :
  token rep ->
  Forall2 same_frame rules0 (rules st) ->
  native_step cfg floaters idx rep st = Ok st' ->
  (ridx st' = ridx st /\ dispatched st' = dispatched st
   /\ rules st' = rules st)
  \/
  ((rep = rvRule \/ rep = rvAdd)
   /\ ridx st' = S (ridx st)
   /\ dispatched st' = (dispatched st ++ [(idx, ridx st)])%list
   /\ (ridx st < List.length rules0)%nat
   /\ Forall2 same_frame rules0 (rules st')).
Proof.
  intros Htok HF. unfold native_step.
  destruct (str_in rep rvars) eqn:Hv; cbn [negb].
  { destruct (Htok Hv) as (c & -> & Hc).
    apply is_var_cases in Hc as [-> | [-> | [-> | ->]]].
    - (* the insert variable *)
      change (str_in ":" consumers) with false. cbv iota.
      intros H. right.
      destruct (dispatch_spec rules0 idx st st' HF H) as (A & B & C & D).
      split; [now right | auto].
    - (* the rule variable *)
      change (str_in "?" consumers) with true. cbv iota.
      destruct (nMaxFloat cfg <? floatIdx st); [intros [= <-]; now left|].
      intros H.
      apply bind_Ok_inv in H as (mc & _ & H).
      apply bind_Ok_inv in H as (s & _ & H).
      change ("?" =? rvCopy)%string with false in H.
      change ("?" =? rvSkip)%string with false in H.
      cbn [orb] in H.
      destruct (s =? "")%string; [injection H as <-; now left|].
      right.
      match type of H with
      | dispatch idx ?st1 = _ =>
          destruct (dispatch_spec rules0 idx st1 st' HF H) as (A & B & C & D)
      end.
      split; [now left | auto].
    - (* the skip variable *)
      change (str_in "/" consumers) with true. cbv iota.
      destruct (nMaxFloat cfg <? floatIdx st); [intros [= <-]; now left|].
      intros H.
      apply bind_Ok_inv in H as (mc & _ & H).
      apply bind_Ok_inv in H as (s & _ & H).
      change ("/" =? rvCopy)%string with false in H.
      change ("/" =? rvSkip)%string with true in H.
      cbn [orb] in H. injection H as <-. now left.
    - (* the copy variable *)
      change (str_in "*" consumers) with true. cbv iota.
      destruct (nMaxFloat cfg <? floatIdx st); [intros [= <-]; now left|].
      intros H.
      apply bind_Ok_inv in H as (mc & _ & H).
      apply bind_Ok_inv in H as (s & _ & H).
      change ("*" =? rvCopy)%string with true in H.
      injection H as <-. now left. }
  intros [= <-]. now left.
Qed.

Lemma paired_next (lrep : list string) (rules0 : list rule) (idx : nat)
  (st : NState) :
  paired lrep rules0 idx st -> paired lrep rules0 (S idx) st.
Proof.
  intros (A & B & C & D & E & F). repeat split; auto.
  eapply Forall_impl; [|exact D]. cbn. intros e [H1 H2]. split; [lia | auto].
Qed.

Lemma StronglySorted_snoc (l : list nat) (x : nat) :
  StronglySorted lt l -> Forall (fun y => (y < x)%nat) l ->
  StronglySorted lt (l ++ [x]).
Proof.
  induction 1 as [|y l Hs IH Hy]; intros Hx; cbn.
  - constructor; constructor.
  - inversion Hx as [|? ? Hyx Hl]; subst. constructor; [now apply IH|].
    apply Forall_app. split; [exact Hy | constructor; [exact Hyx | constructor]].
Qed.

Lemma native_loop_paired (cfg : Native) (floaters : list string)
  (rules0 : list rule) :
  forall (reps pre : list string) (st st' : NState),
    lrep cfg = (pre ++ reps)%list ->
    Forall token reps ->
    paired (lrep cfg) rules0 (List.length pre) st ->
    native_loop cfg floaters (List.length pre) reps st = Ok st' ->
    paired (lrep cfg) rules0 (List.length (lrep cfg)) st'.
Proof.
  induction reps as [|rep reps IH]; intros pre st st' Hl Htok Hp.
  - cbn. intros [= <-].
    replace (List.length (lrep cfg)) with (List.length pre)
      by (rewrite Hl, app_nil_r; reflexivity).
    exact Hp.
  - cbn [native_loop]. intros H.
    apply bind_Ok_inv in H as (st1 & Hstep & Hloop).
    inversion Htok as [|? ? Hrep Hreps]; subst.
    assert (Hl' : lrep cfg = ((pre ++ [rep]) ++ reps)%list)
      by now rewrite <- app_assoc.
    assert (Hlen : List.length (pre ++ [rep]) = S (List.length pre))
      by (rewrite List.length_app; cbn; lia).
    apply (IH (pre ++ [rep])%list st1 st' Hl' Hreps);
      [|now rewrite Hlen].
    rewrite Hlen.
    destruct Hp as (A & B & C & D & E & F).
    destruct (native_step_spec cfg floaters rules0 _ rep st st1 Hrep F Hstep)
      as [(R1 & R2 & R3)|(Hvar & R1 & R2 & R3 & R4)].
    + apply paired_next. unfold paired. rewrite R1, R2, R3.
      repeat split; assumption.
    + assert (Hat : nth_error (lrep cfg) (List.length pre) = Some rep).
      { rewrite Hl, nth_error_app2 by lia. now rewrite Nat.sub_diag. }
      unfold paired. rewrite R1, R2, !map_app, !List.length_app. cbn.
      repeat split.
      * lia.
      * rewrite Nat.add_1_r, seq_S, <- B, A. reflexivity.
      * apply StronglySorted_snoc; [exact C|].
        clear -D. induction D as [|e l [He _] _ IHD]; cbn; constructor; auto.
      * apply Forall_app. split.
        -- eapply Forall_impl; [|exact D]. cbn. intros e [H1 H2].
           split; [lia | auto].
        -- constructor; [|constructor]. cbn. split; [lia|].
           destruct Hvar as [-> | ->]; rewrite Hat; auto.
      * lia.
      * exact R4.
Qed.

Lemma StronglySorted_nth (l : list nat) :
  StronglySorted lt l ->
  forall i j a b, (i < j)%nat ->
    nth_error l i = Some a -> nth_error l j = Some b -> (a < b)%nat.
Proof.
  induction 1 as [|x l Hs IH Hx]; intros i j a b Hij Ha Hb.
  - destruct i; discriminate.
  - destruct j as [|j]; [lia|]. cbn in Hb.
    destruct i as [|i]; cbn in Ha.
    + injection Ha as <-. rewrite Forall_forall in Hx. apply Hx.
      eapply nth_error_In; eauto.
    + eapply IH; [|eauto|eauto]. lia.
Qed.

Lemma seq_paired (l : list (nat * nat)) (k idx rix : nat) :
  map snd l = seq 0 (List.length l) ->
  nth_error l k = Some (idx, rix) -> rix = k.
Proof.
  intros Hm Hk.
  assert (Hlt : (k < List.length l)%nat)
    by (apply nth_error_Some; congruence).
  apply (map_nth_error snd) in Hk. rewrite Hm in Hk. cbn in Hk.
  apply (nth_error_nth _ _ 0%nat) in Hk. rewrite seq_nth in Hk; lia.
Qed.

Lemma rule_tok_iff (rep : string) :
  String.eqb rep rvRule || String.eqb rep rvAdd = true
  <-> rep = rvRule \/ rep = rvAdd.
Proof.
  rewrite orb_true_iff, !String.eqb_eq. tauto.
Qed.

Lemma positions_from_length (lrep : list string) (i : nat) :
  List.length (positions_from i lrep) = List.length (rulevars_of lrep).
Proof.
  revert i. induction lrep as [|rep rest IH]; intros i; [reflexivity|].
  unfold rulevars_of in *. cbn [positions_from filter].
  destruct (String.eqb rep rvRule || String.eqb rep rvAdd); cbn;
    now rewrite IH.
Qed.

Lemma positions_from_In (lrep : list string) (i e : nat) :
  In e (positions_from i lrep) <->
  (i <= e)%nat /\ (nth_error lrep (e - i) = Some rvRule
                  \/ nth_error lrep (e - i) = Some rvAdd).
Proof.
  revert i. induction lrep as [|rep rest IH]; intros i.
  - cbn. split; [tauto|]. intros [_ [H|H]];
      destruct (e - i)%nat; discriminate.
  - cbn [positions_from].
    assert (Hstep : (i < e)%nat ->
              nth_error (rep :: rest) (e - i) = nth_error rest (e - S i)).
    { intros Hlt. replace (e - i)%nat with (S (e - S i)) by lia.
      reflexivity. }
    assert (Hhere : nth_error (rep :: rest) (i - i) = Some rep)
      by now rewrite Nat.sub_diag.
    destruct (String.eqb rep rvRule || String.eqb rep rvAdd) eqn:Et.
    + apply rule_tok_iff in Et. split.
      * intros [<-|Hin].
        -- split; [lia|]. rewrite Hhere.
           destruct Et as [->| ->]; auto.
        -- apply IH in Hin as [Hle Hn]. split; [lia|].
           rewrite Hstep by lia. exact Hn.
      * intros [Hle Hn].
        destruct (Nat.eq_dec i e) as [->|Hne]; [now left|right].
        apply IH. split; [lia|]. rewrite <- Hstep by lia. exact Hn.
    + split.
      * intros Hin. apply IH in Hin as [Hle Hn]. split; [lia|].
        rewrite Hstep by lia. exact Hn.
      * intros [Hle Hn].
        destruct (Nat.eq_dec i e) as [->|Hne].
        -- rewrite Hhere in Hn.
           assert (rep = rvRule \/ rep = rvAdd)
             by (destruct Hn as [Hn|Hn]; injection Hn; auto).
           apply rule_tok_iff in H. congruence.
        -- apply IH. split; [lia|]. rewrite <- Hstep by lia. exact Hn.
Qed.

Lemma positions_from_sorted (lrep : list string) (i : nat) :
  StronglySorted lt (positions_from i lrep).
Proof.
  revert i. induction lrep as [|rep rest IH]; intros i; [constructor|].
  cbn [positions_from].
  destruct (String.eqb rep rvRule || String.eqb rep rvAdd); [|apply IH].
  constructor; [apply IH|].
  apply Forall_forall. intros e He. apply positions_from_In in He. lia.
Qed.

Lemma StronglySorted_NoDup (l : list nat) :
  StronglySorted lt l -> NoDup l.
Proof.
  induction 1 as [|a l _ IH Hall]; constructor; [|exact IH].
  intros Hin. rewrite Forall_forall in Hall.
  specialize (Hall a Hin). lia.
Qed.

(** Two strictly increasing lists with the same elements are equal. *)
Lemma StronglySorted_unique (a b : list nat) :
  StronglySorted lt a -> StronglySorted lt b ->
  (forall x, In x a <-> In x b) -> a = b.
Proof.
  revert b. induction a as [|x a IH]; intros b Ha Hb Hab.
  - destruct b as [|y b]; [reflexivity|].
    destruct (proj2 (Hab y) (or_introl eq_refl)).
  - destruct b as [|y b];
      [destruct (proj1 (Hab x) (or_introl eq_refl))|].
    apply StronglySorted_inv in Ha as [Ha Hxa].
    apply StronglySorted_inv in Hb as [Hb Hyb].
    rewrite Forall_forall in Hxa, Hyb.
    assert (Hxy : x = y).
    { destruct (proj1 (Hab x) (or_introl eq_refl)) as [E|Hin];
        [now symmetry|].
      destruct (proj2 (Hab y) (or_introl eq_refl)) as [E|Hin'];
        [exact E|].
      specialize (Hyb x Hin). specialize (Hxa y Hin'). lia. }
    subst y. f_equal. apply IH; [exact Ha|exact Hb|].
    intros z. split; intros Hz.
    + destruct (proj1 (Hab z) (or_intror Hz)) as [E|Hin]; [|exact Hin].
      specialize (Hxa z Hz). lia.
    + destruct (proj2 (Hab z) (or_intror Hz)) as [E|Hin]; [|exact Hin].
      specialize (Hyb z Hz). lia.
Qed.

(** What the dispatch pairs.  In every run of [native], the [k]-th token
    that reaches the rule dispatch (counting from 0, left to right) is a
    [?] or [:] of the replacement and is dispatched with rule index [k],
    that is with the [k]-th rule supplied, in which at most the start
    value of an insert-increment rule has advanced; the tokens dispatched
    come in increasing position.  When the replacement has as many [?]
    and [:] as there are rules and a run dispatches that many tokens, the
    tokens dispatched are exactly the [?] and [:] of the replacement in
    order of occurrence. *)
Theorem rule_token_pairing (filArg aRep : string) (ic : bool)
  (order : list Z) (cfg : Native) (rules0 : list rule) (old : string)
  (st : NState) :
  prepNative filArg aRep ic order = Ok (Some cfg) ->
  List.length (rulevars_of (lrep cfg)) = List.length rules0 ->
  native_run cfg rules0 old = Ok st ->
  (forall k idx rix,
     nth_error (dispatched st) k = Some (idx, rix) ->
     rix = k /\
     (nth_error (lrep cfg) idx = Some rvRule
      \/ nth_error (lrep cfg) idx = Some rvAdd) /\
     (exists r0 r, nth_error rules0 k = Some r0
                   /\ nth_error (rules st) k = Some r /\ same_frame r0 r) /\
     (forall k' idx' rix', (k' < k)%nat ->
        nth_error (dispatched st) k' = Some (idx', rix') ->
        (idx' < idx)%nat)) /\
  (List.length (dispatched st) = List.length rules0 ->
   map fst (dispatched st) = rule_positions (lrep cfg)).
Proof.
  intros Hprep Hcount Hrun.
  assert (Hlrep : lrep cfg = split_rep aRep "").
  { unfold prepNative in Hprep.
    apply bind_Ok_inv in Hprep as (f & _ & H).
    destruct (re_compile (filRe f) ic); [|discriminate].
    now injection H as <-. }
  assert (Hp : paired (lrep cfg) rules0 (List.length (lrep cfg)) st
               \/ dispatched st = []).
  { unfold native_run in Hrun.
    destruct (re_match (filter_ cfg) old) as [groups|];
      [|injection Hrun as <-; now right].
    apply bind_Ok_inv in Hrun as (dot & _ & H).
    destruct dot; [injection H as <-; now right|].
    apply bind_Ok_inv in H as (floaters & _ & H). left.
    refine (native_loop_paired cfg floaters rules0 (lrep cfg) [] _ st
              eq_refl _ _ H).
    - rewrite Hlrep. now apply split_rep_tokens.
    - repeat split; cbn; try constructor; try lia.
      apply Forall2_refl_frame. }
  split.
  - intros k idx rix Hk.
    destruct Hp as [(A & B & C & D & E & F)|Hnil];
      [|rewrite Hnil in Hk; destruct k; discriminate].
    assert (Hlt : (k < List.length (dispatched st))%nat)
      by (apply nth_error_Some; congruence).
    split; [eapply seq_paired; eauto|]. split.
    { rewrite Forall_forall in D.
      apply (D (idx, rix)). eapply nth_error_In; eauto. }
    split.
    { destruct (nth_error rules0 k) as [r0|] eqn:E0;
        [|apply nth_error_None in E0; lia].
      destruct (Forall2_nth_error_l _ _ _ _ _ F E0) as (r & Hr & Hfr).
      eauto. }
    intros k' idx' rix' Hlt' Hk'.
    apply (StronglySorted_nth _ C k' k); [exact Hlt'| |].
    + now rewrite (map_nth_error fst _ _ Hk').
    + now rewrite (map_nth_error fst _ _ Hk).
  - intros Hall.
    assert (Hlen : List.length (rule_positions (lrep cfg))
                   = List.length (map fst (dispatched st))).
    { unfold rule_positions.
      rewrite positions_from_length, length_map. congruence. }
    destruct Hp as [(A & B & C & D & E & F)|Hnil].
    + assert (Hincl : incl (map fst (dispatched st))
                           (rule_positions (lrep cfg))).
      { intros e He. apply in_map_iff in He as (d & <- & Hd).
        rewrite Forall_forall in D. destruct (D d Hd) as [_ Ht].
        apply positions_from_In. rewrite Nat.sub_0_r. split; [lia|].
        exact Ht. }
      apply StronglySorted_unique;
        [exact C|apply positions_from_sorted|].
      intros x. split; [apply Hincl|].
      apply (NoDup_length_incl (StronglySorted_NoDup _ C));
        [lia|exact Hincl].
    + rewrite Hnil in *. cbn in Hlen.
      destruct (rule_positions (lrep cfg)); [reflexivity|discriminate].
Qed.

Lemma rule_token_pairing_witness :
  exists cfg st,
    prepNative "my*" "my*::" true [] = Ok (Some cfg) /\
    native_run cfg two_inserters "my_Cat.png" = Ok st /\
    newName st = "my_CatA05.png" /\
    dispatched st = [(2, 0); (3, 1)]%nat /\
    (nth_error (lrep cfg) 3 = Some rvRule
     \/ nth_error (lrep cfg) 3 = Some rvAdd).
Proof.
  eexists. eexists.
  split; [reflexivity|]. split; [reflexivity|].
  split; [reflexivity|]. split; [reflexivity|].
  refine (proj1 (proj2 (proj1 (rule_token_pairing "my*" "my*::" true [] _
            two_inserters "my_Cat.png" _ eq_refl eq_refl eq_refl)
            1%nat 3%nat 1%nat eq_refl))).
Defined.

(** C4. The pairing of rules and tokens breaks after a [?] that is
    passed over.  With the filter [a*b*], the replacement [?:*] and the
    rules [S/1/1 I], each rule is accepted for the token of its position:
    the slice rule for the [?], the insert rule for the [:].  On the name
    [axbc] each token runs its rule.  On [abc] the floater of the [?] is
    empty; the pass ends before the rule cursor moves, the [:] is
    dispatched with rule 0, the slice rule, and the insert rule is never
    run: the result is [c] and the rules are as they were.  With the
    cursor at the rule of the [:], the rest of the loop gives [0c] and
    advances the counter. *)
Lemma passed_over_token_takes_no_rule :
  exists cfg rules0,
    prepNative "a*b*" "?:*" false [] = Ok (Some cfg) /\
    rulevars_of (lrep cfg) = [rvRule; rvAdd] /\
    prepRules ["S/1/1"; "I"] (rulevars_of (lrep cfg)) 0 [] []
      = Ok (Some (rules0, [1%nat])) /\
    re_match (filter_ cfg) "abc" = Some [""; "c"] /\
    (exists st, native_run cfg rules0 "axbc" = Ok st /\
                newName st = "xx0c" /\
                dispatched st = [(0, 0); (1, 1)]%nat) /\
    (exists st, native_run cfg rules0 "abc" = Ok st /\
                newName st = "c" /\
                dispatched st = [(1, 0)]%nat /\
                rules st = rules0) /\
    native cfg rules0 "abc" = Ok ("c", rules0) /\
    (exists st, native_loop cfg [""; "c"] 1 [":"; "*"]
                  (mkNState "" 1 1 (Some "") rules0 []) = Ok st /\
                newName st = "0c" /\
                rules st <> rules0).
Proof.
  eexists. eexists.
  split; [reflexivity|]. split; [reflexivity|]. split; [reflexivity|].
  split; [reflexivity|].
  split; [eexists; repeat split; reflexivity|].
  split; [eexists; repeat split; reflexivity|].
  split; [reflexivity|].
  eexists. split; [reflexivity|]. split; [reflexivity|]. discriminate.
Qed.

(** ** Rule state across a batch and across directories *)

Lemma native_step_frame (cfg : Native) (floaters : list string)
  (rules0 : list rule) (idx : nat) (rep : string) (st st' : NState) :
  Forall2 same_frame rules0 (rules st) ->
  native_step cfg floaters idx rep st = Ok st' ->
  Forall2 same_frame rules0 (rules st').
Proof.
  intros HF. unfold native_step.
  destruct (negb (str_in rep rvars)); [intros [= <-]; exact HF|].
  destruct (str_in rep consumers);
    [|intros H; now apply (dispatch_spec rules0 idx st st' HF) in H].
  destruct (nMaxFloat cfg <? floatIdx st); [intros [= <-]; exact HF|].
  intros H.
  apply bind_Ok_inv in H as (mc & _ & H).
  apply bind_Ok_inv in H as (s & _ & H).
  destruct (rep =? rvCopy)%string; [injection H as <-; exact HF|].
  destruct ((rep =? rvSkip)%string || (s =? "")%string);
    [injection H as <-; exact HF|].
  match type of H with
  | dispatch idx ?st1 = _ =>
      now apply (dispatch_spec rules0 idx st1 st' HF) in H
  end.
Qed.

Lemma native_loop_frame (cfg : Native) (floaters : list string)
  (rules0 : list rule) :
  forall (reps : list string) (idx : nat) (st st' : NState),
    Forall2 same_frame rules0 (rules st) ->
    native_loop cfg floaters idx reps st = Ok st' ->
    Forall2 same_frame rules0 (rules st').
Proof.
  induction reps as [|rep reps IH]; intros idx st st' HF; cbn.
  - now intros [= <-].
  - intros H. apply bind_Ok_inv in H as (st1 & H1 & H2).
    eapply IH; [|exact H2]. eapply native_step_frame; eauto.
Qed.

(** [native] changes nothing in the rules but the start values of
    insert-increment rules. *)
Lemma native_frame (cfg : Native) (rules0 rs rs' : list rule)
  (old n : string) :
  Forall2 same_frame rules0 rs ->
  native cfg rs old = Ok (n, rs') ->
  Forall2 same_frame rules0 rs'.
Proof.
  intros HF. unfold native, native_run. intros H.
  apply bind_Ok_inv in H as (st & Hrun & [= _ <-]).
  destruct (re_match (filter_ cfg) old) as [groups|];
    [|injection Hrun as <-; exact HF].
  apply bind_Ok_inv in Hrun as (dot & _ & H).
  destruct dot; [injection H as <-; exact HF|].
  apply bind_Ok_inv in H as (floaters & _ & H).
  eapply native_loop_frame; [|exact H]. exact HF.
Qed.

Lemma collide_rules (b : Batch) (fs : DirFS) (old n : string)
  (st : PState) (p : pass) :
  collide b fs old n st = Ok p -> pRules (pass_state p) = pRules st.
Proof.
  unfold collide.
  assert (Hfin : forall m,
            (if (m =? "")%string
             then Ok (if caStop (bCA b) then Return1 st else Next st)
             else Ok (Next (mkPState (oldList st ++ [old])
                              (pNewList st ++ [m]) (pRules st))))
            = Ok p -> pRules (pass_state p) = pRules st).
  { intros m. destruct (m =? "")%string; intros [= <-];
      [destruct (caStop (bCA b))|]; reflexivity. }
  destruct (os_exists fs n && negb (os_samefile fs old n)).
  - destruct (caStop (bCA b) || caContinue (bCA b)).
    + intros [= <-]. destruct (caStop (bCA b)); reflexivity.
    + intros H. apply bind_Ok_inv in H as (m & _ & H). eauto.
  - destruct (in_list n (pNewList st)); [|eauto].
    intros H. apply bind_Ok_inv in H as (m & _ & H). eauto.
Qed.

Lemma procDir_loop_frame (fnmatch : string -> string -> bool) (b : Batch)
  (fs : DirFS) (rules0 : list rule) :
  forall (dirlist : list (string * kind)) (st st' : PState) (ret : Z),
    Forall2 same_frame rules0 (pRules st) ->
    procDir_loop fnmatch b fs dirlist st = Ok (ret, st') ->
    Forall2 same_frame rules0 (pRules st').
Proof.
  induction dirlist as [|[old k] rest IH]; intros st st' ret HF; cbn.
  - now intros [= _ <-].
  - intros H. apply bind_Ok_inv in H as (p & Hp & H).
    assert (HF' : Forall2 same_frame rules0 (pRules (pass_state p))).
    { unfold procDir_pass in Hp.
      destruct (negb _); [injection Hp as <-; exact HF|].
      destruct (existsb _ _); [injection Hp as <-; exact HF|].
      apply bind_Ok_inv in Hp as ([n rs'] & Hn & Hp).
      apply (native_frame _ rules0) in Hn; [|exact HF].
      destruct (n =? "")%string; [injection Hp as <-; exact Hn|].
      destruct (n =? old)%string; [injection Hp as <-; exact Hn|].
      apply collide_rules in Hp. now rewrite Hp. }
    destruct p as [st1|st1]; [eauto | now injection H as _ <-].
Qed.

(** *** Prepared rules *)

Lemma split_on_head (a : ascii) (s w0 : string) (ws : list string) :
  split_on "/" (String a s) = w0 :: ws -> len w0 <= 1 ->
  w0 = "I" -> a = "I"%char.
Proof.
  cbn [split_on]. destruct (Ascii.eqb a "/").
  - intros [= <- _] _ H. discriminate.
  - destruct (split_on "/" s); intros [= <- _] _ [= ->]; reflexivity.
Qed.

Lemma prepRule_ready (arg : string) (defRule : rule) (rv : string)
  (r : rule) :
  prepRule arg defRule rv = Ok r ->
  nth_error r 0 = Some (VStr incRule) -> inc_ready r.
Proof.
  unfold prepRule.
  destruct (split_on "/" arg) as [|w0 ws] eqn:Hsp; [discriminate|].
  destruct (Z.ltb_spec 1 (len w0)) as [|Hlen]; [discriminate|].
  intros H. apply bind_Ok_inv in H as (d0 & _ & H).
  destruct (negb _); [discriminate|].
  apply bind_Ok_inv in H as (ps & _ & H).
  apply bind_Ok_inv in H as (a0 & Ha0 & H).
  assert (Hhead : VStr w0 = VStr incRule -> a0 = "I"%char).
  { intros [= Hw]. unfold char_at in Ha0. destruct arg as [|a s]; [discriminate|].
    cbn in Ha0. injection Ha0 as <-.
    eapply split_on_head; eauto. }
  destruct (Ascii.eqb_spec a0 "I") as [->|Hne].
  - apply bind_Ok_inv in H as (mode & Hmode & H).
    apply nth_res_Ok in Hmode.
    destruct (pyval_eqb mode (VInt 0)) eqn:Em; cbn [negb] in H.
    + injection H as <-. intros _. apply pyval_eqb_eq in Em. subst mode.
      exists 0. split; [exact Hmode|]. intros Hc. now cbn in Hc.
    + apply bind_Ok_inv in H as (bm & _ & H).
      apply bind_Ok_inv in H as (wlist1 & H1 & H).
      apply bind_Ok_inv in H as (start & Hst & H).
      apply nth_res_Ok in Hst. intros _.
      exists bm. split.
      * rewrite (set_nth_other _ _ _ I_MODE _ H) by discriminate.
        eapply set_nth_same; eauto.
      * intros _. exists start. split.
        -- rewrite (set_nth_other _ _ _ I_START _ H) by discriminate.
           exact Hst.
        -- eapply set_nth_same; eauto.
  - injection H as <-. cbn. intros Hh. injection Hh as Hw.
    exfalso. apply Hne, Hhead. now rewrite Hw.
Qed.

Lemma prepRules_ready :
  forall (args rulevars : list string) (rvIdx : nat) (rules0 : list rule)
         (irs : list nat) (rules1 : list rule) (irs1 : list nat),
    rvIdx = List.length rules0 ->
    rules_ready rules0 irs ->
    prepRules args rulevars rvIdx rules0 irs = Ok (Some (rules1, irs1)) ->
    rules_ready rules1 irs1.
Proof.
  induction args as [|arg args IH];
    intros rulevars rvIdx rules0 irs rules1 irs1 Hidx Hready; cbn.
  - now intros [= <- <-].
  - destruct (nth_error rulevars rvIdx) as [rv|]; [|discriminate].
    intros H. apply bind_Ok_inv in H as (a0 & _ & H).
    destruct (repRules (String a0 "")) as [defRule|]; [|discriminate].
    destruct (prepRule arg defRule rv) as [r|e] eqn:Hprep;
      [|destruct e; discriminate].
    apply bind_Ok_inv in H as (r' & Hr' & H).
    apply bind_Ok_inv in H as (h & Hh & H).
    apply nth_res_Ok in Hr', Hh.
    rewrite Hidx, nth_error_app2, Nat.sub_diag in Hr' by lia.
    injection Hr' as <-.
    apply IH in H; [exact H | rewrite List.length_app; cbn; lia |].
    clear H IH. destruct Hready as [Hlt Hrd]. split.
    + intros idx Hin. rewrite List.length_app. cbn.
      destruct (pyval_eqb h (VStr "I")); [apply in_app_or in Hin as [Hin|Hin]|].
      * apply Hlt in Hin. lia.
      * destruct Hin as [<-|[]]. lia.
      * apply Hlt in Hin. lia.
    + intros idx r0 Hn.
      destruct (Nat.lt_ge_cases idx (List.length rules0)) as [Hi|Hi].
      * rewrite nth_error_app1 in Hn by exact Hi.
        destruct (Hrd idx r0 Hn) as [Hiff Hinc]. split; [|exact Hinc].
        rewrite Hiff.
        destruct (pyval_eqb h (VStr "I")); [|reflexivity].
        rewrite in_app_iff. cbn. split; [auto|].
        intros [H|[H|[]]]; [exact H | lia].
      * rewrite nth_error_app2 in Hn by exact Hi.
        destruct (idx - List.length rules0)%nat as [|n] eqn:En;
          [|destruct n; discriminate].
        cbn in Hn. injection Hn as <-.
        assert (idx = List.length rules0) by lia. subst idx.
        split; [|now apply (prepRule_ready _ _ _ _ Hprep)].
        rewrite Hh. destruct (pyval_eqb h (VStr "I")) eqn:Eh.
        -- apply pyval_eqb_eq in Eh. subst h. rewrite in_app_iff. cbn.
           split; auto.
        -- split.
           ++ intros [= ->]. cbn in Eh. discriminate.
           ++ intros Hin. apply Hlt in Hin. lia.
Qed.

(** *** The reload loop *)

Lemma reload_spec (rules0 : list rule) (irs0 : list nat) :
  rules_ready rules0 irs0 ->
  forall (irs : list nat) (rs : list rule),
    incl irs irs0 ->
    Forall2 same_frame rules0 rs ->
    exists rs',
      reload irs rs = Ok rs' /\
      Forall2 same_frame rules0 rs' /\
      forall idx r0, nth_error rules0 idx = Some r0 ->
        exists rb ra,
          nth_error rs idx = Some rb /\ nth_error rs' idx = Some ra /\
          (In idx irs -> reloads r0 = true ->
           nth_error ra I_START = nth_error r0 I_RELOAD) /\
          (~ (In idx irs /\ reloads r0 = true) -> ra = rb).
Proof.
  intros [Hlt Hrd]. induction irs as [|idx irs IH]; intros rs Hincl HF.
  - exists rs. split; [reflexivity|]. split; [exact HF|].
    intros idx r0 Hn.
    destruct (Forall2_nth_error_l _ _ _ _ _ HF Hn) as (rb & Hb & _).
    exists rb, rb. repeat split; auto. intros [].
  - assert (Hin0 : In idx irs0) by (apply Hincl; now left).
    assert (Hincl' : incl irs irs0) by (intros x Hx; apply Hincl; now right).
    destruct (nth_error rules0 idx) as [r0|] eqn:E0;
      [|apply nth_error_None in E0; apply Hlt in Hin0; lia].
    destruct (Hrd idx r0 E0) as [Hiff Hinc].
    assert (Hhead : nth_error r0 0 = Some (VStr incRule)) by now apply Hiff.
    destruct (Hinc Hhead) as (m & Hm & Hrel).
    destruct (Forall2_nth_error_l _ _ _ _ _ HF E0) as (r & Hr & Hfr).
    destruct Hfr as (Hlen & Hsame & _).
    cbn [reload]. unfold nth_res at 1. rewrite Hr. cbn [bind].
    unfold nth_res at 1. rewrite (Hsame I_MODE) by discriminate.
    rewrite Hm. cbn [bind as_int].
    destruct (Z.eqb_spec (Z.land m I_R) 0) as [Hz|Hnz]; cbn [negb].
    + (* no reload for this rule *)
      destruct (IH rs Hincl' HF) as (rs' & E & HF' & Hall).
      exists rs'. split; [exact E|]. split; [exact HF'|].
      intros j rj Hj. destruct (Hall j rj Hj) as (rb & ra & Hb & Ha & H1 & H2).
      exists rb, ra. repeat split; auto.
      * intros [<-|Hin] Hre; [|auto].
        exfalso. rewrite E0 in Hj. injection Hj as <-.
        unfold reloads in Hre. rewrite Hm in Hre.
        apply negb_true_iff, Z.eqb_neq in Hre. contradiction.
      * intros Hno. apply H2. intros [Hin Hre]. apply Hno. split; [now right | auto].
    + destruct (Hrel Hnz) as (start & Hs & Hre).
      unfold nth_res at 1. rewrite (Hsame I_RELOAD) by discriminate.
      rewrite Hre. cbn [bind].
      destruct (set_nth_defined r I_START start) as [r' Er'].
      { rewrite Hlen. apply nth_error_Some. rewrite Hs. discriminate. }
      rewrite Er'. cbn [bind].
      destruct (set_nth_defined rs idx r') as [rs1 Ers1].
      { apply nth_error_Some. rewrite Hr. discriminate. }
      rewrite Ers1. cbn [bind].
      assert (Hfr' : same_frame r0 r').
      { repeat split.
        - rewrite (set_nth_length _ _ _ _ Er'). exact Hlen.
        - intros i Hi. rewrite (set_nth_other _ _ _ i _ Er' Hi). auto.
        - intros Hc. contradiction. }
      assert (HF1 : Forall2 same_frame rules0 rs1)
        by exact (Forall2_set_nth _ _ _ _ _ _ _ HF E0 Hfr' Ers1).
      destruct (IH rs1 Hincl' HF1) as (rs' & E & HF' & Hall).
      exists rs'. split; [exact E|]. split; [exact HF'|].
      intros j rj Hj.
      destruct (Hall j rj Hj) as (rb & ra & Hb & Ha & H1 & H2).
      destruct (Nat.eq_dec j idx) as [->|Hne].
      * rewrite E0 in Hj. injection Hj as <-.
        rewrite (set_nth_same _ _ _ _ Ers1) in Hb. injection Hb as <-.
        exists r, ra. split; [exact Hr|]. split; [exact Ha|]. split.
        -- intros _ Hrl.
           destruct (in_dec Nat.eq_dec idx irs) as [Hin|Hnin]; [auto|].
           rewrite (H2 ltac:(tauto)), (set_nth_same _ _ _ _ Er'). congruence.
        -- intros Hno. exfalso. apply Hno. split; [now left|].
           unfold reloads. rewrite Hm. now apply negb_true_iff, Z.eqb_neq.
      * rewrite (set_nth_other _ _ _ j _ Ers1 Hne) in Hb.
        exists rb, ra. repeat split; auto.
        -- intros [Hc|Hin] Hrl; [congruence | auto].
        -- intros Hno. apply H2. intros [Hin Hrl]. apply Hno.
           split; [now right | auto].
Qed.

(** *** The traversal *)

Lemma tree_induction (P : tree -> Prop) :
  (forall cwd fs subs, Forall (fun p => P (snd p)) subs ->
                       P (Node cwd fs subs)) ->
  forall t, P t.
Proof.
  intros H. fix IH 1. intros [cwd fs subs]. apply H.
  revert subs. fix IHs 1. intros [|[fn sub] subs].
  - constructor.
  - constructor; [apply IH | apply IHs].
Qed.

Section Traversal.

Variable fnmatch : string -> string -> bool.
Variable b : Batch.
Variable rc : Recurse.
Variable rules0 : list rule.
Hypothesis ready : rules_ready rules0 (irules rc).

Lemma reload_boundary (rs : list rule) :
  Forall2 same_frame rules0 rs ->
  exists rs', reload (irules rc) rs = Ok rs' /\
              Forall2 same_frame rules0 rs' /\
              boundary_ok rules0 (rs, rs').
Proof.
  intros HF.
  destruct (reload_spec rules0 (irules rc) ready (irules rc) rs
              (incl_refl _) HF) as (rs' & E & HF' & Hall).
  exists rs'. split; [exact E|]. split; [exact HF'|].
  split; [exact HF|]. split; [exact HF'|]. cbn [fst snd].
  intros idx r0 Hn. destruct (Hall idx r0 Hn) as (rb & ra & Hb & Ha & H1 & H2).
  destruct ready as [_ Hrd]. destruct (Hrd idx r0 Hn) as [Hiff Hinc].
  exists rb, ra. repeat split; auto.
  - intros Hh Hre. rewrite (H1 (proj1 Hiff Hh) Hre).
    destruct (Hinc Hh) as (m & Hm & Hrel).
    unfold reloads in Hre. rewrite Hm in Hre.
    apply negb_true_iff, Z.eqb_neq in Hre.
    destruct (Hrel Hre) as (start & -> & ->). reflexivity.
  - intros Hno. apply H2. intros [Hin Hre]. apply Hno.
    split; [now apply Hiff | exact Hre].
Qed.

Lemma descend_inv (subs : list (string * tree)) :
  Forall (fun p => forall st, tree_inv rules0 st ->
                     tree_inv rules0 (snd (procTree fnmatch b rc (snd p) st)))
         subs ->
  forall ret st, tree_inv rules0 st ->
    tree_inv rules0
      (snd (descend fnmatch rc (procTree fnmatch b rc) subs ret st)).
Proof.
  induction 1 as [|[fn sub] subs Hsub _ IH]; intros ret st Hst; cbn.
  - exact Hst.
  - destruct (doit fnmatch rc fn); [|now apply IH].
    specialize (Hsub st Hst). cbn in Hsub.
    destruct (procTree fnmatch b rc sub st) as [[ret'|e] st'];
      [|exact Hsub].
    destruct (negb (ret' =? 0)); [exact Hsub | now apply IH].
Qed.

Lemma procTree_inv (t : tree) :
  forall st, tree_inv rules0 st ->
    tree_inv rules0 (snd (procTree fnmatch b rc t st)).
Proof.
  induction t as [cwd fs subs IH] using tree_induction.
  intros st (HF & Hlog & Hlen). cbn [procTree].
  destruct (reload_boundary (tRules st) HF) as (rs & -> & HFr & Hb).
  assert (Hlog' : Forall (boundary_ok rules0)
                    (boundaries st ++ [(tRules st, rs)])%list).
  { apply Forall_app. split; [exact Hlog | constructor; [exact Hb | constructor]]. }
  assert (Hlen' : List.length (boundaries st ++ [(tRules st, rs)])%list
                  = List.length (rVisit st ++ [cwd])%list).
  { rewrite !List.length_app. cbn. lia. }
  destruct (procDir fnmatch b fs rs) as [[ret ps]|e] eqn:Ep;
    [|cbn; repeat split; assumption].
  assert (HFp : Forall2 same_frame rules0 (pRules ps)).
  { unfold procDir in Ep.
    eapply procDir_loop_frame; [|exact Ep]. exact HFr. }
  destruct (negb (ret =? 0)); [cbn; repeat split; assumption|].
  cbn [curDepth tRules rVisit boundaries].
  destruct (rDepth rc <=? curDepth st); [cbn; repeat split; assumption|].
  match goal with
  | |- context [descend fnmatch rc _ subs 0 ?s] =>
      pose proof (descend_inv subs IH 0 s) as Hd;
      destruct (descend fnmatch rc (procTree fnmatch b rc) subs 0 s)
        as [[ret2|e] st2]
  end.
  - destruct Hd as (A & B & C); [repeat split; assumption|].
    cbn. repeat split; assumption.
  - apply Hd. repeat split; assumption.
Qed.

End Traversal.

(** The boundaries on record.  For rules prepared by [prepRules], the
    run records one boundary for each directory it records, and at each of
    them every insert-increment rule with the R bit leaves with its
    prepared start value and every other one as it arrived. *)
Lemma boundaries_recorded
  (fnmatch : string -> string -> bool) (b : Batch) (rc : Recurse)
  (args rulevars : list string) (rules0 : list rule) (t : tree) :
  prepRules args rulevars 0 [] [] = Ok (Some (rules0, irules rc)) ->
  let st := snd (procTree fnmatch b rc t (mkTState rules0 0 [] [])) in
  List.length (boundaries st) = List.length (rVisit st) /\
  forall before after,
    In (before, after) (boundaries st) ->
    forall idx r0,
      nth_error rules0 idx = Some r0 ->
      nth_error r0 0 = Some (VStr incRule) ->
      exists rb ra,
        nth_error before idx = Some rb /\ nth_error after idx = Some ra /\
        same_frame r0 rb /\ same_frame r0 ra /\
        (reloads r0 = true -> nth_error ra I_START = nth_error r0 I_START) /\
        (reloads r0 = false -> ra = rb).
Proof.
  intros Hprep st.
  assert (Hready : rules_ready rules0 (irules rc)).
  { apply (prepRules_ready args rulevars 0 [] [] rules0 (irules rc) eq_refl);
      [|exact Hprep].
    split; [intros idx []|]. intros idx r Hn. destruct idx; discriminate. }
  destruct (procTree_inv fnmatch b rc rules0 Hready t
              (mkTState rules0 0 [] [])) as (_ & Hlog & Hlen).
  { repeat split; cbn; [apply Forall2_refl_frame | constructor]. }
  fold st in Hlog, Hlen. split; [exact Hlen|].
  intros before after Hin idx r0 Hn Hh.
  rewrite Forall_forall in Hlog.
  destruct (Hlog _ Hin) as (HFb & HFa & Hall). cbn [fst snd] in *.
  destruct (Hall idx r0 Hn) as (rb & ra & Hb & Ha & H1 & H2).
  exists rb, ra. split; [exact Hb|]. split; [exact Ha|].
  destruct (Forall2_nth_error_l _ _ _ _ _ HFb Hn) as (rb' & Hb' & Fb).
  destruct (Forall2_nth_error_l _ _ _ _ _ HFa Hn) as (ra' & Ha' & Fa).
  rewrite Hb in Hb'. injection Hb' as <-.
  rewrite Ha in Ha'. injection Ha' as <-.
  split; [exact Fb|]. split; [exact Fa|]. split; [auto|].
  intros Hre. apply H2. intros [_ Hc]. congruence.
Qed.

Lemma counted_app (fnmatch : string -> string -> bool) (b : Batch)
  (rules0 : list rule) (d1 d2 : list (string * DirFS))
  (a m l : list rule) (r0 r : Z) :
  counted fnmatch b rules0 d1 a m r0 -> r0 = 0 ->
  counted fnmatch b rules0 d2 m l r ->
  counted fnmatch b rules0 (d1 ++ d2) a l r.
Proof.
  intros H1 H0 H2. induction H1; cbn [app].
  - exact H2.
  - discriminate H0.
  - eapply counted_go; eauto.
Qed.

Lemma counted_frame (fnmatch : string -> string -> bool) (b : Batch)
  (rules0 : list rule) (dirs : list (string * DirFS)) (a l : list rule)
  (r : Z) :
  counted fnmatch b rules0 dirs a l r ->
  Forall2 same_frame rules0 a -> Forall2 same_frame rules0 l.
Proof.
  induction 1 as [rs|cwd fs arrive enter r1 ps Hb Hp _
                    |cwd fs dirs arrive enter ps leave r Hb Hp _ IH];
    intros Ha.
  - exact Ha.
  - destruct Hb as (_ & He & _). cbn [snd] in He.
    unfold procDir in Hp. eapply procDir_loop_frame; [|exact Hp]. exact He.
  - apply IH. destruct Hb as (_ & He & _). cbn [snd] in He.
    unfold procDir in Hp. eapply procDir_loop_frame; [|exact Hp]. exact He.
Qed.

Section Counting.

Variable fnmatch : string -> string -> bool.
Variable b : Batch.
Variable rc : Recurse.
Variable rules0 : list rule.
Hypothesis ready : rules_ready rules0 (irules rc).

Lemma walk_dirs_node (n : nat) (cwd : string) (fs : DirFS)
  (subs : list (string * tree)) :
  walk_dirs fnmatch rc n (Node cwd fs subs)
  = (cwd, fs) ::
    match n with
    | O => []
    | S m => flat_map (fun p => if doit fnmatch rc (fst p)
                                then walk_dirs fnmatch rc m (snd p) else [])
                      subs
    end.
Proof. now destruct n. Qed.

Lemma descend_counted (m : nat) (subs : list (string * tree)) :
  Forall (fun p => forall st ret st',
            levels_left rc st = m ->
            Forall2 same_frame rules0 (tRules st) ->
            procTree fnmatch b rc (snd p) st = (Ok ret, st') ->
            run_through fnmatch b rules0 (walk_dirs fnmatch rc m (snd p))
              st ret st') subs ->
  forall st ret st',
    levels_left rc st = m ->
    Forall2 same_frame rules0 (tRules st) ->
    descend fnmatch rc (procTree fnmatch b rc) subs 0 st = (Ok ret, st') ->
    run_through fnmatch b rules0
      (flat_map (fun p => if doit fnmatch rc (fst p)
                          then walk_dirs fnmatch rc m (snd p) else [])
                subs) st ret st'.
Proof.
  induction 1 as [|[fn sub] subs Hsub _ IH]; intros st ret st' Hm Hf H;
    cbn [descend flat_map fst snd] in *.
  - injection H as <- <-. exists [], []. cbn. rewrite app_nil_r.
    repeat split; auto. constructor.
  - destruct (doit fnmatch rc fn); [|cbn [app]; now apply IH].
    destruct (procTree fnmatch b rc sub st) as [[ret'|e] st1] eqn:Et;
      [|discriminate].
    destruct (Hsub st ret' st1 Hm Hf Et)
      as (d1 & r1 & Hw & Hv & Hc & Hr & Hd).
    destruct (Z.eqb_spec ret' 0) as [->|Hne]; cbn [negb] in H.
    + assert (Hm1 : levels_left rc st1 = m)
        by (unfold levels_left in *; now rewrite Hd).
      pose proof (counted_frame _ _ _ _ _ _ _ Hc Hf) as Hf1.
      destruct (IH st1 ret st' Hm1 Hf1 H)
        as (d2 & r2 & Hw2 & Hv2 & Hc2 & Hr2 & Hd2).
      rewrite (Hr eq_refl), app_nil_r in Hw.
      exists (d1 ++ d2)%list, r2.
      split; [now rewrite Hw, Hw2, app_assoc|].
      split; [now rewrite Hv2, Hv, map_app, app_assoc|].
      split; [exact (counted_app _ _ _ _ _ _ _ _ _ _ Hc eq_refl Hc2)|].
      split; [exact Hr2|congruence].
    + injection H as <- <-.
      exists d1, (r1 ++ flat_map
                    (fun p => if doit fnmatch rc (fst p)
                              then walk_dirs fnmatch rc m (snd p) else [])
                    subs)%list.
      split; [now rewrite Hw, app_assoc|].
      split; [exact Hv|]. split; [exact Hc|].
      split; [intros H0; contradiction|exact Hd].
Qed.

Lemma procTree_counted (t : tree) :
  forall n st ret st',
    levels_left rc st = n ->
    Forall2 same_frame rules0 (tRules st) ->
    procTree fnmatch b rc t st = (Ok ret, st') ->
    run_through fnmatch b rules0 (walk_dirs fnmatch rc n t) st ret st'.
Proof.
  induction t as [cwd fs subs IH] using tree_induction.
  intros n st ret st' Hn Hf H. cbn [procTree] in H. cbv zeta in H.
  rewrite walk_dirs_node.
  destruct (reload_boundary rc rules0 ready (tRules st) Hf)
    as (rs & Er & Hfr & Hb).
  rewrite Er in H.
  destruct (procDir fnmatch b fs rs) as [[r1 ps]|e] eqn:Ep; [|discriminate].
  destruct (Z.eqb_spec r1 0) as [->|Hne]; cbn [negb] in H.
  2:{ injection H as <- <-. eexists [(cwd, fs)], _.
      split; [reflexivity|]. cbn [rVisit tRules curDepth map fst].
      split; [reflexivity|].
      split; [exact (counted_stop _ _ _ cwd fs _ _ _ _ Hb Ep Hne)|].
      split; [discriminate|reflexivity]. }
  cbn [curDepth tRules rVisit boundaries] in H.
  destruct (Z.leb_spec (rDepth rc) (curDepth st)) as [Hle|Hlt].
  { injection H as <- <-.
    assert (Hn0 : n = 0%nat) by (unfold levels_left in Hn; lia).
    rewrite Hn0.
    exists [(cwd, fs)], []. cbn [rVisit tRules curDepth map fst app].
    split; [reflexivity|]. split; [reflexivity|].
    split; [exact (counted_go _ _ _ cwd fs [] _ _ _ _ _ Hb Ep
                     (counted_end _ _ _ _))|].
    split; reflexivity. }
  destruct n as [|m]; [unfold levels_left in Hn; lia|].
  assert (Hfp : Forall2 same_frame rules0 (pRules ps)).
  { unfold procDir in Ep. eapply procDir_loop_frame; [|exact Ep]. exact Hfr. }
  match type of H with
  | context [descend fnmatch rc _ subs 0 ?s] =>
      assert (Hm : levels_left rc s = m)
        by (unfold levels_left in *; cbn [curDepth]; lia);
      pose proof (fun r' s' =>
                    descend_counted m subs
                      (Forall_impl _ (fun p Hp => Hp m) IH)
                      s r' s' Hm Hfp) as Hd;
      destruct (descend fnmatch rc (procTree fnmatch b rc) subs 0 s)
        as [[ret2|e] st2]; [|discriminate]
  end.
  injection H as <- <-.
  destruct (Hd _ _ eq_refl) as (d & r & Hw & Hv & Hc & Hr & Hdep).
  cbn [rVisit tRules curDepth] in Hv, Hc, Hdep.
  exists ((cwd, fs) :: d), r. cbn [rVisit tRules curDepth map fst].
  split; [now rewrite Hw|].
  split; [now rewrite Hv, <- app_assoc|].
  split; [exact (counted_go _ _ _ cwd fs d _ _ _ _ _ Hb Ep Hc)|].
  split; [exact Hr|lia].
Qed.

End Counting.

(** C5. Reload at directory boundaries.  A recursive run that returns has
    gone through the first directories of the walk of the tree, all of
    them when it returns 0, and has recorded them in that order.  Before
    [procDir] is run in one of them the rules pass a boundary: each
    insert-increment rule whose prepared mode has the R bit leaves it
    with the start value it was given on the command line, and every
    other rule leaves it exactly as it arrived.  [procDir] is run with the
    rules that leave the boundary, the rules it leaves are those that
    arrive at the boundary of the next directory, and the rules the last
    directory leaves are those of the end of the run: a counter without
    the R bit runs on through the whole run. *)
Theorem reload_at_directory_boundaries
  (fnmatch : string -> string -> bool) (b : Batch) (rc : Recurse)
  (args rulevars : list string) (rules0 : list rule) (t : tree)
  (ret : Z) (st' : TState) :
  prepRules args rulevars 0 [] [] = Ok (Some (rules0, irules rc)) ->
  procTree fnmatch b rc t (mkTState rules0 0 [] []) = (Ok ret, st') ->
  exists dirs rest,
    walk_dirs fnmatch rc (Z.to_nat (rDepth rc)) t = (dirs ++ rest)%list
    /\ rVisit st' = map fst dirs
    /\ counted fnmatch b rules0 dirs rules0 (tRules st') ret
    /\ (ret = 0 -> rest = []).
Proof.
  intros Hprep H.
  assert (Hready : rules_ready rules0 (irules rc)).
  { apply (prepRules_ready args rulevars 0 [] [] rules0 (irules rc) eq_refl);
      [|exact Hprep].
    split; [intros idx []|]. intros idx r Hn. destruct idx; discriminate. }
  destruct (procTree_counted fnmatch b rc rules0 Hready t
              (Z.to_nat (rDepth rc)) (mkTState rules0 0 [] []) ret st')
    as (dirs & rest & Hw & Hv & Hc & Hr & _).
  - unfold levels_left. cbn [curDepth]. now rewrite Z.sub_0_r.
  - cbn [tRules]. apply Forall2_refl_frame.
  - exact H.
  - exists dirs, rest. cbn [rVisit tRules app] in Hv, Hc. auto.
Qed.

Lemma reload_at_directory_boundaries_witness :
  (exists dirs rest,
     walk_dirs (fun _ _ => false) (mkRecurse 1000 false [] [0; 1]%nat)
       (Z.to_nat 1000) pets_tree = (dirs ++ rest)%list
     /\ rVisit (snd (procTree (fun _ _ => false) pets_batch
                       (mkRecurse 1000 false [] [0; 1]%nat) pets_tree
                       (mkTState two_inserters 0 [] [])))
        = map fst dirs
     /\ counted (fun _ _ => false) pets_batch two_inserters dirs
          two_inserters
          (tRules (snd (procTree (fun _ _ => false) pets_batch
                          (mkRecurse 1000 false [] [0; 1]%nat) pets_tree
                          (mkTState two_inserters 0 [] [])))) 0
     /\ (0 = 0 -> rest = []))
  /\ rVisit (snd (procTree (fun _ _ => false) pets_batch
                    (mkRecurse 1000 false [] [0; 1]%nat) pets_tree
                    (mkTState two_inserters 0 [] [])))
     = ["recurse"; "recurse/X_New"; "recurse/X_Old"]
  /\ tRules (snd (procTree (fun _ _ => false) pets_batch
                    (mkRecurse 1000 false [] [0; 1]%nat) pets_tree
                    (mkTState two_inserters 0 [] [])))
     = [ [VStr "I"; VStr "C"; VInt 1; VInt 1; VInt 2; VStr "A"];
         [VStr "I"; VInt 65; VInt 10; VInt 2; VInt 0; VInt 0] ].
Proof.
  split; [|split; vm_compute; reflexivity].
  apply (reload_at_directory_boundaries (fun _ _ => false) pets_batch
           (mkRecurse 1000 false [] [0; 1]%nat)
           ["I/A///R"; "I/5/10/2"] [":"; ":"] two_inserters pets_tree 0
           (snd (procTree (fun _ _ => false) pets_batch
                   (mkRecurse 1000 false [] [0; 1]%nat) pets_tree
                   (mkTState two_inserters 0 [] [])))).
  - reflexivity.
  - vm_compute. reflexivity.
Defined.

(** ** Collision policies in the batch driver *)

Lemma avoid_loop_policy (ex : string -> bool) (ca ca' : CA)
  (newList : list string) :
  caPun ca = caPun ca' -> caMerge ca = caMerge ca' ->
  caStart ca = caStart ca' ->
  forall idxs pl ext root rootLen tested,
    avoid_loop ex ca newList idxs pl ext root rootLen tested
    = avoid_loop ex ca' newList idxs pl ext root rootLen tested.
Proof.
  intros Hp Hm Hs. induction idxs as [|i idxs IH]; intros; cbn [avoid_loop].
  - reflexivity.
  - rewrite <- Hp, <- Hm, <- Hs.
    destruct (free ex newList _); [reflexivity|].
    destruct (9 <? i); [reflexivity|].
    destruct (caMerge ca).
    + destruct (nextName _ 1 0) as [[r|]|e]; auto.
    + destruct (i =? 0); [apply IH|].
      destruct rootLen as [rl|]; [|reflexivity].
      destruct (nextName _ 1 rl) as [[r|]|e]; auto.
Qed.

(** The search never reads the stop and continue flags. *)
Lemma avoid_policy (ex : string -> bool) (b : Batch) (s c : bool)
  (newList : list string) (name : string) :
  avoid ex (bCA (with_policy s c b)) newList name
  = avoid ex (bCA b) newList name.
Proof.
  unfold avoid, avoid_run. cbn [with_policy bCA caPun caPunPos].
  destruct (greedyext name) as [root ext].
  now rewrite (avoid_loop_policy ex
                 (mkCA s c (caPun (bCA b)) (caPunPos (bCA b))
                    (caMerge (bCA b)) (caStart (bCA b)))
                 (bCA b) newList eq_refl eq_refl eq_refl).
Qed.

(** C9 (amended). In [procDir], for a new name that differs from the old
    one: when it collides with a different file on disk, a set stop or
    continue flag ends the pass without a search (stop ends the batch),
    and otherwise [avoid] is run; when it collides only with a name
    queued in the batch, [avoid] is run whatever the flags are; when it
    does not collide it is queued.  After a search, and only when the
    search returned the empty failure name, the stop flag is read once
    more and ends the batch.  The continue flag is read nowhere else. *)
Theorem collision_policies (b : Batch) (fs : DirFS) (old newName : string)
  (st : PState) (s c : bool) :
  let on_disk := os_exists fs newName && negb (os_samefile fs old newName) in
  let search := avoid (os_exists fs) (bCA b) (pNewList st) newName in
  (on_disk = true ->
   collide (with_policy s c b) fs old newName st
   = if s || c then Ok (if s then Return1 st else Next st)
     else after_search s old st search) /\
  (on_disk = false -> in_list newName (pNewList st) = true ->
   collide (with_policy s c b) fs old newName st
   = after_search s old st search) /\
  (on_disk = false -> in_list newName (pNewList st) = false ->
   collide (with_policy s c b) fs old newName st
   = after_search s old st (Ok newName)).
Proof.
  intros on_disk search. unfold collide.
  rewrite avoid_policy. fold search. fold on_disk.
  cbn [with_policy bCA caStop caContinue].
  repeat split.
  - intros ->. destruct (s || c); [reflexivity|].
    destruct search; reflexivity.
  - intros -> ->. destruct search; reflexivity.
  - intros -> ->. reflexivity.
Qed.

Lemma collision_policies_witness :
  collide (with_policy true false (to_x false false)) twelve_dir "f02" "x"
    (mkPState ["f01"] ["x"] [])
  = Ok (Next (mkPState ["f01"; "f02"] ["x"; "x0"] [])).
Proof.
  exact (proj1 (proj2 (collision_policies (to_x false false) twelve_dir
                         "f02" "x" (mkPState ["f01"] ["x"] []) true false))
           eq_refl eq_refl).
Defined.

(** C9 as stated fails: no proposed name of this batch is on disk, the
    twelfth collides only with names queued in the batch, and yet the
    stop flag decides how the batch ends, because the search fails. *)
Lemma stop_flag_read_on_batch_collision :
  prepNative "f*" "x" true [] = Ok (Some (bNative (to_x true false))) /\
  existsb (os_exists twelve_dir) eleven_x = false /\
  avoid (os_exists twelve_dir) (bCA (to_x true false)) eleven_x "x" = Ok "" /\
  collide (to_x true false) twelve_dir "f12" "x"
    (mkPState (firstn 11 (map fst twelve)) eleven_x [])
  = Ok (Return1 (mkPState (firstn 11 (map fst twelve)) eleven_x [])) /\
  collide (to_x false false) twelve_dir "f12" "x"
    (mkPState (firstn 11 (map fst twelve)) eleven_x [])
  = Ok (Next (mkPState (firstn 11 (map fst twelve)) eleven_x [])) /\
  procDir (fun _ _ => false) (to_x true false) twelve_dir []
  = Ok (1, mkPState (firstn 11 (map fst twelve)) eleven_x []) /\
  procDir (fun _ _ => false) (to_x false false) twelve_dir []
  = Ok (0, mkPState (firstn 11 (map fst twelve)) eleven_x []).
Proof. repeat split; vm_compute; reflexivity. Qed.

(** ** Structural filter semantics *)









Lemma at_end_no_nl (s : string) : no_nl s -> at_end s = true -> s = "".
Proof.
  unfold at_end, no_nl. destruct s as [|c [|c' s']]; [reflexivity| |].
  - cbn. unfold not_nl. destruct (Ascii.eqb c newline); discriminate.
  - cbn. destruct (Ascii.eqb c newline); discriminate.
Qed.


(** *** From the filter argument to the compiled pattern *)

Lemma render_toks_app (a b : list ftok) :
  render_toks (a ++ b) = render_toks a ++ render_toks b.
Proof.
  induction a as [|t a IH]; cbn; [reflexivity|].
  now rewrite IH, app_assoc_str.
Qed.

Lemma re_parse_lit (c : ascii) (fuel : nat) (rest : string) :
  is_dot c || negb (re_special c) = true ->
  re_parse (S fuel) (render_tok (FLit c) ++ rest)
  = option_map (cons (Chr c)) (re_parse fuel rest).
Proof.
  destruct c as [[] [] [] [] [] [] [] []]; vm_compute (_ || _); intros H;
    try discriminate; reflexivity.
Qed.

Lemma re_parse_tok (t : ftok) (fuel : nat) (rest : string) :
  plain_tok t = true ->
  re_parse (S fuel) (render_tok t ++ rest)
  = option_map (cons (atom_of_tok t)) (re_parse fuel rest).
Proof.
  destruct t as [c| | |]; [apply re_parse_lit | | |]; reflexivity.
Qed.

Lemma re_parse_toks (toks : list ftok) :
  forallb plain_tok toks = true ->
  forall k : nat,
    re_parse (List.length toks + S k) (render_toks toks ++ "$")
    = Some (map atom_of_tok toks).
Proof.
  induction toks as [|t toks IH]; intros Hp k; [reflexivity|].
  cbn [forallb] in Hp. apply andb_true_iff in Hp as [Ht Hp].
  cbn [List.length Nat.add render_toks map]. rewrite app_assoc_str.
  rewrite (re_parse_tok t _ _ Ht), (IH Hp k). reflexivity.
Qed.

Lemma render_length (toks : list ftok) :
  (List.length toks <= String.length (render_toks toks))%nat.
Proof.
  induction toks as [|t toks IH]; cbn; [lia|].
  rewrite str_length_app.
  assert (1 <= String.length (render_tok t))%nat; [|lia].
  destruct t as [c| | |]; cbn; try lia. destruct (is_dot c); cbn; lia.
Qed.

(** [re.compile] accepts the text of plain tokens and returns them. *)
Lemma re_compile_toks (toks : list ftok) (ic : bool) :
  forallb plain_tok toks = true ->
  re_compile (render_toks toks ++ "$") ic
  = Some (mkPattern (map atom_of_tok toks) ic).
Proof.
  intros Hp. unfold re_compile.
  pose proof (render_length toks) as Hl.
  replace (S (String.length (render_toks toks ++ "$")))
    with (List.length toks
          + S (String.length (render_toks toks) - List.length toks + 1))%nat
    by (rewrite str_length_app; cbn; lia).
  now rewrite (re_parse_toks toks Hp).
Qed.

(** The loop of the compiler writes the text of the stated tokens. *)
Lemma filter_loop_render (g : string) :
  forall (acc : string) (mf : Z),
    fst (filter_loop g acc mf) = acc ++ render_toks (stated_tokens g).
Proof.
  induction g as [|c g IH]; intros acc mf; cbn [filter_loop stated_tokens render_toks].
  - cbn. now rewrite app_empty_r.
  - unfold tok_of.
    destruct (Ascii.eqb_spec c ".") as [->|Hdot].
    + rewrite IH. cbn. now rewrite app_assoc_str.
    + destruct (Ascii.eqb c "*"); [rewrite IH; cbn; now rewrite app_assoc_str|].
      destruct (Ascii.eqb c "?"); [rewrite IH; cbn; now rewrite app_assoc_str|].
      rewrite IH. cbn [render_tok]. unfold is_dot.
      apply Ascii.eqb_neq in Hdot. rewrite Hdot.
      now rewrite app_assoc_str.
Qed.

Lemma all_chars_app (p : ascii -> bool) (s t : string) :
  all_chars p (s ++ t) = all_chars p s && all_chars p t.
Proof.
  induction s as [|c s IH]; cbn; [reflexivity|].
  now rewrite IH, andb_assoc.
Qed.

Lemma stated_tokens_plain (g : string) :
  plain_filter g = true -> forallb plain_tok (stated_tokens g) = true.
Proof.
  unfold plain_filter.
  induction g as [|c g IH]; cbn; [reflexivity|].
  intros H. apply andb_true_iff in H as [Hc Hg]. rewrite (IH Hg), andb_true_r.
  unfold tok_of, plain_chr in *.
  destruct (Ascii.eqb c "*"); [reflexivity|].
  destruct (Ascii.eqb c "?"); [reflexivity|].
  cbn. unfold is_dot. now rewrite !orb_false_r in Hc.
Qed.

(** *** The end of the filter argument *)

Lemma substring_split (s : string) :
  forall n : nat,
    substring 0 n s ++ substring n (String.length s - n) s = s.
Proof.
  induction s as [|c s IH]; intros [|n]; cbn; try reflexivity.
  - f_equal. specialize (IH 0%nat). cbn in IH.
    rewrite Nat.sub_0_r in IH.
    destruct s; cbn in *; [reflexivity|].
    now injection IH.
  - f_equal. apply IH.
Qed.

(** [ s[:-k] + s[-k:] == s ] *)
Lemma slice_split (s : string) (k : Z) :
  0 < k -> slice s None (Some (- k)) ++ slice s (Some (- k)) None = s.
Proof.
  intros Hk. unfold slice, norm_idx.
  destruct (Z.ltb_spec (- k) 0); [|lia].
  change (Z.to_nat 0) with 0%nat.
  set (n := Z.to_nat (Z.max 0 (- k + len s))).
  replace (Z.to_nat (Z.max 0 (- k + len s) - 0)) with n by (unfold n; lia).
  replace (Z.to_nat (len s - Z.max 0 (- k + len s)))
    with (String.length s - n)%nat by (unfold n, len; lia).
  apply substring_split.
Qed.

(** [ (s + t)[-len(t):] == t ] for a non-empty [t]. *)
Lemma slice_neg_suffix (s t : string) :
  t <> "" -> slice (s ++ t) (Some (- len t)) None = t.
Proof.
  intros Ht. unfold slice, norm_idx, len. rewrite str_length_app.
  assert (0 < String.length t)%nat by (destruct t; [contradiction | cbn; lia]).
  destruct (Z.ltb_spec (- Z.of_nat (String.length t)) 0); [|lia].
  rewrite Z.max_r by lia.
  replace (Z.to_nat (- Z.of_nat (String.length t)
                     + Z.of_nat (String.length s + String.length t)))
    with (String.length s) by lia.
  match goal with
  | |- substring _ ?n _ = _ => replace n with (String.length t) by lia
  end.
  apply substring_app_tail.
Qed.

Lemma app_inv_tail_str (s t u : string) : s ++ u = t ++ u -> s = t.
Proof.
  revert t. induction s as [|c s IH]; intros [|d t] H; cbn in H.
  - reflexivity.
  - exfalso. apply (f_equal String.length) in H. cbn in H.
    rewrite str_length_app in H. lia.
  - exfalso. apply (f_equal String.length) in H. cbn in H.
    rewrite str_length_app in H. lia.
  - injection H as -> H. f_equal. now apply IH.
Qed.

(** How a non-empty filter argument ends, and the tokens the amended
    reading gives it in each case. *)
Lemma filter_end_cases (f : string) :
  f <> "" ->
  (exists g, f = g ++ "*."
             /\ amended_tokens f = (stated_tokens g ++ [FRootTail])%list)
  \/ (exists g, f = g ++ "." /\ (forall g', f <> g' ++ "*.")
                /\ amended_tokens f = stated_tokens g)
  \/ (exists c, last_char f = Some c /\ c <> "."%char
                /\ amended_tokens f = stated_tokens f).
Proof.
  induction f as [|c r IH]; [contradiction|]. intros _.
  destruct r as [|d r'].
  - (* one character *)
    cbn [amended_tokens]. destruct (Ascii.eqb_spec c ".") as [->|Hc].
    + right; left. exists "". repeat split.
      intros g' H. apply (f_equal String.length) in H.
      rewrite str_length_app in H. cbn in H. lia.
    + right; right. exists c. repeat split; auto.
  - assert (Hcons : amended_tokens (String c (String d r'))
                    = tok_of c :: amended_tokens (String d r')
                    \/ (r' = "" /\ c = "*"%char /\ d = "."%char)).
    { cbn [amended_tokens]. destruct r' as [|e r'']; [|now left].
      destruct (Ascii.eqb_spec c "*") as [->|]; [|now left].
      destruct (Ascii.eqb_spec d ".") as [->|]; [now right | now left]. }
    destruct Hcons as [Hcons|(-> & -> & ->)];
      [|left; exists ""; split; reflexivity].
    destruct (IH ltac:(discriminate))
      as [(g & Hg & Ht)|[(g & Hg & Hno & Ht)|(e & He & Hne & Ht)]].
    + left. exists (String c g). split.
      * cbn [append]. now rewrite <- Hg.
      * rewrite Hcons, Ht. reflexivity.
    + right; left. exists (String c g). split; [|split].
      * cbn [append]. now rewrite <- Hg.
      * intros [|a g'] H; cbn [append] in H.
        -- injection H as -> -> ->. cbn in Hcons. discriminate.
        -- injection H as _ H. now apply Hno in H.
      * rewrite Hcons, Ht. reflexivity.
    + right; right. exists e. split; [|split].
      * exact He.
      * exact Hne.
      * rewrite Hcons, Ht. reflexivity.
Qed.

Lemma slice_first_two (a b : ascii) (r : string) :
  slice (String a (String b r)) None (Some 2) = String a (String b "").
Proof.
  unfold slice, norm_idx, len. cbn [String.length].
  change (2 <? 0) with false. cbv iota.
  rewrite Z.min_l by lia. change (Z.to_nat (2 - 0)) with 2%nat.
  cbn. destruct r; reflexivity.
Qed.

(** [ filArg[:2] == "*." ] tells whether the argument starts with [*.]. *)
Lemma noDotName_starts_with (f : string) :
  String.eqb (slice f None (Some 2)) "*." = starts_with "*." f.
Proof.
  destruct f as [|a [|b r]].
  - reflexivity.
  - assert (slice (String a "") None (Some 2) = String a "") as ->
      by reflexivity.
    cbn [String.eqb starts_with]. rewrite (Ascii.eqb_sym "*" a).
    now destruct (Ascii.eqb a "*").
  - rewrite slice_first_two. cbn [String.eqb starts_with].
    rewrite (Ascii.eqb_sym "*" a), (Ascii.eqb_sym "." b).
    now destruct (Ascii.eqb a "*"), (Ascii.eqb b ".").
Qed.

Lemma last_char_dot_suffix (g : string) : last_char (g ++ "*.") = Some "."%char.
Proof. now rewrite (last_char_app g "*."). Qed.

(** The expression [compileFilter] hands to [re.compile] is the text of
    the amended tokens, closed by [$]. *)
Lemma compileFilter_spec (f : string) :
  f <> "" ->
  exists mf,
    compileFilter f
    = Ok (mkFilter (render_toks (amended_tokens f) ++ "$") mf
            (starts_with "*." f)).
Proof.
  intros Hf. unfold compileFilter. rewrite noDotName_starts_with.
  assert (Hnot : (forall g', f <> g' ++ "*.") ->
                 String.eqb (slice f (Some (-2)) None) "*." = false).
  { intros Hno. destruct (String.eqb_spec (slice f (Some (-2)) None) "*.")
      as [E|]; [|reflexivity].
    exfalso. apply (Hno (slice f None (Some (-2)))).
    rewrite <- E at 1.
    symmetry. apply (slice_split f 2). lia. }
  destruct (filter_end_cases f Hf)
    as [(g & -> & Ht)|[(g & Hg & Hno & Ht)|(c & Hc & Hne & Ht)]].
  - (* the argument ends with the star and the dot *)
    pose proof (slice_neg_suffix g "*." ltac:(discriminate)) as E1.
    pose proof (slice_peel g "*." ltac:(discriminate)) as E2.
    change (- len "*.") with (-2) in E1, E2. rewrite E1, E2.
    change ("*." =? "*.")%string with true. cbv iota.
    pose proof (filter_loop_render g "" 0) as Hr.
    destruct (filter_loop g "" 0) as [re mf]. cbn in Hr. subst re.
    exists mf. rewrite Ht, render_toks_app. cbn [render_toks render_tok].
    now rewrite app_empty_r, app_assoc_str.
  - (* the argument ends with a bare dot *)
    rewrite (Hnot Hno).
    assert (Hl : last_char f = Some "."%char)
      by (rewrite Hg; apply last_char_snoc).
    assert (Hs : slice f None (Some (-1)) = g)
      by (rewrite Hg; exact (slice_peel g "." ltac:(discriminate))).
    rewrite Hl. change (Ascii.eqb "." ".") with true. cbv iota.
    rewrite Hs.
    pose proof (filter_loop_render g "" (-1)) as Hr.
    destruct (filter_loop g "" (-1)) as [re mf]. cbn in Hr. subst re.
    exists mf. now rewrite Ht.
  - (* any other end *)
    rewrite Hnot.
    + rewrite Hc. apply Ascii.eqb_neq in Hne. rewrite Hne.
      pose proof (filter_loop_render f "" (-1)) as Hr.
      destruct (filter_loop f "" (-1)) as [re mf]. cbn in Hr. subst re.
      exists mf. now rewrite Ht.
    + intros g' E. rewrite E, last_char_dot_suffix in Hc.
      injection Hc as <-. contradiction.
Qed.

Lemma amended_tokens_plain (f : string) :
  f <> "" -> plain_filter f = true ->
  forallb plain_tok (amended_tokens f) = true.
Proof.
  intros Hf Hp.
  destruct (filter_end_cases f Hf)
    as [(g & -> & ->)|[(g & -> & _ & ->)|(c & _ & _ & ->)]].
  - unfold plain_filter in Hp. rewrite all_chars_app in Hp.
    apply andb_true_iff in Hp as [Hg _].
    rewrite forallb_app, (stated_tokens_plain g Hg). reflexivity.
  - unfold plain_filter in Hp. rewrite all_chars_app in Hp.
    apply andb_true_iff in Hp as [Hg _].
    now apply stated_tokens_plain.
  - now apply stated_tokens_plain.
Qed.




(** * Further properties *)

(** ** Decimal text *)

Lemma int_of_digits_val (s : string) : int_of_digits s = digits_val s 0.
Proof. reflexivity. Qed.

Lemma digits_val_cons (c : ascii) (s : string) (acc : Z) :
  digits_val (String c s) acc = digits_val s (acc * 10 + digit_val c).
Proof. reflexivity. Qed.

Lemma isdigit_range (c : ascii) :
  isdigit c = true <-> 48 <= ord c <= 57.
Proof. unfold isdigit. lia. Qed.

Lemma isdigit_not_us (c : ascii) : isdigit c = true -> Ascii.eqb c "_" = false.
Proof.
  intros H. destruct (Ascii.eqb_spec c "_") as [->|]; [discriminate H|reflexivity].
Qed.

Lemma isdigit_not_space (c : ascii) : isdigit c = true -> isspace c = false.
Proof. unfold isdigit, isspace. lia. Qed.

Lemma digit_in_10 (c : ascii) :
  isdigit c = true -> digit_in 10 c = Some (digit_val c).
Proof.
  intros H. unfold digit_in. rewrite H. unfold digit_val.
  apply isdigit_range in H.
  destruct (Z.ltb_spec (ord c - 48) 10); [reflexivity|lia].
Qed.

Lemma int_digits_decimal (s : string) :
  all_chars isdigit s = true ->
  forall (acc : Z) (any : bool),
    int_digits 10 s acc false any =
    match s with
    | EmptyString => if any then Some acc else None
    | _ => Some (digits_val s acc)
    end.
Proof.
  induction s as [|c s IH]; intros Hs acc any.
  - cbn. now rewrite andb_true_r.
  - cbn in Hs. apply andb_prop in Hs as [Hc Hs].
    cbn [int_digits]. rewrite (isdigit_not_us c Hc), (digit_in_10 c Hc).
    rewrite (IH Hs). rewrite digits_val_cons.
    destruct s; reflexivity.
Qed.

Lemma rstrip_no_space (s : string) :
  all_chars (fun c => negb (isspace c)) s = true -> rstrip s = s.
Proof.
  induction s as [|c s IH]; [reflexivity|].
  cbn. intros H. apply andb_prop in H as [Hc Hs].
  rewrite (IH Hs). destruct s; [|reflexivity].
  apply negb_true_iff in Hc. now rewrite Hc.
Qed.

Lemma all_chars_impl (p q : ascii -> bool) (s : string) :
  (forall c, p c = true -> q c = true) ->
  all_chars p s = true -> all_chars q s = true.
Proof.
  intros Hpq. induction s as [|c s IH]; [reflexivity|].
  cbn. intros H. apply andb_prop in H as [Hc Hs].
  now rewrite (Hpq c Hc), (IH Hs).
Qed.

Lemma skip_base_prefix_10 (s : string) : skip_base_prefix 10 s = s.
Proof.
  destruct s as [|c [|p r]]; try reflexivity;
    destruct c as [[] [] [] [] [] [] [] []]; reflexivity.
Qed.

(** [int(s)] on a non-empty run of digits is its positional value. *)
Lemma py_int_decimal (s : string) :
  s <> "" -> all_chars isdigit s = true ->
  py_int 10 s = Ok (digits_val s 0).
Proof.
  intros Hne Hs. unfold py_int.
  assert (Hl : lstrip s = s).
  { destruct s as [|c s]; [reflexivity|]. cbn in Hs.
    apply andb_prop in Hs as [Hc _]. cbn.
    now rewrite (isdigit_not_space c Hc). }
  rewrite Hl, rstrip_no_space.
  2:{ apply (all_chars_impl isdigit); [|exact Hs].
      intros c Hc. now rewrite (isdigit_not_space c Hc). }
  destruct s as [|c s]; [contradiction|].
  assert (Hsign : (match String c s with
                   | String "-" r => (true, r)
                   | String "+" r => (false, r)
                   | _ => (false, String c s)
                   end) = (false, String c s)).
  { cbn in Hs. apply andb_prop in Hs as [Hc _].
    destruct c as [[] [] [] [] [] [] [] []]; try reflexivity; discriminate Hc. }
  rewrite Hsign, skip_base_prefix_10, (int_digits_decimal _ Hs).
  reflexivity.
Qed.

(** The digits [NilEmpty.string_of_uint] writes, and their value. *)
Lemma uint_digits (d : Decimal.uint) :
  all_chars isdigit (NilEmpty.string_of_uint d) = true.
Proof. induction d; cbn; auto. Qed.

Lemma digits_val_pos (d : Decimal.uint) :
  forall a : positive,
    digits_val (NilEmpty.string_of_uint d) (Z.pos a)
    = Z.pos (Pos.of_uint_acc d a).
Proof.
  induction d; intros a; cbn [NilEmpty.string_of_uint Pos.of_uint_acc];
    [reflexivity|..];
    rewrite digits_val_cons;
    match goal with
    | |- digits_val _ ?z = Z.pos (Pos.of_uint_acc _ ?p) =>
        replace z with (Z.pos p)
          by (match goal with
              | |- context [digit_val ?c] =>
                  let v := eval vm_compute in (digit_val c) in
                  change (digit_val c) with v
              end; lia)
    end; apply IHd.
Qed.

Lemma digits_val_uint (d : Decimal.uint) :
  digits_val (NilEmpty.string_of_uint d) 0 = Z.of_uint d.
Proof.
  unfold Z.of_uint.
  induction d; cbn [NilEmpty.string_of_uint Pos.of_uint];
    [reflexivity|..]; rewrite digits_val_cons;
    try (exact IHd);
    match goal with
    | |- digits_val _ ?z = Z.of_N (N.pos (Pos.of_uint_acc _ ?p)) =>
        change z with (Z.pos p)
    end; apply digits_val_pos.
Qed.

(** How a positive number is printed: digits, the first not a zero. *)
Lemma to_uint_head (p : positive) :
  exists c s, NilEmpty.string_of_uint (Pos.to_uint p) = String c s
              /\ isdigit c = true /\ c <> "0"%char.
Proof.
  pose proof (DecimalPos.Unsigned.to_of (Pos.to_uint p)) as H.
  pose proof (DecimalPos.Unsigned.of_to p) as H1.
  rewrite H1 in H. cbn in H.
  destruct (Pos.to_uint p) as [|u|u|u|u|u|u|u|u|u|u] eqn:E.
  - discriminate H1.
  - exfalso. rewrite DecimalFacts.unorm_D0 in H. unfold Decimal.unorm in H.
    destruct (Decimal.nzhead u) eqn:En.
    + injection H as ->. cbn in H1. discriminate H1.
    + now apply DecimalFacts.nzhead_nonzero in En.
    + discriminate H.
    + discriminate H.
    + discriminate H.
    + discriminate H.
    + discriminate H.
    + discriminate H.
    + discriminate H.
    + discriminate H.
    + discriminate H.
  - cbn; eexists _, _; repeat split; discriminate.
  - cbn; eexists _, _; repeat split; discriminate.
  - cbn; eexists _, _; repeat split; discriminate.
  - cbn; eexists _, _; repeat split; discriminate.
  - cbn; eexists _, _; repeat split; discriminate.
  - cbn; eexists _, _; repeat split; discriminate.
  - cbn; eexists _, _; repeat split; discriminate.
  - cbn; eexists _, _; repeat split; discriminate.
  - cbn; eexists _, _; repeat split; discriminate.
Qed.

Lemma str_of_Z_pos (p : positive) :
  str_of_Z (Z.pos p) = NilEmpty.string_of_uint (Pos.to_uint p).
Proof.
  unfold str_of_Z. cbn. unfold NilZero.string_of_uint.
  destruct (to_uint_head p) as (c & s & E & _).
  destruct (Pos.to_uint p); [discriminate E|..]; reflexivity.
Qed.

Lemma digits_val_to_uint (p : positive) :
  digits_val (NilEmpty.string_of_uint (Pos.to_uint p)) 0 = Z.pos p.
Proof.
  rewrite digits_val_uint. unfold Z.of_uint.
  now rewrite DecimalPos.Unsigned.of_to.
Qed.

(** The text of a non-negative number is a run of digits that reads back
    as the number. *)
Lemma str_of_Z_digits (z : Z) :
  0 <= z ->
  all_chars isdigit (str_of_Z z) = true /\ int_of_digits (str_of_Z z) = z.
Proof.
  intros Hz. destruct z as [|p|p]; [split; reflexivity| |lia].
  rewrite str_of_Z_pos, int_of_digits_val. split;
    [apply uint_digits|apply digits_val_to_uint].
Qed.

Lemma str_of_Z_neg (p : positive) :
  str_of_Z (Z.neg p) = String "-" (NilEmpty.string_of_uint (Pos.to_uint p)).
Proof.
  unfold str_of_Z. cbn. unfold NilZero.string_of_uint.
  destruct (to_uint_head p) as (c & s & E & _).
  destruct (Pos.to_uint p); [discriminate E|..]; reflexivity.
Qed.

Lemma isdigit_not_minus (c : ascii) : isdigit c = true -> Ascii.eqb c "-" = false.
Proof.
  intros H. destruct (Ascii.eqb_spec c "-") as [->|]; [discriminate H|reflexivity].
Qed.

(** X1. [scanint] reads back what ['%d'] writes. *)
Theorem scanint_reads_decimal (n : Z) : scanint (str_of_Z n) = Ok n.
Proof.
  destruct n as [|p|p]; [reflexivity| |].
  - rewrite str_of_Z_pos.
    destruct (to_uint_head p) as (c & s & E & Hc & Hz).
    pose proof (uint_digits (Pos.to_uint p)) as Hd.
    pose proof (digits_val_to_uint p) as Hv.
    rewrite E in *. unfold scanint.
    rewrite (isdigit_not_minus c Hc).
    destruct (Ascii.eqb_spec c "0") as [->|_]; [contradiction|].
    cbn [negb]. rewrite py_int_decimal by (discriminate || exact Hd).
    rewrite Hv. reflexivity.
  - rewrite str_of_Z_neg.
    destruct (to_uint_head p) as (c & s & E & Hc & Hz).
    pose proof (uint_digits (Pos.to_uint p)) as Hd.
    pose proof (digits_val_to_uint p) as Hv.
    rewrite E in *. unfold scanint.
    change (Ascii.eqb "-" "-") with true. cbv iota.
    destruct (Ascii.eqb_spec c "0") as [->|_]; [contradiction|].
    cbn [negb]. rewrite py_int_decimal by (discriminate || exact Hd).
    rewrite Hv. reflexivity.
Qed.

(** ** Leading zeros *)

Lemma digit_in_2 (c : ascii) :
  digit_in 2 c = if is_bit c then Some (digit_val c) else None.
Proof. destruct c as [[] [] [] [] [] [] [] []]; reflexivity. Qed.

Lemma int_digits_binary (s : string) :
  all_chars isdigit s = true ->
  forall (acc : Z) (any : bool),
    int_digits 2 s acc false any =
    match s with
    | EmptyString => if any then Some acc else None
    | _ => if all_chars is_bit s then Some (bits_val s acc) else None
    end.
Proof.
  induction s as [|c s IH]; intros Hs acc any.
  - cbn. now rewrite andb_true_r.
  - cbn in Hs. apply andb_prop in Hs as [Hc Hs].
    cbn [int_digits all_chars]. rewrite (isdigit_not_us c Hc), digit_in_2.
    destruct (is_bit c); [|reflexivity].
    rewrite (IH Hs). cbn [andb].
    destruct s; reflexivity.
Qed.

Lemma skip_base_prefix_2_digits (c : ascii) (s : string) :
  all_chars isdigit s = true ->
  skip_base_prefix 2 (String c s) = String c s.
Proof.
  intros Hs. destruct s as [|p r].
  - destruct c as [[] [] [] [] [] [] [] []]; reflexivity.
  - cbn in Hs. apply andb_prop in Hs as [Hp _].
    assert (Hb : Ascii.eqb (upper p) "B" = false).
    { destruct p as [[] [] [] [] [] [] [] []]; try reflexivity; discriminate Hp. }
    destruct c as [[] [] [] [] [] [] [] []]; try reflexivity.
    cbn [skip_base_prefix]. rewrite Hb. reflexivity.
Qed.

(** X2. A parameter of digits that begins with 0 is never read as decimal:
    it is read in base 2, and raises ValueError when a digit above 1
    follows. *)
Theorem scanint_leading_zero (ds : string) :
  all_chars isdigit ds = true ->
  scanint (String "0" ds) =
  if all_chars is_bit ds then Ok (bits_val ds 0) else Exc ValueError.
Proof.
  intros Hs. unfold scanint.
  change (Ascii.eqb "0" "-") with false. cbv iota.
  change (negb (Ascii.eqb "0" "0")) with false. cbv iota.
  assert (Hall : all_chars isdigit (String "0" ds) = true) by exact Hs.
  assert (Hp : py_int 2 (String "0" ds) =
               if all_chars is_bit ds then Ok (bits_val ds 0)
               else Exc ValueError).
  { unfold py_int.
    change (lstrip (String "0" ds)) with (String "0" ds).
    rewrite rstrip_no_space.
    2:{ apply (all_chars_impl isdigit); [|exact Hall].
        intros c Hc. now rewrite (isdigit_not_space c Hc). }
    cbv iota beta.
    rewrite (skip_base_prefix_2_digits "0" ds Hs).
    rewrite (int_digits_binary _ Hall).
    change (all_chars is_bit (String "0" ds)) with (all_chars is_bit ds).
    destruct (all_chars is_bit ds); reflexivity. }
  destruct ds as [|v1 r].
  - reflexivity.
  - assert (Hx : Ascii.eqb (upper v1) "X" = false).
    { cbn in Hs. apply andb_prop in Hs as [Hv _].
      destruct v1 as [[] [] [] [] [] [] [] []]; try reflexivity; discriminate Hv. }
    rewrite Hx, Hp.
    destruct (all_chars is_bit (String v1 r)); reflexivity.
Qed.

Lemma scanint_leading_zero_witness :
  scanint "0110" = Ok 6 /\ scanint "0129" = Exc ValueError.
Proof.
  split.
  - exact (scanint_leading_zero "110" eq_refl).
  - exact (scanint_leading_zero "129" eq_refl).
Defined.

(** ** The numeric branch of nextName *)

Lemma span_all (p : ascii -> bool) (s : string) :
  all_chars p s = true -> span p s = (s, "").
Proof.
  induction s as [|c s IH]; [reflexivity|].
  cbn. intros H. apply andb_prop in H as [Hc Hs].
  now rewrite Hc, (IH Hs).
Qed.

Lemma number_at_end_digits (ds : string) :
  ds <> "" -> all_chars isdigit ds = true -> number_at_end ds = Some ds.
Proof.
  intros Hne Hd. unfold number_at_end. rewrite (span_all _ _ Hd).
  destruct ds; [contradiction|reflexivity].
Qed.

Lemma no_digit_end_tail (c : ascii) (p : string) :
  no_digit_end (String c p) -> no_digit_end p.
Proof.
  unfold no_digit_end. cbn. destruct p; [easy|auto].
Qed.

Lemma span_rest_long (q ds : string) :
  q <> "" -> no_digit_end q -> ds <> "" ->
  exists a c r, span isdigit (q ++ ds) = (a, String c r) /\ r <> "".
Proof.
  induction q as [|d q IH]; intros Hq Hn Hds; [contradiction|].
  cbn [append span]. destruct (isdigit d) eqn:Ed.
  - destruct q as [|e q'].
    + unfold no_digit_end in Hn. cbn in Hn. congruence.
    + destruct (IH ltac:(discriminate) (no_digit_end_tail _ _ Hn) Hds)
        as (a & c & r & E & Hr).
      rewrite E. eauto.
  - exists "", d, (q ++ ds). split; [reflexivity|].
    intros H. apply app_eq_empty in H as [_ H]. contradiction.
Qed.

Lemma number_at_end_none (q ds : string) :
  q <> "" -> no_digit_end q -> ds <> "" -> number_at_end (q ++ ds) = None.
Proof.
  intros Hq Hn Hds. unfold number_at_end.
  destruct (span_rest_long q ds Hq Hn Hds) as (a & c & r & -> & Hr).
  destruct a; [reflexivity|].
  destruct r as [|e r]; [contradiction|]. cbn.
  destruct (Ascii.eqb c newline); reflexivity.
Qed.

Lemma lazy_number_split (p ds : string) :
  no_nl p -> no_digit_end p -> ds <> "" -> all_chars isdigit ds = true ->
  lazy_number (p ++ ds) = Some (p, ds).
Proof.
  induction p as [|c p IH]; intros Hnl Hn Hds Hd.
  - cbn [append]. destruct ds as [|d ds]; [contradiction|].
    cbn [lazy_number]. now rewrite (number_at_end_digits _ Hds Hd).
  - cbn [append lazy_number].
    change (String c (p ++ ds)) with (String c p ++ ds).
    rewrite (number_at_end_none (String c p) ds ltac:(discriminate) Hn Hds).
    cbn [append]. unfold no_nl in Hnl. cbn in Hnl.
    apply andb_prop in Hnl as [Hc Hnl]. rewrite Hc.
    now rewrite (IH Hnl (no_digit_end_tail _ _ Hn) Hds Hd).
Qed.

Lemma search_number_split (p ds : string) :
  no_nl p -> no_digit_end p -> ds <> "" -> all_chars isdigit ds = true ->
  search_number (p ++ ds) = Some (p, ds).
Proof.
  intros Hnl Hn Hds Hd.
  destruct (p ++ ds) eqn:E; cbn [search_number]; rewrite <- E;
    now rewrite (lazy_number_split p ds Hnl Hn Hds Hd).
Qed.

Lemma slice_from_0 (s : string) : slice s (Some 0) None = s.
Proof. exact (slice_suffix "" s). Qed.

Lemma slice_0_0 (s : string) : slice s (Some 0) (Some 0) = "".
Proof. exact (slice_prefix "" s). Qed.

Lemma all_digits_last (ds : string) (c : ascii) :
  all_chars isdigit ds = true -> last_char ds = Some c -> isdigit c = true.
Proof.
  induction ds as [|d ds IH]; [discriminate|].
  cbn. intros H Hl. apply andb_prop in H as [Hd Hs].
  destruct ds; [injection Hl as <-; exact Hd|auto].
Qed.

(** The numeric increment: the run of digits that ends the name is read
    whole, the step added, and the result written back at the width of
    the run; what precedes the run is kept. *)
Lemma nextName_numeric (p ds : string) (step : Z) :
  no_nl p -> no_digit_end p -> ds <> "" -> all_chars isdigit ds = true ->
  nextName (p ++ ds) step 0
  = Ok (Some (p ++ fmt_0d (len ds) (int_of_digits ds + step))).
Proof.
  intros Hnl Hn Hds Hd. unfold nextName.
  rewrite (last_char_app p ds Hds).
  destruct (last_char ds) as [c|] eqn:El;
    [|apply last_char_none in El; contradiction].
  rewrite (all_digits_last ds c Hd El).
  rewrite slice_from_0, slice_0_0.
  now rewrite (search_number_split p ds Hnl Hn Hds Hd).
Qed.

Lemma digits_val_app (a b : string) (acc : Z) :
  digits_val (a ++ b) acc = digits_val b (digits_val a acc).
Proof.
  revert acc. induction a as [|c a IH]; intros acc; [reflexivity|].
  cbn [append]. now rewrite !digits_val_cons, IH.
Qed.

Lemma digits_val_zeros (n : nat) : digits_val (repeat_chr "0" n) 0 = 0.
Proof. induction n as [|n IH]; [reflexivity|]. exact IH. Qed.

Lemma zeros_digits (n : nat) : all_chars isdigit (repeat_chr "0" n) = true.
Proof. induction n as [|n IH]; [reflexivity|]. exact IH. Qed.

Lemma len_repeat_chr (c : ascii) (n : nat) : len (repeat_chr c n) = Z.of_nat n.
Proof.
  unfold len. induction n as [|n IH]; [reflexivity|].
  cbn [repeat_chr String.length]. lia.
Qed.

Lemma len_app (s t : string) : len (s ++ t) = len s + len t.
Proof. unfold len. rewrite str_length_app. lia. Qed.

Lemma len_nonneg (s : string) : 0 <= len s.
Proof. unfold len. lia. Qed.

(** ['%0*d'] of a non-negative number at a non-negative width. *)
Lemma fmt_0d_nonneg (w v : Z) :
  0 <= w -> 0 <= v ->
  fmt_0d w v = repeat_chr "0" (Z.to_nat (w - len (str_of_Z v))) ++ str_of_Z v.
Proof.
  intros Hw Hv. unfold fmt_0d. cbv zeta.
  destruct (Z.ltb_spec v 0); [lia|].
  destruct (Z.leb_spec 0 w); [|lia].
  rewrite Z.abs_eq by lia. reflexivity.
Qed.

Lemma fmt_0d_digits (w v : Z) :
  0 <= w -> 0 <= v ->
  all_chars isdigit (fmt_0d w v) = true
  /\ int_of_digits (fmt_0d w v) = v
  /\ len (fmt_0d w v) = Z.max w (len (str_of_Z v)).
Proof.
  intros Hw Hv. rewrite (fmt_0d_nonneg w v Hw Hv).
  destruct (str_of_Z_digits v Hv) as [Hd Hval].
  repeat split.
  - now rewrite all_chars_app, zeros_digits, Hd.
  - rewrite int_of_digits_val, digits_val_app, digits_val_zeros.
    now rewrite <- int_of_digits_val.
  - rewrite len_app, len_repeat_chr.
    pose proof (len_nonneg (str_of_Z v)). lia.
Qed.

(** Bounds on the value of a run of digits. *)
Lemma digits_val_acc (s : string) :
  all_chars isdigit s = true ->
  forall acc, digits_val s acc = acc * 10 ^ len s + digits_val s 0.
Proof.
  induction s as [|c s IH]; intros Hs acc.
  - cbn. change (len "") with 0. lia.
  - cbn in Hs. apply andb_prop in Hs as [Hc Hs].
    rewrite !digits_val_cons. rewrite (IH Hs (acc * 10 + digit_val c)).
    rewrite (IH Hs (0 * 10 + digit_val c)).
    replace (len (String c s)) with (len s + 1) by (unfold len; cbn; lia).
    rewrite Z.pow_add_r by (pose proof (len_nonneg s); lia).
    lia.
Qed.

Lemma digits_val_bounds (s : string) :
  all_chars isdigit s = true -> 0 <= digits_val s 0 < 10 ^ len s.
Proof.
  induction s as [|c s IH]; intros Hs.
  - cbn. change (len "") with 0. lia.
  - cbn in Hs. apply andb_prop in Hs as [Hc Hs].
    rewrite digits_val_cons, (digits_val_acc s Hs).
    specialize (IH Hs). apply isdigit_range in Hc.
    replace (len (String c s)) with (len s + 1) by (unfold len; cbn; lia).
    rewrite Z.pow_add_r by (pose proof (len_nonneg s); lia).
    unfold digit_val. nia.
Qed.

Lemma digits_val_lower (c : ascii) (s : string) :
  isdigit c = true -> c <> "0"%char -> all_chars isdigit s = true ->
  10 ^ len s <= digits_val (String c s) 0.
Proof.
  intros Hc Hz Hs.
  rewrite digits_val_cons, (digits_val_acc s Hs).
  pose proof (digits_val_bounds s Hs) as Hb.
  assert (1 <= digit_val c).
  { unfold digit_val. apply isdigit_range in Hc.
    assert (ord c <> 48); [|lia].
    intros E. apply Hz. unfold ord in E.
    rewrite <- (ascii_N_embedding c).
    replace (N_of_ascii c) with 48%N by lia. reflexivity. }
  nia.
Qed.

(** Larger numbers are not written shorter. *)
Lemma str_of_Z_len_mono (x y : Z) :
  0 <= x <= y -> len (str_of_Z x) <= len (str_of_Z y).
Proof.
  intros [Hx Hxy].
  destruct x as [|px|px]; [|clear Hx|lia].
  - change (len (str_of_Z 0)) with 1.
    pose proof (str_of_Z_nonempty y) as Hne.
    destruct (str_of_Z y); [contradiction|]. unfold len. cbn. lia.
  - destruct y as [|py|py]; [lia| |lia].
    rewrite !str_of_Z_pos.
    destruct (to_uint_head px) as (cx & sx & Ex & Hcx & Hzx).
    destruct (to_uint_head py) as (cy & sy & Ey & Hcy & Hzy).
    pose proof (uint_digits (Pos.to_uint px)) as Hdx.
    pose proof (uint_digits (Pos.to_uint py)) as Hdy.
    pose proof (digits_val_to_uint px) as Hvx.
    pose proof (digits_val_to_uint py) as Hvy.
    rewrite Ex in *. rewrite Ey in *.
    cbn in Hdx, Hdy.
    apply andb_prop in Hdx as [_ Hdx]. apply andb_prop in Hdy as [_ Hdy].
    pose proof (digits_val_lower cx sx Hcx Hzx Hdx) as Lx.
    assert (Hy : all_chars isdigit (String cy sy) = true)
      by (cbn; now rewrite Hcy, Hdy).
    pose proof (digits_val_bounds (String cy sy) Hy) as By.
    rewrite Hvx in Lx. rewrite Hvy in By.
    destruct (Z.le_gt_cases (len (String cx sx)) (len (String cy sy)))
      as [|Hgt]; [assumption|exfalso].
    assert (len (String cy sy) <= len sx)
      by (unfold len in *; cbn in *; lia).
    assert (10 ^ len (String cy sy) <= 10 ^ len sx)
      by (apply Z.pow_le_mono_r; [lia|assumption]).
    lia.
Qed.

Lemma digit_run_split (s : string) (c : ascii) :
  last_char s = Some c -> isdigit c = true ->
  exists p ds, s = p ++ ds /\ ds <> "" /\ all_chars isdigit ds = true
               /\ no_digit_end p.
Proof.
  revert c. induction s as [|d s IH]; intros c Hl Hc; [discriminate|].
  destruct s as [|e s'].
  - injection Hl as <-. exists "", (String d "").
    repeat split; [discriminate|cbn; now rewrite Hc].
  - destruct (IH c Hl Hc) as (p & ds & E & Hds & Hd & Hn).
    destruct p as [|q p'].
    + destruct (isdigit d) eqn:Ed.
      * exists "", (String d ds). cbn in E. rewrite E.
        repeat split; [discriminate|cbn; now rewrite Ed, Hd].
      * exists (String d ""), ds. cbn in E. rewrite E.
        repeat split; auto.
    + exists (String d (String q p')), ds. rewrite E.
      repeat split; auto.
Qed.

Lemma fmt_0d_width (w w' x : Z) :
  0 <= w -> 0 <= w' -> 0 <= x ->
  Z.max w' (len (str_of_Z x)) = Z.max w (len (str_of_Z x)) ->
  fmt_0d w' x = fmt_0d w x.
Proof.
  intros Hw Hw' Hx Hm. pose proof (len_nonneg (str_of_Z x)).
  rewrite !fmt_0d_nonneg by lia.
  f_equal. f_equal. lia.
Qed.

(** X3. Counting forward adds up: two increments by non-negative steps
    give the name a single increment by their sum gives, the zero padding
    included. *)
Theorem nextName_steps_add (s : string) (c : ascii) (a b : Z) :
  last_char s = Some c -> isdigit c = true -> no_nl s ->
  0 <= a -> 0 <= b ->
  exists s1, nextName s a 0 = Ok (Some s1)
             /\ nextName s1 b 0 = nextName s (a + b) 0.
Proof.
  intros Hl Hc Hnl Ha Hb.
  destruct (digit_run_split s c Hl Hc) as (p & ds & -> & Hds & Hd & Hn).
  unfold no_nl in Hnl. rewrite all_chars_app in Hnl.
  apply andb_prop in Hnl as [Hp _].
  pose proof (digits_val_bounds ds Hd) as [Hv _].
  rewrite <- int_of_digits_val in Hv.
  pose proof (len_nonneg ds) as Hw.
  destruct (fmt_0d_digits (len ds) (int_of_digits ds + a) Hw ltac:(lia))
    as (Hd1 & Hv1 & Hl1).
  eexists. split; [apply (nextName_numeric p ds a Hp Hn Hds Hd)|].
  rewrite (nextName_numeric p _ b Hp Hn (fmt_0d_nonempty _ _) Hd1).
  rewrite (nextName_numeric p ds (a + b) Hp Hn Hds Hd).
  rewrite Hv1, Hl1. do 3 f_equal.
  replace (int_of_digits ds + a + b) with (int_of_digits ds + (a + b)) by lia.
  apply fmt_0d_width; [lia|lia|lia|].
  pose proof (str_of_Z_len_mono (int_of_digits ds + a)
                (int_of_digits ds + (a + b)) ltac:(lia)).
  lia.
Qed.

Lemma nextName_steps_add_witness :
  exists s1, nextName "img098" 1 0 = Ok (Some s1)
             /\ nextName s1 2 0 = nextName "img098" (1 + 2) 0.
Proof.
  exact (nextName_steps_add "img098" "8" 1 2 eq_refl eq_refl eq_refl
           ltac:(lia) ltac:(lia)).
Defined.

(** ** The alphabetic branch of nextName *)

Lemma ord_chr (z : Z) : 0 <= z < 256 -> ord (chr z) = z.
Proof.
  intros Hz. unfold ord, chr. rewrite N_ascii_embedding by lia. lia.
Qed.

(** X4. An alphabetic counter stays alphabetic: whatever the step, the
    name [nextName] returns for a name that ends in a letter ends in a
    letter of the same case. *)
Theorem nextName_alpha_closed (s : string) (c : ascii) (step offset : Z) :
  last_char s = Some c -> isalpha c = true ->
  exists s' c',
    nextName s step offset = Ok (Some s')
    /\ last_char s' = Some c'
    /\ isalpha c' = true /\ islower c' = islower c.
Proof.
  intros Hl Ha.
  destruct (last_char_inv s c Hl) as [p ->].
  rewrite (nextName_alpha p c step offset Ha). cbv zeta.
  pose proof (Z.mod_pos_bound step 26 ltac:(lia)) as Hm.
  assert (Hcase : (islower c = true /\ 97 <= ord c <= 122)
                  \/ (islower c = false /\ 65 <= ord c <= 90)).
  { unfold isalpha, isupper, islower in *.
    destruct (Z.leb_spec 97 (ord c)), (Z.leb_spec (ord c) 122);
      cbn; try (left; split; [reflexivity|lia]);
      right; (split; [reflexivity|]);
      rewrite orb_false_r in Ha; cbn in Ha; lia. }
  assert (Hup : forall z, 65 <= z <= 90 ->
                  isalpha (chr z) = true /\ islower (chr z) = false).
  { intros z Hz. unfold isalpha, isupper, islower.
    rewrite (ord_chr z) by lia.
    split; [apply orb_true_iff; left|]; lia. }
  assert (Hlo : forall z, 97 <= z <= 122 ->
                  isalpha (chr z) = true /\ islower (chr z) = true).
  { intros z Hz. unfold isalpha, isupper, islower.
    rewrite (ord_chr z) by lia.
    split; [apply orb_true_iff; right|]; lia. }
  destruct Hcase as [[El Hr]|[El Hr]]; rewrite El;
    change (ord "z") with 122; change (ord "Z") with 90;
    destruct (step <? 0);
    destruct (Z.gtb_spec (ord c + step mod 26) 122) as [Hn|Hn];
    destruct (Z.gtb_spec (ord c + step mod 26) 90) as [Hn'|Hn'];
    try lia;
    eexists _, _; (split; [reflexivity|]);
    rewrite last_char_app by discriminate; cbn [last_char];
    (split; [reflexivity|]);
    first [ apply Hlo; lia | apply Hup; lia ].
Qed.

Lemma nextName_alpha_closed_witness :
  exists s' c',
    nextName "partZ" 3 0 = Ok (Some s')
    /\ last_char s' = Some c'
    /\ isalpha c' = true /\ islower c' = islower "Z".
Proof.
  exact (nextName_alpha_closed "partZ" "Z" 3 0 eq_refl eq_refl).
Defined.

(** ** bitmapChars *)




(** ** greedyext *)

Lemma span_spec (p : ascii -> bool) (s : string) :
  forall a b, span p s = (a, b) ->
    s = a ++ b /\ all_chars p a = true
    /\ match b with String c _ => p c = false | EmptyString => True end.
Proof.
  induction s as [|c s IH]; intros a b H; cbn in H.
  - injection H as <- <-. auto.
  - destruct (p c) eqn:Ec.
    + destruct (span p s) as [a' b'] eqn:E. injection H as <- <-.
      destruct (IH a' b' eq_refl) as (-> & Ha & Hb).
      cbn. rewrite Ec, Ha. auto.
    + injection H as <- <-. cbn. auto.
Qed.

Lemma span_app (p : ascii -> bool) (a b : string) :
  all_chars p a = true ->
  match b with String c _ => p c = false | EmptyString => True end ->
  span p (a ++ b) = (a, b).
Proof.
  intros Ha Hb. induction a as [|c a IH]; cbn.
  - destruct b as [|d b]; [reflexivity|]. cbn. now rewrite Hb.
  - cbn in Ha. apply andb_prop in Ha as [Hc Ha].
    now rewrite Hc, (IH Ha).
Qed.

Lemma not_dot_head (run rest : string) :
  run <> "" -> all_chars not_dot run = true ->
  match run ++ rest with
  | String c _ => is_dot c = false
  | EmptyString => True
  end.
Proof.
  intros Hne H. destruct run as [|c r]; [contradiction|].
  cbn in *. apply andb_prop in H as [Hc _].
  unfold not_dot in Hc. now apply negb_true_iff in Hc.
Qed.

(** X6. [greedyext] takes a name apart at the first dot that follows its
    root: leading dots and the run of other characters after them are the
    root, the rest is the extension, and the two put together give the
    name back.  A dot that ends the name is the one thing dropped. *)
Theorem greedyext_joins (dots run e : string) :
  all_chars is_dot dots = true ->
  run <> "" -> all_chars not_dot run = true ->
  e <> "" -> no_nl e ->
  greedyext (dots ++ run ++ "." ++ e) = (dots ++ run, "." ++ e)
  /\ greedyext (dots ++ run) = (dots ++ run, "")
  /\ greedyext (dots ++ run ++ ".") = (dots ++ run, "").
Proof.
  intros Hd Hne Hr He Hnl.
  assert (Hsd : forall rest, span is_dot (dots ++ run ++ rest)
                             = (dots, run ++ rest)).
  { intros rest. apply span_app; [exact Hd|].
    exact (not_dot_head run rest Hne Hr). }
  assert (Hsr : forall rest,
             match rest with
             | String c _ => c = "."%char
             | EmptyString => True
             end ->
             span not_dot (run ++ rest) = (run, rest)).
  { intros rest Hrest. apply span_app; [exact Hr|].
    destruct rest as [|c rest]; [exact I|]. now subst c. }
  repeat split.
  - unfold greedyext. rewrite Hsd, (Hsr ("." ++ e) eq_refl).
    destruct run as [|c run]; [contradiction|].
    cbn [append]. rewrite (span_all not_nl e Hnl).
    destruct e; [contradiction|reflexivity].
  - unfold greedyext. rewrite <- (app_empty_r run) at 1.
    rewrite Hsd, (Hsr "" I).
    destruct run as [|c run]; [contradiction|reflexivity].
  - unfold greedyext. rewrite Hsd, (Hsr "." eq_refl).
    destruct run as [|c run]; [contradiction|reflexivity].
Qed.

Lemma greedyext_joins_witness :
  greedyext (".." ++ "name" ++ "." ++ "tar.gzip") = (".." ++ "name", "." ++ "tar.gzip")
  /\ greedyext (".." ++ "name") = (".." ++ "name", "")
  /\ greedyext (".." ++ "name" ++ ".") = (".." ++ "name", "").
Proof.
  exact (greedyext_joins ".." "name" "tar.gzip" eq_refl ltac:(discriminate)
           eq_refl ltac:(discriminate) eq_refl).
Defined.

(** X7. Whatever the name, the root and the extension [greedyext] returns
    are the start of the name, in this order; the extension is empty or a
    dot and at least one more character; a name that has no character
    other than dots has neither root nor extension. *)
Theorem greedyext_prefix (name : string) :
  exists rest,
    name = fst (greedyext name) ++ snd (greedyext name) ++ rest
    /\ (snd (greedyext name) = ""
        \/ exists e, snd (greedyext name) = String "." e /\ e <> "")
    /\ (fst (greedyext name) = "" <-> all_chars is_dot name = true).
Proof.
  unfold greedyext.
  destruct (span is_dot name) as [dots r1] eqn:E1.
  destruct (span not_dot r1) as [run r2] eqn:E2.
  destruct (span_spec _ _ _ _ E1) as (-> & Hd & Hh1).
  destruct (span_spec _ _ _ _ E2) as (-> & Hr & Hh2).
  destruct run as [|c run].
  - cbn [append] in *. cbn [fst snd].
    exists (dots ++ r2). split; [reflexivity|]. split; [now left|].
    split; [intros _|reflexivity].
    destruct r2 as [|d r2]; [now rewrite app_empty_r|].
    unfold not_dot in Hh2. apply negb_false_iff in Hh2.
    cbn in Hh1. congruence.
  - assert (Hroot : dots ++ String c run <> "")
      by (apply app_nonempty_r; discriminate).
    assert (Hnd : all_chars is_dot (dots ++ String c run ++ r2) = false).
    { rewrite all_chars_app. cbn in Hr.
      apply andb_prop in Hr as [Hc _]. unfold not_dot in Hc.
      apply negb_true_iff in Hc. cbn [append all_chars]. rewrite Hc.
      cbn. now rewrite andb_false_r. }
    destruct r2 as [|d r3].
    + cbn [fst snd]. exists "". cbn [append]. rewrite !app_empty_r.
      split; [reflexivity|]. split; [now left|].
      split; [contradiction|]. cbn [append] in Hnd.
      rewrite app_empty_r in Hnd. congruence.
    + destruct (span not_nl r3) as [body r4] eqn:E3.
      destruct (span_spec _ _ _ _ E3) as (-> & _ & _).
      unfold not_dot in Hh2. apply negb_false_iff in Hh2.
      unfold is_dot in Hh2. apply Ascii.eqb_eq in Hh2. subst d.
      destruct body as [|b body].
      * cbn [fst snd append] in *. exists (String "." r4).
        split; [now rewrite app_assoc_str|]. split; [now left|].
        split; [contradiction|]. intros H. congruence.
      * cbn [fst snd append] in *. exists r4.
        split; [now rewrite !app_assoc_str|].
        split; [right; eexists; split; [reflexivity|discriminate]|].
        split; [contradiction|]. intros H. cbn [append] in Hnd. congruence.
Qed.

(** ** Splitting and joining *)

Lemma split_on_nonempty (sep : ascii) (s : string) : split_on sep s <> [].
Proof.
  destruct s as [|c s]; cbn; [discriminate|].
  destruct (Ascii.eqb c sep); [discriminate|].
  destruct (split_on sep s); discriminate.
Qed.

Lemma split_on_free (sep : ascii) (x : string) :
  free_of sep x = true -> split_on sep x = [x].
Proof.
  induction x as [|c x IH]; [reflexivity|].
  cbn. intros H. apply andb_prop in H as [Hc Hx].
  apply negb_true_iff in Hc. now rewrite Hc, (IH Hx).
Qed.

Lemma split_on_app (sep : ascii) (x y : string) :
  free_of sep x = true ->
  split_on sep (x ++ String sep y) = x :: split_on sep y.
Proof.
  induction x as [|c x IH]; cbn.
  - now rewrite Ascii.eqb_refl.
  - intros H. apply andb_prop in H as [Hc Hx].
    apply negb_true_iff in Hc. now rewrite Hc, (IH Hx).
Qed.

Lemma split_on_join (sep : ascii) (l : list string) :
  l <> [] -> forallb (free_of sep) l = true ->
  split_on sep (join_with sep l) = l.
Proof.
  induction l as [|x l IH]; [contradiction|]. intros _ H.
  cbn in H. apply andb_prop in H as [Hx Hl].
  destruct l as [|y l].
  - cbn. now apply split_on_free.
  - change (join_with sep (x :: y :: l))
      with (x ++ String sep (join_with sep (y :: l))).
    rewrite (split_on_app sep x _ Hx). f_equal.
    apply IH; [discriminate|exact Hl].
Qed.

Lemma split_on_parts_free (sep : ascii) (s : string) :
  forallb (free_of sep) (split_on sep s) = true.
Proof.
  induction s as [|c s IH]; [reflexivity|].
  cbn. destruct (Ascii.eqb c sep) eqn:E; [exact IH|].
  destruct (split_on sep s) as [|w ws]; cbn in *; [now rewrite E|].
  now rewrite E.
Qed.

Lemma filter_keeps (P : string -> bool) (l : list string) :
  forallb P l = true -> filter P l = l.
Proof.
  induction l as [|y l IH]; [reflexivity|].
  cbn. intros H. apply andb_prop in H as [Hy Hl].
  now rewrite Hy, (IH Hl).
Qed.

Lemma forallb_impl {A : Type} (P Q : A -> bool) (l : list A) :
  (forall a, P a = true -> Q a = true) ->
  forallb P l = true -> forallb Q l = true.
Proof.
  intros HPQ. induction l as [|y l IH]; [reflexivity|].
  cbn. intros H. apply andb_prop in H as [Hy Hl].
  now rewrite (HPQ y Hy), (IH Hl).
Qed.

(** X8. [parmList] undoes joining with slashes: a list of non-empty
    parameters that hold no slash, joined by slashes, comes back as it
    was. *)
Theorem parmList_join (l : list string) :
  forallb (fun p => negb (String.eqb p "") && free_of "/" p) l = true ->
  parmList (join_with "/" l) false = l.
Proof.
  intros H. unfold parmList.
  destruct l as [|x l]; [reflexivity|].
  rewrite split_on_join; [|discriminate|].
  - apply filter_keeps. revert H. apply forallb_impl.
    intros a Ha. now apply andb_prop in Ha as [-> _].
  - revert H. apply forallb_impl.
    intros a Ha. now apply andb_prop in Ha as [_ ->].
Qed.

Lemma parmList_join_witness :
  parmList (join_with "/" ["L"; "_-"]) false = ["L"; "_-"].
Proof. exact (parmList_join ["L"; "_-"] eq_refl). Defined.

(** X9. The parameters [parmList] returns are never empty and hold no
    slash, however the slashes of the argument are placed; with
    [emptyok] the empty ones are kept and the argument can be put
    together again. *)
Theorem parmList_params (parm : string) :
  forallb (fun p => negb (String.eqb p "") && free_of "/" p)
          (parmList parm false) = true
  /\ join_with "/" (parmList parm true) = parm.
Proof.
  unfold parmList. split.
  - pose proof (split_on_parts_free "/" parm) as H.
    induction (split_on "/" parm) as [|w ws IH]; [reflexivity|].
    cbn in H. apply andb_prop in H as [Hw Hws]. cbn [filter orb].
    destruct (String.eqb w "") eqn:E; cbn [negb]; [now apply IH|].
    cbn. rewrite E, Hw. cbn. now apply IH.
  - cbn [orb].
    rewrite filter_keeps
      by (induction (split_on "/" parm); cbn; auto).
    induction parm as [|c s IH]; [reflexivity|].
    cbn. destruct (Ascii.eqb_spec c "/") as [->|Hne].
    + pose proof (split_on_nonempty "/" s) as Hn.
      destruct (split_on "/" s) as [|w ws] eqn:E; [contradiction|].
      cbn. now rewrite <- IH.
    + pose proof (split_on_nonempty "/" s) as Hn.
      destruct (split_on "/" s) as [|w ws] eqn:E; [contradiction|].
      rewrite <- IH. destruct ws; reflexivity.
Qed.

(** X10. [reRange] takes the first and the last field of a dash-separated
    text: a range [m-n] gives the braces with [m] and [n], a single
    number [m] the braces with [m] twice. *)
Theorem reRange_fields (m n : string) :
  free_of "-" m = true -> free_of "-" n = true ->
  reRange (m ++ String "-" n) = Ok ("{" ++ m ++ "," ++ n ++ "}")
  /\ reRange m = Ok ("{" ++ m ++ "," ++ m ++ "}").
Proof.
  intros Hm Hn. unfold reRange.
  rewrite (split_on_app "-" m n Hm), (split_on_free "-" n Hn),
          (split_on_free "-" m Hm).
  split; reflexivity.
Qed.

Lemma reRange_fields_witness :
  reRange ("2" ++ String "-" "10") = Ok ("{" ++ "2" ++ "," ++ "10" ++ "}")
  /\ reRange "2" = Ok ("{" ++ "2" ++ "," ++ "2" ++ "}").
Proof. exact (reRange_fields "2" "10" eq_refl eq_refl). Defined.

(** ** agnosticDir *)

Lemma replace_chr_length (a b : ascii) (s : string) :
  String.length (replace_chr a b s) = String.length s.
Proof. induction s as [|c s IH]; cbn; [reflexivity|now rewrite IH]. Qed.

Lemma replace_chr_substring (a b : ascii) (s : string) :
  forall i n, substring i n (replace_chr a b s)
              = replace_chr a b (substring i n s).
Proof.
  induction s as [|c s IH]; intros i n.
  - destruct i, n; reflexivity.
  - destruct i as [|i]; destruct n as [|n]; cbn; try reflexivity;
      now rewrite IH.
Qed.

Lemma replace_chr_slice (a b : ascii) (s : string) (lo hi : option Z) :
  slice (replace_chr a b s) lo hi = replace_chr a b (slice s lo hi).
Proof.
  unfold slice, len. rewrite replace_chr_length.
  apply replace_chr_substring.
Qed.

Lemma agnostic_chars (s : string) :
  all_chars (fun c => negb (is_sep c))
            (replace_chr "/" ">" (replace_chr backslash ">" s)) = true.
Proof.
  induction s as [|c s IH]; [reflexivity|].
  cbn [replace_chr all_chars]. rewrite IH, andb_true_r.
  destruct (Ascii.eqb_spec c backslash) as [->|H1]; [reflexivity|].
  destruct (Ascii.eqb_spec c "/") as [->|H2]; [reflexivity|].
  unfold is_sep.
  destruct (Ascii.eqb_spec c "/"); [contradiction|].
  destruct (Ascii.eqb_spec c backslash); [contradiction|]. reflexivity.
Qed.

Lemma agnostic_same (a b : ascii) (s : string) :
  is_sep a = true -> is_sep b = true ->
  replace_chr "/" ">" (replace_chr backslash ">" (replace_chr a b s))
  = replace_chr "/" ">" (replace_chr backslash ">" s).
Proof.
  intros Ha Hb. induction s as [|c s IH]; [reflexivity|].
  cbn [replace_chr]. rewrite IH. f_equal.
  destruct (Ascii.eqb_spec c a) as [->|Hca]; [|reflexivity].
  unfold is_sep in Ha, Hb.
  apply orb_prop in Ha as [Ha|Ha]; apply Ascii.eqb_eq in Ha; subst a;
    apply orb_prop in Hb as [Hb|Hb]; apply Ascii.eqb_eq in Hb; subst b;
    reflexivity.
Qed.

(** X11. [agnosticDir] is the same for a path written with slashes and the
    path written with backslashes, and its result holds neither; it is
    as long as the part of the path after the first [chopDir]
    characters. *)
Theorem agnosticDir_agnostic (chopDir : Z) (dir : string) :
  agnosticDir chopDir (replace_chr backslash "/" dir) = agnosticDir chopDir dir
  /\ agnosticDir chopDir (replace_chr "/" backslash dir) = agnosticDir chopDir dir
  /\ all_chars (fun c => negb (is_sep c)) (agnosticDir chopDir dir) = true
  /\ len (agnosticDir chopDir dir) = len (slice dir (Some chopDir) None).
Proof.
  unfold agnosticDir. rewrite !replace_chr_slice.
  repeat split.
  - now rewrite agnostic_same.
  - now rewrite agnostic_same.
  - apply agnostic_chars.
  - unfold len. now rewrite !replace_chr_length.
Qed.

(** ** The order option *)

Lemma existsb_Zeqb (i : Z) (l : list Z) : existsb (Z.eqb i) l = true <-> In i l.
Proof.
  rewrite existsb_exists. split.
  - intros (x & Hx & E). apply Z.eqb_eq in E. now subst.
  - intros H. exists i. split; [exact H|apply Z.eqb_refl].
Qed.

Lemma filter_unlisted_snoc (o : list Z) (i : Z) (l : list Z) :
  ~ In i l ->
  filter (unlisted (o ++ [i])) l = filter (unlisted o) l.
Proof.
  intros Hn. apply filter_ext_in. intros a Ha. unfold unlisted.
  rewrite existsb_app. cbn. rewrite orb_false_r.
  destruct (Z.eqb_spec a i) as [->|_]; [contradiction|].
  now rewrite orb_false_r.
Qed.

Lemma order_fill_spec :
  forall (idxs : list Z) (missing : Z) (o : list Z),
    NoDup idxs ->
    Z.of_nat (List.length (filter (unlisted o) idxs)) <= missing + 1 ->
    order_fill idxs missing o = (o ++ filter (unlisted o) idxs)%list.
Proof.
  induction idxs as [|i idxs IH]; intros missing o Hnd Hc.
  - cbn. now rewrite app_nil_r.
  - apply NoDup_cons_iff in Hnd as [Hi Hnd].
    cbn [order_fill filter] in *. unfold unlisted at 1 in Hc.
    unfold unlisted at 1.
    destruct (existsb (Z.eqb i) o) eqn:E; cbn [negb] in *.
    + destruct (Z.ltb_spec missing 0) as [Hm|Hm].
      * destruct (filter (unlisted o) idxs); [now rewrite app_nil_r|].
        cbn in Hc. lia.
      * now apply IH.
    + cbn [List.length] in Hc.
      destruct (Z.ltb_spec missing 0) as [Hm|Hm]; [lia|].
      rewrite IH; [|exact Hnd|].
      * rewrite (filter_unlisted_snoc o i idxs Hi).
        now rewrite <- app_assoc.
      * rewrite (filter_unlisted_snoc o i idxs Hi). lia.
Qed.

Lemma range_NoDup (n : nat) : NoDup (range n).
Proof.
  unfold range. apply Injective_map_NoDup; [|apply seq_NoDup].
  intros a b. lia.
Qed.

Lemma range_In (n : nat) (i : Z) : In i (range n) <-> 0 <= i < Z.of_nat n.
Proof.
  unfold range. rewrite in_map_iff. split.
  - intros (k & <- & Hk). apply in_seq in Hk. lia.
  - intros H. exists (Z.to_nat i). split; [lia|]. apply in_seq. lia.
Qed.

Lemma order_perm (o : list Z) (n : nat) :
  NoDup o -> Forall (fun i => 0 <= i < Z.of_nat n) o ->
  Permutation (o ++ filter (unlisted o) (range n)) (range n).
Proof.
  intros Hnd Hin. apply NoDup_Permutation.
  - apply NoDup_app; [exact Hnd|apply NoDup_filter, range_NoDup|].
    intros a Ha Hf. apply filter_In in Hf as [_ Hf].
    unfold unlisted in Hf. apply negb_true_iff in Hf.
    apply existsb_Zeqb in Ha. congruence.
  - apply range_NoDup.
  - intros a. rewrite in_app_iff, filter_In. split.
    + intros [Ha|[Ha _]]; [|exact Ha].
      rewrite Forall_forall in Hin. apply range_In. now apply Hin.
    + intros Ha. unfold unlisted.
      destruct (existsb (Z.eqb a) o) eqn:E; [left|right; auto].
      now apply existsb_Zeqb.
Qed.

Lemma map_res_py_nth {A : Type} (groups : list A) (d : A) :
  forall o : list Z,
    Forall (fun i => 0 <= i < Z.of_nat (List.length groups)) o ->
    map_res (py_nth groups) o
    = Ok (map (fun i => nth (Z.to_nat i) groups d) o).
Proof.
  induction o as [|i o IH]; intros H; [reflexivity|].
  apply Forall_cons_iff in H as [Hi Ho].
  cbn [map_res map]. rewrite (IH Ho).
  unfold py_nth.
  destruct (Z.ltb_spec i 0); [lia|].
  destruct (Z.ltb_spec i 0); [lia|]. cbn [orb].
  destruct (Z.leb_spec (Z.of_nat (List.length groups)) i); [lia|].
  unfold nth_res.
  rewrite (nth_error_nth' groups d) by lia. reflexivity.
Qed.

Lemma map_nth_range {A : Type} (groups : list A) (d : A) :
  map (fun i => nth (Z.to_nat i) groups d) (range (List.length groups))
  = groups.
Proof.
  unfold range. rewrite map_map.
  apply (nth_ext _ _ d d).
  - now rewrite length_map, length_seq.
  - intros k Hk. rewrite length_map, length_seq in Hk.
    rewrite (nth_indep _ d (nth (Z.to_nat (Z.of_nat 0)) groups d))
      by (now rewrite length_map, length_seq).
    rewrite (map_nth (fun x => nth (Z.to_nat (Z.of_nat x)) groups d)).
    rewrite seq_nth by exact Hk. now rewrite Nat2Z.id.
Qed.

(** X12. The order option is completed to a permutation: when the indices
    given are distinct and within the floaters of the filter, [prepOrder]
    keeps them in front, appends the missing indices in increasing order,
    and the floaters [native] then takes from a match are the groups of
    the match, rearranged, none lost and none twice. *)
Theorem prepOrder_completes (oOpt : list Z) (maxFloat : Z) :
  oOpt <> [] -> NoDup oOpt ->
  Forall (fun i => 0 <= i <= maxFloat) oOpt ->
  exists rest,
    prepOrder oOpt maxFloat = Some (oOpt ++ rest)%list
    /\ StronglySorted Z.lt rest
    /\ Permutation (oOpt ++ rest) (range (Z.to_nat (maxFloat + 1)))
    /\ forall groups : list string,
         Z.of_nat (List.length groups) = maxFloat + 1 ->
         exists floaters,
           map_res (py_nth groups) (oOpt ++ rest)%list = Ok floaters
           /\ Permutation floaters groups.
Proof.
  intros Hne Hnd Hin.
  set (n := Z.to_nat (maxFloat + 1)).
  assert (Hm : 0 <= maxFloat).
  { destruct oOpt as [|i o]; [contradiction|].
    apply Forall_cons_iff in Hin as [Hi _]. lia. }
  assert (Hin' : Forall (fun i => 0 <= i < Z.of_nat n) oOpt).
  { revert Hin. apply Forall_impl. intros a Ha. lia. }
  pose proof (order_perm oOpt n Hnd Hin') as Hperm.
  exists (filter (unlisted oOpt) (range n)).
  split; [|split; [|split]].
  - unfold prepOrder. destruct oOpt as [|i o] eqn:Eo; [contradiction|].
    rewrite <- Eo in *.
    assert (Hex : existsb (fun idx => maxFloat <? idx) oOpt = false).
    { apply not_true_is_false. intros H.
      apply existsb_exists in H as (x & Hx & Hlt).
      rewrite Forall_forall in Hin. specialize (Hin x Hx). lia. }
    rewrite Hex. f_equal. apply order_fill_spec; [apply range_NoDup|].
    apply Permutation_length in Hperm.
    rewrite length_app in Hperm. unfold range in Hperm at 2.
    rewrite length_map, length_seq in Hperm. fold n. lia.
  - unfold range. clear.
    assert (H : forall a k, StronglySorted Z.lt
              (filter (unlisted oOpt) (map Z.of_nat (seq a k)))).
    { intros a k. revert a. induction k as [|k IH]; intros a;
        [constructor|].
      cbn [seq map filter].
      destruct (unlisted oOpt (Z.of_nat a)); [|apply IH].
      constructor; [apply IH|].
      apply Forall_forall. intros x Hx. apply filter_In in Hx as [Hx _].
      apply in_map_iff in Hx as (j & <- & Hj). apply in_seq in Hj. lia. }
    apply H.
  - exact Hperm.
  - intros groups Hlen.
    assert (Hn : n = List.length groups) by lia.
    eexists. split.
    + apply (map_res_py_nth groups "").
      apply Forall_forall. intros i Hi.
      apply (Permutation_in _ Hperm) in Hi. apply range_In in Hi. lia.
    + pose proof (Permutation_map
                    (fun i => nth (Z.to_nat i) groups "") Hperm) as E.
      rewrite Hn in E at 2. rewrite map_nth_range in E. exact E.
Qed.

Lemma prepOrder_completes_witness :
  exists rest,
    prepOrder [2] 2 = Some ([2] ++ rest)%list
    /\ StronglySorted Z.lt rest
    /\ Permutation ([2] ++ rest) (range (Z.to_nat (2 + 1)))
    /\ forall groups : list string,
         Z.of_nat (List.length groups) = 2 + 1 ->
         exists floaters,
           map_res (py_nth groups) ([2] ++ rest)%list = Ok floaters
           /\ Permutation floaters groups.
Proof.
  apply (prepOrder_completes [2] 2).
  - discriminate.
  - repeat constructor. intros [].
  - repeat constructor; lia.
Defined.

(** ** Floaters of a match *)

Lemma push_char_length (d : ascii) (r : option (list string)) (gs : list string) :
  push_char d r = Some gs ->
  exists gs', r = Some gs' /\ List.length gs = List.length gs'.
Proof.
  destruct r as [[|g gs']|]; cbn; try discriminate.
  intros [= <-]. eauto.
Qed.

Lemma lazy_group_length (k : string -> option (list string)) (n : nat) :
  (forall s gs, k s = Some gs -> List.length gs = n) ->
  forall s gs, lazy_group k s = Some gs -> List.length gs = S n.
Proof.
  intros Hk. induction s as [|d s IH]; intros gs H; cbn [lazy_group] in H.
  - destruct (k "") eqn:E; [|discriminate]. injection H as <-.
    cbn. f_equal. eauto.
  - destruct (k (String d s)) eqn:E.
    + injection H as <-. cbn. f_equal. eauto.
    + destruct (not_nl d); [|discriminate].
      apply push_char_length in H as (gs' & H & ->). eauto.
Qed.

Lemma greedy_nodot_length (k : string -> option (list string)) (n : nat) :
  (forall s gs, k s = Some gs -> List.length gs = n) ->
  forall s gs, greedy_nodot k s = Some gs -> List.length gs = S n.
Proof.
  intros Hk.
  assert (Hopen : forall s gs, open_group (k s) = Some gs ->
                               List.length gs = S n).
  { intros s gs H. unfold open_group in H.
    destruct (k s) eqn:E; [|discriminate]. injection H as <-.
    cbn. f_equal. eauto. }
  induction s as [|d s IH]; intros gs H; cbn [greedy_nodot] in H.
  - eauto.
  - destruct (not_dot d); [|eauto].
    destruct (push_char d (greedy_nodot k s)) eqn:E.
    + injection H as <-.
      apply push_char_length in E as (gs' & E & ->). eauto.
    + eauto.
Qed.

Lemma match_atoms_groups (ic : bool) (p : list atom) :
  forall s gs, match_atoms ic p s = Some gs ->
    List.length gs = List.length (filter is_group p).
Proof.
  induction p as [|a p IH]; intros s gs H.
  - cbn in H. destruct (at_end s); [|discriminate]. now injection H as <-.
  - destruct a; cbn [match_atoms filter is_group] in *.
    + destruct s as [|d s]; [discriminate|].
      destruct (chr_eq ic c d); [eauto|discriminate].
    + destruct s as [|d s]; [discriminate|].
      destruct (not_nl d); [|discriminate].
      destruct (match_atoms ic p s) eqn:E; [|discriminate].
      injection H as <-. cbn. f_equal. eauto.
    + cbn [List.length]. eapply lazy_group_length; eauto.
    + cbn [List.length]. eapply greedy_nodot_length; eauto.
Qed.

Lemma count_groups_toks (toks : list ftok) :
  List.length (filter is_group (map atom_of_tok toks)) = count_floaters toks.
Proof.
  unfold count_floaters.
  induction toks as [|t toks IH]; [reflexivity|].
  destruct t; cbn; now rewrite IH.
Qed.

Lemma count_floaters_app (a b : list ftok) :
  count_floaters (a ++ b) = (count_floaters a + count_floaters b)%nat.
Proof. unfold count_floaters. now rewrite filter_app, length_app. Qed.

Lemma filter_loop_count (g : string) :
  forall (acc : string) (mf : Z),
    snd (filter_loop g acc mf)
    = mf + Z.of_nat (count_floaters (stated_tokens g)).
Proof.
  induction g as [|c g IH]; intros acc mf;
    cbn [filter_loop stated_tokens].
  - cbn. lia.
  - unfold tok_of.
    destruct (Ascii.eqb_spec c ".") as [->|Hdot].
    + rewrite IH. cbn. reflexivity.
    + destruct (Ascii.eqb c "*");
        [rewrite IH; unfold count_floaters; cbn [filter is_floater List.length]; lia|].
      destruct (Ascii.eqb c "?");
        [rewrite IH; unfold count_floaters; cbn [filter is_floater List.length]; lia|].
      rewrite IH. reflexivity.
Qed.

(** [maxFloat] is the number of floaters of the pattern, less one. *)
Lemma compileFilter_maxFloat (f : string) (F : Filter) :
  f <> "" -> compileFilter f = Ok F ->
  maxFloat F = Z.of_nat (count_floaters (amended_tokens f)) - 1.
Proof.
  intros Hf. unfold compileFilter.
  assert (Hnot : (forall g', f <> g' ++ "*.") ->
                 String.eqb (slice f (Some (-2)) None) "*." = false).
  { intros Hno. destruct (String.eqb_spec (slice f (Some (-2)) None) "*.")
      as [E|]; [|reflexivity].
    exfalso. apply (Hno (slice f None (Some (-2)))).
    rewrite <- E at 1.
    symmetry. apply (slice_split f 2). lia. }
  destruct (filter_end_cases f Hf)
    as [(g & -> & Ht)|[(g & Hg & Hno & Ht)|(c & Hc & Hne & Ht)]].
  - pose proof (slice_neg_suffix g "*." ltac:(discriminate)) as E1.
    pose proof (slice_peel g "*." ltac:(discriminate)) as E2.
    change (- len "*.") with (-2) in E1, E2. rewrite E1, E2.
    change ("*." =? "*.")%string with true. cbv iota.
    pose proof (filter_loop_count g "" 0) as Hr.
    destruct (filter_loop g "" 0) as [re mf].
    change (snd (re, mf)) with mf in Hr.
    intros [= <-]. cbn [maxFloat]. rewrite Hr. rewrite Ht, count_floaters_app.
    change (count_floaters [FRootTail]) with 1%nat. lia.
  - rewrite (Hnot Hno).
    assert (Hl : last_char f = Some "."%char)
      by (rewrite Hg; apply last_char_snoc).
    assert (Hs : slice f None (Some (-1)) = g)
      by (rewrite Hg; exact (slice_peel g "." ltac:(discriminate))).
    rewrite Hl. change (Ascii.eqb "." ".") with true. cbv iota.
    rewrite Hs.
    pose proof (filter_loop_count g "" (-1)) as Hr.
    destruct (filter_loop g "" (-1)) as [re mf].
    change (snd (re, mf)) with mf in Hr.
    intros [= <-]. cbn [maxFloat]. rewrite Hr. rewrite Ht. lia.
  - rewrite Hnot.
    + rewrite Hc. apply Ascii.eqb_neq in Hne. rewrite Hne.
      pose proof (filter_loop_count f "" (-1)) as Hr.
      destruct (filter_loop f "" (-1)) as [re mf].
      change (snd (re, mf)) with mf in Hr.
      intros [= <-]. cbn [maxFloat]. rewrite Hr. rewrite Ht. lia.
    + intros g' E. rewrite E, last_char_dot_suffix in Hc.
      injection Hc as <-. contradiction.
Qed.

(** What [prepNative] makes of a plain filter. *)
Lemma prepNative_plain (filArg aRep : string) (ic : bool) (order : list Z) :
  filArg <> "" -> plain_filter filArg = true ->
  prepNative filArg aRep ic order
  = Ok (Some (mkNative
                (mkPattern (map atom_of_tok (amended_tokens filArg)) ic)
                (starts_with "*." filArg)
                (Z.of_nat (count_floaters (amended_tokens filArg)) - 1)
                (split_rep aRep "")
                (last_consumer (split_rep aRep "") 0 None) order)).
Proof.
  intros Hf Hp.
  destruct (compileFilter_spec filArg Hf) as [mf Hc].
  pose proof (compileFilter_maxFloat filArg _ Hf Hc) as Hm.
  cbn [maxFloat] in Hm. subst mf.
  unfold prepNative. rewrite Hc. cbn [bind filRe noDotName maxFloat].
  now rewrite (re_compile_toks _ ic (amended_tokens_plain filArg Hf Hp)).
Qed.

(** X13. A match of a compiled filter has one floater for each [*] and
    [?] of the filter, so that [maxFloat] is the index of the last. *)
Theorem floaters_of_a_match (filArg aRep : string) (ic : bool)
  (order : list Z) (name : string) :
  filArg <> "" -> plain_filter filArg = true ->
  exists cfg,
    prepNative filArg aRep ic order = Ok (Some cfg)
    /\ nMaxFloat cfg + 1
       = Z.of_nat (count_floaters (amended_tokens filArg))
    /\ forall groups, re_match (filter_ cfg) name = Some groups ->
         Z.of_nat (List.length groups) = nMaxFloat cfg + 1.
Proof.
  intros Hf Hp. eexists. split; [apply (prepNative_plain _ _ _ _ Hf Hp)|].
  cbn [nMaxFloat filter_]. split; [lia|].
  intros groups H. unfold re_match in H. cbn [atoms ignorecase] in H.
  apply match_atoms_groups in H. rewrite count_groups_toks in H. lia.
Qed.

Lemma floaters_of_a_match_witness :
  exists cfg,
    prepNative "my?_*." "x" true [] = Ok (Some cfg)
    /\ nMaxFloat cfg + 1
       = Z.of_nat (count_floaters (amended_tokens "my?_*."))
    /\ forall groups, re_match (filter_ cfg) "my1_cat" = Some groups ->
         Z.of_nat (List.length groups) = nMaxFloat cfg + 1.
Proof.
  exact (floaters_of_a_match "my?_*." "x" true [] "my1_cat"
           ltac:(discriminate) eq_refl).
Defined.

(** ** Replacements without rules *)

Lemma split_rep_plain (aRep : string) :
  all_chars no_rule_chr aRep = true ->
  forall lit,
    match lit with
    | EmptyString => True
    | String d _ => is_var d = false
    end ->
    Forall plain_token (split_rep aRep lit).
Proof.
  induction aRep as [|c rest IH]; intros Hn lit Hlit.
  - cbn [split_rep]. destruct lit as [|d l]; cbn; constructor; [|constructor].
    left. exact (literal_not_var d l Hlit).
  - cbn in Hn. apply andb_prop in Hn as [Hc Hn].
    cbn [split_rep]. fold (is_var c). destruct (is_var c) eqn:Ev.
    + assert (Hv : Forall plain_token (String c "" :: split_rep rest "")).
      { constructor; [|now apply IH].
        unfold no_rule_chr in Hc.
        destruct (is_var_cases c Ev) as [-> | [-> | [-> | ->]]];
          try discriminate Hc; [now right; right|now right; left]. }
      destruct lit as [|d l]; cbn; [exact Hv|].
      constructor; [|exact Hv]. left. exact (literal_not_var d l Hlit).
    + apply IH; [exact Hn|].
      destruct lit as [|d l]; cbn; [exact Ev | exact Hlit].
Qed.

Lemma last_consumer_some (reps : list string) :
  forall i cur,
    (cur <> None \/ Exists (fun t => str_in t consumers = true) reps) ->
    exists m, last_consumer reps i cur = Some m.
Proof.
  induction reps as [|v reps IH]; intros i cur H.
  - cbn. destruct H as [H|H]; [|inversion H].
    destruct cur; [eauto|contradiction].
  - cbn [last_consumer]. apply IH.
    destruct (str_in v consumers) eqn:E; [left; discriminate|].
    destruct H as [H|H]; [now left|].
    inversion H; subst; [congruence|now right].
Qed.

Lemma py_nth_in_range {A : Type} (l : list A) (i : Z) :
  0 <= i < Z.of_nat (List.length l) -> exists a, py_nth l i = Ok a.
Proof.
  intros Hi. unfold py_nth.
  destruct (Z.ltb_spec i 0); [lia|].
  destruct (Z.ltb_spec i 0); [lia|]. cbn [orb].
  destruct (Z.leb_spec (Z.of_nat (List.length l)) i); [lia|].
  unfold nth_res.
  destruct (nth_error l (Z.to_nat i)) eqn:E; [eauto|].
  apply nth_error_None in E. lia.
Qed.

Lemma native_step_plain (cfg : Native) (floaters : list string)
  (idx : nat) (rep : string) (st : NState) :
  plain_token rep ->
  (str_in rep consumers = true -> exists m, maxConsumer cfg = Some m) ->
  Z.of_nat (List.length floaters) = nMaxFloat cfg + 1 ->
  0 <= floatIdx st ->
  exists st', native_step cfg floaters idx rep st = Ok st'
              /\ 0 <= floatIdx st'
              /\ rules st' = rules st
              /\ dispatched st' = dispatched st.
Proof.
  intros Hp Hmc Hlen Hf. unfold native_step.
  destruct Hp as [Hl | [-> | ->]].
  - rewrite Hl. cbn [negb]. eexists. repeat split; auto.
  - change (str_in rvCopy rvars) with true.
    change (str_in rvCopy consumers) with true. cbn [negb].
    destruct (Z.ltb_spec (nMaxFloat cfg) (floatIdx st));
      [eexists; repeat split; auto|].
    destruct (Hmc eq_refl) as [m ->]. cbn [bind].
    destruct (Nat.eqb idx m && (floatIdx st <? nMaxFloat cfg)).
    + cbn [bind]. change (String.eqb rvCopy rvCopy) with true.
      eexists. split; [reflexivity|]. cbn. repeat split; auto. lia.
    + destruct (py_nth_in_range floaters (floatIdx st) ltac:(lia)) as [a ->].
      cbn [bind]. change (String.eqb rvCopy rvCopy) with true.
      eexists. split; [reflexivity|]. cbn. repeat split; auto. lia.
  - change (str_in rvSkip rvars) with true.
    change (str_in rvSkip consumers) with true. cbn [negb].
    destruct (Z.ltb_spec (nMaxFloat cfg) (floatIdx st));
      [eexists; repeat split; auto|].
    destruct (Hmc eq_refl) as [m ->]. cbn [bind].
    destruct (Nat.eqb idx m && (floatIdx st <? nMaxFloat cfg)).
    + cbn [bind]. change (String.eqb rvSkip rvCopy) with false.
      change (String.eqb rvSkip rvSkip) with true. cbn [orb].
      eexists. split; [reflexivity|]. cbn. repeat split; auto. lia.
    + destruct (py_nth_in_range floaters (floatIdx st) ltac:(lia)) as [a ->].
      cbn [bind]. change (String.eqb rvSkip rvCopy) with false.
      change (String.eqb rvSkip rvSkip) with true. cbn [orb].
      eexists. split; [reflexivity|]. cbn. repeat split; auto. lia.
Qed.

Lemma native_loop_plain (cfg : Native) (floaters : list string) :
  Z.of_nat (List.length floaters) = nMaxFloat cfg + 1 ->
  forall (reps : list string) (idx : nat) (st : NState),
    Forall plain_token reps ->
    (Exists (fun t => str_in t consumers = true) reps ->
     exists m, maxConsumer cfg = Some m) ->
    0 <= floatIdx st ->
    exists st', native_loop cfg floaters idx reps st = Ok st'
                /\ rules st' = rules st
                /\ dispatched st' = dispatched st.
Proof.
  intros Hlen. induction reps as [|rep reps IH]; intros idx st Hp Hmc Hf.
  - cbn. eauto.
  - apply Forall_cons_iff in Hp as [Hrep Hp]. cbn [native_loop].
    destruct (native_step_plain cfg floaters idx rep st Hrep
                ltac:(intros H; apply Hmc; now left) Hlen Hf)
      as (st1 & -> & Hf1 & Hr1 & Hd1).
    cbn [bind].
    destruct (IH (S idx) st1 Hp ltac:(intros H; apply Hmc; now right) Hf1)
      as (st' & -> & Hr & Hd).
    eexists. split; [reflexivity|]. split; congruence.
Qed.

(** X14. A replacement that uses no rule never makes [native] raise: for
    a filter of literals, [*] and [?], a replacement without [?] and [:]
    and any non-empty name, [native] returns a name (the empty one for a
    name the filter rejects) and leaves the rules as they are. *)
Theorem native_total_without_rules (filArg aRep : string) (ic : bool)
  (rules0 : list rule) (name : string) :
  filArg <> "" -> plain_filter filArg = true ->
  all_chars no_rule_chr aRep = true ->
  name <> "" ->
  exists cfg,
    prepNative filArg aRep ic [] = Ok (Some cfg)
    /\ exists n, native cfg rules0 name = Ok (n, rules0).
Proof.
  intros Hf Hp Hrep Hname.
  eexists.
  split; [apply (prepNative_plain _ _ _ _ Hf Hp)|].
  unfold native, native_run, re_match.
  cbn [filter_ atoms ignorecase nNoDotName oOpt lrep].
  destruct (match_atoms ic (map atom_of_tok (amended_tokens filArg)) name)
    as [groups|] eqn:Em.
  2:{ cbn. eauto. }
  assert (Hdot : exists d : bool,
            (if starts_with "*." filArg
             then c <- char_at name 0 ;; Ok (Ascii.eqb c ".")
             else Ok false) = Ok d).
  { destruct (starts_with "*." filArg); [|eauto].
    destruct name as [|c name']; [contradiction|]. cbn. eauto. }
  destruct Hdot as [d ->]. cbn [bind].
  destruct d; [cbn; eauto|].
  apply match_atoms_groups in Em. rewrite count_groups_toks in Em.
  match goal with
  | |- context [native_loop ?cfg ?fl ?i ?reps ?st] =>
      destruct (native_loop_plain cfg fl ltac:(cbn [nMaxFloat]; lia)
                  reps i st) as (st' & -> & Hr & _)
  end.
  - apply split_rep_plain; [exact Hrep|exact I].
  - intros H. cbn [maxConsumer]. apply last_consumer_some. now right.
  - cbn. lia.
  - cbn [bind]. cbn in Hr. rewrite Hr. eauto.
Qed.

Lemma native_total_without_rules_witness :
  exists cfg,
    prepNative "08*-0*" "/hap*" true [] = Ok (Some cfg)
    /\ exists n, native cfg [] "08493357-001.tif" = Ok (n, []).
Proof.
  exact (native_total_without_rules "08*-0*" "/hap*" true []
           "08493357-001.tif" ltac:(discriminate) eq_refl eq_refl
           ltac:(discriminate)).
Defined.

(** ** Renaming by prefix and by extension *)

Lemma lit_chr_tok (c : ascii) : lit_chr c = true -> tok_of c = FLit c.
Proof.
  unfold lit_chr, tok_of.
  destruct (Ascii.eqb_spec c "*") as [->|_]; [discriminate|].
  destruct (Ascii.eqb_spec c "?") as [->|_]; [discriminate|reflexivity].
Qed.

Lemma lit_chr_plain (c : ascii) : lit_chr c = true -> plain_chr c = true.
Proof.
  unfold lit_chr, plain_chr, is_dot. intros H.
  apply orb_prop in H as [->| ->]; [reflexivity|apply orb_true_r].
Qed.

Lemma stated_tokens_app (a b : string) :
  stated_tokens (a ++ b) = (stated_tokens a ++ stated_tokens b)%list.
Proof. induction a as [|c a IH]; cbn; [reflexivity|now rewrite IH]. Qed.

Lemma stated_tokens_lits (p : string) :
  all_chars lit_chr p = true -> stated_tokens p = lits p.
Proof.
  induction p as [|c p IH]; [reflexivity|].
  cbn. intros H. apply andb_prop in H as [Hc Hp].
  now rewrite (lit_chr_tok c Hc), (IH Hp).
Qed.

Lemma amended_no_dot_end (f : string) (c : ascii) :
  last_char f = Some c -> c <> "."%char ->
  amended_tokens f = stated_tokens f.
Proof.
  intros Hl Hc.
  assert (Hf : f <> "") by (intros ->; discriminate Hl).
  destruct (filter_end_cases f Hf)
    as [(g & -> & _)|[(g & -> & _)|(_ & _ & _ & Ht)]].
  - rewrite (last_char_app g "*." ltac:(discriminate)) in Hl.
    injection Hl as <-. contradiction.
  - rewrite last_char_snoc in Hl. injection Hl as <-. contradiction.
  - exact Ht.
Qed.

Lemma count_floaters_lits (p : string) : count_floaters (lits p) = 0%nat.
Proof. unfold count_floaters. induction p as [|c p IH]; [reflexivity|exact IH]. Qed.

Lemma chr_eq_refl (ic : bool) (c : ascii) : chr_eq ic c c = true.
Proof. unfold chr_eq. destruct ic; apply Ascii.eqb_refl. Qed.

Lemma lits_eq_refl (ic : bool) (p : string) : lits_eq ic p p = true.
Proof.
  induction p as [|c p IH]; [reflexivity|].
  cbn. now rewrite chr_eq_refl, IH.
Qed.

Lemma map_atom_lits_app (p : string) (toks : list ftok) :
  map atom_of_tok (lits p ++ toks)
  = (map atom_of_tok (lits p) ++ map atom_of_tok toks)%list.
Proof. apply map_app. Qed.

Lemma match_lits (ic : bool) (rest : list atom) :
  forall p p' s,
    lits_eq ic p p' = true ->
    match_atoms ic (map atom_of_tok (lits p) ++ rest) (p' ++ s)
    = match_atoms ic rest s.
Proof.
  induction p as [|c p IH]; intros [|d p'] s H; try discriminate H.
  - reflexivity.
  - cbn in H. apply andb_prop in H as [Hc Hp].
    cbn [lits map atom_of_tok app append match_atoms].
    rewrite Hc. now apply IH.
Qed.

Lemma lazy_to_end (ic : bool) (rest : string) :
  no_nl rest -> lazy_group (match_atoms ic []) rest = Some [rest].
Proof.
  set (k := match_atoms ic []).
  induction rest as [|d r IH]; intros Hnl; [reflexivity|].
  unfold no_nl in Hnl. cbn in Hnl. apply andb_prop in Hnl as [Hd Hr].
  assert (E : k (String d r) = None).
  { unfold k. cbn [match_atoms]. unfold at_end.
    destruct (String.eqb_spec (String d r) "") as [E|_]; [discriminate E|].
    destruct (String.eqb_spec (String d r) (String newline "")) as [E|_];
      [|reflexivity].
    injection E as -> ->. discriminate Hd. }
  cbn [lazy_group]. rewrite E, Hd, (IH Hr). reflexivity.
Qed.

Lemma split_rep_literal (q : string) :
  all_chars (fun c => negb (is_var c)) q = true ->
  forall s lit, split_rep (q ++ s) lit = split_rep s (lit ++ q).
Proof.
  induction q as [|c q IH]; intros Hq s lit.
  - cbn. now rewrite app_empty_r.
  - cbn [all_chars] in Hq. apply andb_prop in Hq as [Hc Hq].
    apply negb_true_iff in Hc.
    cbn [append split_rep]. fold (is_var c). rewrite Hc.
    rewrite (IH Hq). now rewrite app_assoc_str.
Qed.

Lemma literal_token (q : string) :
  q <> "" -> all_chars (fun c => negb (is_var c)) q = true ->
  str_in q rvars = false.
Proof.
  intros Hne Hq. destruct q as [|c q]; [contradiction|].
  cbn [all_chars] in Hq. apply andb_prop in Hq as [Hc _].
  apply negb_true_iff in Hc. now apply literal_not_var.
Qed.

(** X15. Renaming by prefix.  With the filter [p*] and the replacement
    [q*], where [p] holds no character special to the filter and [q] no
    replacement variable, every name that begins with [p], up to case
    when the filter ignores case, is renamed to [q] followed by the rest
    of the name; no rule is touched. *)
Theorem native_prefix_replace (p q p' rest : string) (ic : bool)
  (rules0 : list rule) :
  all_chars lit_chr p = true ->
  all_chars (fun c => negb (is_var c)) q = true ->
  lits_eq ic p p' = true ->
  no_nl rest ->
  exists cfg,
    prepNative (p ++ "*") (q ++ "*") ic [] = Ok (Some cfg)
    /\ native cfg rules0 (p' ++ rest) = Ok (q ++ rest, rules0).
Proof.
  intros Hp Hq He Hnl.
  assert (Hf : p ++ "*" <> "") by (apply app_nonempty_r; discriminate).
  assert (Hpl : plain_filter (p ++ "*") = true).
  { unfold plain_filter. rewrite all_chars_app.
    rewrite (all_chars_impl lit_chr plain_chr p lit_chr_plain Hp).
    reflexivity. }
  assert (Ht : amended_tokens (p ++ "*") = (lits p ++ [FStar])%list).
  { rewrite (amended_no_dot_end (p ++ "*") "*"
               (last_char_snoc p "*") ltac:(discriminate)).
    now rewrite stated_tokens_app, (stated_tokens_lits p Hp). }
  assert (Hnd : starts_with "*." (p ++ "*") = false).
  { destruct p as [|c p]; [reflexivity|].
    cbn [all_chars] in Hp. cbn [append starts_with].
    apply andb_prop in Hp as [Hc _].
    destruct (Ascii.eqb_spec "*" c) as [<-|]; [discriminate Hc|reflexivity]. }
  eexists. split; [apply (prepNative_plain _ _ _ _ Hf Hpl)|].
  rewrite Ht, Hnd.
  unfold native, native_run, re_match.
  cbn [filter_ atoms ignorecase nNoDotName oOpt lrep nMaxFloat maxConsumer].
  rewrite map_atom_lits_app, (match_lits ic _ p p' rest He).
  change (match_atoms ic (map atom_of_tok [FStar]) rest)
    with (lazy_group (match_atoms ic []) rest).
  rewrite (lazy_to_end ic rest Hnl).
  rewrite count_floaters_app, count_floaters_lits.
  change (Z.of_nat (0 + count_floaters [FStar]) - 1) with 0.
  cbn [bind].
  rewrite (split_rep_literal q Hq "*" ""). cbn [append].
  destruct q as [|c q].
  - reflexivity.
  - assert (Hl : str_in (String c q) rvars = false)
      by (apply literal_token; [discriminate|exact Hq]).
    assert (Hs : split_rep "*" (String c q) = [String c q; "*"])
      by reflexivity.
    rewrite Hs.
    assert (Hm : last_consumer [String c q; "*"] 0 None = Some 1%nat)
      by reflexivity.
    rewrite Hm.
    cbn [native_loop]. unfold native_step at 1. rewrite Hl.
    cbn [negb bind]. reflexivity.
Qed.

Lemma native_prefix_replace_witness :
  exists cfg,
    prepNative ("IMG_" ++ "*") ("holiday-" ++ "*") true [] = Ok (Some cfg)
    /\ native cfg [] ("img_" ++ "0042.jpg") = Ok ("holiday-" ++ "0042.jpg", []).
Proof.
  exact (native_prefix_replace "IMG_" "holiday-" "img_" "0042.jpg" true []
           eq_refl eq_refl eq_refl eq_refl).
Defined.

Lemma match_lits_length (ic : bool) :
  forall (L s : string) gs,
    match_atoms ic (map atom_of_tok (lits L)) s = Some gs ->
    no_nl s -> String.length s = String.length L.
Proof.
  induction L as [|c L IH]; intros s gs H Hnl.
  - cbn in H. destruct (at_end s) eqn:E; [|discriminate].
    now rewrite (at_end_no_nl s Hnl E).
  - cbn [lits map atom_of_tok match_atoms] in H.
    destruct s as [|d s]; [discriminate|].
    destruct (chr_eq ic c d); [|discriminate].
    unfold no_nl in Hnl. cbn [all_chars] in Hnl.
    apply andb_prop in Hnl as [_ Hnl].
    cbn. f_equal. eapply IH; eauto.
Qed.

Lemma match_lits_self (ic : bool) (L : string) :
  match_atoms ic (map atom_of_tok (lits L)) L = Some [].
Proof.
  pose proof (match_lits ic [] L L "" (lits_eq_refl ic L)) as H.
  rewrite app_nil_r, app_empty_r in H. exact H.
Qed.

(** The lazy group before a literal tail takes all that precedes the
    tail. *)
Lemma lazy_literal_tail (ic : bool) (L : string) :
  no_nl L ->
  forall root, no_nl root ->
    lazy_group (match_atoms ic (map atom_of_tok (lits L))) (root ++ L)
    = Some [root].
Proof.
  intros HL. set (k := match_atoms ic (map atom_of_tok (lits L))).
  induction root as [|d r IH]; intros Hr.
  - cbn [append]. destruct L as [|c L'].
    + reflexivity.
    + cbn [lazy_group]. unfold k at 1. now rewrite match_lits_self.
  - unfold no_nl in Hr. cbn [all_chars] in Hr.
    apply andb_prop in Hr as [Hd Hr].
    assert (E : k (String d r ++ L) = None).
    { destruct (k (String d r ++ L)) as [gs|] eqn:E; [|reflexivity].
      exfalso. unfold k in E. apply match_lits_length in E.
      - rewrite str_length_app in E. cbn in E. lia.
      - unfold no_nl. rewrite all_chars_app. cbn [all_chars].
        now rewrite Hd, Hr, HL. }
    cbn [append lazy_group].
    change (String d (r ++ L)) with (String d r ++ L). rewrite E.
    cbn [append]. now rewrite Hd, (IH Hr).
Qed.

(** X16. Renaming by extension.  With the filter [*.e1] and the
    replacement [*.e2], a name that ends in [.e1] has that end replaced
    by [.e2], whatever precedes it, dots included; but a name that begins
    with a dot is left alone. *)
Theorem native_extension_replace (e1 e2 root : string) (c : ascii)
  (ic : bool) (rules0 : list rule) :
  all_chars lit_chr e1 = true -> no_nl e1 ->
  last_char e1 = Some c -> c <> "."%char ->
  all_chars (fun c => negb (is_var c)) e2 = true ->
  no_nl root ->
  exists cfg,
    prepNative ("*." ++ e1) ("*." ++ e2) ic [] = Ok (Some cfg)
    /\ native cfg rules0 (root ++ "." ++ e1)
       = Ok (match root with
             | EmptyString => ""
             | String d _ =>
                 if Ascii.eqb d "." then "" else root ++ "." ++ e2
             end, rules0).
Proof.
  intros He1 Hnl1 Hl Hc He2 Hroot.
  assert (He1ne : e1 <> "") by (intros ->; discriminate Hl).
  assert (Hf : "*." ++ e1 <> "") by discriminate.
  assert (Hpl : plain_filter ("*." ++ e1) = true).
  { unfold plain_filter. cbn [append all_chars].
    rewrite (all_chars_impl lit_chr plain_chr e1 lit_chr_plain He1).
    reflexivity. }
  assert (Ht : amended_tokens ("*." ++ e1)
               = FStar :: lits ("." ++ e1)).
  { rewrite (amended_no_dot_end ("*." ++ e1) c).
    - cbn [append stated_tokens lits]. do 2 f_equal.
      now apply stated_tokens_lits.
    - now rewrite (last_char_app "*." e1 He1ne).
    - exact Hc. }
  eexists. split; [apply (prepNative_plain _ _ _ _ Hf Hpl)|].
  rewrite Ht.
  unfold native, native_run, re_match.
  cbn [filter_ atoms ignorecase nNoDotName oOpt lrep nMaxFloat maxConsumer].
  change (starts_with "*." ("*." ++ e1)) with true.
  change (match_atoms ic (map atom_of_tok (FStar :: lits ("." ++ e1))))
    with (lazy_group (match_atoms ic (map atom_of_tok (lits ("." ++ e1))))).
  rewrite (lazy_literal_tail ic ("." ++ e1) Hnl1 root Hroot).
  assert (Hcount : Z.of_nat (count_floaters (FStar :: lits ("." ++ e1))) - 1 = 0).
  { change (FStar :: lits ("." ++ e1)) with ([FStar] ++ lits ("." ++ e1))%list.
    rewrite count_floaters_app, count_floaters_lits. reflexivity. }
  rewrite Hcount.
  assert (Hs : split_rep ("*." ++ e2) "" = ["*"; "." ++ e2]).
  { change ("*." ++ e2) with (String "*" ("." ++ e2)).
    cbn [split_rep]. change (str_in "*" rvars) with true.
    cbn [String.eqb app]. f_equal.
    rewrite <- (app_empty_r ("." ++ e2)) at 1.
    rewrite split_rep_literal; [reflexivity|].
    cbn [append all_chars]. now rewrite He2. }
  rewrite Hs.
  assert (Hm : last_consumer ["*"; "." ++ e2] 0 None = Some 0%nat).
  { cbn [last_consumer]. change (str_in "*" consumers) with true.
    assert (Hlc : str_in ("." ++ e2) consumers = false).
    { clear. cbn [append]. generalize e2. clear. intros e2.
      cbn. destruct e2; reflexivity. }
    now rewrite Hlc. }
  rewrite Hm.
  assert (Hlit : str_in ("." ++ e2) rvars = false).
  { apply literal_token; [discriminate|].
    cbn [append all_chars]. now rewrite He2. }
  cbn [append] in Hlit.
  destruct root as [|d r].
  - cbn [append char_at String.get bind].
    change (Ascii.eqb "." ".") with true. reflexivity.
  - cbn [append char_at String.get bind].
    destruct (Ascii.eqb d "."); [reflexivity|].
    cbn [native_loop]. unfold native_step at 2. rewrite Hlit.
    cbn [negb bind]. reflexivity.
Qed.

Lemma native_extension_replace_witness :
  exists cfg,
    prepNative ("*." ++ "jpeg") ("*." ++ "jpg") true [] = Ok (Some cfg)
    /\ native cfg [] ("a.b" ++ "." ++ "jpeg")
       = Ok (if Ascii.eqb "a" "." then "" else "a.b" ++ "." ++ "jpg", []).
Proof.
  exact (native_extension_replace "jpeg" "jpg" "a.b" "g" true []
           eq_refl eq_refl eq_refl ltac:(discriminate) eq_refl eq_refl).
Defined.

(** ** The plan of a batch *)

Lemma subseq_refl {A : Type} (l : list A) : subseq l l.
Proof. induction l; [apply subseq_nil|now apply subseq_take]. Qed.

Lemma subseq_app_r {A : Type} (a b c : list A) :
  subseq a b -> subseq a (b ++ c).
Proof.
  intros H. induction H; cbn.
  - induction c; [apply subseq_nil|now apply subseq_skip].
  - now apply subseq_skip.
  - now apply subseq_take.
Qed.

Lemma subseq_snoc {A : Type} (a b : list A) (x : A) :
  subseq a b -> subseq (a ++ [x]) (b ++ [x]).
Proof.
  intros H. induction H; cbn.
  - apply subseq_take, subseq_nil.
  - now apply subseq_skip.
  - now apply subseq_take.
Qed.

Lemma subseq_In {A : Type} (a b : list A) (x : A) :
  subseq a b -> In x a -> In x b.
Proof.
  intros H. induction H; cbn; auto.
  intros [->|Hx]; auto.
Qed.

Lemma subseq_NoDup {A : Type} (a b : list A) :
  subseq a b -> NoDup b -> NoDup a.
Proof.
  intros H. induction H; intros Hb.
  - constructor.
  - apply NoDup_cons_iff in Hb as [_ Hb]. auto.
  - apply NoDup_cons_iff in Hb as [Hx Hb]. constructor; [|auto].
    intros Hin. apply Hx. eapply subseq_In; eauto.
Qed.

Lemma in_list_In (x : string) (l : list string) :
  in_list x l = true <-> In x l.
Proof.
  unfold in_list. rewrite existsb_exists. split.
  - intros (y & Hy & E). apply String.eqb_eq in E. now subst.
  - intros H. exists x. split; [exact H|apply String.eqb_refl].
Qed.

(** A name [avoid] returns, other than the empty one, is free. *)
Lemma avoid_free (ex : string -> bool) (ca : CA) (newList : list string)
  (name n : string) :
  avoid ex ca newList name = Ok n -> n <> "" -> free ex newList n = true.
Proof.
  unfold avoid, avoid_run.
  destruct (greedyext name) as [root ext].
  set (dec := negb (String.eqb (caPun ca) "")).
  set (root0 := if dec && (caPunPos ca =? 0) then caPun ca ++ root
                else if dec && (caPunPos ca =? 1) then root ++ caPun ca
                else root).
  set (pl := if dec && negb (caPunPos ca =? 0) && negb (caPunPos ca =? 1)
                && (caPunPos ca =? 2)
             then len (caPun ca) else 0).
  assert (Hpun : dec = true -> caPun ca <> EmptyString).
  { unfold dec. intros H E. rewrite E in H. discriminate. }
  assert (Hpl : pl = 0 \/ (pl = len (caPun ca) /\ caPun ca <> "")).
  { unfold pl. destruct dec; [|now left]. cbn [andb].
    match goal with
    | |- (if ?c then _ else _) = _ \/ _ => destruct c
    end; [right; auto | now left]. }
  destruct (avoid_loop_bounded ex ca newList pl Hpl ext
              100 0 root0 None [])
    as (pre & t & r & E & _ & _ & _ & Hres & _); [lia | lia |].
  unfold range. rewrite E. cbn [snd].
  intros Hr Hn. rewrite Hr in Hres.
  destruct Hres as [[Hf H]|[(_ & _ & H)|(_ & e & H)]].
  - injection H as ->. exact Hf.
  - injection H as ->. contradiction.
  - discriminate H.
Qed.

Lemma free_spec (ex : string -> bool) (newList : list string) (n : string) :
  free ex newList n = true <-> ~ In n newList /\ ex n = false.
Proof.
  unfold free. rewrite andb_true_iff, !negb_true_iff.
  split; intros [H1 H2]; split; auto.
  - intros Hin. apply in_list_In in Hin. congruence.
  - destruct (in_list n newList) eqn:E; [|reflexivity].
    apply in_list_In in E. contradiction.
Qed.

Lemma Forall2_snoc {A B : Type} (R : A -> B -> Prop) (l : list A)
  (l' : list B) (a : A) (b : B) :
  Forall2 R l l' -> R a b -> Forall2 R (l ++ [a]) (l' ++ [b]).
Proof.
  intros H Hab. apply Forall2_app; [exact H|]. now constructor.
Qed.

Lemma NoDup_snoc {A : Type} (l : list A) (a : A) :
  NoDup l -> ~ In a l -> NoDup (l ++ [a]).
Proof.
  intros Hl Ha. apply NoDup_app; [exact Hl|repeat constructor; auto|].
  intros x Hx [<-|[]]. contradiction.
Qed.

Lemma collide_plan (b : Batch) (fs : DirFS) (old newName : string)
  (st : PState) (p : pass) :
  newName <> "" -> newName <> old ->
  collide b fs old newName st = Ok p ->
  plan_step fs old st (pass_state p).
Proof.
  intros Hne Hold. unfold collide.
  assert (Hfin : forall m,
            ~ In m (pNewList st) ->
            (m <> "" -> safe_target fs old m) ->
            (if (m =? "")%string
             then Ok (if caStop (bCA b) then Return1 st else Next st)
             else Ok (Next (mkPState (oldList st ++ [old])
                              (pNewList st ++ [m]) (pRules st))))
            = Ok p -> plan_step fs old st (pass_state p)).
  { intros m Hm Hs. destruct (String.eqb_spec m "") as [->|Hmn];
      intros [= <-].
    - left. destruct (caStop (bCA b)); split; reflexivity.
    - right. exists m. cbn. repeat split; auto; now apply Hs. }
  assert (Havoid : forall m,
            avoid (os_exists fs) (bCA b) (pNewList st) newName = Ok m ->
            ~ In m (pNewList st) \/ m = "").
  { intros m Hm. destruct (String.eqb_spec m "") as [->|Hmn]; [now right|].
    left. pose proof (avoid_free _ _ _ _ _ Hm Hmn) as Hf.
    now apply free_spec in Hf as [Hf _]. }
  assert (Hsafe : forall m,
            avoid (os_exists fs) (bCA b) (pNewList st) newName = Ok m ->
            m <> "" -> safe_target fs old m).
  { intros m Hm Hmn. split; [exact Hmn|left].
    pose proof (avoid_free _ _ _ _ _ Hm Hmn) as Hf.
    now apply free_spec in Hf as [_ Hf]. }
  assert (Hvia : forall m,
            avoid (os_exists fs) (bCA b) (pNewList st) newName = Ok m ->
            (if (m =? "")%string
             then Ok (if caStop (bCA b) then Return1 st else Next st)
             else Ok (Next (mkPState (oldList st ++ [old])
                              (pNewList st ++ [m]) (pRules st))))
            = Ok p -> plan_step fs old st (pass_state p)).
  { intros m Hm. destruct (Havoid m Hm) as [Hin| ->].
    - apply Hfin; [exact Hin|now apply Hsafe].
    - intros [= <-]. left. destruct (caStop (bCA b)); split; reflexivity. }
  destruct (os_exists fs newName && negb (os_samefile fs old newName)) eqn:E.
  - destruct (caStop (bCA b) || caContinue (bCA b)).
    + intros [= <-]. left. destruct (caStop (bCA b)); split; reflexivity.
    + intros H. apply bind_Ok_inv in H as (m & Hm & H). eauto.
  - destruct (in_list newName (pNewList st)) eqn:El.
    + intros H. apply bind_Ok_inv in H as (m & Hm & H). eauto.
    + apply Hfin.
      * intros Hin. apply in_list_In in Hin. congruence.
      * intros _. split; [exact Hne|].
        apply andb_false_iff in E as [E|E]; [now left|].
        apply negb_false_iff in E. right. auto.
Qed.

Lemma procDir_pass_plan (fnmatch : string -> string -> bool) (b : Batch)
  (fs : DirFS) (old : string) (k : kind) (st : PState) (p : pass) :
  procDir_pass fnmatch b fs old k st = Ok p ->
  plan_step fs old st (pass_state p).
Proof.
  unfold procDir_pass.
  destruct (negb _); [intros [= <-]; left; split; reflexivity|].
  destruct (existsb _ _); [intros [= <-]; left; split; reflexivity|].
  intros H. apply bind_Ok_inv in H as ([n rs'] & Hn & H).
  destruct (String.eqb_spec n "") as [->|Hne];
    [injection H as <-; left; split; reflexivity|].
  destruct (String.eqb_spec n old) as [->|Hold];
    [injection H as <-; left; split; reflexivity|].
  apply (collide_plan b fs old n _ p Hne Hold) in H.
  exact H.
Qed.

Lemma plan_step_ok (fs : DirFS) (seen : list string) (old : string)
  (st st' : PState) :
  plan_ok fs seen st -> plan_step fs old st st' ->
  plan_ok fs (seen ++ [old]) st'.
Proof.
  intros (Hnd & Hf & Hs) [[Eo En]|(n & Eo & En & Hn & Hsafe)];
    unfold plan_ok; rewrite Eo, En.
  - repeat split; auto. now apply subseq_app_r.
  - repeat split.
    + now apply NoDup_snoc.
    + now apply Forall2_snoc.
    + now apply subseq_snoc.
Qed.

Lemma procDir_loop_plan (fnmatch : string -> string -> bool) (b : Batch)
  (fs : DirFS) :
  forall (dirlist : list (string * kind)) (seen : list string)
         (st st' : PState) (ret : Z),
    plan_ok fs seen st ->
    procDir_loop fnmatch b fs dirlist st = Ok (ret, st') ->
    plan_ok fs (seen ++ map fst dirlist) st'.
Proof.
  induction dirlist as [|[old k] rest IH]; intros seen st st' ret Hok; cbn.
  - intros [= _ <-]. now rewrite app_nil_r.
  - intros H. apply bind_Ok_inv in H as (p & Hp & H).
    apply procDir_pass_plan in Hp.
    pose proof (plan_step_ok fs seen old st _ Hok Hp) as Hok'.
    replace (seen ++ old :: map fst rest)%list
      with ((seen ++ [old]) ++ map fst rest)%list
      by now rewrite <- app_assoc.
    destruct p as [st1|st1].
    + eapply IH; eauto.
    + injection H as _ <-. destruct Hok' as (A & B & C).
      repeat split; auto. now apply subseq_app_r.
Qed.

Lemma procDir_plan_safe_parts (fnmatch : string -> string -> bool)
  (b : Batch) (fs : DirFS) (rules0 : list rule) (ret : Z) (ps : PState) :
  procDir fnmatch b fs rules0 = Ok (ret, ps) ->
  NoDup (pNewList ps)
  /\ Forall2 (safe_target fs) (oldList ps) (pNewList ps)
  /\ subseq (oldList ps) (map fst (listing fs)).
Proof.
  intros H. unfold procDir in H.
  apply (procDir_loop_plan fnmatch b fs (listing fs) []) in H.
  - exact H.
  - repeat split; cbn; constructor.
Qed.

(** X17. The plan of a batch is safe.  The new names [procDir] queues are
    all different, none is empty, and none is the name of an entry of
    the directory, unless that entry is the file being renamed under
    another spelling; the files to rename are entries of the directory,
    in the order of the listing, each at most once when the listing
    names no entry twice. *)
Theorem procDir_plan_safe (fnmatch : string -> string -> bool) (b : Batch)
  (fs : DirFS) (rules0 : list rule) (ret : Z) (ps : PState) :
  procDir fnmatch b fs rules0 = Ok (ret, ps) ->
  NoDup (pNewList ps)
  /\ Forall2 (safe_target fs) (oldList ps) (pNewList ps)
  /\ subseq (oldList ps) (map fst (listing fs))
  /\ (NoDup (map fst (listing fs)) -> NoDup (oldList ps)).
Proof.
  intros H. apply procDir_plan_safe_parts in H as (A & B & C).
  repeat split; auto. intros Hl. eapply subseq_NoDup; eauto.
Qed.

Lemma procDir_plan_safe_witness :
  exists ps,
    procDir (fun _ _ => false) (to_x false false) twelve_dir [] = Ok (0, ps)
    /\ NoDup (pNewList ps)
    /\ Forall2 (safe_target twelve_dir) (oldList ps) (pNewList ps).
Proof.
  eexists. split; [vm_compute; reflexivity|].
  refine (let H := procDir_plan_safe (fun _ _ => false) (to_x false false)
                     twelve_dir [] 0 _ _ in
          conj (proj1 H) (proj1 (proj2 H))).
  vm_compute. reflexivity.
Defined.

(** ** What a batch leaves alone *)

Lemma procDir_pass_eligible (fnmatch : string -> string -> bool) (b : Batch)
  (fs : DirFS) (old : string) (k : kind) (st : PState) (p : pass) :
  procDir_pass fnmatch b fs old k st = Ok p ->
  oldList (pass_state p) = oldList st
  \/ (oldList (pass_state p) = (oldList st ++ [old])%list
      /\ eligible fnmatch b old k = true).
Proof.
  intros H. pose proof (procDir_pass_plan _ _ _ _ _ _ _ H) as Hs.
  unfold procDir_pass in H. unfold eligible.
  destruct (negb _) eqn:Ew; [injection H as <-; now left|].
  destruct (existsb _ _) eqn:Ex; [injection H as <-; now left|].
  apply negb_false_iff in Ew. rewrite Ew. cbn [andb negb].
  destruct Hs as [[E _]|(n & E & _)]; [now left|right; auto].
Qed.

Lemma procDir_loop_eligible (fnmatch : string -> string -> bool) (b : Batch)
  (fs : DirFS) (P : string -> Prop) :
  forall (dirlist : list (string * kind)) (st st' : PState) (ret : Z),
    (forall old k, In (old, k) dirlist ->
                   eligible fnmatch b old k = true -> P old) ->
    Forall P (oldList st) ->
    procDir_loop fnmatch b fs dirlist st = Ok (ret, st') ->
    Forall P (oldList st').
Proof.
  induction dirlist as [|[old k] rest IH]; intros st st' ret HP Hst; cbn.
  - now intros [= _ <-].
  - intros H. apply bind_Ok_inv in H as (p & Hp & H).
    apply procDir_pass_eligible in Hp.
    assert (Hst1 : Forall P (oldList (pass_state p))).
    { destruct Hp as [->|[-> He]]; [exact Hst|].
      apply Forall_app. split; [exact Hst|].
      constructor; [|constructor]. apply (HP old k); [now left|exact He]. }
    destruct p as [st1|st1].
    + eapply IH; eauto. intros o k' Hin. apply HP. now right.
    + now injection H as _ <-.
Qed.

Lemma procDir_eligible_parts (fnmatch : string -> string -> bool)
  (b : Batch) (fs : DirFS) (rules0 : list rule) (ret : Z) (ps : PState) :
  procDir fnmatch b fs rules0 = Ok (ret, ps) ->
  Forall (fun old => exists k, In (old, k) (listing fs)
                               /\ eligible fnmatch b old k = true)
         (oldList ps).
Proof.
  intros H. unfold procDir in H.
  eapply procDir_loop_eligible; [| |exact H].
  - intros old k Hin He. eauto.
  - constructor.
Qed.

(** X18. A batch leaves alone what it is told to leave alone: every name
    [procDir] queues for renaming is an entry of the listing that is a
    file (unless only directories are asked for) or a directory (when
    directories are asked for), that is not one of the program's own
    files when it is a file, and that no exclusion pattern matches. *)
Theorem procDir_prefilter (fnmatch : string -> string -> bool) (b : Batch)
  (fs : DirFS) (rules0 : list rule) (ret : Z) (ps : PState) :
  procDir fnmatch b fs rules0 = Ok (ret, ps) ->
  Forall (fun old => exists k, In (old, k) (listing fs)
                               /\ eligible fnmatch b old k = true)
         (oldList ps).
Proof. exact (procDir_eligible_parts fnmatch b fs rules0 ret ps). Qed.

Lemma procDir_prefilter_witness :
  exists ps,
    procDir (fun _ _ => false) (to_x false false)
      (mkDirFS [("rene.py", Regular); ("f1", Regular); ("fdir", Directory)]
         (fun _ => false) String.eqb) [] = Ok (0, ps)
    /\ oldList ps = ["f1"]
    /\ Forall (fun old => exists k,
                 In (old, k) [("rene.py", Regular); ("f1", Regular);
                              ("fdir", Directory)]
                 /\ eligible (fun _ _ => false) (to_x false false) old k = true)
              (oldList ps).
Proof.
  eexists. split; [vm_compute; reflexivity|]. split; [reflexivity|].
  refine (procDir_prefilter (fun _ _ => false) (to_x false false)
            (mkDirFS [("rene.py", Regular); ("f1", Regular);
                      ("fdir", Directory)] (fun _ => false) String.eqb)
            [] 0 _ _).
  vm_compute. reflexivity.
Defined.

(** ** The disk *)

Lemma disk_exists_In (d : Disk) (n : string) :
  disk_exists d n = true <-> In n (names d).
Proof.
  unfold disk_exists, names. rewrite existsb_exists, in_map_iff.
  split; intros (e & H1 & H2).
  - exists e. unfold named in H2. apply String.eqb_eq in H2. auto.
  - exists e. split; [exact H2|]. unfold named. now apply String.eqb_eq.
Qed.

Lemma disk_exists_false (d : Disk) (n : string) :
  disk_exists d n = false <-> ~ In n (names d).
Proof.
  rewrite <- disk_exists_In. destruct (disk_exists d n); split; congruence.
Qed.

Lemma names_move (a b : string) (d : Disk) :
  names (move a b d)
  = map (fun x => if String.eqb x a then b else x) (names d).
Proof.
  unfold names, move. rewrite !map_map. apply map_ext.
  intros e. unfold named. destruct (String.eqb (ename e) a); reflexivity.
Qed.

Lemma names_write (d : Disk) (h : nat) (s : string) :
  names (disk_write d h s) = names d.
Proof.
  unfold names, disk_write. rewrite map_map. apply map_ext.
  intros e. destruct (Nat.eqb (ino e) h); reflexivity.
Qed.

Lemma disk_exists_write (d : Disk) (h : nat) (s n : string) :
  disk_exists (disk_write d h s) n = disk_exists d n.
Proof.
  destruct (disk_exists d n) eqn:E.
  - apply disk_exists_In. rewrite names_write. now apply disk_exists_In.
  - apply disk_exists_false. rewrite names_write.
    now apply disk_exists_false.
Qed.

Lemma move_write (a b : string) (d : Disk) (h : nat) (s : string) :
  move a b (disk_write d h s) = disk_write (move a b d) h s.
Proof.
  unfold move, disk_write. rewrite !map_map. apply map_ext.
  intros e. unfold named.
  destruct (Nat.eqb (ino e) h) eqn:E1; destruct (String.eqb (ename e) a) eqn:E2;
    cbn; rewrite ?E1, ?E2; reflexivity.
Qed.

Lemma write_write (d : Disk) (h : nat) (s t : string) :
  disk_write (disk_write d h s) h t = disk_write d h (s ++ t).
Proof.
  unfold disk_write. rewrite map_map. apply map_ext.
  intros e. destruct (Nat.eqb (ino e) h) eqn:E; cbn; rewrite E;
    [|reflexivity].
  unfold set_body. cbn. now rewrite app_assoc_str.
Qed.

Lemma renamed_write (acts : list (string * string)) :
  forall (d : Disk) (h : nat) (s : string),
    renamed acts (disk_write d h s) = disk_write (renamed acts d) h s.
Proof.
  induction acts as [|a acts IH]; intros d h s; [reflexivity|].
  cbn [renamed fold_left]. rewrite move_write. apply IH.
Qed.

Lemma In_move_other (a b w : string) (d : Disk) :
  w <> a -> (In w (names (move a b d)) <-> In w (names d) \/ (w = b /\ In a (names d))).
Proof.
  intros Hw. rewrite names_move, in_map_iff. split.
  - intros (x & E & Hx). destruct (String.eqb_spec x a) as [Hxa|Hne].
    + right. subst. auto.
    + left. now subst.
  - intros [H|[-> H]].
    + exists w. split; [|exact H].
      destruct (String.eqb_spec w a); [contradiction|reflexivity].
    + exists a. split; [|exact H]. now rewrite String.eqb_refl.
Qed.

Lemma not_In_move_src (a b : string) (d : Disk) :
  a <> b -> ~ In a (names (move a b d)).
Proof.
  intros Hab. rewrite names_move, in_map_iff.
  intros (x & E & Hx). destruct (String.eqb_spec x a); congruence.
Qed.

Lemma os_rename_fresh (clobber : Disk -> string -> string -> oserr + Disk)
  (d : Disk) (a b : string) :
  In a (names d) -> b <> "" -> ~ In b (names d) ->
  os_rename clobber d a b = inr (move a b d).
Proof.
  intros Ha Hb Hn. unfold os_rename.
  apply disk_exists_In in Ha. rewrite Ha. cbn [negb].
  destruct (String.eqb_spec b "") as [->|_]; [contradiction|].
  destruct (String.eqb_spec a b) as [->|_].
  - apply disk_exists_In in Ha. contradiction.
  - apply disk_exists_false in Hn. now rewrite Hn.
Qed.

Lemma plan_fits_tail (d : Disk) (o n : string) (acts : list (string * string)) :
  plan_fits d ((o, n) :: acts) ->
  In o (names d) /\ n <> "" /\ ~ In n (names d) /\ o <> n
  /\ ~ In o (map fst acts) /\ ~ In n (map snd acts)
  /\ ~ In n (map fst acts) /\ ~ In o (map snd acts)
  /\ plan_fits d acts /\ plan_fits (move o n d) acts.
Proof.
  intros (A & B & C & D). cbn [map fst snd] in *.
  apply NoDup_cons_iff in A as [A1 A2].
  apply Forall_cons_iff in B as [B1 B2].
  apply NoDup_cons_iff in C as [C1 C2].
  apply Forall_cons_iff in D as [[D0 D1] D2].
  assert (Hon : o <> n) by (intros ->; contradiction).
  assert (Hno : ~ In n (map fst acts)).
  { intros H. rewrite Forall_forall in B2. apply D1. now apply B2. }
  assert (Hos : ~ In o (map snd acts)).
  { intros H. rewrite Forall_forall in D2. now apply (D2 o H). }
  assert (Hfit : plan_fits d acts) by (repeat split; auto).
  assert (Hfit' : plan_fits (move o n d) acts).
  { split; [exact A2|]. split; [|split; [exact C2|]].
    - rewrite Forall_forall in *. intros x Hx.
      apply In_move_other; [intros ->; contradiction|]. left. auto.
    - rewrite Forall_forall in *. intros x Hx.
      split; [now apply D2|]. intros Hin.
      destruct (String.eqb_spec x o) as [Hxo|Hxo]; [subst; contradiction|].
      apply In_move_other in Hin; [|exact Hxo].
      destruct Hin as [Hin|[Hxn _]]; [|subst; contradiction].
      now apply (D2 x Hx). }
  do 9 (split; [assumption|]). exact Hfit'.
Qed.

(** The renames of a plan that fits are all made, none onto an existing
    entry, and the lines of the plan are written to the log. *)
Lemma commit_loop_fits (clobber : Disk -> string -> string -> oserr + Disk)
  (h : nat) :
  forall (acts : list (string * string)) (d : Disk),
    plan_fits d acts ->
    commit_loop clobber d h acts
    = Done (disk_write (renamed acts d) h (act_log acts)).
Proof.
  induction acts as [|[o n] acts IH]; intros d Hfit.
  - cbn. unfold disk_write. f_equal. rewrite <- (map_id d) at 1.
    apply map_ext. intros e. destruct (Nat.eqb (ino e) h); [|reflexivity].
    unfold set_body. rewrite app_empty_r. now destruct e.
  - destruct (plan_fits_tail d o n acts Hfit)
      as (Ho & Hn & Hnn & Hon & _ & _ & _ & _ & _ & Hfit').
    cbn [commit_loop fst snd].
    rewrite os_rename_fresh; [| now rewrite names_write | exact Hn
                              | now rewrite names_write].
    rewrite move_write, IH.
    + unfold act_log. cbn [map join renamed fold_left fst snd].
      now rewrite renamed_write, write_write.
    + destruct Hfit' as (A & B & C & D).
      repeat split; auto; rewrite Forall_forall in *; intros x Hx;
        rewrite names_write; auto.
Qed.

(** *** Reading the log *)

Lemma line_chr_inv (c : ascii) :
  line_chr c = true ->
  Ascii.eqb c ">" = false /\ Ascii.eqb c newline = false
  /\ Ascii.eqb c carriage_return = false.
Proof.
  unfold line_chr. intros H.
  apply andb_prop in H as [H H3]. apply andb_prop in H as [H1 H2].
  apply negb_true_iff in H1, H2, H3. auto.
Qed.

Lemma readlines_line (b : string) :
  all_chars (fun c => negb (Ascii.eqb c newline)
                      && negb (Ascii.eqb c carriage_return)) b = true ->
  forall rest cur,
    readlines (b ++ String newline rest) cur
    = (cur ++ b ++ String newline "") :: readlines rest "".
Proof.
  induction b as [|c b IH]; intros Hb rest cur.
  - cbn [append readlines]. now rewrite Ascii.eqb_refl.
  - cbn [all_chars] in Hb. apply andb_prop in Hb as [Hc Hb].
    apply andb_prop in Hc as [H2 H3]. apply negb_true_iff in H2, H3.
    cbn [append readlines]. rewrite H2, H3, (IH Hb).
    now rewrite app_assoc_str.
Qed.

Lemma all_chars_line (o n : string) :
  all_chars line_chr o = true -> all_chars line_chr n = true ->
  all_chars (fun c => negb (Ascii.eqb c newline)
                      && negb (Ascii.eqb c carriage_return))
            (o ++ ">" ++ n) = true.
Proof.
  intros Ho Hn. rewrite all_chars_app. cbn [append all_chars].
  assert (H : forall s, all_chars line_chr s = true ->
            all_chars (fun c => negb (Ascii.eqb c newline)
                                && negb (Ascii.eqb c carriage_return)) s
            = true).
  { intros s. apply all_chars_impl. intros c Hc.
    destruct (line_chr_inv c Hc) as (_ & -> & ->). reflexivity. }
  now rewrite (H o Ho), (H n Hn).
Qed.

Lemma readlines_log (acts : list (string * string)) :
  Forall (fun a => all_chars line_chr (fst a) = true
                   /\ all_chars line_chr (snd a) = true) acts ->
  readlines (act_log acts) "" = map act_line acts.
Proof.
  induction acts as [|[o n] acts IH]; intros H; [reflexivity|].
  apply Forall_cons_iff in H as [[Ho Hn] H]. cbn [fst snd] in *.
  unfold act_log. cbn [map join]. unfold act_line at 1. cbn [fst snd].
  replace ((o ++ ">" ++ n ++ String newline "") ++ join (map act_line acts))
    with ((o ++ ">" ++ n) ++ String newline (join (map act_line acts))).
  2:{ rewrite ?app_assoc_str. cbn [append]. now rewrite ?app_assoc_str. }
  rewrite readlines_line by now apply all_chars_line.
  f_equal.
  - unfold act_line. cbn [fst snd append]. now rewrite ?app_assoc_str.
  - now apply IH.
Qed.

Lemma str_rstrip_app (s t : string) :
  str_rstrip (s ++ t)
  = match str_rstrip t with
    | EmptyString => str_rstrip s
    | r => s ++ r
    end.
Proof.
  induction s as [|c s IH]; cbn [append str_rstrip].
  - destruct (str_rstrip t); reflexivity.
  - rewrite IH. destruct (str_rstrip t) eqn:E; [reflexivity|].
    destruct s; reflexivity.
Qed.

Lemma str_rstrip_keeps (n : string) (c : ascii) :
  last_char n = Some c -> py_isspace c = false -> str_rstrip n = n.
Proof.
  induction n as [|d n IH]; [discriminate|].
  intros Hl Hc. destruct n as [|e n'].
  - injection Hl as ->. cbn. now rewrite Hc.
  - change (last_char (String d (String e n')))
      with (last_char (String e n')) in Hl.
    pose proof (IH Hl Hc) as E.
    change (str_rstrip (String d (String e n')))
      with (match str_rstrip (String e n') with
            | EmptyString =>
                if py_isspace d then EmptyString else String d EmptyString
            | r => String d r
            end).
    rewrite E. reflexivity.
Qed.

(** A line of the log gives back the two names it was written from. *)
Lemma act_line_parsed (o n : string) :
  all_chars line_chr o = true -> new_in_line n ->
  split_on ">" (str_rstrip (act_line (o, n))) = [o; n].
Proof.
  intros Ho (Hn & c & Hl & Hc).
  assert (Hne : n <> "") by (intros ->; discriminate Hl).
  unfold act_line. cbn [fst snd].
  replace (o ++ ">" ++ n ++ String newline "")
    with ((o ++ ">" ++ n) ++ String newline "")
    by (now rewrite !app_assoc_str).
  rewrite (str_rstrip_app (o ++ ">" ++ n) (String newline "")).
  change (str_rstrip (String newline "")) with "". cbv iota.
  rewrite (str_rstrip_app o (">" ++ n)), (str_rstrip_app ">" n),
          (str_rstrip_keeps n c Hl Hc).
  destruct n as [|a n']; [contradiction|].
  cbn [append]. cbv iota.
  assert (Hfree : forall s, all_chars line_chr s = true -> free_of ">" s = true).
  { intros s. apply all_chars_impl. intros x Hx.
    destruct (line_chr_inv x Hx) as (-> & _). reflexivity. }
  rewrite (split_on_app ">" o _ (Hfree o Ho)).
  now rewrite (split_on_free ">" _ (Hfree _ Hn)).
Qed.

(** *** Undoing the renames *)

Lemma move_back (o n : string) (x : Disk) :
  ~ In n (names x) -> move n o (move o n x) = x.
Proof.
  intros Hn. unfold move. rewrite map_map.
  rewrite <- (map_id x) at 2. apply map_ext_in. intros e He.
  unfold named. destruct (String.eqb_spec (ename e) o) as [E|E].
  - cbn. rewrite String.eqb_refl. unfold set_name. cbn.
    rewrite <- E. now destruct e.
  - destruct (String.eqb_spec (ename e) n) as [E'|_]; [|reflexivity].
    exfalso. apply Hn. rewrite <- E'. unfold names. now apply in_map.
Qed.

Lemma move_comm (a b c e : string) (z : Disk) :
  a <> c -> a <> e -> b <> c ->
  move a b (move c e z) = move c e (move a b z).
Proof.
  intros Hac Hae Hbc. unfold move. rewrite !map_map. apply map_ext.
  intros x. unfold named.
  destruct (String.eqb_spec (ename x) c) as [E1|E1];
    destruct (String.eqb_spec (ename x) a) as [E2|E2]; cbn.
  - congruence.
  - destruct (String.eqb_spec e a); [congruence|].
    destruct (String.eqb_spec (ename x) c); [reflexivity|contradiction].
  - destruct (String.eqb_spec (ename x) a); [|contradiction].
    destruct (String.eqb_spec b c); [congruence|reflexivity].
  - destruct (String.eqb_spec (ename x) a); [contradiction|].
    destruct (String.eqb_spec (ename x) c); [contradiction|reflexivity].
Qed.

Lemma move_renamed (n o : string) (acts : list (string * string)) :
  ~ In n (map fst acts) -> ~ In n (map snd acts) -> ~ In o (map fst acts) ->
  forall z, move n o (renamed acts z) = renamed acts (move n o z).
Proof.
  induction acts as [|[o' n'] acts IH]; intros H1 H2 H3 z; [reflexivity|].
  cbn [map fst snd In] in *.
  cbn [renamed fold_left fst snd]. fold (renamed acts (move o' n' z)).
  fold (renamed acts (move o' n' (move n o z))).
  rewrite IH by tauto. f_equal.
  apply move_comm; intros ->; tauto.
Qed.

Lemma In_renamed_keep (w : string) (acts : list (string * string)) :
  ~ In w (map fst acts) ->
  forall z, In w (names z) -> In w (names (renamed acts z)).
Proof.
  induction acts as [|[o n] acts IH]; intros H z Hw; [exact Hw|].
  cbn [map fst In] in H. cbn [renamed fold_left fst snd].
  apply IH; [tauto|].
  apply In_move_other; [intros ->; tauto|]. now left.
Qed.

Lemma In_renamed_inv (w : string) (acts : list (string * string)) :
  forall z, In w (names (renamed acts z)) ->
            In w (names z) \/ In w (map snd acts).
Proof.
  induction acts as [|[o n] acts IH]; intros z Hw; [now left|].
  cbn [renamed fold_left fst snd] in Hw. cbn [map snd In].
  apply IH in Hw as [Hw|Hw]; [|tauto].
  rewrite names_move in Hw. apply in_map_iff in Hw as (x & E & Hx).
  destruct (String.eqb_spec x o); subst; tauto.
Qed.

Lemma undo_loop_restores (clobber : Disk -> string -> string -> oserr + Disk) :
  forall (acts : list (string * string)) (x : Disk),
    plan_fits x acts ->
    Forall (fun a => old_in_line (fst a) /\ new_in_line (snd a)) acts ->
    undo_loop clobber (renamed acts x) (map act_line acts) = Done x.
Proof.
  induction acts as [|[o n] acts IH]; intros x Hfit Hl; [reflexivity|].
  apply Forall_cons_iff in Hl as [[[Hone Ho] Hn] Hl]. cbn [fst snd] in *.
  destruct (plan_fits_tail x o n acts Hfit)
    as (Hox & Hnn & Hnx & Hon & Ho1 & Hn2 & Hn1 & Ho2 & Hfit0 & Hfit').
  cbn [map undo_loop]. rewrite (act_line_parsed o n Ho Hn).
  cbn [nth_error]. cbn [renamed fold_left fst snd].
  fold (renamed acts (move o n x)).
  assert (Hn_in : In n (names (renamed acts (move o n x)))).
  { apply In_renamed_keep; [exact Hn1|].
    apply In_move_other; [auto|]. right. auto. }
  assert (Ho_out : ~ In o (names (renamed acts (move o n x)))).
  { intros H. apply In_renamed_inv in H as [H|H]; [|contradiction].
    now apply (not_In_move_src o n x Hon). }
  apply disk_exists_In in Hn_in as En. rewrite En. cbn [negb].
  apply disk_exists_false in Ho_out as Eo. rewrite Eo.
  rewrite os_rename_fresh; [|exact Hn_in|exact Hone|exact Ho_out].
  rewrite move_renamed by assumption.
  rewrite (move_back o n x Hnx).
  now apply IH.
Qed.

(** *** The log file *)

Lemma find_move (a b n : string) (z : Disk) :
  n <> a -> n <> b -> disk_find (move a b z) n = disk_find z n.
Proof.
  intros Ha Hb. unfold disk_find, move.
  induction z as [|e z IH]; [reflexivity|].
  cbn [map find]. destruct (named a e) eqn:Ea.
  - assert (E1 : named n (set_name b e) = false).
    { unfold named, set_name. cbn.
      destruct (String.eqb_spec b n); [congruence|reflexivity]. }
    assert (E2 : named n e = false).
    { unfold named in *. apply String.eqb_eq in Ea.
      destruct (String.eqb_spec (ename e) n); [congruence|reflexivity]. }
    now rewrite E1, E2.
  - destruct (named n e); [reflexivity|exact IH].
Qed.

Lemma find_renamed (n : string) (acts : list (string * string)) :
  ~ In n (map fst acts) -> ~ In n (map snd acts) ->
  forall z, disk_find (renamed acts z) n = disk_find z n.
Proof.
  induction acts as [|[o' n'] acts IH]; intros H1 H2 z; [reflexivity|].
  cbn [map fst snd In] in *. cbn [renamed fold_left fst snd].
  fold (renamed acts (move o' n' z)).
  rewrite IH by tauto. apply find_move; intros ->; tauto.
Qed.

Lemma find_none_names (d : Disk) (n : string) :
  disk_find d n = None <-> ~ In n (names d).
Proof.
  unfold disk_find. rewrite <- disk_exists_false. unfold disk_exists.
  induction d as [|e d IH]; cbn; [tauto|].
  destruct (named n e); cbn; [split; discriminate|exact IH].
Qed.

Lemma find_some_named (d : Disk) (n : string) (e : entry) :
  disk_find d n = Some e -> In e d /\ ename e = n.
Proof.
  unfold disk_find. intros H. apply find_some in H as [H1 H2].
  unfold named in H2. apply String.eqb_eq in H2. auto.
Qed.

Lemma names_with_act (d : Disk) (t w : string) :
  In w (names (with_act d t)) <-> In w (names d) \/ w = "reneAct".
Proof.
  unfold with_act. destruct (disk_find d "reneAct") as [e|] eqn:E.
  - apply find_some_named in E as [He Hn].
    assert (Hnames : names (map (fun e0 => if named "reneAct" e0
                                           then set_body t e0 else e0) d)
                     = names d).
    { unfold names. rewrite map_map. apply map_ext. intros x.
      destruct (named "reneAct" x); reflexivity. }
    rewrite Hnames. split; [tauto|]. intros [H| ->]; [exact H|].
    rewrite <- Hn. unfold names. now apply in_map.
  - unfold names. rewrite map_app, in_app_iff. cbn. 
    split; intros [H|H]; auto.
    + destruct H as [H|[]]; auto.
Qed.

Lemma list_max_ge (l : list nat) (x : nat) : In x l -> (x <= list_max l)%nat.
Proof.
  induction l as [|y l IH]; [intros []|].
  change (list_max (y :: l)) with (Nat.max y (list_max l)).
  intros [->|H]; [lia|]. specialize (IH H). lia.
Qed.

Lemma fresh_new (d : Disk) (e : entry) : In e d -> ino e <> fresh d.
Proof.
  intros He. unfold fresh.
  pose proof (list_max_ge (map ino d) (ino e) (in_map ino d e He)). lia.
Qed.

Lemma NoDup_map_inj {A B : Type} (f : A -> B) (l : list A) (x y : A) :
  NoDup (map f l) -> In x l -> In y l -> f x = f y -> x = y.
Proof.
  induction l as [|a l IH]; [intros _ []|].
  cbn. intros Hnd Hx Hy E. apply NoDup_cons_iff in Hnd as [Ha Hnd].
  destruct Hx as [->|Hx], Hy as [->|Hy]; auto.
  - exfalso. apply Ha. rewrite E. now apply in_map.
  - exfalso. apply Ha. rewrite <- E. now apply in_map.
Qed.

(** Opening the log: the directory with an empty log, and what is
    written to the file opened goes to the log and nowhere else. *)
Lemma open_act (d : Disk) :
  NoDup (map ino d) -> NoDup (names d) -> act_is_file d ->
  exists h,
    disk_open_w d "reneAct" = Done (with_act d "", h)
    /\ forall s, disk_write (with_act d "") h s = with_act d s.
Proof.
  intros Hino Hnames Hfile. unfold act_is_file in Hfile.
  unfold disk_open_w, with_act.
  destruct (disk_find d "reneAct") as [e|] eqn:E.
  - rewrite Hfile. exists (ino e). split; [reflexivity|].
    intros s. unfold disk_write. rewrite map_map. apply map_ext_in.
    intros x Hx. apply find_some_named in E as [He Hn].
    unfold named. destruct (String.eqb_spec (ename x) "reneAct") as [Ex|Ex].
    + assert (x = e).
      { apply (NoDup_map_inj ename d); auto. congruence. }
      subst x. cbn. now rewrite Nat.eqb_refl.
    + destruct (Nat.eqb_spec (ino x) (ino e)) as [Ei|_]; [|reflexivity].
      exfalso. apply Ex.
      rewrite (NoDup_map_inj ino d x e Hino Hx He Ei). exact Hn.
  - exists (fresh d). split; [reflexivity|].
    intros s. unfold disk_write. rewrite map_app. cbn [map ino].
    rewrite Nat.eqb_refl. f_equal.
    rewrite <- (map_id d) at 2. apply map_ext_in. intros x Hx.
    destruct (Nat.eqb_spec (ino x) (fresh d)) as [Ei|_]; [|reflexivity].
    now apply fresh_new in Hx.
Qed.

Lemma find_snoc {A : Type} (f : A -> bool) (l : list A) (e : A) :
  find f l = None -> f e = true -> find f (l ++ [e]) = Some e.
Proof.
  intros Hl He. induction l as [|x l IH]; cbn in *; [now rewrite He|].
  destruct (f x); [discriminate|auto].
Qed.

Lemma find_with_act (d : Disk) (t : string) :
  act_is_file d ->
  exists e, disk_find (with_act d t) "reneAct" = Some e
            /\ isdir e = false /\ body e = t.
Proof.
  unfold act_is_file, with_act.
  destruct (disk_find d "reneAct") as [e|] eqn:E.
  - intros Hf. exists (set_body t e). split; [|auto].
    unfold disk_find in *. clear Hf.
    induction d as [|x d IH]; [discriminate|].
    cbn [map find] in *. destruct (named "reneAct" x) eqn:Ex.
    + injection E as ->. unfold named in *. cbn. now rewrite Ex.
    + rewrite Ex. auto.
  - intros _. exists (mkEntry (fresh d) "reneAct" false t).
    split; [|split; reflexivity].
    unfold disk_find in *. now apply find_snoc.
Qed.

Lemma combine_fst {A B : Type} (l : list A) (l' : list B) :
  List.length l = List.length l' -> map fst (combine l l') = l.
Proof.
  revert l'. induction l as [|a l IH]; intros [|b l'] H; cbn in *;
    try discriminate; [reflexivity|]. f_equal. apply IH. lia.
Qed.

Lemma combine_snd {A B : Type} (l : list A) (l' : list B) :
  List.length l = List.length l' -> map snd (combine l l') = l'.
Proof.
  revert l'. induction l as [|a l IH]; intros [|b l'] H; cbn in *;
    try discriminate; [reflexivity|]. f_equal. apply IH. lia.
Qed.

Lemma plan_fits_with_act (d : Disk) (acts : list (string * string))
  (t : string) :
  plan_fits d acts -> ~ In "reneAct" (map snd acts) ->
  plan_fits (with_act d t) acts.
Proof.
  intros (A & B & C & D) Hn. split; [exact A|]. split; [|split; [exact C|]].
  - rewrite Forall_forall in *. intros x Hx.
    apply names_with_act. left. auto.
  - rewrite Forall_forall in *. intros x Hx.
    destruct (D x Hx) as [D1 D2]. split; [exact D1|].
    intros H. apply names_with_act in H as [H| ->]; contradiction.
Qed.

Lemma commit_then_undo
  (clobber : Disk -> string -> string -> oserr + Disk)
  (aOpt : Z) (answer : string) (d : Disk) (ps : PState) :
  let acts := combine (oldList ps) (pNewList ps) in
  (aOpt = A_REN
   \/ (aOpt = A_ASK /\ exists c r, answer = String c r /\ upper c = "Y"%char)) ->
  oldList ps <> [] ->
  List.length (oldList ps) = List.length (pNewList ps) ->
  plan_fits d acts ->
  NoDup (map ino d) -> NoDup (names d) -> act_is_file d ->
  ~ In "reneAct" (oldList ps) -> ~ In "reneAct" (pNewList ps) ->
  Forall (fun a => old_in_line (fst a) /\ new_in_line (snd a)) acts ->
  exists d1,
    procDir_act clobber aOpt answer d ps = Done d1
    /\ d1 = renamed acts (with_act d (act_log acts))
    /\ undo clobber d1 = Done (with_act d (act_log acts)).
Proof.
  intros acts Hgo Hne Hlen Hfit Hino Hnames Hfile Ho Hn Hlines.
  assert (Hfst : map fst acts = oldList ps) by now apply combine_fst.
  assert (Hsnd : map snd acts = pNewList ps) by now apply combine_snd.
  destruct (open_act d Hino Hnames Hfile) as (h & Hopen & Hwrite).
  assert (Hcommit :
            match disk_open_w d "reneAct" with
            | Fail e => Fail e
            | Done (d0, h0) => commit_loop clobber d0 h0 acts
            end = Done (renamed acts (with_act d (act_log acts)))).
  { rewrite Hopen.
    rewrite (commit_loop_fits clobber h acts (with_act d ""));
      [|apply plan_fits_with_act; [exact Hfit|now rewrite Hsnd]].
    now rewrite <- renamed_write, Hwrite. }
  exists (renamed acts (with_act d (act_log acts))).
  split; [|split; [reflexivity|]].
  - unfold procDir_act. fold acts.
    destruct (oldList ps) as [|o os] eqn:Eo; [contradiction|].
    cbn [List.length Nat.eqb].
    destruct Hgo as [->|(-> & c & r & -> & Hc)].
    + cbn. exact Hcommit.
    + cbn [Z.eqb A_ASK A_SHOW char_at String.get]. rewrite Hc.
      cbn. exact Hcommit.
  - unfold undo.
    rewrite find_renamed by (rewrite ?Hfst, ?Hsnd; assumption).
    destruct (find_with_act d (act_log acts) Hfile) as (e & -> & -> & ->).
    rewrite readlines_log.
    + apply undo_loop_restores; [|exact Hlines].
      apply plan_fits_with_act; [exact Hfit|now rewrite Hsnd].
    + revert Hlines. apply Forall_impl.
      intros a [[_ H1] [H2 _]]. auto.
Qed.

(** X19. Undo reverses a committed batch.  When [procDir] commits a plan
    that fits the directory (the old names are entries, the new names are
    new and different), no name of the plan being reneAct or holding [>]
    or a line end, and no new name ending in a blank, then [undo], run on
    the directory [procDir] leaves, gives back the directory as it was,
    every file under its old name, with the log of the batch in
    reneAct. *)
Theorem undo_reverses_commit
  (clobber : Disk -> string -> string -> oserr + Disk)
  (aOpt : Z) (answer : string) (d : Disk) (ps : PState) :
  let acts := combine (oldList ps) (pNewList ps) in
  (aOpt = A_REN
   \/ (aOpt = A_ASK /\ exists c r, answer = String c r /\ upper c = "Y"%char)) ->
  oldList ps <> [] ->
  List.length (oldList ps) = List.length (pNewList ps) ->
  plan_fits d acts ->
  NoDup (map ino d) -> NoDup (names d) -> act_is_file d ->
  ~ In "reneAct" (oldList ps) -> ~ In "reneAct" (pNewList ps) ->
  Forall (fun a => old_in_line (fst a) /\ new_in_line (snd a)) acts ->
  exists d1,
    procDir_act clobber aOpt answer d ps = Done d1
    /\ d1 = renamed acts (with_act d (act_log acts))
    /\ undo clobber d1 = Done (with_act d (act_log acts)).
Proof. exact (commit_then_undo clobber aOpt answer d ps). Qed.

Lemma undo_reverses_commit_witness :
  exists d1,
    procDir_act (fun _ _ _ => inl OSError) A_REN ""
      [mkEntry 1 "a.txt" false "alpha"; mkEntry 2 "b.txt" false "beta"]
      (mkPState ["a.txt"; "b.txt"] ["x.txt"; "a.txt0"] []) = Done d1
    /\ d1 = [mkEntry 1 "x.txt" false "alpha"; mkEntry 2 "a.txt0" false "beta";
             mkEntry 3 "reneAct" false
               (act_log [("a.txt", "x.txt"); ("b.txt", "a.txt0")])]
    /\ undo (fun _ _ _ => inl OSError) d1
       = Done [mkEntry 1 "a.txt" false "alpha"; mkEntry 2 "b.txt" false "beta";
               mkEntry 3 "reneAct" false
                 (act_log [("a.txt", "x.txt"); ("b.txt", "a.txt0")])].
Proof.
  refine (undo_reverses_commit (fun _ _ _ => inl OSError) A_REN ""
            [mkEntry 1 "a.txt" false "alpha"; mkEntry 2 "b.txt" false "beta"]
            (mkPState ["a.txt"; "b.txt"] ["x.txt"; "a.txt0"] [])
            (or_introl eq_refl) _ eq_refl _ _ _ I _ _ _).
  - discriminate.
  - split; [|split; [|split]]; cbn.
    + repeat (constructor; [cbn; intuition discriminate|]). constructor.
    + repeat (constructor; [cbn; auto|]). constructor.
    + repeat (constructor; [cbn; intuition discriminate|]). constructor.
    + repeat (constructor; [cbn; intuition discriminate|]). constructor.
  - cbn. repeat (constructor; [cbn; intuition discriminate|]). constructor.
  - cbn. repeat (constructor; [cbn; intuition discriminate|]). constructor.
  - cbn. intuition discriminate.
  - cbn. intuition discriminate.
  - cbn. repeat (constructor;
                 [split; [split; [discriminate|reflexivity]
                         |split; [reflexivity
                                 |eexists; split; reflexivity]]|]).
    constructor.
Defined.

(** *** A batch from the listing to the undo *)

Lemma listing_names (d : Disk) : map fst (listing (dirfs_of d)) = names d.
Proof. unfold dirfs_of, names. cbn. rewrite map_map. now apply map_ext. Qed.

Lemma samefile_same (d : Disk) (a b : string) :
  NoDup (map ino d) -> os_samefile (dirfs_of d) a b = true -> a = b.
Proof.
  intros Hino. cbn.
  destruct (disk_find d a) as [x|] eqn:Ea; [|discriminate].
  destruct (disk_find d b) as [y|] eqn:Eb; [|discriminate].
  intros H. apply Nat.eqb_eq in H.
  apply find_some_named in Ea as [Hx <-].
  apply find_some_named in Eb as [Hy <-].
  now rewrite (NoDup_map_inj ino d x y Hino Hx Hy H).
Qed.

Lemma Forall2_combine {A B : Type} (R : A -> B -> Prop) (l : list A)
  (l' : list B) :
  Forall2 R l l' -> Forall (fun p => R (fst p) (snd p)) (combine l l').
Proof. induction 1; cbn; constructor; auto. Qed.

(** X20. A batch can be undone.  On a directory whose entries have
    different names, none with [>] or a line end in it, and where reneAct
    is absent or a file: when [procDir] has gone through the listing
    without stopping and commits the renames it queued, none of the new
    names being reneAct, holding [>] or a line end, or ending in a blank,
    then [undo] gives back the directory as it was, with the log of the
    batch in reneAct. *)
Theorem procDir_undo_round_trip
  (clobber : Disk -> string -> string -> oserr + Disk)
  (fnmatch : string -> string -> bool) (b : Batch) (rules0 : list rule)
  (aOpt : Z) (answer : string) (d : Disk) (ps : PState) :
  NoDup (map ino d) -> NoDup (names d) -> act_is_file d ->
  Forall old_in_line (names d) ->
  procDir fnmatch b (dirfs_of d) rules0 = Ok (0, ps) ->
  oldList ps <> [] ->
  Forall new_in_line (pNewList ps) ->
  ~ In "reneAct" (pNewList ps) ->
  (aOpt = A_REN
   \/ (aOpt = A_ASK /\ exists c r, answer = String c r /\ upper c = "Y"%char)) ->
  exists d1,
    procDir_act clobber aOpt answer d ps = Done d1
    /\ undo clobber d1
       = Done (with_act d (act_log (combine (oldList ps) (pNewList ps)))).
Proof.
  intros Hino Hnames Hfile Hold Hrun Hne Hnew Hact Hgo.
  destruct (procDir_plan_safe_parts fnmatch b (dirfs_of d) rules0 0 ps Hrun)
    as (Hnd & Hsafe & Hsub).
  rewrite listing_names in Hsub.
  pose proof (Forall2_length Hsafe) as Hlen.
  assert (Holds : NoDup (oldList ps)) by (eapply subseq_NoDup; eauto).
  assert (Hin : Forall (fun o => In o (names d)) (oldList ps)).
  { apply Forall_forall. intros o Ho. eapply subseq_In; eauto. }
  assert (Hfresh : Forall (fun n => n <> "" /\ ~ In n (names d))
                          (pNewList ps)).
  { clear - Hsafe Hino. induction Hsafe as [|o n os ns [Hn Hs] _ IH];
      constructor; [|exact IH].
    split; [exact Hn|]. destruct Hs as [Hs|[Hs Hon]].
    - cbn in Hs. now apply disk_exists_false.
    - apply samefile_same in Hs; [congruence|exact Hino]. }
  assert (Hnoact : ~ In "reneAct" (oldList ps)).
  { intros H.
    pose proof (procDir_eligible_parts fnmatch b (dirfs_of d) rules0 0 ps Hrun)
      as He.
    rewrite Forall_forall in He. destruct (He _ H) as (k & Hk & Hel).
    cbn in Hk. apply in_map_iff in Hk as (e & [= En Ek] & He').
    unfold act_is_file in Hfile.
    destruct (disk_find d "reneAct") as [x|] eqn:Ef.
    - apply find_some_named in Ef as [Hx Hxn].
      assert (e = x) by (apply (NoDup_map_inj ename d); auto; congruence).
      subst x. rewrite Hfile in Ek. subst k.
      unfold eligible in Hel. rewrite andb_true_iff in Hel.
      destruct Hel as [Hel _]. rewrite andb_true_iff in Hel.
      destruct Hel as [_ Hel]. discriminate Hel.
    - apply find_none_names in Ef. apply Ef. rewrite <- En.
      unfold names. now apply in_map. }
  destruct (commit_then_undo clobber aOpt answer d ps Hgo Hne Hlen)
    as (d1 & H1 & _ & H2); auto.
  - cbv zeta. unfold plan_fits.
    rewrite combine_fst, combine_snd by exact Hlen. auto.
  - apply (Forall2_combine (fun o n => old_in_line o /\ new_in_line n)).
    clear - Hin Hold Hnew Hlen.
    rewrite Forall_forall in Hin, Hold, Hnew.
    revert Hlen Hin Hnew. generalize (pNewList ps).
    induction (oldList ps) as [|o os IH]; intros [|n ns] Hlen Hin Hnew;
      cbn in Hlen; try discriminate; constructor.
    + split; [apply Hold, Hin; now left|apply Hnew; now left].
    + apply IH; [lia| |]; intros x Hx; [apply Hin|apply Hnew]; now right.
  - exists d1. auto.
Qed.

Lemma procDir_undo_round_trip_witness :
  exists d1,
    procDir_act (fun _ _ _ => inl OSError) A_ASK "yes"
      [mkEntry 1 "fa" false "alpha"; mkEntry 2 "g" false "gamma";
       mkEntry 3 "fb" false "beta"]
      (mkPState ["fa"; "fb"] ["x"; "x0"] []) = Done d1
    /\ undo (fun _ _ _ => inl OSError) d1
       = Done [mkEntry 1 "fa" false "alpha"; mkEntry 2 "g" false "gamma";
               mkEntry 3 "fb" false "beta";
               mkEntry 4 "reneAct" false (act_log [("fa", "x"); ("fb", "x0")])].
Proof.
  refine (procDir_undo_round_trip (fun _ _ _ => inl OSError) (fun _ _ => false)
            (to_x false false) [] A_ASK "yes"
            [mkEntry 1 "fa" false "alpha"; mkEntry 2 "g" false "gamma";
             mkEntry 3 "fb" false "beta"]
            (mkPState ["fa"; "fb"] ["x"; "x0"] [])
            _ _ I _ _ _ _ _ _).
  - cbn. repeat (constructor; [cbn; intuition discriminate|]). constructor.
  - cbn. repeat (constructor; [cbn; intuition discriminate|]). constructor.
  - cbn. repeat (constructor; [split; [discriminate|reflexivity]|]).
    constructor.
  - vm_compute. reflexivity.
  - discriminate.
  - cbn. repeat (constructor;
                 [split; [reflexivity|eexists; split; reflexivity]|]).
    constructor.
  - cbn. intuition discriminate.
  - right. split; [reflexivity|]. exists "y"%char, "es". split; reflexivity.
Defined.

(** *** What undo leaves as it is *)

Lemma contents_move (a b : string) (d : Disk) :
  contents (move a b d) = contents d.
Proof.
  unfold contents, move. rewrite map_map. apply map_ext.
  intros e. now destruct (named a e).
Qed.

Lemma undo_loop_files
  (clobber clobber' : Disk -> string -> string -> oserr + Disk)
  (lines : list string) :
  forall d,
    undo_loop clobber d lines = undo_loop clobber' d lines
    /\ forall d', undo_loop clobber d lines = Done d' ->
                  contents d' = contents d.
Proof.
  induction lines as [|line rest IH]; intros d; cbn [undo_loop].
  - split; [reflexivity|]. now intros d' [= <-].
  - destruct (nth_error _ 1) as [a1|]; [|split; [reflexivity|discriminate]].
    destruct (nth_error _ 0) as [a0|]; [|split; [reflexivity|discriminate]].
    destruct (disk_exists d a1) eqn:E1; cbn [negb]; [|apply IH].
    destruct (disk_exists d a0) eqn:E0; [apply IH|].
    unfold os_rename. rewrite E1, E0. cbn [negb].
    destruct (String.eqb a0 ""); [split; [reflexivity|discriminate]|].
    destruct (String.eqb_spec a1 a0) as [->|_]; [congruence|].
    destruct (IH (move a1 a0 d)) as [Ha Hb]. split; [exact Ha|].
    intros d' H. rewrite (Hb d' H). apply contents_move.
Qed.

(** X21. Undo never overwrites.  Whatever the platform does when a file is
    renamed onto an existing one, [undo] ends the same way; and when it
    ends without exception every file and directory is still there with
    its text: only names have changed. *)
Theorem undo_keeps_files
  (clobber clobber' : Disk -> string -> string -> oserr + Disk)
  (d d' : Disk) :
  undo clobber d = Done d' ->
  undo clobber' d = Done d' /\ contents d' = contents d.
Proof.
  unfold undo. destruct (disk_find d "reneAct") as [e|].
  - destruct (isdir e); [discriminate|].
    destruct (undo_loop_files clobber clobber' (readlines (body e) "") d)
      as [Ha Hb].
    intros H. split; [now rewrite <- Ha|now apply Hb].
  - intros [= <-]. auto.
Qed.

Lemma undo_keeps_files_witness :
  undo (fun _ _ _ => inr [])
    [mkEntry 1 "x.txt" false "alpha"; mkEntry 2 "b.txt" false "beta";
     mkEntry 3 "reneAct" false
       (act_log [("a.txt", "x.txt"); ("c.txt", "b.txt"); ("b.txt", "y.txt")])]
  = Done [mkEntry 1 "a.txt" false "alpha"; mkEntry 2 "c.txt" false "beta";
          mkEntry 3 "reneAct" false
            (act_log [("a.txt", "x.txt"); ("c.txt", "b.txt");
                      ("b.txt", "y.txt")])]
  /\ contents
       [mkEntry 1 "a.txt" false "alpha"; mkEntry 2 "c.txt" false "beta";
        mkEntry 3 "reneAct" false
          (act_log [("a.txt", "x.txt"); ("c.txt", "b.txt");
                    ("b.txt", "y.txt")])]
     = contents
         [mkEntry 1 "x.txt" false "alpha"; mkEntry 2 "b.txt" false "beta";
          mkEntry 3 "reneAct" false
            (act_log [("a.txt", "x.txt"); ("c.txt", "b.txt");
                      ("b.txt", "y.txt")])].
Proof.
  apply (undo_keeps_files (fun _ _ _ => inl OSError) (fun _ _ _ => inr [])).
  vm_compute. reflexivity.
Defined.

(** *** A log that undo cannot read *)

Lemma str_rstrip_all_chars (p : ascii -> bool) (s : string) :
  all_chars p s = true -> all_chars p (str_rstrip s) = true.
Proof.
  induction s as [|c s IH]; [reflexivity|].
  cbn [all_chars str_rstrip]. intros H. apply andb_prop in H as [Hc Hs].
  specialize (IH Hs). destruct (str_rstrip s) as [|c' r].
  - destruct (py_isspace c); [reflexivity|]. cbn. now rewrite Hc.
  - cbn [all_chars] in IH |- *. now rewrite Hc, IH.
Qed.

Lemma undo_loop_bad_line
  (clobber : Disk -> string -> string -> oserr + Disk)
  (line : string) (lines : list string) :
  In line lines -> free_of ">" line = true ->
  forall d, exists f, undo_loop clobber d lines = Fail f.
Proof.
  intros Hin Hfree. induction lines as [|l rest IH]; [contradiction|].
  intros d. cbn [undo_loop]. destruct Hin as [->|Hin].
  - rewrite (split_on_free ">" (str_rstrip line))
      by (now apply str_rstrip_all_chars).
    cbn. eauto.
  - destruct (nth_error _ 1) as [a1|]; [|eauto].
    destruct (nth_error _ 0) as [a0|]; [|eauto].
    destruct (negb (disk_exists d a1)); [now apply IH|].
    destruct (disk_exists d a0); [now apply IH|].
    destruct (os_rename clobber d a1 a0); [eauto|now apply IH].
Qed.

(** X22. A line of reneAct without [>], a blank line among them, makes
    [undo] end with an exception, whatever the other lines are. *)
Theorem undo_line_without_separator
  (clobber : Disk -> string -> string -> oserr + Disk)
  (d : Disk) (e : entry) (line : string) :
  disk_find d "reneAct" = Some e ->
  In line (readlines (body e) "") ->
  free_of ">" line = true ->
  exists f, undo clobber d = Fail f.
Proof.
  intros He Hin Hfree. unfold undo. rewrite He.
  destruct (isdir e); [eauto|].
  now apply (undo_loop_bad_line clobber line).
Qed.

Lemma undo_line_without_separator_witness :
  exists f,
    undo (fun _ _ _ => inl OSError)
      [mkEntry 1 "x.txt" false "alpha";
       mkEntry 2 "reneAct" false
         ("a.txt>x.txt" ++ String newline (String newline "b.txt>y.txt"))]
    = Fail f.
Proof.
  apply (undo_line_without_separator (fun _ _ _ => inl OSError)
           [mkEntry 1 "x.txt" false "alpha";
            mkEntry 2 "reneAct" false
              ("a.txt>x.txt" ++ String newline (String newline "b.txt>y.txt"))]
           (mkEntry 2 "reneAct" false
              ("a.txt>x.txt" ++ String newline (String newline "b.txt>y.txt")))
           (String newline "")).
  - reflexivity.
  - vm_compute. right. left. reflexivity.
  - reflexivity.
Defined.

(** *** The directories of a traversal *)

Section Visits.

Variable fnmatch : string -> string -> bool.

Variable b : Batch.

Variable rc : Recurse.

Lemma descend_visits (m : nat) (subs : list (string * tree)) :
  Forall (fun p => forall st r st',
            levels_left rc st = m ->
            procTree fnmatch b rc (snd p) st = (r, st') ->
            visited (walk fnmatch rc m (snd p)) st r st') subs ->
  forall st r st',
    levels_left rc st = m ->
    descend fnmatch rc (procTree fnmatch b rc) subs 0 st = (r, st') ->
    visited (flat_map (fun p => if doit fnmatch rc (fst p)
                                then walk fnmatch rc m (snd p) else [])
                      subs) st r st'.
Proof.
  induction 1 as [|[fn sub] subs Hsub _ IH]; intros st r st' Hm H;
    cbn [descend flat_map fst snd] in *.
  - injection H as <- <-. exists []. rewrite app_nil_r.
    split; [reflexivity|]. split; [now exists []|].
    intros ret [= <-]. auto.
  - destruct (doit fnmatch rc fn); [|cbn [app]; now apply IH].
    destruct (procTree fnmatch b rc sub st) as [[ret'|e] st1] eqn:Et.
    + destruct (Hsub st (Ok ret') st1 Hm Et) as (l & Hv & [l2 Hw] & Hr).
      destruct (Hr ret' eq_refl) as (Hd & Hret & Hfull).
      destruct (Z.eqb_spec ret' 0) as [->|Hne]; cbn [negb] in H.
      * assert (Hm1 : levels_left rc st1 = m)
          by (unfold levels_left in *; now rewrite Hd).
        destruct (IH st1 r st' Hm1 H) as (k & Hv' & [k2 Hw'] & Hr').
        exists (l ++ k)%list. rewrite Hv', Hv, app_assoc.
        split; [reflexivity|]. rewrite (Hfull eq_refl) in *.
        split; [exists k2; now rewrite Hw', app_assoc|].
        intros ret Hret'. destruct (Hr' ret Hret') as (A & B & C).
        repeat split; [congruence|exact B|].
        intros H0. now rewrite (C H0).
      * injection H as <- <-. exists l. split; [exact Hv|].
        split; [exists (l2 ++ flat_map
                          (fun p => if doit fnmatch rc (fst p)
                                    then walk fnmatch rc m (snd p) else [])
                          subs)%list; now rewrite Hw, app_assoc|].
        intros ret [= <-]. repeat split; [exact Hd|exact Hret|].
        intros H0. contradiction.
    + injection H as <- <-.
      destruct (Hsub st (Exc e) st1 Hm Et) as (l & Hv & [l2 Hw] & _).
      exists l. split; [exact Hv|].
      split; [exists (l2 ++ flat_map
                        (fun p => if doit fnmatch rc (fst p)
                                  then walk fnmatch rc m (snd p) else [])
                        subs)%list; now rewrite Hw, app_assoc|].
      intros ret H. discriminate H.
Qed.

Lemma walk_node (n : nat) (cwd : string) (fs : DirFS)
  (subs : list (string * tree)) :
  walk fnmatch rc n (Node cwd fs subs)
  = cwd :: match n with
           | O => []
           | S m => flat_map (fun p => if doit fnmatch rc (fst p)
                                       then walk fnmatch rc m (snd p) else [])
                             subs
           end.
Proof. now destruct n. Qed.

Lemma procTree_visited (t : tree) :
  forall n st r st',
    levels_left rc st = n ->
    procTree fnmatch b rc t st = (r, st') ->
    visited (walk fnmatch rc n t) st r st'.
Proof.
  induction t as [cwd fs subs IH] using tree_induction.
  intros n st r st' Hn H. cbn [procTree] in H. cbv zeta in H.
  rewrite walk_node.
  assert (Hstop : forall (w : list string) rules log (ret : Z),
            ret = 0 \/ ret = 1 -> (ret = 0 -> w = []) ->
            visited (cwd :: w) st (Ok ret)
              (mkTState rules (curDepth st) (rVisit st ++ [cwd]) log)).
  { intros w rules log ret Hret Hw. exists [cwd]. cbn.
    split; [reflexivity|]. split; [now exists w|].
    intros ret' [= <-]. repeat split; auto.
    intros H0. now rewrite (Hw H0). }
  assert (Hexc : forall (w : list string) rules log e,
            visited (cwd :: w) st (Exc e)
              (mkTState rules (curDepth st) (rVisit st ++ [cwd]) log)).
  { intros w rules log e. exists [cwd]. cbn.
    split; [reflexivity|]. split; [now exists w|]. discriminate. }
  destruct (reload (irules rc) (tRules st)) as [rs|e];
    [|injection H as <- <-; apply Hexc].
  destruct (procDir fnmatch b fs rs) as [[ret ps]|e];
    [|injection H as <- <-; apply Hexc].
  destruct (Z.eqb_spec ret 0) as [->|Hne]; cbn [negb] in H;
    [|injection H as <- <-; apply Hstop; [now right|discriminate]].
  cbn [curDepth tRules rVisit boundaries] in H.
  destruct (Z.leb_spec (rDepth rc) (curDepth st)) as [Hle|Hlt].
  { injection H as <- <-. apply Hstop; [now left|].
    intros _. unfold levels_left in Hn.
    replace n with 0%nat by lia. reflexivity. }
  destruct n as [|m]; [unfold levels_left in Hn; lia|].
  match type of H with
  | context [descend fnmatch rc _ subs 0 ?s] =>
      assert (Hm : levels_left rc s = m)
        by (unfold levels_left in *; cbn [curDepth]; lia);
      pose proof (fun r' s' =>
                    descend_visits m subs (Forall_impl _ (fun p Hp => Hp m) IH)
                      s r' s' Hm) as Hd;
      destruct (descend fnmatch rc (procTree fnmatch b rc) subs 0 s)
        as [[ret2|e] st2]
  end.
  - injection H as <- <-.
    destruct (Hd _ _ eq_refl) as (l & Hv & [l2 Hw] & Hr).
    cbn [rVisit curDepth] in Hv, Hr.
    destruct (Hr ret2 eq_refl) as (A & B & C).
    exists (cwd :: l). cbn [rVisit curDepth].
    split; [now rewrite Hv, <- app_assoc|].
    split; [exists l2; now rewrite Hw|].
    intros ret' [= <-]. repeat split; [lia|exact B|].
    intros H0. now rewrite (C H0).
  - injection H as <- <-.
    destruct (Hd _ _ eq_refl) as (l & Hv & [l2 Hw] & _).
    cbn [rVisit] in Hv.
    exists (cwd :: l). split; [now rewrite Hv, <- app_assoc|].
    split; [exists l2; now rewrite Hw|]. discriminate.
Qed.

End Visits.

(** X23. The order of a recursive run.  The directories [procTree] records
    are the first ones of the walk of the tree from its root: each
    directory before what is below it, the directories of one level in the
    order of the listing, none deeper than the depth of the recursion
    option and none below a directory that the option's list leaves out.
    A run that returns has set the depth counter back and returns 0 or
    1; one that returns 0 has recorded the whole walk. *)
Theorem procTree_visits (fnmatch : string -> string -> bool) (b : Batch)
  (rc : Recurse) (t : tree) (st : TState) (r : res Z) (st' : TState) :
  procTree fnmatch b rc t st = (r, st') ->
  exists l,
    rVisit st' = (rVisit st ++ l)%list
    /\ (exists l2, walk fnmatch rc (levels_left rc st) t = (l ++ l2)%list)
    /\ (forall ret, r = Ok ret ->
          curDepth st' = curDepth st
          /\ (ret = 0 \/ ret = 1)
          /\ (ret = 0 -> l = walk fnmatch rc (levels_left rc st) t)).
Proof.
  intros H.
  exact (procTree_visited fnmatch b rc t (levels_left rc st) st r st'
           eq_refl H).
Qed.

Lemma procTree_visits_witness :
  walk String.eqb (mkRecurse 1 false ["X_Old"] [0; 1]%nat) 1 pets_tree
  = ["recurse"; "recurse/X_New"]
  /\ rVisit (snd (procTree String.eqb pets_batch
                    (mkRecurse 1 false ["X_Old"] [0; 1]%nat) pets_tree
                    (mkTState two_inserters 0 [] [])))
     = ["recurse"; "recurse/X_New"].
Proof.
  split; [reflexivity|].
  destruct (procTree_visits String.eqb pets_batch
              (mkRecurse 1 false ["X_Old"] [0; 1]%nat) pets_tree
              (mkTState two_inserters 0 [] [])
              (fst (procTree String.eqb pets_batch
                      (mkRecurse 1 false ["X_Old"] [0; 1]%nat) pets_tree
                      (mkTState two_inserters 0 [] [])))
              (snd (procTree String.eqb pets_batch
                      (mkRecurse 1 false ["X_Old"] [0; 1]%nat) pets_tree
                      (mkTState two_inserters 0 [] [])))
              ltac:(vm_compute; reflexivity)) as (l & Hv & _ & Hr).
  destruct (Hr 0 ltac:(vm_compute; reflexivity)) as (_ & _ & Hl).
  rewrite Hv, (Hl eq_refl). reflexivity.
Defined.

(** *** What a collision leaves of the name *)

Lemma avoid_loop_keeps (ex : string -> bool) (ca : CA)
  (newList : list string) (pl : Z) (ext : string) :
  pl = 0 \/ (pl = len (caPun ca) /\ caPun ca <> "") ->
  forall idxs root rootLen tested t r,
    avoid_loop ex ca newList idxs pl ext root rootLen tested = (t, Ok r) ->
    r <> "" ->
    (exists x, r = x ++ ext)
    /\ (caMerge ca = false -> caStart ca <> "" ->
        forall root0,
          (root = root0 /\ rootLen = None)
          \/ (exists x, x <> "" /\ root = root0 ++ x
                        /\ rootLen = Some (len root0)) ->
          exists x, r = root0 ++ x ++ ext).
Proof.
  intros Hpl. induction idxs as [|i idxs IH];
    intros root rootLen tested t r H Hr; cbn [avoid_loop] in H.
  - injection H as _ <-. split; [now exists root|].
    intros _ _ root0 [[-> _]|(x & _ & -> & _)].
    + now exists "".
    + exists x. now rewrite app_assoc_str.
  - cbv zeta in H. rewrite (peel_decoration ca pl Hpl root) in H.
    set (root1 := if negb (pl =? 0) then root ++ caPun ca else root) in *.
    destruct (free ex newList (root1 ++ ext)).
    { injection H as _ <-. split; [now exists root1|].
      intros _ _ root0 Hroot. unfold root1.
      destruct Hroot as [[-> _]|(x & _ & -> & _)];
        destruct (negb (pl =? 0)).
      - exists (caPun ca). now rewrite !app_assoc_str.
      - now exists "".
      - exists (x ++ caPun ca). now rewrite !app_assoc_str.
      - exists x. now rewrite !app_assoc_str. }
    destruct (9 <? i); [injection H as _ <-; contradiction|].
    destruct (caMerge ca) eqn:Em.
    { destruct (nextName root 1 0) as [[n|]|e]; try discriminate.
      destruct (IH _ _ _ _ _ H Hr) as [A _]. split; [exact A|discriminate]. }
    destruct (i =? 0).
    { destruct (IH _ _ _ _ _ H Hr) as [A B]. split; [exact A|].
      intros _ Hs root0 [[-> _]|(x & Hx & -> & _)].
      - apply (B eq_refl Hs). right. exists (caStart ca). auto.
      - destruct (B eq_refl Hs (root0 ++ x)) as [y ->].
        + right. exists (caStart ca). auto.
        + exists (x ++ y). now rewrite !app_assoc_str. }
    destruct rootLen as [rl|]; [|discriminate].
    destruct (nextName root 1 rl) as [[n|]|e] eqn:En; try discriminate.
    destruct (IH _ _ _ _ _ H Hr) as [A B]. split; [exact A|].
    intros _ Hs root0 [[_ Hn]|(x & Hx & -> & [= ->])]; [discriminate|].
    destruct (nextName_keeps_prefix root0 x 1 Hx) as (x' & E & Hx').
    rewrite E in En. injection En as <-.
    apply (B eq_refl Hs). right. exists x'. auto.
Qed.

(** X24. A collision keeps the name's extension and, unless numbers are
    merged, its root.  The name [avoid] finds ends with the extension part
    of the colliding name; with the appending scheme and a start string
    that is not empty it also begins with the root part, after the
    punctuation where that goes in front. *)
Theorem avoid_keeps_name (ex : string -> bool) (ca : CA)
  (newList : list string) (name r : string) :
  avoid ex ca newList name = Ok r -> r <> "" ->
  (exists x, r = x ++ snd (greedyext name))
  /\ (caMerge ca = false -> caStart ca <> "" ->
      exists a x,
        (a = "" \/ a = caPun ca)
        /\ r = a ++ fst (greedyext name) ++ x ++ snd (greedyext name)).
Proof.
  unfold avoid, avoid_run.
  destruct (greedyext name) as [root ext]. cbn [fst snd].
  set (dec := negb (String.eqb (caPun ca) "")).
  set (root0 := if dec && (caPunPos ca =? 0) then caPun ca ++ root
                else if dec && (caPunPos ca =? 1) then root ++ caPun ca
                else root).
  set (pl := if dec && negb (caPunPos ca =? 0) && negb (caPunPos ca =? 1)
                && (caPunPos ca =? 2)
             then len (caPun ca) else 0).
  assert (Hpl : pl = 0 \/ (pl = len (caPun ca) /\ caPun ca <> "")).
  { unfold pl, dec. destruct (String.eqb_spec (caPun ca) "") as [E|E];
      [now left|]. cbn [negb andb].
    match goal with
    | |- (if ?c then _ else _) = _ \/ _ => destruct c
    end; [right; auto | now left]. }
  intros H Hr.
  destruct (avoid_loop ex ca newList (range 100) pl ext root0 None [])
    as [t r'] eqn:E. cbn [snd] in H. subst r'.
  destruct (avoid_loop_keeps ex ca newList pl ext Hpl _ _ _ _ _ _ E Hr)
    as [A B].
  split; [exact A|]. intros Hm Hs.
  destruct (B Hm Hs root0 (or_introl (conj eq_refl eq_refl))) as [x ->].
  unfold root0.
  destruct (dec && (caPunPos ca =? 0)).
  - exists (caPun ca), x. split; [now right|]. now rewrite !app_assoc_str.
  - destruct (dec && (caPunPos ca =? 1)).
    + exists "", (caPun ca ++ x). split; [now left|].
      now rewrite !app_assoc_str.
    + exists "", x. split; [now left|]. reflexivity.
Qed.

Lemma avoid_keeps_name_witness :
  (exists x, "my_1.photo.tar.gz" = x ++ snd (greedyext "my.photo.tar.gz"))
  /\ (caMerge (mkCA false false "_" 1 false "1") = false ->
      caStart (mkCA false false "_" 1 false "1") <> "" ->
      exists a x,
        (a = "" \/ a = caPun (mkCA false false "_" 1 false "1"))
        /\ "my_1.photo.tar.gz"
           = a ++ fst (greedyext "my.photo.tar.gz") ++ x
               ++ snd (greedyext "my.photo.tar.gz")).
Proof.
  apply (avoid_keeps_name
           (fun n => String.eqb n "my.photo.tar.gz"
                     || String.eqb n "my_.photo.tar.gz")
           (mkCA false false "_" 1 false "1") [] "my.photo.tar.gz").
  - vm_compute. reflexivity.
  - discriminate.
Defined.

(** *** The substitute option *)

Lemma str_map_length (f : ascii -> ascii) (s : string) :
  String.length (str_map f s) = String.length s.
Proof. induction s as [|c s IH]; cbn; [reflexivity|now rewrite IH]. Qed.

Lemma replace_by_length (a : ascii) (t : string) (s : string) :
  (String.length t <= 1)%nat ->
  (String.length (replace_by a t s) <= String.length s)%nat.
Proof.
  intros Ht. induction s as [|c s IH]; cbn [replace_by]; [reflexivity|].
  rewrite str_length_app. destruct (Ascii.eqb c a); cbn; lia.
Qed.

Lemma replace_by_gone (a : ascii) (t : string) (s : string) :
  free_of a t = true -> free_of a (replace_by a t s) = true.
Proof.
  intros Ht. induction s as [|c s IH]; cbn [replace_by]; [reflexivity|].
  unfold free_of in *. rewrite all_chars_app, IH, andb_true_r.
  destruct (Ascii.eqb c a) eqn:E; [exact Ht|]. cbn. now rewrite E.
Qed.

Lemma subst_step_length (n sop : string) :
  (String.length (subst_step n sop) <= String.length n)%nat.
Proof.
  unfold subst_step.
  destruct (String.eqb _ "U"); [now rewrite str_map_length|].
  destruct (String.eqb _ "L"); [now rewrite str_map_length|].
  destruct sop as [|a [|b [|c r]]]; try reflexivity.
  apply replace_by_length. destruct (negb _); cbn; lia.
Qed.

Lemma substitute_length (sOpt : list string) :
  forall n, (String.length (substitute sOpt n) <= String.length n)%nat.
Proof.
  unfold substitute. induction sOpt as [|sop sOpt IH]; intros n; cbn.
  - reflexivity.
  - etransitivity; [apply IH|apply subst_step_length].
Qed.

(** X25. The substitute option never makes a name longer; and after a last
    parameter of two characters the first of the two occurs nowhere in
    the new name: it has been replaced by the second, or taken out when
    the two are the same. *)
Theorem substitute_shortens_and_replaces (sOpt : list string) (a b : ascii)
  (old : string) :
  (String.length (substitute sOpt old) <= String.length old)%nat
  /\ free_of a (substitute (sOpt ++ [String a (String b "")]) old) = true.
Proof.
  split; [apply substitute_length|].
  unfold substitute. rewrite fold_left_app. cbn [fold_left].
  unfold subst_step at 1. cbn [str_map String.eqb].
  assert (E : forall x y, (if Ascii.eqb x y then false else false) = false)
    by (intros x y; now destruct (Ascii.eqb x y)).
  rewrite !E. apply replace_by_gone.
  destruct (Ascii.eqb a b) eqn:Eab; cbn; [reflexivity|].
  unfold free_of. cbn. rewrite Ascii.eqb_sym, Eab. reflexivity.
Qed.

(** *** The parameters of a rule *)

Lemma prepParams_default (ds : list pyval) :
  forall ws ps j d,
    prepParams ws ds = Ok ps ->
    nth_error ds j = Some d ->
    nth_error ws j = None \/ nth_error ws j = Some "" ->
    nth_error ps j = Some d.
Proof.
  induction ds as [|d0 ds IH]; intros ws ps j d H Hd Hw.
  - destruct j; discriminate.
  - cbn [prepParams] in H. destruct ws as [|w ws].
    + apply bind_Ok_inv in H as (r & Hr & [= <-]).
      destruct j as [|j]; [exact Hd|]. cbn in Hd |- *.
      apply (IH [] r j d Hr Hd). left. now destruct j.
    + apply bind_Ok_inv in H as (x & Hx & H).
      apply bind_Ok_inv in H as (r & Hr & [= <-]).
      destruct j as [|j].
      * cbn in Hd, Hw |- *. destruct Hw as [Hw|Hw]; [discriminate|].
        injection Hw as ->. cbn in Hx. congruence.
      * cbn in Hd, Hw |- *. now apply (IH ws r j d Hr Hd).
Qed.

(** X26. A parameter left out or left empty takes the default.  In the
    working list of a rule, a position for which the argument gives
    nothing, or nothing between two slashes, holds what the default rule
    holds there; the mode and reload positions of an insert rule apart,
    which [prepRule] sets itself. *)
Theorem prepRule_defaults (arg : string) (defRule : rule) (rvType : string)
  (w : rule) (i : nat) (d : pyval) :
  prepRule arg defRule rvType = Ok w ->
  (1 <= i)%nat ->
  nth_error defRule i = Some d ->
  nth_error (split_on "/" arg) i = None
  \/ nth_error (split_on "/" arg) i = Some "" ->
  char_at arg 0 <> Ok "I"%char \/ (i <> I_MODE /\ i <> I_RELOAD) ->
  nth_error w i = Some d.
Proof.
  unfold prepRule. intros H Hi Hd Hw HI.
  destruct (split_on "/" arg) as [|w0 ws]; [discriminate|].
  destruct (1 <? len w0); [discriminate|].
  apply bind_Ok_inv in H as (d0 & _ & H).
  destruct (negb _); [discriminate|].
  apply bind_Ok_inv in H as (ps & Hps & H).
  apply bind_Ok_inv in H as (a0 & Ha0 & H).
  destruct i as [|j]; [lia|].
  assert (Hj : nth_error (VStr w0 :: ps) (S j) = Some d).
  { cbn. apply (prepParams_default (tl defRule) ws ps j d Hps).
    - destruct defRule; [discriminate|exact Hd].
    - exact Hw. }
  destruct (Ascii.eqb_spec a0 "I") as [->|_]; [|now injection H as <-].
  destruct HI as [HI|[Hm Hr]]; [congruence|].
  apply bind_Ok_inv in H as (mode & _ & H).
  destruct (negb _); [|now injection H as <-].
  apply bind_Ok_inv in H as (bm & _ & H).
  apply bind_Ok_inv in H as (w1 & Hw1 & H).
  apply bind_Ok_inv in H as (start & _ & H).
  rewrite (set_nth_other _ _ _ (S j) _ H Hr).
  now rewrite (set_nth_other _ _ _ (S j) _ Hw1 Hm).
Qed.

Lemma prepRule_defaults_witness :
  prepRule "I///10" [VStr rvAdd; VInt 0; VInt 1; VInt 1; VInt 0; VInt 0] rvAdd
  = Ok [VStr "I"; VInt 0; VInt 1; VInt 10; VInt 0; VInt 0]
  /\ nth_error [VStr "I"; VInt 0; VInt 1; VInt 10; VInt 0; VInt 0] 2
     = Some (VInt 1).
Proof.
  split; [reflexivity|].
  apply (prepRule_defaults "I///10" [VStr rvAdd; VInt 0; VInt 1; VInt 1;
                                     VInt 0; VInt 0] rvAdd
           [VStr "I"; VInt 0; VInt 1; VInt 10; VInt 0; VInt 0] 2 (VInt 1)).
  - vm_compute. reflexivity.
  - lia.
  - reflexivity.
  - right. reflexivity.
  - right. split; discriminate.
Defined.

Lemma prepParam_any_default (w : string) (d d' : pyval) :
  (exists v, prepParam w d = Ok v) -> exists v, prepParam w d' = Ok v.
Proof.
  destruct w as [|c w]; [cbn; eauto|]. now cbn [prepParam].
Qed.

Lemma split_on_first (arg : string) (ws : list string) :
  split_on "/" arg = "I" :: ws -> char_at arg 0 = Ok "I"%char.
Proof.
  destruct arg as [|a s]; [discriminate|]. intros H.
  rewrite (split_on_head a s "I" ws H); [reflexivity|cbn; lia|reflexivity].
Qed.

(** X27. A number for the mode of an insert rule is an error that nothing
    catches.  When the argument of an insert rule gives a mode that
    begins with a digit and is not zero, and its parameters are read
    without error, [prepRule] raises AttributeError, which the loop over
    the rules lets through. *)
Theorem prepRule_numeric_mode (arg w1 w2 w3 m : string) (rest : list string)
  (n : Z) (args rulevars : list string) (rvIdx : nat) (rules : list rule)
  (irules : list nat) :
  split_on "/" arg = "I" :: w1 :: w2 :: w3 :: m :: rest ->
  Forall (fun w => exists v, prepParam w (VInt 0) = Ok v)
         (w1 :: w2 :: w3 :: rest) ->
  (exists c r, m = String c r /\ isdigit c = true) ->
  scanint m = Ok n -> n <> 0 ->
  nth_error rulevars rvIdx = Some rvAdd ->
  prepRule arg [VStr rvAdd; VInt 0; VInt 1; VInt 1; VInt 0; VInt 0] rvAdd
  = Exc AttributeError
  /\ prepRules (arg :: args) rulevars rvIdx rules irules = Exc AttributeError.
Proof.
  intros Hsp Hws (c & r & -> & Hc) Hn Hn0 Hrv.
  assert (E : prepRule arg [VStr rvAdd; VInt 0; VInt 1; VInt 1; VInt 0; VInt 0]
                rvAdd = Exc AttributeError).
  { unfold prepRule. rewrite Hsp, (split_on_first arg _ Hsp).
    cbn [len String.length Z.of_nat Z.ltb Z.compare Pos.compare
         Pos.compare_cont nth_res nth_error pyval_eqb negb bind tl].
    change (String.eqb rvAdd rvAdd) with true. cbn [negb].
    inversion Hws as [|? ? H1 Hws1]; subst.
    inversion Hws1 as [|? ? H2 Hws2]; subst.
    inversion Hws2 as [|? ? H3 Hrest]; subst.
    cbn [prepParams].
    destruct H1 as [v1 ->].
    destruct (prepParam_any_default w2 _ (VInt 1) H2) as [v2 ->].
    destruct (prepParam_any_default w3 _ (VInt 1) H3) as [v3 ->].
    cbn [bind prepParam]. rewrite Hc, Hn. cbn [bind].
    destruct rest as [|w rest'];
      [|inversion Hrest as [|? ? [v Hv] _]; subst; rewrite Hv];
      cbn; (destruct (Z.eqb_spec n 0) as [|_]; [contradiction|reflexivity]). }
  split; [exact E|].
  cbn [prepRules]. rewrite Hrv, (split_on_first arg _ Hsp).
  cbn [bind]. change (repRules "I") with
    (Ok [VStr rvAdd; VInt 0; VInt 1; VInt 1; VInt 0; VInt 0]).
  cbv iota beta. now rewrite E.
Qed.

Lemma prepRule_numeric_mode_witness :
  prepRule "I/5/10/2/1" [VStr rvAdd; VInt 0; VInt 1; VInt 1; VInt 0; VInt 0]
    rvAdd = Exc AttributeError
  /\ prepRules ["I/5/10/2/1"] [":"] 0 [] [] = Exc AttributeError.
Proof.
  apply (prepRule_numeric_mode "I/5/10/2/1" "5" "10" "2" "1" [] 1
           [] [":"] 0 [] []).
  - reflexivity.
  - repeat (constructor; [eexists; vm_compute; reflexivity|]). constructor.
  - exists "1"%char, "". split; reflexivity.
  - reflexivity.
  - lia.
  - reflexivity.
Defined.

(** *** What stops a recursive run *)

Lemma collide_stop (b : Batch) (fs : DirFS) (old newName : string)
  (st st' : PState) :
  collide b fs old newName st = Ok (Return1 st') -> caStop (bCA b) = true.
Proof.
  unfold collide.
  assert (Hfin : forall m,
            (if String.eqb m ""
             then Ok (if caStop (bCA b) then Return1 st else Next st)
             else Ok (Next (mkPState (oldList st ++ [old])
                              (pNewList st ++ [m]) (pRules st))))
            = Ok (Return1 st') -> caStop (bCA b) = true).
  { intros m. destruct (String.eqb m ""); [|discriminate].
    destruct (caStop (bCA b)); [reflexivity|discriminate]. }
  destruct (_ && _).
  - destruct (caStop (bCA b)) eqn:Es; [reflexivity|]. cbn [orb].
    destruct (caContinue (bCA b)); [discriminate|].
    destruct (avoid _ _ _ _) as [n|e]; [apply Hfin|discriminate].
  - destruct (in_list _ _); [|apply Hfin].
    destruct (avoid _ _ _ _) as [n|e]; [apply Hfin|discriminate].
Qed.

Lemma procDir_loop_ret (fnmatch : string -> string -> bool) (b : Batch)
  (fs : DirFS) (dirlist : list (string * kind)) :
  forall st ret ps,
    procDir_loop fnmatch b fs dirlist st = Ok (ret, ps) ->
    ret = 0 \/ (ret = 1 /\ caStop (bCA b) = true).
Proof.
  induction dirlist as [|[old k] rest IH]; intros st ret ps H;
    cbn [procDir_loop] in H.
  - injection H as <- _. now left.
  - apply bind_Ok_inv in H as (p & Hp & H). destruct p as [st1|st1].
    + now apply (IH st1 ret ps).
    + injection H as <- _. right. split; [reflexivity|].
      unfold procDir_pass in Hp.
      destruct (negb _); [discriminate|].
      destruct (existsb _ _); [discriminate|].
      apply bind_Ok_inv in Hp as ([n rs'] & _ & Hp).
      destruct (String.eqb n ""); [discriminate|].
      destruct (String.eqb n old); [discriminate|].
      now apply collide_stop in Hp.
Qed.

Section NoStop.

Variable fnmatch : string -> string -> bool.

Variable b : Batch.

Variable rc : Recurse.

Hypothesis no_stop : caStop (bCA b) = false.

Lemma descend_ret_zero (subs : list (string * tree)) :
  Forall (fun p => forall st ret st',
            procTree fnmatch b rc (snd p) st = (Ok ret, st') -> ret = 0)
         subs ->
  forall st ret st',
    descend fnmatch rc (procTree fnmatch b rc) subs 0 st = (Ok ret, st') ->
    ret = 0.
Proof.
  induction 1 as [|[fn sub] subs Hsub _ IH]; intros st ret st' H;
    cbn [descend] in H.
  - now injection H as <- _.
  - destruct (doit fnmatch rc fn); [|now apply (IH st ret st')].
    destruct (procTree fnmatch b rc sub st) as [[ret'|e] st1] eqn:Et;
      [|discriminate].
    cbn [snd] in Hsub. rewrite (Hsub st ret' st1 Et) in H. cbn in H.
    now apply (IH st1 ret st').
Qed.

Lemma procTree_ret_zero (t : tree) :
  forall st ret st',
    procTree fnmatch b rc t st = (Ok ret, st') -> ret = 0.
Proof.
  induction t as [cwd fs subs IH] using tree_induction.
  intros st ret st' H. cbn [procTree] in H. cbv zeta in H.
  destruct (reload (irules rc) (tRules st)) as [rs|e]; [|discriminate].
  destruct (procDir fnmatch b fs rs) as [[r ps]|e] eqn:Ep; [|discriminate].
  unfold procDir in Ep. apply procDir_loop_ret in Ep as [->|[_ Hs]];
    [|congruence].
  cbn [Z.eqb negb curDepth] in H.
  destruct (rDepth rc <=? curDepth st); [now injection H as <- _|].
  match type of H with
  | context [descend fnmatch rc _ subs 0 ?s] =>
      pose proof (descend_ret_zero subs IH s) as Hd;
      destruct (descend fnmatch rc (procTree fnmatch b rc) subs 0 s)
        as [[ret2|e] st2]; [|discriminate]
  end.
  injection H as <- _. now apply (Hd ret2 st2).
Qed.

End NoStop.

(** X28. Without the stop flag a recursive run goes everywhere.  When the
    collision option does not ask to stop, a run of [procTree] that
    returns has returned 0 and has recorded every directory of the walk,
    in order: the start, then level by level the directories that pass
    the recursion option's list, down to its depth. *)
Theorem procTree_without_stop (fnmatch : string -> string -> bool)
  (b : Batch) (rc : Recurse) (t : tree) (st : TState) (ret : Z)
  (st' : TState) :
  caStop (bCA b) = false ->
  procTree fnmatch b rc t st = (Ok ret, st') ->
  ret = 0
  /\ rVisit st' = (rVisit st ++ walk fnmatch rc (levels_left rc st) t)%list
  /\ curDepth st' = curDepth st.
Proof.
  intros Hs H.
  pose proof (procTree_ret_zero fnmatch b rc Hs t st ret st' H) as ->.
  destruct (procTree_visited fnmatch b rc t _ st (Ok 0) st' eq_refl H)
    as (l & Hv & _ & Hr).
  destruct (Hr 0 eq_refl) as (Hd & _ & Hl).
  rewrite Hv, (Hl eq_refl). auto.
Qed.

Lemma procTree_without_stop_witness :
  fst (procTree String.eqb pets_batch
         (mkRecurse 1000 true ["X_Old"] [0; 1]%nat) pets_tree
         (mkTState two_inserters 0 [] [])) = Ok 0
  /\ rVisit (snd (procTree String.eqb pets_batch
                    (mkRecurse 1000 true ["X_Old"] [0; 1]%nat) pets_tree
                    (mkTState two_inserters 0 [] [])))
     = ["recurse"; "recurse/X_Old"].
Proof.
  split; [vm_compute; reflexivity|].
  destruct (procTree_without_stop String.eqb pets_batch
              (mkRecurse 1000 true ["X_Old"] [0; 1]%nat) pets_tree
              (mkTState two_inserters 0 [] []) 0
              (snd (procTree String.eqb pets_batch
                      (mkRecurse 1000 true ["X_Old"] [0; 1]%nat) pets_tree
                      (mkTState two_inserters 0 [] [])))
              eq_refl ltac:(vm_compute; reflexivity)) as (_ & Hv & _).
  rewrite Hv. vm_compute. reflexivity.
Defined.

(** *** Undo a second time *)

Lemma undo_loop_idle (clobber : Disk -> string -> string -> oserr + Disk)
  (d : Disk) (acts : list (string * string)) :
  Forall (fun a => old_in_line (fst a) /\ new_in_line (snd a)
                   /\ ~ In (snd a) (names d)) acts ->
  undo_loop clobber d (map act_line acts) = Done d.
Proof.
  induction 1 as [|[o n] acts [[_ Ho] [Hn Hnot]] _ IH]; [reflexivity|].
  cbn [fst snd] in *. cbn [map undo_loop].
  rewrite (act_line_parsed o n Ho Hn). cbn [nth_error].
  apply disk_exists_false in Hnot. rewrite Hnot. exact IH.
Qed.

(** X29. A second undo changes nothing.  In a directory that holds the log
    of a batch in reneAct and none of the batch's new names, as the
    first undo leaves it, [undo] renames nothing and ends without
    exception. *)
Theorem undo_second_time
  (clobber : Disk -> string -> string -> oserr + Disk)
  (d : Disk) (acts : list (string * string)) :
  act_is_file d ->
  Forall (fun a => old_in_line (fst a) /\ new_in_line (snd a)) acts ->
  Forall (fun a => ~ In (snd a) (names d) /\ snd a <> "reneAct") acts ->
  undo clobber (with_act d (act_log acts)) = Done (with_act d (act_log acts)).
Proof.
  intros Hfile Hl Hn. unfold undo.
  destruct (find_with_act d (act_log acts) Hfile) as (e & -> & -> & ->).
  rewrite readlines_log.
  - apply undo_loop_idle. rewrite Forall_forall in *.
    intros a Ha. destruct (Hl a Ha) as [H1 H2]. destruct (Hn a Ha) as [H3 H4].
    split; [exact H1|]. split; [exact H2|].
    intros Hin. apply names_with_act in Hin. tauto.
  - revert Hl. apply Forall_impl. intros a [[_ H1] [H2 _]]. auto.
Qed.

Lemma undo_second_time_witness :
  undo (fun _ _ _ => inl OSError)
    (with_act [mkEntry 1 "a.txt" false "alpha"; mkEntry 2 "b.txt" false "beta"]
       (act_log [("a.txt", "x.txt"); ("b.txt", "a.txt0")]))
  = Done (with_act [mkEntry 1 "a.txt" false "alpha";
                    mkEntry 2 "b.txt" false "beta"]
            (act_log [("a.txt", "x.txt"); ("b.txt", "a.txt0")])).
Proof.
  apply (undo_second_time (fun _ _ _ => inl OSError)
           [mkEntry 1 "a.txt" false "alpha"; mkEntry 2 "b.txt" false "beta"]
           [("a.txt", "x.txt"); ("b.txt", "a.txt0")] I).
  - repeat (constructor;
            [split; [split; [discriminate|reflexivity]
                    |split; [reflexivity
                            |eexists; split; reflexivity]]|]).
    constructor.
  - repeat (constructor; [split; [cbn; intuition discriminate|discriminate]|]).
    constructor.
Defined.

(** *** The fields of the collision option *)

Lemma render_items_cons (x : xitem) (xs : list xitem) :
  render_items (x :: xs) = render_item x ++ render_items xs.
Proof. reflexivity. Qed.

Lemma isdigit_not_flag (c : ascii) :
  isdigit c = true ->
  Ascii.eqb c "/" = false /\ Ascii.eqb c "S" = false
  /\ Ascii.eqb c "C" = false /\ Ascii.eqb c "M" = false.
Proof.
  intros H. repeat split;
    match goal with
    | |- Ascii.eqb c ?x = false =>
        destruct (Ascii.eqb_spec c x) as [E|]; [|reflexivity];
        rewrite E in H; discriminate H
    end.
Qed.

Lemma isalpha_not_slash (c : ascii) :
  isalpha c = true -> Ascii.eqb c "/" = false /\ isdigit c = false.
Proof.
  intros H. split.
  - destruct (Ascii.eqb_spec c "/"%char) as [E|]; [|reflexivity].
    rewrite E in H. discriminate H.
  - unfold isalpha, isupper, islower, isdigit in *.
    destruct (48 <=? ord c) eqn:A, (ord c <=? 57) eqn:B; try reflexivity.
    exfalso. apply Z.leb_le in A, B.
    apply orb_prop in H as [H|H]; apply andb_prop in H as [H1 H2];
      apply Z.leb_le in H1, H2; lia.
Qed.

Lemma head_not_digit (x : xitem) (xs : list xitem) :
  item_ok x = true ->
  match x with XNumber _ => False | _ => True end ->
  match render_items (x :: xs) with
  | String c _ => isdigit c = false
  | EmptyString => True
  end.
Proof.
  intros Hx Hn. rewrite render_items_cons.
  destruct x as [| | |t|ds|c|c]; cbn in *; try reflexivity.
  - contradiction.
  - apply andb_prop in Hx as [Hx _]. apply andb_prop in Hx as [Hx _].
    apply andb_prop in Hx as [Hx _]. now apply isalpha_not_slash in Hx.
  - apply andb_prop in Hx as [Hx _]. apply andb_prop in Hx as [_ Hx].
    now apply negb_true_iff in Hx.
Qed.

Lemma xopt_loop_eq (fuel : nat) (c : ascii) (r : string) (ca : CA) :
  xopt_loop (S fuel) (String c r) ca
  = if Ascii.eqb c "/" then
      let '(start, rest) := span (fun x => negb (Ascii.eqb x "/")) r in
      xopt_loop fuel (drop 1 rest)
        (mkCA (caStop ca) (caContinue ca) (caPun ca) (caPunPos ca)
           (caMerge ca) start)
    else if Ascii.eqb c "S" then
      xopt_loop fuel r
        (mkCA true (caContinue ca) (caPun ca) (caPunPos ca)
           (caMerge ca) (caStart ca))
    else if Ascii.eqb c "C" then
      xopt_loop fuel r
        (mkCA (caStop ca) true (caPun ca) (caPunPos ca)
           (caMerge ca) (caStart ca))
    else if Ascii.eqb c "M" then
      xopt_loop fuel r
        (mkCA (caStop ca) (caContinue ca) (caPun ca) (caPunPos ca)
           true (caStart ca))
    else if isdigit c then
      let '(start, rest) := span isdigit (String c r) in
      xopt_loop fuel rest
        (mkCA (caStop ca) (caContinue ca) (caPun ca) (caPunPos ca)
           (caMerge ca) start)
    else if isalpha c then
      xopt_loop fuel r
        (mkCA (caStop ca) (caContinue ca) (caPun ca) (caPunPos ca)
           (caMerge ca) (String c EmptyString))
    else xopt_loop fuel r ca.
Proof. reflexivity. Qed.

Lemma xopt_loop_items (xs : list xitem) :
  forall fuel ca,
    items_ok xs = true ->
    (String.length (render_items xs) <= fuel)%nat ->
    xopt_loop fuel (render_items xs) ca = Some (fold_left item_effect xs ca).
Proof.
  induction xs as [|x xs IH]; intros fuel ca Hok Hfuel.
  - destruct fuel; reflexivity.
  - cbn [items_ok] in Hok. apply andb_prop in Hok as [Hok Hadj].
    apply andb_prop in Hok as [Hx Hxs].
    rewrite render_items_cons in *. rewrite str_length_app in Hfuel.
    cbn [fold_left].
    destruct x as [| | |t|ds|c|c]; cbn [render_item append] in *.
    + destruct fuel as [|f]; [cbn in Hfuel; lia|]. rewrite xopt_loop_eq.
      cbn [Ascii.eqb Bool.eqb]. apply IH; [exact Hxs|cbn in Hfuel; lia].
    + destruct fuel as [|f]; [cbn in Hfuel; lia|]. rewrite xopt_loop_eq.
      cbn [Ascii.eqb Bool.eqb]. apply IH; [exact Hxs|cbn in Hfuel; lia].
    + destruct fuel as [|f]; [cbn in Hfuel; lia|]. rewrite xopt_loop_eq.
      cbn [Ascii.eqb Bool.eqb]. apply IH; [exact Hxs|cbn in Hfuel; lia].
    + destruct fuel as [|f]; [cbn in Hfuel; lia|]. rewrite xopt_loop_eq.
      cbn [Ascii.eqb Bool.eqb]. rewrite app_assoc_str. cbn [append].
      rewrite (span_app (fun x => negb (Ascii.eqb x "/")) t
                 (String "/" (render_items xs)) Hx eq_refl).
      cbn [drop]. apply IH; [exact Hxs|].
      cbn [String.length] in Hfuel. rewrite str_length_app in Hfuel.
      cbn [String.length] in Hfuel. lia.
    + apply andb_prop in Hx as [Hne Hds]. apply negb_true_iff in Hne.
      destruct ds as [|d ds']; [discriminate|].
      cbn [append String.length] in *.
      destruct fuel as [|f]; [lia|]. rewrite xopt_loop_eq.
      pose proof Hds as Hd. cbn [all_chars] in Hd.
      apply andb_prop in Hd as [Hd _].
      destruct (isdigit_not_flag d Hd) as (-> & -> & -> & ->). rewrite Hd.
      change (String d (ds' ++ render_items xs))
        with (String d ds' ++ render_items xs).
      rewrite (span_app isdigit (String d ds') (render_items xs) Hds).
      * apply IH; [exact Hxs|lia].
      * destruct xs as [|y ys]; [exact I|].
        cbn [items_ok] in Hxs. apply andb_prop in Hxs as [Hxs _].
        apply andb_prop in Hxs as [Hy _].
        apply (head_not_digit y ys Hy). now destruct y.
    + destruct fuel as [|f]; [cbn in Hfuel; lia|]. rewrite xopt_loop_eq.
      apply andb_prop in Hx as [Hx Hm]. apply andb_prop in Hx as [Hx Hc].
      apply andb_prop in Hx as [Ha Hs].
      apply negb_true_iff in Hm, Hc, Hs.
      destruct (isalpha_not_slash c Ha) as [-> ->]. rewrite Hs, Hc, Hm, Ha.
      apply IH; [exact Hxs|cbn in Hfuel; lia].
    + destruct fuel as [|f]; [cbn in Hfuel; lia|]. rewrite xopt_loop_eq.
      apply andb_prop in Hx as [Hx Ha]. apply andb_prop in Hx as [Hx Hd].
      apply andb_prop in Hx as [_ Hsl].
      apply negb_true_iff in Hsl, Hd, Ha. rewrite Hsl, Hd, Ha.
      destruct (Ascii.eqb c "S") eqn:ES;
        [apply Ascii.eqb_eq in ES; subst c; discriminate Ha|].
      destruct (Ascii.eqb c "C") eqn:EC;
        [apply Ascii.eqb_eq in EC; subst c; discriminate Ha|].
      destruct (Ascii.eqb c "M") eqn:EM;
        [apply Ascii.eqb_eq in EM; subst c; discriminate Ha|].
      apply IH; [exact Hxs|cbn in Hfuel; lia].
Qed.

Lemma pun_search_none (s : string) :
  all_chars (fun c => negb (is_pun c)) s = true -> pun_search s = None.
Proof.
  induction s as [|c s IH]; intros H.
  - reflexivity.
  - cbn [all_chars] in H. apply andb_prop in H as [Hc Hs].
    cbn [pun_search].
    destruct (span (fun x => Ascii.eqb x ",") (String c s)) as [commas r] eqn:E.
    destruct (span is_pun r) as [pun q] eqn:Ep.
    assert (Hr : all_chars (fun c0 => negb (is_pun c0)) r = true).
    { apply span_spec in E as (E & _ & _).
      assert (Hall : all_chars (fun c0 => negb (is_pun c0)) (String c s) = true)
        by (cbn [all_chars]; now rewrite Hc, Hs).
      rewrite E, all_chars_app in Hall. now apply andb_prop in Hall as [_ Hall]. }
    assert (Hpun : pun = "").
    { destruct r as [|d r']; cbn [span] in Ep; [now injection Ep as <- _|].
      cbn [all_chars] in Hr. apply andb_prop in Hr as [Hd _].
      apply negb_true_iff in Hd. rewrite Hd in Ep. now injection Ep as <- _. }
    rewrite Hpun. cbn [String.eqb negb]. now apply IH.
Qed.

(** X30. The collision option reads back what is typed.  For fields that
    are what they say, typed one after the other with no number directly
    after a number, the loop over the option ends for every argument,
    each flag typed outside a string is set, no other flag is touched,
    and the start string is the last string, number or letter typed,
    letters between slashes being no flags; when none of the punctuation
    characters is typed, the punctuation settings stay as they were. *)
Theorem xopt_reads_fields (xs : list xitem) (ca : CA) :
  items_ok xs = true ->
  exists ca',
    xopt ("-X" ++ render_items xs) ca = Some ca'
    /\ caStart ca' = caStart (fold_left item_effect xs ca)
    /\ caStop ca' = caStop (fold_left item_effect xs ca)
    /\ caContinue ca' = caContinue (fold_left item_effect xs ca)
    /\ caMerge ca' = caMerge (fold_left item_effect xs ca)
    /\ (all_chars (fun c => negb (is_pun c)) (render_items xs) = true ->
        ca' = fold_left item_effect xs ca).
Proof.
  intros Hok. unfold xopt.
  change (Some 2) with (Some (len "-X")).
  rewrite (slice_suffix "-X" (render_items xs)).
  rewrite (xopt_loop_items xs _ ca Hok)
    by (rewrite str_length_app; cbn; lia).
  destruct (pun_search (render_items xs)) as [[g0 g1]|] eqn:Ep.
  - eexists. split; [reflexivity|]. cbn [caStart caStop caContinue caMerge].
    repeat split. intros H. now rewrite (pun_search_none _ H) in Ep.
  - eexists. split; [reflexivity|]. repeat split.
Qed.

Lemma xopt_reads_fields_witness :
  exists ca',
    xopt "-XS/SCM v/12M" defaultCA = Some ca'
    /\ caStart ca' = "12"
    /\ caStop ca' = true
    /\ caContinue ca' = false
    /\ caMerge ca' = true
    /\ (all_chars (fun c => negb (is_pun c)) "S/SCM v/12M" = true ->
        ca' = mkCA true false "" 1 true "12").
Proof.
  apply (xopt_reads_fields [XStop; XString "SCM v"; XNumber "12"; XMerge]
           defaultCA).
  reflexivity.
Defined.

(** Two slashes with nothing between them give an empty start string. *)
Lemma xopt_empty_start :
  xopt "-X//" defaultCA = Some (mkCA false false "" 1 false "").
Proof. reflexivity. Qed.
